(** * DocuGraph document-to-graph pipeline: chunker, retry executor,
      statement corrector, ingestion engine and orchestrator.

    Shallow embedding of
      - src/utils/chunking.js          (chunkText),
      - src/utils/retry.js             (retryWithBackoff, isRetryableError),
      - src/utils/formatCypher.js      (generateConstraints, parseCypher,
                                        generateSequentialVariables,
                                        formatStructuredCypher),
      - src/services/neo4jIngest       (splitCypherStatements,
                                        separateSchemaAndWriteStatements,
                                        ingestChunkCypher, ingestAllChunks),
      - src/services/neo4jIngest       (createConstraints),
      - src/services/schemaExtraction  (the retry options of extractSchema,
                                        validateSchema),
      - src/services/orchestrator.js   (runPipeline),
      - src/utils/documentTypeDetector.js (detectDocumentType,
                                        getDocumentTypePrompts),
      - src/utils/logger.js            (sanitizeLog).

    JavaScript strings are modelled by [string]; every character stands for
    one code unit of the ASCII range, on which [\s], [\w], [toLowerCase] and
    [toUpperCase] are the functions below.  JavaScript numbers that the code
    uses as counters, indices and delays are modelled by [Z] or [nat]. *)

From Stdlib Require Import Bool List Arith ZArith Lia.
From Stdlib Require Import Ascii String.
From Stdlib Require Import DecimalString DecimalNat.
From Stdlib Require Floats.SpecFloat.
Import ListNotations.

Open Scope list_scope.
Open Scope string_scope.

(* ===================================================================== *)
(** * Part I: the program                                                 *)
(* ===================================================================== *)

(** ** JavaScript string primitives *)

Module Js.

Definition isUpper (c : ascii) : bool :=
  let n := nat_of_ascii c in (65 <=? n)%nat && (n <=? 90)%nat.

Definition isLower (c : ascii) : bool :=
  let n := nat_of_ascii c in (97 <=? n)%nat && (n <=? 122)%nat.

Definition isDigit (c : ascii) : bool :=
  let n := nat_of_ascii c in (48 <=? n)%nat && (n <=? 57)%nat.

(** [\w] *)
Definition isWord (c : ascii) : bool :=
  isUpper c || isLower c || isDigit c || Ascii.eqb c "_"%char.

(** [\s] on the ASCII range: tab, line feed, vertical tab, form feed,
    carriage return and space. *)
Definition isSpace (c : ascii) : bool :=
  let n := nat_of_ascii c in ((9 <=? n)%nat && (n <=? 13)%nat) || (n =? 32)%nat.

Definition lowerChar (c : ascii) : ascii :=
  if isUpper c then ascii_of_nat (nat_of_ascii c + 32) else c.

Definition upperChar (c : ascii) : ascii :=
  if isLower c then ascii_of_nat (nat_of_ascii c - 32) else c.

Fixpoint mapChars (f : ascii -> ascii) (s : string) : string :=
  match s with
  | EmptyString => EmptyString
  | String c t => String (f c) (mapChars f t)
  end.

Definition toLowerCase : string -> string := mapChars lowerChar.
Definition toUpperCase : string -> string := mapChars upperChar.

(** [s.startsWith(p)] *)
Fixpoint startsWith (p s : string) : bool :=
  match p with
  | EmptyString => true
  | String a p' =>
      match s with
      | EmptyString => false
      | String b s' => Ascii.eqb a b && startsWith p' s'
      end
  end.

(** [s.includes(p)] *)
Fixpoint includes (p s : string) : bool :=
  startsWith p s ||
  match s with
  | EmptyString => false
  | String _ t => includes p t
  end.

(** [s.replace(/p/g, r)] for a pattern [p] that is a non-empty literal: scan
    from the left; where [p] starts, emit [r] and jump over [p]; elsewhere copy
    one character.  [skip] counts the characters of a match still to jump. *)
Fixpoint replaceAllFrom (p r : string) (skip : nat) (s : string) : string :=
  match s with
  | EmptyString => EmptyString
  | String c t =>
      match skip with
      | S k => replaceAllFrom p r k t
      | O =>
          if startsWith p s
          then r ++ replaceAllFrom p r (String.length p - 1) t
          else String c (replaceAllFrom p r 0 t)
      end
  end.

Definition replaceAll (p r s : string) : string := replaceAllFrom p r 0 s.

Fixpoint dropWhile (f : ascii -> bool) (s : string) : string :=
  match s with
  | EmptyString => EmptyString
  | String c t => if f c then dropWhile f t else s
  end.

Fixpoint rev (s : string) : string :=
  match s with
  | EmptyString => EmptyString
  | String c t => rev t ++ String c EmptyString
  end.

(** [s.trim()] *)
Definition trim (s : string) : string :=
  rev (dropWhile isSpace (rev (dropWhile isSpace s))).

(** [s.charAt(0)]: the empty string when [s] is empty. *)
Definition charAt0 (s : string) : string :=
  match s with
  | EmptyString => EmptyString
  | String c _ => String c EmptyString
  end.

(** [s.slice(1)] *)
Definition slice1 (s : string) : string :=
  match s with
  | EmptyString => EmptyString
  | String _ t => t
  end.

(** [' '.repeat(n)] *)
Fixpoint spaces (n : nat) : string :=
  match n with
  | O => EmptyString
  | S k => String " "%char (spaces k)
  end.

(** [s.substring(0, n)] *)
Fixpoint take (n : nat) (s : string) : string :=
  match n, s with
  | S k, String c t => String c (take k t)
  | _, _ => EmptyString
  end.

(** [s.endsWith(p)] *)
Definition endsWith (p s : string) : bool := startsWith (rev p) (rev s).

(** [String(n)] for a counter. *)
Definition ofNat (n : nat) : string := NilEmpty.string_of_uint (Nat.to_uint n).

(** [xs.join(sep)] *)
Fixpoint join (sep : string) (xs : list string) : string :=
  match xs with
  | [] => EmptyString
  | [x] => x
  | x :: rest => x ++ sep ++ join sep rest
  end.

(** [s.split(/\s+/)]: the pieces between maximal runs of white space; a
    leading or trailing run leaves an empty first or last piece. *)
Fixpoint splitWsFrom (s cur : string) (prevWs : bool) : list string :=
  match s with
  | EmptyString => [cur]
  | String c t =>
      if isSpace c
      then if prevWs then splitWsFrom t cur true
           else cur :: splitWsFrom t EmptyString true
      else splitWsFrom t (cur ++ String c EmptyString) false
  end.

Definition splitWs (s : string) : list string := splitWsFrom s EmptyString false.

(** [xs.slice(start, end)] with JavaScript's treatment of negative and
    out-of-range indices. *)
Definition relIndex (len i : Z) : Z :=
  if (i <? 0)%Z then Z.max (len + i) 0 else Z.min i len.

Definition sliceList {A} (xs : list A) (start stop : Z) : list A :=
  let len := Z.of_nat (List.length xs) in
  let a := relIndex len start in
  let b := relIndex len stop in
  firstn (Z.to_nat (Z.max (b - a) 0)) (skipn (Z.to_nat a) xs).

(** A JavaScript [Map] with string keys: insertion order of the keys is kept,
    [set] on a present key replaces its value in place. *)
Definition Map (V : Type) := list (string * V).

Fixpoint mapGet {V} (k : string) (m : Map V) : option V :=
  match m with
  | [] => None
  | (k', v) :: rest => if String.eqb k k' then Some v else mapGet k rest
  end.

Fixpoint mapSet {V} (k : string) (v : V) (m : Map V) : Map V :=
  match m with
  | [] => [(k, v)]
  | (k', v') :: rest =>
      if String.eqb k k' then (k', v) :: rest else (k', v') :: mapSet k v rest
  end.

(** A JavaScript [Set] of strings. *)
Definition setHas (x : string) (s : list string) : bool :=
  existsb (String.eqb x) s.

Definition setAdd (x : string) (s : list string) : list string :=
  if setHas x s then s else (s ++ [x])%list.

(** A template literal prints an undefined value as the word undefined. *)
Definition tpl (v : option string) : string :=
  match v with
  | Some s => s
  | None => "undefined"
  end.

End Js.

(** ** Regular expressions

    The subset of ECMAScript patterns the corrector uses: literals, character
    classes, sequence, alternation, greedy [*] and [+] over a character class,
    capture groups and the [i] flag, with the backtracking order of the
    language (first alternative first, longest repetition first). *)

Module Regex.

Inductive regex : Type :=
| Eps
| Chr (c : ascii)
| Cls (f : ascii -> bool)
| Seq (r1 r2 : regex)
| Alt (r1 r2 : regex)
| Star (f : ascii -> bool)
| Plus (f : ascii -> bool)
| Group (i : nat) (r : regex).

Fixpoint lit (s : string) : regex :=
  match s with
  | EmptyString => Eps
  | String c t => Seq (Chr c) (lit t)
  end.

Definition captures := list (nat * string).

Fixpoint capture (i : nat) (cs : captures) : string :=
  match cs with
  | [] => EmptyString
  | (j, s) :: rest => if Nat.eqb i j then s else capture i rest
  end.

(** Greedy repetition of a class: take one more character first and give it
    back when the rest of the pattern fails. *)
Fixpoint star {A} (f : ascii -> bool) (s : string)
  (k : string -> option A) : option A :=
  match s with
  | String c t =>
      if f c
      then match star f t k with
           | Some x => Some x
           | None => k s
           end
      else k s
  | EmptyString => k s
  end.

Definition chrEq (ci : bool) (a b : ascii) : bool :=
  if ci then Ascii.eqb (Js.lowerChar a) (Js.lowerChar b) else Ascii.eqb a b.

(** [rmatch ci r s cs k]: match [r] at the start of [s], then continue with
    [k] on what is left; [None] when every alternative fails. *)
Fixpoint rmatch {A} (ci : bool) (r : regex) (s : string) (cs : captures)
  (k : string -> captures -> option A) : option A :=
  match r with
  | Eps => k s cs
  | Chr c =>
      match s with
      | String c' t => if chrEq ci c c' then k t cs else None
      | EmptyString => None
      end
  | Cls f =>
      match s with
      | String c' t => if f c' then k t cs else None
      | EmptyString => None
      end
  | Seq r1 r2 => rmatch ci r1 s cs (fun s' cs' => rmatch ci r2 s' cs' k)
  | Alt r1 r2 =>
      match rmatch ci r1 s cs k with
      | Some x => Some x
      | None => rmatch ci r2 s cs k
      end
  | Star f => star f s (fun s' => k s' cs)
  | Plus f =>
      match s with
      | String c' t => if f c' then star f t (fun s' => k s' cs) else None
      | EmptyString => None
      end
  | Group i r =>
      rmatch ci r s cs
        (fun s' cs' =>
           k s' ((i, Js.take (String.length s - String.length s') s) :: cs'))
  end.

(** One match anchored at the start of [s]: the captures and the rest. *)
Definition matchAt (ci : bool) (r : regex) (s : string)
  : option (captures * string) :=
  rmatch ci r s [] (fun rest cs => Some (cs, rest)).

(** [s.match(re)] without the [g] flag, and one [re.exec(s)] step: the
    leftmost match. *)
Fixpoint search (ci : bool) (r : regex) (s : string)
  : option (captures * string) :=
  match matchAt ci r s with
  | Some x => Some x
  | None =>
      match s with
      | String _ t => search ci r t
      | EmptyString => None
      end
  end.

(** [while ((m = re.exec(s)) !== null)] for a [g] pattern that never matches
    the empty string: each match resumes where the previous one ended, so
    [length s + 1] rounds exhaust the text. *)
Fixpoint execAllFuel (fuel : nat) (ci : bool) (r : regex) (s : string)
  : list captures :=
  match fuel with
  | O => []
  | S f =>
      match search ci r s with
      | None => []
      | Some (cs, rest) => cs :: execAllFuel f ci r rest
      end
  end.

Definition execAll (ci : bool) (r : regex) (s : string) : list captures :=
  execAllFuel (S (String.length s)) ci r s.

Definition notChar (c : ascii) : ascii -> bool := fun x => negb (Ascii.eqb x c).

End Regex.

(** ** TextChunker: src/utils/chunking.js *)

Module Chunking.

Record Chunk : Type := mkChunk {
  text : string;
  startIndex : Z;
  endIndex : Z;
  wordCount : Z;
  chunkIndex : Z
}.

Definition strlen (s : string) : Z := Z.of_nat (String.length s).

(** The body of [while (startIdx < words.length)], lines 36-59.  One unit of
    fuel is one iteration; [None] means the fuel ran out with the loop still
    running. *)
Fixpoint chunkLoop (fuel : nat) (words : list string)
  (chunkSizeWords overlapWords startIdx chunkIndex : Z) (chunks : list Chunk)
  : option (list Chunk) :=
  match fuel with
  | O => None
  | S fuel' =>
      let len := Z.of_nat (List.length words) in
      if (startIdx <? len)%Z then
        let endIdx := Z.min (startIdx + chunkSizeWords) len in
        let chunkWords := Js.sliceList words startIdx endIdx in
        let chunkText := Js.join " " chunkWords in
        let textBeforeChunk := Js.join " " (Js.sliceList words 0 startIdx) in
        let textStart :=
          (strlen textBeforeChunk
           + (if (strlen textBeforeChunk >? 0)%Z then 1 else 0))%Z in
        let textEnd := (textStart + strlen chunkText)%Z in
        let chunks' :=
          (chunks ++ [mkChunk chunkText textStart textEnd
                        (Z.of_nat (List.length chunkWords)) chunkIndex])%list in
        let startIdx' := (startIdx + (chunkSizeWords - overlapWords))%Z in
        if (startIdx' >=? len)%Z then Some chunks'
        else chunkLoop fuel' words chunkSizeWords overlapWords
               startIdx' (chunkIndex + 1)%Z chunks'
      else Some chunks
  end.

(** [chunkText(text, chunkSizeWords, overlapWords)], lines 15-62. *)
Definition chunkText (fuel : nat) (text : string)
  (chunkSizeWords overlapWords : Z) : option (list Chunk) :=
  if (String.length (Js.trim text) =? 0)%nat then Some []
  else
    let words := Js.splitWs text in
    if (Z.of_nat (List.length words) <=? chunkSizeWords)%Z then
      Some [mkChunk text 0 (strlen text) (Z.of_nat (List.length words)) 0]
    else chunkLoop fuel words chunkSizeWords overlapWords 0 0 [].

End Chunking.

(** ** Values thrown and returned *)

Module Exn.

(** A JavaScript [Error] as the code reads it: [message], [code], [status]. *)
Record JsError : Type := mkError {
  message : option string;
  code : option string;
  status : option Z
}.

Definition errorOf (msg : string) : JsError := mkError (Some msg) None None.

(** The end of an asynchronous call: a value, or a thrown value.  [Throw None]
    is [throw undefined]. *)
Inductive Outcome (R : Type) : Type :=
| Return (r : R)
| Throw (e : option JsError).

Arguments Return {R} r.
Arguments Throw {R} e.

End Exn.

(** ** RetryExecutor: src/utils/retry.js *)

Module Retry.
Import Exn.

(** The options object.  [None] is an absent key.  [isRetryable] is not a key
    that [retryWithBackoff] destructures; it is the key under which
    [extractSchema] passes its classifier. *)
Record Options : Type := mkOptions {
  maxRetries : option Z;
  initialDelay : option Z;
  maxDelay : option Z;
  backoffMultiplier : option Z;
  shouldRetry : option (JsError -> bool);
  context : option string;
  isRetryable : option (JsError -> bool)
}.

Definition noOptions : Options :=
  mkOptions None None None None None None None.

Definition orDefault {A} (o : option A) (d : A) : A :=
  match o with
  | Some a => a
  | None => d
  end.

(** What one run did: how it ended, the state of the world afterwards, how
    many times [fn] was called and which delays were slept. *)
Record Run (W R : Type) : Type := mkRun {
  outcome : Outcome R;
  world : W;
  calls : nat;
  sleeps : list Z
}.

Arguments mkRun {W R} _ _ _ _.
Arguments outcome {W R} _.
Arguments world {W R} _.
Arguments calls {W R} _.
Arguments sleeps {W R} _.

Section WithOperation.

Context {W R : Type}.

(** The operation: one call either returns or throws, and changes the world. *)
Variable fn : W -> (R + JsError) * W.

(** [for (let attempt = 0; attempt <= maxRetries; attempt++)], lines 32-82,
    followed by [throw lastError], line 84.  [rounds] is the number of values
    [attempt] can still take, [maxRetries + 1 - attempt]. *)
Fixpoint retryLoop (rounds : nat) (maxRetries_ maxDelay_ multiplier : Z)
  (shouldRetry_ : JsError -> bool) (attempt delay : Z)
  (lastError : option JsError) (w : W) (calls_ : nat) (sleeps_ : list Z)
  : Run W R :=
  match rounds with
  | O => mkRun (Throw lastError) w calls_ sleeps_
  | S rounds' =>
      match fn w with
      | (inl result, w') => mkRun (Return result) w' (S calls_) sleeps_
      | (inr error, w') =>
          if negb (shouldRetry_ error)
          then mkRun (Throw (Some error)) w' (S calls_) sleeps_
          else if (attempt >=? maxRetries_)%Z
          then mkRun (Throw (Some error)) w' (S calls_) sleeps_
          else retryLoop rounds' maxRetries_ maxDelay_ multiplier shouldRetry_
                 (attempt + 1)%Z (Z.min (delay * multiplier) maxDelay_)
                 (Some error) w' (S calls_) (sleeps_ ++ [delay])%list
      end
  end.

(** [retryWithBackoff(fn, options)], lines 19-85. *)
Definition retryWithBackoff (options : Options) (w : W) : Run W R :=
  let maxRetries_ := orDefault (maxRetries options) 3%Z in
  let initialDelay_ := orDefault (initialDelay options) 1000%Z in
  let maxDelay_ := orDefault (maxDelay options) 30000%Z in
  let multiplier := orDefault (backoffMultiplier options) 2%Z in
  let shouldRetry_ := orDefault (shouldRetry options) (fun _ => true) in
  retryLoop (Z.to_nat (maxRetries_ + 1)) maxRetries_ maxDelay_ multiplier
    shouldRetry_ 0%Z initialDelay_ None w 0 [].

End WithOperation.

Definition lowerOrEmpty (o : option string) : string :=
  match o with
  | Some s => Js.toLowerCase s
  | None => EmptyString
  end.

Definition statusIn (lo hi : Z) (o : option Z) : bool :=
  match o with
  | Some n => (lo <=? n)%Z && (n <? hi)%Z
  | None => false
  end.

(** [isRetryableError(error)], lines 92-133, for an error object. *)
Definition isRetryableError (error : JsError) : bool :=
  let errorMessage := lowerOrEmpty (message error) in
  let errorCode := lowerOrEmpty (code error) in
  if String.eqb errorCode "econnrefused" || String.eqb errorCode "etimedout"
     || String.eqb errorCode "enotfound" || String.eqb errorCode "econnreset"
  then true
  else if Js.includes "timeout" errorMessage
          || Js.includes "timed out" errorMessage
  then true
  else if statusIn 500 600 (status error) then true
  else if statusIn 429 430 (status error) then true
  else if Js.includes "transaction" errorMessage
          && (Js.includes "rollback" errorMessage
              || Js.includes "timeout" errorMessage)
  then true
  else if Js.includes "validation" errorMessage
          || Js.includes "syntax" errorMessage
          || Js.includes "invalid" errorMessage
  then false
  else false.

End Retry.

(** ** Schema extraction: the retry options of [extractSchema] *)

Module SchemaExtraction.
Import Exn.

(** The options literal of the call at lines 265-270 of
    src/services/schemaExtraction: [maxRetries: 3, initialDelay: 1000,
    maxDelay: 10000, isRetryable: isRetryableError]. *)
Definition extractSchemaOptions (classifier : JsError -> bool) : Retry.Options :=
  Retry.mkOptions (Some 3%Z) (Some 1000%Z) (Some 10000%Z) None None None
    (Some classifier).

(** The retried part of [extractSchema]: [retryWithBackoff(extractSchemaWithRetry,
    options)] with [isRetryableError] as the classifier. *)
Definition extractSchemaRetry {W R} (extractSchemaWithRetry : W -> (R + JsError) * W)
  (w : W) : Retry.Run W R :=
  Retry.retryWithBackoff extractSchemaWithRetry
    (extractSchemaOptions Retry.isRetryableError) w.

End SchemaExtraction.

(** ** StatementCorrector: src/utils/formatCypher.js *)

Module FormatCypher.
Import Regex.

(** The double quote and the line feed, as one-character strings. *)
Definition dq : string := String (ascii_of_nat 34) EmptyString.
Definition nl : string := String (ascii_of_nat 10) EmptyString.

Definition quoteChar (c : ascii) : bool :=
  Ascii.eqb c (ascii_of_nat 34) || Ascii.eqb c "'"%char.

(** [a || b] on strings: the empty string and undefined are falsy. *)
Definition orElse (o : option string) (d : string) : string :=
  match o with
  | Some EmptyString => d
  | Some s => s
  | None => d
  end.

Definition seqs (rs : list regex) : regex := fold_right Seq Eps rs.

(** [schema.nodes]: the entries of the object in enumeration order, each label
    with its property array; a value that is not an array is [None].  A missing
    schema, and a [nodes] that is missing or not an object, are [nodes = None].
    Labels are identifiers and properties are strings, as [validateSchema] and
    the extraction prompt provide them. *)
Record Schema : Type := mkSchema {
  nodes : option (list (string * option (list string)))
}.

Record Constraint : Type := mkConstraint {
  c_label : string;
  c_property : string;
  c_varName : string
}.

(** [new RegExp(`^${labelLower}id$|^${labelLower}_id$`, 'i').test(s)] for a
    label made of word characters. *)
Definition trueIdPatternTest (labelLower s : string) : bool :=
  String.eqb (Js.toLowerCase s) (Js.toLowerCase (labelLower ++ "id"))
  || String.eqb (Js.toLowerCase s) (Js.toLowerCase (labelLower ++ "_id")).

(** [/^(id|_id|uuid)$/.test(s)], and with the [i] flag when [ci]. *)
Definition genericIdTest (ci : bool) (s : string) : bool :=
  let s' := if ci then Js.toLowerCase s else s in
  String.eqb s' "id" || String.eqb s' "_id" || String.eqb s' "uuid".

(** The variable of a constraint: lines 129-156 and 230-241. *)
Definition constraintVarName (label : string) : string :=
  if String.eqb label "Accounting" then "acc2"
  else if String.eqb label "Address" then "addr"
  else if String.eqb label "Reference" then "ref"
  else if String.eqb label "Investment" then "inv"
  else if String.eqb label "Position" then "pos"
  else if String.eqb label "Holding" then "h"
  else if String.eqb label "Risk" then "r"
  else if String.eqb label "Security" then "s"
  else if String.eqb label "Trade" then "t"
  else if String.eqb label "Account" then "a"
  else if String.eqb label "Party" then "p"
  else Js.charAt0 (Js.toLowerCase label).

(** [idProp.charAt(0).toLowerCase() + idProp.slice(1)] *)
Definition normalizeProp (idProp : string) : string :=
  Js.toLowerCase (Js.charAt0 idProp) ++ Js.slice1 idProp.

Definition constraintsHeader : string :=
  "/* --- 1) Add uniqueness constraints (run once) --- */" ++ nl ++ nl.

Definition constraintLine (c : Constraint) : string :=
  "CREATE CONSTRAINT IF NOT EXISTS FOR (" ++ c_varName c ++ ":" ++ c_label c
  ++ ")" ++ Js.spaces (30 - String.length (c_varName c))
  ++ "REQUIRE " ++ c_varName c ++ "." ++ c_property c ++ " IS UNIQUE;" ++ nl.

Definition constraintLines (cs : list Constraint) : string :=
  fold_left (fun acc c => acc ++ constraintLine c) cs EmptyString.

(** The constraints one schema entry contributes: lines 100-169. *)
Definition entryConstraints (entry : string * option (list string))
  : list Constraint :=
  let (label, propsValue) := entry in
  match propsValue with
  | None => []
  | Some [] => []
  | Some props =>
      let labelLower := Js.toLowerCase label in
      let trueIdProps :=
        filter (fun p => trueIdPatternTest labelLower (Js.toLowerCase p)) props in
      let idProps :=
        match trueIdProps with
        | _ :: _ => trueIdProps
        | [] => filter (fun p => genericIdTest false (Js.toLowerCase p)) props
        end in
      map (fun idProp =>
             mkConstraint label (normalizeProp idProp) (constraintVarName label))
          idProps
  end.

(** [generateConstraints(schema)], lines 87-191. *)
Definition generateConstraints (schema : Schema) : string :=
  match nodes schema with
  | None =>
      constraintsHeader ++ "-- No constraints: Invalid schema structure"
      ++ nl ++ nl
  | Some entries =>
      let constraints := flat_map entryConstraints entries in
      match constraints with
      | [] =>
          constraintsHeader ++ "-- No constraints generated from schema." ++ nl
          ++ "-- Constraints will be inferred from generated Cypher nodes."
          ++ nl ++ nl
      | _ :: _ => constraintsHeader ++ constraintLines constraints
      end
  end.

Record Node : Type := mkNode {
  originalVar : string;
  label : string;
  props : string;
  idProp : string;
  idValue : string;
  key : string
}.

Record Rel : Type := mkRel {
  from : string;
  type : string;
  to : string
}.

(** The labels of [nodes] in the order of their first node, each with the
    [idProp] of that first node: the [nodesByLabel] map and the first element
    of each [idProps] set, lines 203-223. *)
Fixpoint firstIdPropByLabel (ns : list Node) (seen : Js.Map string)
  : Js.Map string :=
  match ns with
  | [] => seen
  | n :: rest =>
      match Js.mapGet (label n) seen with
      | Some _ => firstIdPropByLabel rest seen
      | None => firstIdPropByLabel rest (seen ++ [(label n, idProp n)])%list
      end
  end.

(** [generateConstraintsFromNodes(nodes)], lines 198-270. *)
Definition generateConstraintsFromNodes (ns : list Node) : string :=
  let constraints :=
    flat_map
      (fun e : string * string =>
         let (lbl, idp) := e in
         if trueIdPatternTest (Js.toLowerCase lbl) (Js.toLowerCase idp)
            || genericIdTest true idp
         then [mkConstraint lbl (normalizeProp idp) (constraintVarName lbl)]
         else [])
      (firstIdPropByLabel ns []) in
  match constraints with
  | [] =>
      constraintsHeader
      ++ "-- No constraints generated (no ID properties found in nodes)." ++ nl
      ++ "-- You may need to manually add constraints based on your data model."
      ++ nl ++ nl
  | _ :: _ => constraintsHeader ++ constraintLines constraints
  end.

(** [/MERGE\s*\((\w+):(\w+)\s*\{([^}]+)\}\)/g] *)
Definition nodePattern : regex :=
  seqs [lit "MERGE"; Star Js.isSpace; Chr "("; Group 1 (Plus Js.isWord);
        Chr ":"; Group 2 (Plus Js.isWord); Star Js.isSpace; Chr "{";
        Group 3 (Plus (notChar "}")); Chr "}"; Chr ")"].

(** [(\w+Id|id|_id|uuid):\s*Q([^Q]+)Q], where Q stands for the class of the
    double and the single quote: the body shared by the identifier pattern of
    [parseCypher] and the inline-node pattern. *)
Definition idBody : regex :=
  seqs [Group 1 (Alt (Seq (Plus Js.isWord) (lit "Id"))
                  (Alt (lit "id") (Alt (lit "_id") (lit "uuid"))));
        Chr ":"; Star Js.isSpace; Cls quoteChar;
        Group 2 (Plus (fun c => negb (quoteChar c))); Cls quoteChar].

(** [/(\w+Id|id|_id|uuid):\s*Q([^Q]+)Q/i], line 292. *)
Definition idPattern : regex := idBody.

(** [/\{(\w+Id|id|_id|uuid):\s*Q([^Q]+)Q\}/i], line 577. *)
Definition inlineNodePattern : regex := seqs [Chr "{"; idBody; Chr "}"].

(** [/MERGE\s*\(([^)]+)\)-\[:([^\]]+)\](?:-&gt;|->)\(([^)]+)\)/g] *)
Definition relPattern : regex :=
  seqs [lit "MERGE"; Star Js.isSpace; Chr "("; Group 1 (Plus (notChar ")"));
        Chr ")"; lit "-[:"; Group 2 (Plus (notChar "]")); Chr "]";
        Alt (lit "-&gt;") (lit "->"); Chr "(";
        Group 3 (Plus (notChar ")")); Chr ")"].

(** One match of [nodePattern] becomes a node when its properties hold an
    identifier: lines 287-308. *)
Definition nodeOfMatch (cs : captures) : list Node :=
  let varName := capture 1 cs in
  let lbl := capture 2 cs in
  let prps := capture 3 cs in
  match search true idPattern prps with
  | Some (ics, _) =>
      let idp := capture 1 ics in
      let idv := capture 2 ics in
      [mkNode varName lbl prps idp idv (lbl ++ ":" ++ idv)]
  | None => []
  end.

(** Lines 317-328. *)
Definition relOfMatch (cs : captures) : Rel :=
  let relType :=
    Js.replaceAll "&lt;" "<"
      (Js.replaceAll "&gt;" ">" (Js.replaceAll "-&gt;" "->" (capture 2 cs))) in
  mkRel (Js.trim (capture 1 cs)) relType (Js.trim (capture 3 cs)).

(** [parseCypher(cypher)], lines 277-332: the nodes and the relationships. *)
Definition parseCypher (cypher : string) : list Node * list Rel :=
  (flat_map nodeOfMatch (execAll false nodePattern cypher),
   map relOfMatch (execAll false relPattern cypher)).

(** The prefix of a sequential variable: lines 355-380. *)
Definition sequentialVarPrefix (lbl : string) : string :=
  if String.eqb lbl "Accounting" then "acc2"
  else if String.eqb lbl "Address" then "addr"
  else if String.eqb lbl "Reference" then "ref"
  else if String.eqb lbl "Investment" then "inv"
  else if String.eqb lbl "Position" then "pos"
  else if String.eqb lbl "Holding" then "h"
  else if String.eqb lbl "Risk" then "r"
  else if String.eqb lbl "Security" then "s"
  else if String.eqb lbl "Trade" then "t"
  else if String.eqb lbl "Account" then "account"
  else if String.eqb lbl "Party" then "party"
  else Js.charAt0 (Js.toLowerCase lbl).

(** The loop of lines 353-386. *)
Fixpoint assignVariables (ns : list Node) (counter : nat)
  (varMap : Js.Map string) : Js.Map string :=
  match ns with
  | [] => varMap
  | n :: rest =>
      let newVarName := sequentialVarPrefix (label n) ++ Js.ofNat counter in
      assignVariables rest (S counter)
        (Js.mapSet (key n) newVarName
           (Js.mapSet (originalVar n) newVarName varMap))
  end.

(** [generateSequentialVariables(nodes)], lines 339-389. *)
Definition generateSequentialVariables (ns : list Node) : Js.Map string :=
  assignVariables ns 1 [].

(** The four replacements of lines 401-404, 647-650 and 658-661. *)
Definition fixHtmlEntities (s : string) : string :=
  Js.replaceAll "&lt;" "<"
    (Js.replaceAll "&gt;" ">"
       (Js.replaceAll "-&lt;" "<-" (Js.replaceAll "-&gt;" "->" s))).

(** The nodes section, lines 426-442: one line per node key, in the order of
    the nodes. *)
Definition nodesHeader : string :=
  nl ++ "/* --- 2) Create nodes with unique variable names --- */" ++ nl ++ nl.

Definition nodeLine (newVarName : string) (n : Node) : string :=
  "MERGE (" ++ newVarName ++ ":" ++ label n
  ++ Js.spaces (20 - String.length newVarName)
  ++ "{" ++ idProp n ++ ": " ++ dq ++ idValue n ++ dq ++ "})" ++ nl.

Fixpoint nodesLoop (ns : list Node) (varMap : Js.Map string)
  (nodesSection : string) (nodeCounter : nat) (nodeVarMap : Js.Map string)
  : string * nat :=
  match ns with
  | [] => (nodesSection, nodeCounter)
  | n :: rest =>
      let newVarName :=
        orElse (Js.mapGet (originalVar n) varMap)
          (Js.charAt0 (Js.toLowerCase (label n)) ++ Js.ofNat nodeCounter) in
      match Js.mapGet (key n) nodeVarMap with
      | None =>
          nodesLoop rest varMap (nodesSection ++ nodeLine newVarName n)
            (S nodeCounter) (Js.mapSet (key n) newVarName nodeVarMap)
      | Some _ => nodesLoop rest varMap nodesSection nodeCounter nodeVarMap
      end
  end.

(** [varToNodeMap], lines 448-452. *)
Fixpoint buildVarToNodeMap (ns : list Node) (m : Js.Map Node) : Js.Map Node :=
  match ns with
  | [] => m
  | n :: rest =>
      buildVarToNodeMap rest (Js.mapSet (key n) n (Js.mapSet (originalVar n) n m))
  end.

(** [varToLabelMap], lines 505-511. *)
Fixpoint buildVarToLabelMap (ns : list Node) (varMap : Js.Map string)
  (m : Js.Map string) : Js.Map string :=
  match ns with
  | [] => m
  | n :: rest =>
      match Js.mapGet (originalVar n) varMap with
      | Some mappedVar =>
          if String.eqb mappedVar EmptyString
          then buildVarToLabelMap rest varMap m
          else buildVarToLabelMap rest varMap (Js.mapSet mappedVar (label n) m)
      | None => buildVarToLabelMap rest varMap m
      end
  end.

(** The search of lines 477-482 and 491-496: the first node whose original
    variable is, or occurs in, the endpoint text. *)
Fixpoint resolveByScan (ns : list Node) (varMap : Js.Map string) (v : string)
  : string :=
  match ns with
  | [] => v
  | n :: rest =>
      if String.eqb (originalVar n) v || Js.includes (originalVar n) v
      then orElse (Js.mapGet (originalVar n) varMap) v
      else resolveByScan rest varMap v
  end.

(** Lines 468-497 for one endpoint. *)
Definition resolveVar (ns : list Node) (varMap : Js.Map string)
  (varToNodeMap : Js.Map Node) (v0 : string) : string :=
  let v := Js.trim v0 in
  match Js.mapGet v varToNodeMap with
  | Some n => orElse (Js.mapGet (originalVar n) varMap) v
  | None => resolveByScan ns varMap v
  end.

Definition labelIs (o : option string) (lbl : string) : bool :=
  match o with
  | Some l => String.eqb l lbl
  | None => false
  end.

(** The direction and type rules of lines 500-551: the final source, type and
    target of a relationship whose mapped endpoints are [fromVar] and [toVar]
    with labels [fromNodeLabel] and [toNodeLabel]. *)
Definition canonicalize (relType fromVar toVar : string)
  (fromNodeLabel toNodeLabel : option string) : string * string * string :=
  let '(f1, t1) :=
    if String.eqb relType "HAS_ACCOUNT" && labelIs fromNodeLabel "Account"
       && labelIs toNodeLabel "Party"
    then (toVar, fromVar) else (fromVar, toVar) in
  let '(f2, t2) :=
    if String.eqb relType "EXECUTED_TRADE" && labelIs fromNodeLabel "Trade"
       && labelIs toNodeLabel "Account"
    then (toVar, fromVar) else (f1, t1) in
  let held :=
    String.eqb relType "HELD_IN_POSITION" || String.eqb relType "HELD_IN_HOLDING" in
  let '(f3, ty3, t3) :=
    if held && labelIs fromNodeLabel "Security"
    then (toVar, "IN_SECURITY", fromVar)
    else if held && labelIs toNodeLabel "Security"
    then (f2, "IN_SECURITY", t2)
    else (f2, relType, t2) in
  let ty4 := if String.eqb relType "MADE_INVESTMENT" then "HAS_INVESTMENT" else ty3 in
  (f3, ty4, t3).

Definition relsHeader : string :=
  "/* --- 3) Now MERGE relationships (use variables from above) --- */"
  ++ nl ++ nl.

Definition relKeyOf (f ty t : string) : string := f ++ "-[:" ++ ty ++ "]->" ++ t.

Definition relLine (f ty t : string) : string :=
  "MERGE (" ++ f ++ ")-[:" ++ ty ++ "]->(" ++ t ++ ");" ++ nl ++ nl.

(** [idProp.charAt(0).toUpperCase() + idProp.slice(1).replace(/Id$/, '')] *)
Definition inferLabel (idp : string) : string :=
  let tail := Js.slice1 idp in
  Js.toUpperCase (Js.charAt0 idp)
  ++ (if Js.endsWith "Id" tail
      then Js.take (String.length tail - 2) tail else tail).

(** The state the relationship loop threads. *)
Record RelState : Type := mkRelState {
  relationshipsSection : string;
  relationshipSet : list string;
  investmentSecurityLinks : list string;
  tradeAccountLinks : list string;
  tradeSecurityLinks : list string;
  nodeCounter : nat
}.

(** One iteration of [for (const rel of relationships)], lines 466-595. *)
Definition relStep (ns : list Node) (varMap : Js.Map string) (st : RelState)
  (rel : Rel) : RelState :=
  let varToNodeMap := buildVarToNodeMap ns [] in
  let fromVar := resolveVar ns varMap varToNodeMap (from rel) in
  let toVar := resolveVar ns varMap varToNodeMap (to rel) in
  let varToLabelMap := buildVarToLabelMap ns varMap [] in
  let fromNodeLabel := Js.mapGet fromVar varToLabelMap in
  let toNodeLabel := Js.mapGet toVar varToLabelMap in
  let '(finalFromVar, finalRelType, finalToVar) :=
    canonicalize (type rel) fromVar toVar fromNodeLabel toNodeLabel in
  let isl :=
    if String.eqb (type rel) "IN_SECURITY" && labelIs fromNodeLabel "Investment"
       && labelIs toNodeLabel "Security"
    then Js.setAdd fromVar (investmentSecurityLinks st)
    else investmentSecurityLinks st in
  let tal :=
    if String.eqb (type rel) "EXECUTED_TRADE" && labelIs fromNodeLabel "Account"
       && labelIs toNodeLabel "Trade"
    then Js.setAdd finalToVar (tradeAccountLinks st)
    else tradeAccountLinks st in
  let tsl :=
    if String.eqb (type rel) "ON_SECURITY" && labelIs fromNodeLabel "Trade"
       && labelIs toNodeLabel "Security"
    then Js.setAdd finalFromVar (tradeSecurityLinks st)
    else tradeSecurityLinks st in
  let relKey := relKeyOf finalFromVar finalRelType finalToVar in
  if Js.setHas relKey (relationshipSet st)
  then mkRelState (relationshipsSection st) (relationshipSet st) isl tal tsl
         (nodeCounter st)
  else
    let rset := Js.setAdd relKey (relationshipSet st) in
    match search true inlineNodePattern finalToVar with
    | Some (ics, _) =>
        let idp := capture 1 ics in
        let idv := capture 2 ics in
        let inferredLabel := inferLabel idp in
        let newVarName :=
          Js.charAt0 (Js.toLowerCase inferredLabel) ++ Js.ofNat (nodeCounter st) in
        mkRelState
          (relationshipsSection st
           ++ "MERGE (" ++ newVarName ++ ":" ++ inferredLabel ++ " {" ++ idp
           ++ ": " ++ dq ++ idv ++ dq ++ "})" ++ nl
           ++ "MERGE (" ++ finalFromVar ++ ")-[:" ++ finalRelType ++ "]->("
           ++ newVarName ++ ");" ++ nl ++ nl)
          rset isl tal tsl (S (nodeCounter st))
    | None =>
        mkRelState
          (relationshipsSection st ++ relLine finalFromVar finalRelType finalToVar)
          rset isl tal tsl (nodeCounter st)
    end.

Definition hasOpt (v : option string) (s : list string) : bool :=
  match v with
  | Some x => Js.setHas x s
  | None => false
  end.

(** A synthesized link, added unless its key is already present: lines
    604-609, 622-627 and 633-638. *)
Definition addLink (f : option string) (ty : string) (t : option string)
  (st : RelState) : RelState :=
  let relKey := relKeyOf (Js.tpl f) ty (Js.tpl t) in
  if Js.setHas relKey (relationshipSet st) then st
  else mkRelState
         (relationshipsSection st ++ relLine (Js.tpl f) ty (Js.tpl t))
         (Js.setAdd relKey (relationshipSet st))
         (investmentSecurityLinks st) (tradeAccountLinks st)
         (tradeSecurityLinks st) (nodeCounter st).

Definition firstVar (ns : list Node) (varMap : Js.Map string) : option string :=
  match ns with
  | n :: _ => Js.mapGet (originalVar n) varMap
  | [] => None
  end.

(** Lines 598-612. *)
Definition completeInvestments (varMap : Js.Map string)
  (investmentNodes securityNodes : list Node) (st : RelState) : RelState :=
  match investmentNodes, securityNodes with
  | _ :: _, _ :: _ =>
      fold_left
        (fun st' invNode =>
           let invVar := Js.mapGet (originalVar invNode) varMap in
           if hasOpt invVar (investmentSecurityLinks st') then st'
           else addLink invVar "IN_SECURITY" (firstVar securityNodes varMap) st')
        investmentNodes st
  | _, _ => st
  end.

(** Lines 615-641. *)
Definition completeTrades (varMap : Js.Map string)
  (tradeNodes accountNodes securityNodes : list Node) (st : RelState)
  : RelState :=
  fold_left
    (fun st' tradeNode =>
       let tradeVar := Js.mapGet (originalVar tradeNode) varMap in
       let st1 :=
         match accountNodes with
         | _ :: _ =>
             if hasOpt tradeVar (tradeAccountLinks st') then st'
             else addLink (firstVar accountNodes varMap) "EXECUTED_TRADE"
                    tradeVar st'
         | [] => st'
         end in
       match securityNodes with
       | _ :: _ =>
           if hasOpt tradeVar (tradeSecurityLinks st1) then st1
           else addLink tradeVar "ON_SECURITY" (firstVar securityNodes varMap) st1
       | [] => st1
       end)
    tradeNodes st.

Definition withLabel (lbl : string) (ns : list Node) : list Node :=
  filter (fun n => String.eqb (label n) lbl) ns.

(** The three sections before the final cleanup: lines 414-644. *)
Definition renderSections (ns : list Node) (rels : list Rel) (schema : Schema)
  : string :=
  let fromSchema := generateConstraints schema in
  let constraintsSection :=
    if Js.includes "No constraints generated" fromSchema
    then generateConstraintsFromNodes ns else fromSchema in
  let varMap := generateSequentialVariables ns in
  let '(nodesBody, nodeCounter1) := nodesLoop ns varMap nodesHeader 1 [] in
  let nodesSection := nodesBody ++ ";" ++ nl ++ nl in
  let st0 := mkRelState relsHeader [] [] [] [] nodeCounter1 in
  let st1 := fold_left (relStep ns varMap) rels st0 in
  let st2 :=
    completeInvestments varMap (withLabel "Investment" ns)
      (withLabel "Security" ns) st1 in
  let st3 :=
    completeTrades varMap (withLabel "Trade" ns) (withLabel "Account" ns)
      (withLabel "Security" ns) st2 in
  constraintsSection ++ nodesSection ++ relationshipsSection st3.

(** [formatStructuredCypher(rawCypher, schema)], lines 397-664.  On a string
    and a schema as above no statement of the [try] block throws, so the
    [catch] block of lines 654-663, which returns [fixHtmlEntities rawCypher],
    is not entered. *)
Definition formatStructuredCypher (rawCypher : string) (schema : Schema)
  : string :=
  let cleanedCypher := fixHtmlEntities rawCypher in
  let '(ns, relationships) := parseCypher cleanedCypher in
  match ns with
  | [] => rawCypher
  | _ :: _ => fixHtmlEntities (renderSections ns relationships schema)
  end.

(** The value of the [catch] block, lines 657-662. *)
Definition formatFallback (rawCypher : string) : string :=
  fixHtmlEntities rawCypher.

End FormatCypher.

(** ** The stores: MongoDB records and the Neo4j graph *)

Module Store.
Import Exn.

(** A [Document] record: the fields the pipeline writes. *)
Record Document : Type := mkDocument {
  d_status : string;
  d_error : option string;
  d_processedChunks : Z
}.

(** A [DocumentChunk] record. *)
Record ChunkDoc : Type := mkChunkDoc {
  ch_status : string;
  ch_error : option string
}.

(** A [ChunkCypherResult] record. *)
Record CypherResult : Type := mkResult {
  r_status : string;
  r_error : option string;
  generatedCypher : string;
  r_nodesCreated : Z;
  r_relationshipsCreated : Z
}.

(** What the graph store was asked to do, in order. *)
Inductive Event : Type :=
| EvExplain (statement : string)
| EvSchemaRun (statement : string)
| EvBegin
| EvRun (statement : string)
| EvCommit
| EvRollback.

(** One document of the stores: its record, its full-document result (the
    [ChunkCypherResult] with [chunkId: null]), its chunks in [chunkIndex]
    order with their results, the write statements committed to the graph and
    the log of graph-store calls. *)
Record World : Type := mkWorld {
  document : option Document;
  fullResult : option CypherResult;
  chunks : list (nat * ChunkDoc);
  chunkResults : list (nat * CypherResult);
  graph : list string;
  events : list Event
}.

Definition setDocument (d : option Document) (w : World) : World :=
  mkWorld d (fullResult w) (chunks w) (chunkResults w) (graph w) (events w).

Definition setFullResult (r : option CypherResult) (w : World) : World :=
  mkWorld (document w) r (chunks w) (chunkResults w) (graph w) (events w).

Definition setChunks (cs : list (nat * ChunkDoc)) (w : World) : World :=
  mkWorld (document w) (fullResult w) cs (chunkResults w) (graph w) (events w).

Definition setChunkResults (rs : list (nat * CypherResult)) (w : World) : World :=
  mkWorld (document w) (fullResult w) (chunks w) rs (graph w) (events w).

Definition setGraph (g : list string) (w : World) : World :=
  mkWorld (document w) (fullResult w) (chunks w) (chunkResults w) g (events w).

Definition logEvent (e : Event) (w : World) : World :=
  mkWorld (document w) (fullResult w) (chunks w) (chunkResults w) (graph w)
    (events w ++ [e])%list.

Fixpoint lookup {V} (k : nat) (m : list (nat * V)) : option V :=
  match m with
  | [] => None
  | (k', v) :: rest => if Nat.eqb k k' then Some v else lookup k rest
  end.

(** [record.updateOne(...)]: the record with that id is rewritten. *)
Fixpoint update {V} (k : nat) (f : V -> V) (m : list (nat * V)) : list (nat * V) :=
  match m with
  | [] => []
  | (k', v) :: rest =>
      if Nat.eqb k k' then (k', f v) :: rest else (k', v) :: update k f rest
  end.

Definition updateDocument (f : Document -> Document) (w : World) : World :=
  setDocument (option_map f (document w)) w.

Definition updateChunk (id : nat) (f : ChunkDoc -> ChunkDoc) (w : World) : World :=
  setChunks (update id f (chunks w)) w.

Definition updateChunkResult (id : nat) (f : CypherResult -> CypherResult)
  (w : World) : World :=
  setChunkResults (update id f (chunkResults w)) w.

Definition updateFullResult (f : CypherResult -> CypherResult) (w : World)
  : World :=
  setFullResult (option_map f (fullResult w)) w.

Definition resultStatus (s : string) (r : CypherResult) : CypherResult :=
  mkResult s (r_error r) (generatedCypher r) (r_nodesCreated r)
    (r_relationshipsCreated r).

Definition resultError (e : JsError) (r : CypherResult) : CypherResult :=
  mkResult "error" (message e) (generatedCypher r) (r_nodesCreated r)
    (r_relationshipsCreated r).

Definition resultExecuted (n m : Z) (r : CypherResult) : CypherResult :=
  mkResult "executed" (r_error r) (generatedCypher r) n m.

Definition chunkStatus (s : string) (c : ChunkDoc) : ChunkDoc :=
  mkChunkDoc s (ch_error c).

Definition chunkError (e : JsError) (c : ChunkDoc) : ChunkDoc :=
  mkChunkDoc "error" (message e).

Definition documentStatus (s : string) (d : Document) : Document :=
  mkDocument s (d_error d) (d_processedChunks d).

Definition documentError (e : JsError) (d : Document) : Document :=
  mkDocument "error" (message e) (d_processedChunks d).

(** The counters of an execution summary; [None] when the summary has none. *)
Record Counters : Type := mkCounters {
  nodesCreated : Z;
  relationshipsCreated : Z
}.

(** The graph store as the engine sees it: whether [EXPLAIN statement] is
    rejected, and what running a write statement gives on a graph holding the
    given statements.  A rejected schema statement is logged or ignored by the
    engine, so its outcome is not part of the model. *)
Record Neo4j : Type := mkNeo4j {
  explainError : string -> option JsError;
  writeResult : list string -> string -> option Counters + JsError
}.

End Store.

(** ** IngestionEngine: src/services/neo4jIngest/index.js *)

Module Neo4jIngest.
Import Exn Store.

Definition isQuote (c : ascii) : bool :=
  Ascii.eqb c (ascii_of_nat 34) || Ascii.eqb c "'"%char || Ascii.eqb c "`"%char.

Definition isBackslash (o : option ascii) : bool :=
  match o with
  | Some c => Ascii.eqb c (ascii_of_nat 92)
  | None => false
  end.

Definition pushTrimmed (current : string) (statements : list string)
  : list string :=
  let trimmed := Js.trim current in
  if (0 <? String.length trimmed)%nat then (statements ++ [trimmed])%list
  else statements.

(** The character loop of lines 29-58.  [stringChar] is [Some q] exactly when
    [inString] is true, with [q] the opening quote. *)
Fixpoint splitLoop (cypher : string) (prevChar : option ascii)
  (current : string) (stringChar : option ascii) (statements : list string)
  : list string :=
  match cypher with
  | EmptyString => pushTrimmed current statements
  | String char rest =>
      let stringChar' :=
        if isQuote char && negb (isBackslash prevChar) then
          match stringChar with
          | None => Some char
          | Some q => if Ascii.eqb char q then None else Some q
          end
        else stringChar in
      match stringChar' with
      | None =>
          if Ascii.eqb char ";"%char
          then splitLoop rest (Some char) EmptyString stringChar'
                 (pushTrimmed current statements)
          else splitLoop rest (Some char) (current ++ String char EmptyString)
                 stringChar' statements
      | Some _ =>
          splitLoop rest (Some char) (current ++ String char EmptyString)
            stringChar' statements
      end
  end.

(** [splitCypherStatements(cypher)], lines 18-61. *)
Definition splitCypherStatements (cypher : string) : list string :=
  if (String.length (Js.trim cypher) =? 0)%nat then []
  else filter (fun s => (0 <? String.length s)%nat)
         (splitLoop cypher None EmptyString None []).

(** [isSchemaModification(statement)], lines 67-73. *)
Definition isSchemaModification (statement : string) : bool :=
  let upperStatement := Js.toUpperCase (Js.trim statement) in
  Js.startsWith "CREATE CONSTRAINT" upperStatement
  || Js.startsWith "CREATE INDEX" upperStatement
  || Js.startsWith "DROP CONSTRAINT" upperStatement
  || Js.startsWith "DROP INDEX" upperStatement.

(** The test of lines 86-89: a statement that is empty or starts with a
    comment marker is skipped. *)
Definition isSkipped (statement : string) : bool :=
  let trimmed := Js.trim statement in
  (String.length trimmed =? 0)%nat || Js.startsWith "--" trimmed
  || Js.startsWith "/*" trimmed.

(** [separateSchemaAndWriteStatements(statements)], lines 80-99. *)
Fixpoint separateSchemaAndWriteStatements (statements : list string)
  : list string * list string :=
  match statements with
  | [] => ([], [])
  | statement :: rest =>
      let '(schemaStatements, writeStatements) :=
        separateSchemaAndWriteStatements rest in
      if isSkipped statement then (schemaStatements, writeStatements)
      else if isSchemaModification statement
      then (statement :: schemaStatements, writeStatements)
      else (schemaStatements, statement :: writeStatements)
  end.

Section WithGraphStore.

Variable neo : Neo4j.

(** The loop of [validateCypher], lines 116-119: [EXPLAIN] each statement
    until one is rejected. *)
Fixpoint explainAll (statements : list string) (w : World)
  : option JsError * World :=
  match statements with
  | [] => (None, w)
  | statement :: rest =>
      let w' := logEvent (EvExplain statement) w in
      match explainError neo statement with
      | Some e => (Some e, w')
      | None => explainAll rest w'
      end
  end.

(** [validateCypher(cypher, session)], lines 107-125: the error text when the
    text is not valid. *)
Definition validateCypher (cypher : string) (w : World)
  : option (option string) * World :=
  if (String.length (Js.trim cypher) =? 0)%nat then (Some (Some "Empty Cypher"), w)
  else
    match explainAll (splitCypherStatements cypher) w with
    | (Some e, w') => (Some (message e), w')
    | (None, w') => (None, w')
    end.

(** Lines 196-225: each schema statement runs on its own; a failure is logged
    or ignored and the loop goes on. *)
Fixpoint runSchemaStatements (schemaStatements : list string) (w : World)
  : World :=
  match schemaStatements with
  | [] => w
  | s :: rest => runSchemaStatements rest (logEvent (EvSchemaRun s) w)
  end.

Definition orZero (o : option Counters) : Z * Z :=
  match o with
  | Some c => (nodesCreated c, relationshipsCreated c)
  | None => (0%Z, 0%Z)
  end.

(** The loop of lines 241-279 inside the transaction: [pending] holds the
    statements the transaction has run.  It stops at the first statement that
    throws. *)
Fixpoint runWrites (writeStatements pending : list string)
  (nodesCreated_ relationshipsCreated_ : Z) (w : World)
  : (Z * Z * list string + JsError) * World :=
  match writeStatements with
  | [] => (inl (nodesCreated_, relationshipsCreated_, pending), w)
  | statement :: rest =>
      let w' := logEvent (EvRun statement) w in
      match writeResult neo (graph w ++ pending)%list statement with
      | inl summary =>
          let '(n, m) := orZero summary in
          runWrites rest (pending ++ [statement])%list
            (nodesCreated_ + n)%Z (relationshipsCreated_ + m)%Z w'
      | inr error => (inr error, w')
      end
  end.

(** [tx.commit()]: the statements of the transaction reach the graph. *)
Definition commit (pending : list string) (w : World) : World :=
  logEvent EvCommit (setGraph (graph w ++ pending)%list w).

(** [tx.rollback()]: nothing of the transaction reaches the graph. *)
Definition rollback (w : World) : World := logEvent EvRollback w.

(** The [try] / [catch] of lines 175-343 and 387-548, shared by the two
    ingestion functions.  [onSuccess] and [onFailure] are the record updates of
    the success path and of the [catch] block. *)
Definition executeCypher (cypher : string)
  (onSuccess : Z -> Z -> World -> World) (onFailure : JsError -> World -> World)
  (w : World) : (Z * Z + JsError) * World :=
  match splitCypherStatements cypher with
  | [] =>
      let error := errorOf "No valid Cypher statements found" in
      (inr error, onFailure error w)
  | statements =>
      let '(schemaStatements, writeStatements) :=
        separateSchemaAndWriteStatements statements in
      let w1 := runSchemaStatements schemaStatements w in
      match writeStatements with
      | [] => (inl (0%Z, 0%Z), w1)
      | _ :: _ =>
          let w2 := logEvent EvBegin w1 in
          match runWrites writeStatements [] 0%Z 0%Z w2 with
          | (inl (n, m, pending), w3) =>
              (inl (n, m), onSuccess n m (commit pending w3))
          | (inr error, w3) => (inr error, onFailure error (rollback w3))
          end
      end
  end.

(** [ingestChunkCypher(chunkId)], lines 132-343. *)
Definition ingestChunkCypher (chunkId : nat) (w : World)
  : (Z * Z + JsError) * World :=
  match lookup chunkId (chunkResults w) with
  | None =>
      (inr (errorOf ("Cypher result not found for chunk: " ++ Js.ofNat chunkId)), w)
  | Some result =>
      if String.eqb (r_status result) "executed"
      then (inl (r_nodesCreated result, r_relationshipsCreated result), w)
      else
        match lookup chunkId (chunks w) with
        | None => (inr (errorOf ("Chunk not found: " ++ Js.ofNat chunkId)), w)
        | Some _ =>
            match validateCypher (generatedCypher result) w with
            | (Some reason, w1) =>
                (inr (errorOf ("Cypher validation failed: " ++ Js.tpl reason)), w1)
            | (None, w1) =>
                let w2 := updateChunk chunkId (chunkStatus "ingesting") w1 in
                let w3 := updateChunkResult chunkId (resultStatus "validated") w2 in
                executeCypher (generatedCypher result)
                  (fun n m w' =>
                     updateChunk chunkId (chunkStatus "ingested")
                       (updateChunkResult chunkId (resultExecuted n m) w'))
                  (fun error w' =>
                     updateChunk chunkId (chunkError error)
                       (updateChunkResult chunkId (resultError error) w'))
                  w3
            end
        end
  end.

(** [ingestFullDocumentCypher(docId)], lines 350-548. *)
Definition ingestFullDocumentCypher (w : World) : (Z * Z + JsError) * World :=
  match fullResult w with
  | None => (inr (errorOf "Cypher result not found for document"), w)
  | Some cypherResult =>
      if String.eqb (r_status cypherResult) "executed"
      then (inl (r_nodesCreated cypherResult,
                 r_relationshipsCreated cypherResult), w)
      else
        match validateCypher (generatedCypher cypherResult) w with
        | (Some reason, w1) =>
            (inr (errorOf ("Cypher validation failed: " ++ Js.tpl reason)), w1)
        | (None, w1) =>
            let w2 := updateFullResult (resultStatus "validated") w1 in
            executeCypher (generatedCypher cypherResult)
              (fun n m w' => updateFullResult (resultExecuted n m) w')
              (fun error w' => updateFullResult (resultError error) w')
              w2
        end
  end.

(** What [ingestAllChunks] returns. *)
Record IngestionSummary : Type := mkSummary {
  totalNodes : Z;
  totalRelationships : Z;
  successCount : Z;
  errorCount : Z
}.

(** The retry options of lines 579-585 and 606-615. *)
Definition ingestionOptions (shouldRetry_ : JsError -> bool) : Retry.Options :=
  Retry.mkOptions (Some 3%Z) (Some 2000%Z) (Some 30000%Z) None
    (Some shouldRetry_) (Some "ingestion") None.

(** The chunk loop of lines 601-627.  [chunk] is the record read before the
    loop; its [status] is the one it had then. *)
Fixpoint ingestChunks (cs : list (nat * ChunkDoc)) (acc : IngestionSummary)
  (w : World) : IngestionSummary * World :=
  match cs with
  | [] => (acc, w)
  | (chunkId, chunk) :: rest =>
      let run :=
        Retry.retryWithBackoff (ingestChunkCypher chunkId)
          (ingestionOptions
             (fun error =>
                Retry.isRetryableError error
                || String.eqb (ch_status chunk) "error"))
          w in
      match Retry.outcome run with
      | Return (n, m) =>
          ingestChunks rest
            (mkSummary (totalNodes acc + n) (totalRelationships acc + m)
               (successCount acc + 1) (errorCount acc))%Z
            (Retry.world run)
      | Throw _ =>
          ingestChunks rest
            (mkSummary (totalNodes acc) (totalRelationships acc)
               (successCount acc) (errorCount acc + 1))%Z
            (Retry.world run)
      end
  end.

Definition documentFinished (finalStatus : string) (processed : Z)
  (d : Document) : Document :=
  mkDocument finalStatus (d_error d) processed.

(** [ingestAllChunks(docId)], lines 553-656. *)
Definition ingestAllChunks (w : World) : (IngestionSummary + JsError) * World :=
  match document w with
  | None => (inr (errorOf "Document not found"), w)
  | Some _ =>
      let w1 := updateDocument (documentStatus "ingesting") w in
      let counted : option (IngestionSummary * World) :=
        match fullResult w1, chunks w1 with
        | Some _, _ =>
            let run :=
              Retry.retryWithBackoff ingestFullDocumentCypher
                (ingestionOptions Retry.isRetryableError) w1 in
            match Retry.outcome run with
            | Return (n, m) => Some (mkSummary n m 1 0, Retry.world run)
            | Throw _ => Some (mkSummary 0 0 0 1, Retry.world run)
            end
        | None, _ :: _ => Some (ingestChunks (chunks w1) (mkSummary 0 0 0 0) w1)
        | None, [] => None
        end in
      match counted with
      | None => (inr (errorOf "No Cypher results found for document"), w1)
      | Some (summary, w2) =>
          let finalStatus :=
            if (errorCount summary =? 0)%Z then "completed"
            else if (successCount summary >? 0)%Z then "completed" else "error" in
          (inl summary,
           updateDocument (documentFinished finalStatus (successCount summary)) w2)
      end
  end.

End WithGraphStore.

End Neo4jIngest.

(** ** PipelineOrchestrator: src/services/orchestrator.js *)

Module Orchestrator.
Import Exn Store.

(** The answer of the interactive checkpoint, lines 1537-1620; without a
    terminal it is [Proceed]. *)
Inductive Decision : Type :=
| Proceed
| SkipSave
| SkipIngest.

(** The stages [runPipeline] awaits inside its [try] block, each as a step on
    the stores that returns or throws:
    step 1 [parseDocument]; step 2, chunking and storing the chunks (by mode);
    step 3 [extractSchema]; step 4 [createConstraints]; step 5, generating,
    formatting and storing the statements (by mode), which gives the full
    text; the file save and the review of lines 1505-1620. *)
Record Stages : Type := mkStages {
  parseDocument : World -> (string + JsError) * World;
  chunkDocument : bool -> string -> World -> (unit + JsError) * World;
  extractSchema : World -> (FormatCypher.Schema + JsError) * World;
  createConstraints : FormatCypher.Schema -> World -> (unit + JsError) * World;
  generateCypher : bool -> World -> (string + JsError) * World;
  review : string -> World -> (Decision + JsError) * World
}.

Record PipelineOptions : Type := mkPipelineOptions {
  createNeo4jConstraints : bool;
  useFullDocument : bool
}.

(** The result object: the ingestion summary, or none when ingestion was
    skipped at the checkpoint. *)
Record PipelineResult : Type := mkPipelineResult {
  success : bool;
  ingestion : option Neo4jIngest.IngestionSummary
}.

(** The [catch] block of lines 1673-1686: record the failure on the Document,
    then throw the error again. *)
Definition failPipeline {R} (error : JsError) (w : World)
  : (R + JsError) * World :=
  (inr error, updateDocument (documentError error) w).

(** [await step; rest] inside the [try] block. *)
Definition andThen {A R} (step : (A + JsError) * World)
  (rest : A -> World -> (R + JsError) * World) : (R + JsError) * World :=
  match step with
  | (inl a, w) => rest a w
  | (inr error, w) => failPipeline error w
  end.

Section WithEnvironment.

Variable neo : Neo4j.
Variable stages : Stages.

(** [runPipeline(docId, options)], lines 1316-1687. *)
Definition runPipeline (options : PipelineOptions) (w : World)
  : (PipelineResult + JsError) * World :=
  match document w with
  | None => (inr (errorOf "Document not found"), w)
  | Some _ =>
      let w0 := updateDocument (documentStatus "parsing") w in
      andThen (parseDocument stages w0) (fun fullText w1 =>
      andThen (chunkDocument stages (useFullDocument options) fullText w1)
        (fun _ w2 =>
      andThen (extractSchema stages w2) (fun schema w3 =>
      let w4 :=
        if createNeo4jConstraints options
        then snd (createConstraints stages schema w3) else w3 in
      let w5 := updateDocument (documentStatus "cypher_generating") w4 in
      andThen (generateCypher stages (useFullDocument options) w5)
        (fun fullCypher w6 =>
      andThen (review stages fullCypher w6) (fun decision w7 =>
      match decision with
      | SkipSave =>
          (inl (mkPipelineResult true None),
           updateDocument (documentStatus "cypher_generated")
             (setChunkResults [] (setFullResult None w7)))
      | SkipIngest =>
          (inl (mkPipelineResult true None),
           updateDocument (documentStatus "cypher_generated") w7)
      | Proceed =>
          andThen (Neo4jIngest.ingestAllChunks neo w7) (fun ingestionResults w8 =>
          (inl (mkPipelineResult true (Some ingestionResults)), w8))
      end)))))
  end.

End WithEnvironment.

End Orchestrator.

(** ** JavaScript values *)

Module JsValue.

Local Set Warnings "-register-all".

(** A value as [JSON.parse] returns it.  A number is a binary64 float; an
    object holds its own properties in the order [Object.entries] lists
    them; an array holds its elements and, after them, the named properties
    assigned to it. *)
Inductive Json : Type :=
| JNull
| JBool (b : bool)
| JNum (x : SpecFloat.spec_float)
| JStr (s : string)
| JArr (items : list Json) (named : list (string * Json))
| JObj (fields : list (string * Json)).

(** [!!v] *)
Definition truthy (v : Json) : bool :=
  match v with
  | JNull => false
  | JBool b => b
  | JNum (SpecFloat.S754_zero _) => false
  | JNum SpecFloat.S754_nan => false
  | JNum _ => true
  | JStr s => negb (String.eqb s EmptyString)
  | JArr _ _ => true
  | JObj _ => true
  end.

(** [typeof v === 'object'] *)
Definition typeofObject (v : Json) : bool :=
  match v with
  | JNull | JArr _ _ | JObj _ => true
  | _ => false
  end.

(** [Array.isArray(v)] *)
Definition isArray (v : Json) : bool :=
  match v with
  | JArr _ _ => true
  | _ => false
  end.

(** The same tests on the value of a property, [None] being [undefined]. *)
Definition truthyOpt (o : option Json) : bool :=
  match o with
  | Some v => truthy v
  | None => false
  end.

Definition typeofObjectOpt (o : option Json) : bool :=
  match o with
  | Some v => typeofObject v
  | None => false
  end.

Definition isArrayOpt (o : option Json) : bool :=
  match o with
  | Some v => isArray v
  | None => false
  end.

(** [v.key] for a value that is not [null] and a key that is neither an
    index, nor [length], nor a member of a prototype. *)
Definition getProp (key : string) (v : Json) : option Json :=
  match v with
  | JObj fields => Js.mapGet key fields
  | JArr _ named => Js.mapGet key named
  | _ => None
  end.

(** [v.key = x] on an object or an array, for such a key. *)
Definition setProp (key : string) (x : Json) (v : Json) : Json :=
  match v with
  | JObj fields => JObj (Js.mapSet key x fields)
  | JArr items named => JArr items (Js.mapSet key x named)
  | _ => v
  end.

(** The values [Object.entries(v)] lists, for an object or an array. *)
Definition entryValues (v : Json) : list Json :=
  match v with
  | JObj fields => map snd fields
  | JArr items named => (items ++ map snd named)%list
  | _ => []
  end.

(** [for (const [k, x] of Object.entries(v)) v[k] = f(x)] on an object or an
    array. *)
Definition mapEntries (f : Json -> Json) (v : Json) : Json :=
  match v with
  | JObj fields => JObj (map (fun kx => (fst kx, f (snd kx))) fields)
  | JArr items named =>
      JArr (map f items) (map (fun kx => (fst kx, f (snd kx))) named)
  | _ => v
  end.

End JsValue.

(** ** Schema extraction: [validateSchema], src/services/schemaExtraction *)

Module SchemaValidation.
Import Exn JsValue.

(** What reading a property of [null] throws. *)
Definition nullTypeError : JsError :=
  errorOf "Cannot read properties of null (reading 'type')".

(** [!rel.type || !rel.from || !rel.to] for a relationship that is not
    [null]: line 159. *)
Definition relIncomplete (rel : Json) : bool :=
  negb (truthyOpt (getProp "type" rel))
  || negb (truthyOpt (getProp "from" rel))
  || negb (truthyOpt (getProp "to" rel)).

(** [xs.splice(i, 1)] *)
Fixpoint removeAt {A} (i : nat) (xs : list A) : list A :=
  match xs, i with
  | [], _ => []
  | _ :: rest, O => rest
  | x :: rest, S k => x :: removeAt k rest
  end.

(** [for (let i = 0; i < relationships.length; i++)], lines 157-164: an
    incomplete relationship is spliced out and the index stays.  One unit of
    fuel is one iteration; [None] means the fuel ran out. *)
Fixpoint relationshipLoop (fuel : nat) (i : nat) (relationships : list Json)
  : option (list Json + JsError) :=
  match fuel with
  | O => None
  | S fuel' =>
      match nth_error relationships i with
      | None => Some (inl relationships)
      | Some JNull => Some (inr nullTypeError)
      | Some rel =>
          if relIncomplete rel
          then relationshipLoop fuel' i (removeAt i relationships)
          else relationshipLoop fuel' (S i) relationships
      end
  end.

(** A property array: a value that is not an array becomes an empty array,
    lines 149-154. *)
Definition arrayOrEmpty (props : Json) : Json :=
  if isArray props then props else JArr [] [].

(** [validateSchema(schema)], lines 130-167.  [None] means that the loop over
    the relationships ran out of fuel. *)
Definition validateSchema (schema : Json) : option (Json + JsError) :=
  if negb (truthy schema) || negb (typeofObject schema)
  then Some (inr (errorOf "Invalid schema format: schema must be an object"))
  else
    let nodes0 := getProp "nodes" schema in
    let checked :=
      if negb (truthyOpt nodes0) || negb (typeofObjectOpt nodes0)
      then if isArrayOpt nodes0
           then inr (errorOf
                  "Invalid schema format: nodes should be an object, not an array")
           else inl (setProp "nodes" (JObj []) schema)
      else inl schema in
    match checked with
    | inr error => Some (inr error)
    | inl schema1 =>
        let '(items, named) :=
          match getProp "relationships" schema1 with
          | Some (JArr items named) => (items, named)
          | _ => ([], [])
          end in
        let nodes1 :=
          match getProp "nodes" schema1 with
          | Some nodes => mapEntries arrayOrEmpty nodes
          | None => JObj []
          end in
        let schema2 := setProp "nodes" nodes1 schema1 in
        match relationshipLoop (S (List.length items)) 0 items with
        | None => None
        | Some (inr error) => Some (inr error)
        | Some (inl kept) =>
            Some (inl (setProp "relationships" (JArr kept named) schema2))
        end
    end.

End SchemaValidation.

(** ** Logger: [sanitizeLog], src/utils/logger.js *)

Module Logger.
Import JsValue.

Definition sensitive : list string := ["password"; "apiKey"; "token"; "secret"].

Definition redacted : Json := JStr "***REDACTED***".

(** [sensitive.some(s => key.toLowerCase().includes(s))], line 34. *)
Definition isSensitive (key : string) : bool :=
  existsb (fun s => Js.includes s (Js.toLowerCase key)) sensitive.

(** [sanitizeLog(obj)], lines 30-39, on the properties of an object: the
    copy of line 32, then the loop over its keys. *)
Definition sanitizeLog (obj : Js.Map Json) : Js.Map Json :=
  fold_left
    (fun sanitized key =>
       if isSensitive key then Js.mapSet key redacted sanitized else sanitized)
    (map fst obj) obj.

End Logger.

(** ** IngestionEngine: [createConstraints], src/services/neo4jIngest *)

Module ConstraintSetup.
Import Exn Store FormatCypher.

(** The statement of lines 690-694 and 718-722, a template literal that
    starts and ends with a line break and its indentation. *)
Definition constraintCypher (label idProp : string) : string :=
  let constraintName := Js.toLowerCase label ++ "_" ++ idProp ++ "_unique" in
  nl ++ Js.spaces 12 ++ "CREATE CONSTRAINT " ++ constraintName
  ++ " IF NOT EXISTS" ++ nl
  ++ Js.spaces 12 ++ "FOR (n:" ++ label ++ ")" ++ nl
  ++ Js.spaces 12 ++ "REQUIRE n." ++ idProp ++ " IS UNIQUE" ++ nl
  ++ Js.spaces 10.

Section WithSession.

(** Whether [session.run(cypher)] throws in the given state of the stores. *)
Variable runFails : World -> string -> bool.

(** The [try] / [catch] of lines 689-704 and 717-731 for one property: the
    statement is run, and the constraint is pushed when the run did not
    throw. *)
Definition createOne (label : string)
  (st : list (string * string) * World) (idProp : string)
  : list (string * string) * World :=
  let '(constraints, w) := st in
  let cypher := constraintCypher label idProp in
  let w' := logEvent (EvSchemaRun cypher) w in
  if runFails w cypher then (constraints, w')
  else ((constraints ++ [(label, idProp)])%list, w').

(** The body of the loop over the node types, lines 673-734. *)
Definition createForLabel (st : list (string * string) * World)
  (entry : string * list string) : list (string * string) * World :=
  let (label, props) := entry in
  let labelLower := Js.toLowerCase label in
  let trueIdProps :=
    filter (fun p => trueIdPatternTest labelLower (Js.toLowerCase p)) props in
  let st1 := fold_left (createOne label) trueIdProps st in
  match trueIdProps with
  | [] =>
      fold_left (createOne label)
        (filter (fun p => genericIdTest false (Js.toLowerCase p)) props) st1
  | _ :: _ => st1
  end.

(** [createConstraints(schema)], lines 662-740, for a schema as
    [validateSchema] returns it: [entries] is [Object.entries(schema.nodes)],
    every label with its property array.  The constraints pushed are
    returned, as pairs of label and property. *)
Definition createConstraints (entries : list (string * list string))
  (w : World) : list (string * string) * World :=
  fold_left createForLabel entries ([], w).

End WithSession.

End ConstraintSetup.

(** ** Document types: src/utils/documentTypeDetector.js *)

Module DocumentType.
Import Regex.

(** [.] on the ASCII range: any character but a line feed and a carriage
    return. *)
Definition dotChar (c : ascii) : bool :=
  negb (Ascii.eqb c (ascii_of_nat 10) || Ascii.eqb c (ascii_of_nat 13)).

(** [(r1|r2|...)] *)
Fixpoint alternatives (r : regex) (rs : list regex) : regex :=
  match rs with
  | [] => r
  | r' :: rest => Alt r (alternatives r' rest)
  end.

(** [re.test(s)] for a pattern with the [i] flag. *)
Definition test (r : regex) (s : string) : bool :=
  match search true r s with
  | Some _ => true
  | None => false
  end.

(** [keywords.some(kw => s.includes(kw))] *)
Definition someIncluded (keywords : list string) (s : string) : bool :=
  existsb (fun kw => Js.includes kw s) keywords.

Definition bpmKeywords : list string :=
  ["business process model"; "data migration"; "greenplum"; "snowflake";
   "account id"; "party id"; "security id"; "bpm"].

(** [/(bpm|business.process.model|data.migration)/i] *)
Definition bpmFilenamePatterns : regex :=
  Group 1
    (alternatives (lit "bpm")
       [FormatCypher.seqs [lit "business"; Cls dotChar; lit "process"; Cls dotChar;
              lit "model"];
        FormatCypher.seqs [lit "data"; Cls dotChar; lit "migration"]]).

Definition financialKeywords : list string :=
  ["account"; "transaction"; "payment"; "invoice"; "financial"; "accounting";
   "trade"; "investment"; "security"; "holding"; "position"; "risk";
   "portfolio"; "balance sheet"; "income statement"].

(** [/(financial|account|invoice|statement|report|balance)/i] *)
Definition financialFilenamePatterns : regex :=
  Group 1
    (alternatives (lit "financial")
       [lit "account"; lit "invoice"; lit "statement"; lit "report";
        lit "balance"]).

Definition businessKeywords : list string :=
  ["company"; "organization"; "department"; "employee"; "manager"; "process";
   "workflow"; "procedure"; "policy"; "strategy"; "business plan"; "meeting"].

(** [/(business|company|organization|process|procedure|policy)/i] *)
Definition businessFilenamePatterns : regex :=
  Group 1
    (alternatives (lit "business")
       [lit "company"; lit "organization"; lit "process"; lit "procedure";
        lit "policy"]).

Definition technicalKeywords : list string :=
  ["api"; "system"; "architecture"; "database"; "server"; "client"; "code";
   "function"; "class"; "method"; "interface"; "protocol"; "algorithm";
   "framework"].

(** [/(technical|api|system|architecture|design|spec|guide)/i] *)
Definition technicalFilenamePatterns : regex :=
  Group 1
    (alternatives (lit "technical")
       [lit "api"; lit "system"; lit "architecture"; lit "design"; lit "spec";
        lit "guide"]).

Definition legalKeywords : list string :=
  ["contract"; "agreement"; "terms"; "conditions"; "legal"; "law"; "clause";
   "party"; "signature"; "liability"; "warranty"; "disclaimer"].

(** [/(legal|contract|agreement|terms|law|clause)/i] *)
Definition legalFilenamePatterns : regex :=
  Group 1
    (alternatives (lit "legal")
       [lit "contract"; lit "agreement"; lit "terms"; lit "law"; lit "clause"]).

(** The number of characters of the text that are sampled, line 14. *)
Definition sampleLength : nat := 5000.

(** [detectDocumentType(filename, text)], lines 12-69. *)
Definition detectDocumentType (filename text : string) : string :=
  let lowerFilename := Js.toLowerCase filename in
  let lowerText := Js.take sampleLength (Js.toLowerCase text) in
  if test bpmFilenamePatterns lowerFilename
     || someIncluded bpmKeywords lowerText
  then "business"
  else if test financialFilenamePatterns lowerFilename
          || someIncluded financialKeywords lowerText
  then "financial"
  else if test businessFilenamePatterns lowerFilename
          || someIncluded businessKeywords lowerText
  then "business"
  else if test technicalFilenamePatterns lowerFilename
          || someIncluded technicalKeywords lowerText
  then "technical"
  else if test legalFilenamePatterns lowerFilename
          || someIncluded legalKeywords lowerText
  then "legal"
  else "general".

Definition financialSchemaHint : string :=
  "Focus on financial entities: accounts, transactions, "
  ++ "parties, securities, trades, positions, holdings, and "
  ++ "their relationships.".

Definition financialCypherHint : string :=
  "Pay special attention to financial identifiers (accountID,"
  ++ " transactionID, tradeID) and ensure all numeric values are"
  ++ " properly formatted. Relationships often involve "
  ++ "ownership, transactions, and holdings.".

Definition businessSchemaHint : string :=
  "Focus on business entities: companies, departments, "
  ++ "employees, roles, processes, and organizational "
  ++ "relationships. For Data Migration BPM documents, use "
  ++ "relationship names like HELD_BY, HAS_ADDRESS, "
  ++ "EXECUTED_TRADE, HAS_POSITION, HAS_HOLDING, HAS_INVESTMENT,"
  ++ " INVOLVED_IN_INVESTMENT, IN_SECURITY, ON_SECURITY, "
  ++ "CLASSIFIES, ASSOCIATED_WITH. Use business-meaningful "
  ++ "names, not generic CONNECTS_TO.".

Definition businessCypherHint : string :=
  "Emphasize organizational hierarchies, reporting "
  ++ "structures, and business processes. Use clear identifiers "
  ++ "for entities. For BPM documents, use relationship types "
  ++ "like HELD_BY, HAS_ADDRESS, EXECUTED_TRADE, HAS_POSITION, "
  ++ "HAS_HOLDING, HAS_INVESTMENT, IN_SECURITY, ON_SECURITY. "
  ++ "Ensure all IDs (accountId, partyId, securityId) are "
  ++ "properly extracted.".

Definition technicalSchemaHint : string :=
  "Focus on technical entities: systems, components, APIs, "
  ++ "services, databases, and their technical relationships.".

Definition technicalCypherHint : string :=
  "Pay attention to technical identifiers, version numbers, "
  ++ "and system dependencies. Relationships often involve "
  ++ "dependencies, integrations, and data flows.".

Definition legalSchemaHint : string :=
  "Focus on legal entities: parties, contracts, clauses, "
  ++ "terms, obligations, and legal relationships.".

Definition legalCypherHint : string :=
  "Emphasize party relationships, contract terms, and legal "
  ++ "obligations. Use clear identifiers for parties and "
  ++ "contracts.".

Definition generalSchemaHint : string :=
  "Extract all relevant entities, their properties, and "
  ++ "relationships from the document.".

Definition generalCypherHint : string :=
  "Generate Cypher statements that accurately represent the "
  ++ "entities and relationships found in the text.".

(** The object [prompts] of lines 77-98: each document type with its own
    properties. *)
Definition prompts : Js.Map (Js.Map string) :=
  [("financial", [("schemaHint", financialSchemaHint);
                  ("cypherHint", financialCypherHint)]);
   ("business", [("schemaHint", businessSchemaHint);
                 ("cypherHint", businessCypherHint)]);
   ("technical", [("schemaHint", technicalSchemaHint);
                  ("cypherHint", technicalCypherHint)]);
   ("legal", [("schemaHint", legalSchemaHint);
              ("cypherHint", legalCypherHint)]);
   ("general", [("schemaHint", generalSchemaHint);
                ("cypherHint", generalCypherHint)])].

(** The keys every object inherits from [Object.prototype]; their values
    are functions and objects, which are truthy and have none of the
    properties above. *)
Definition inheritedKeys : list string :=
  ["constructor"; "__proto__"; "hasOwnProperty"; "isPrototypeOf";
   "propertyIsEnumerable"; "toLocaleString"; "toString"; "valueOf";
   "__defineGetter__"; "__defineSetter__"; "__lookupGetter__";
   "__lookupSetter__"].

(** [getDocumentTypePrompts(docType)], lines 76-101: the string properties
    of [prompts[docType] || prompts.general]. *)
Definition getDocumentTypePrompts (docType : string) : Js.Map string :=
  match Js.mapGet docType prompts with
  | Some typePrompts => typePrompts
  | None =>
      if Js.setHas docType inheritedKeys then []
      else [("schemaHint", generalSchemaHint);
            ("cypherHint", generalCypherHint)]
  end.

(** The part of the schema prompt that depends on the prompt set: line 117
    of [buildSchemaPrompt] in src/services/schemaExtraction. *)
Definition typeHintsSection (typePrompts : Js.Map string) : string :=
  match Js.mapGet "schemaHints" typePrompts with
  | Some hints =>
      if String.eqb hints EmptyString then EmptyString
      else FormatCypher.nl ++ "Document Type Hints:" ++ FormatCypher.nl ++ hints
  | None => EmptyString
  end.

End DocumentType.

(* ===================================================================== *)
(** * Part II: notions and scenarios used in the statements              *)
(* ===================================================================== *)

(** ** Characters of a text *)

Module StringAux.

Fixpoint mem (c : ascii) (s : string) : bool :=
  match s with
  | EmptyString => false
  | String a t => Ascii.eqb c a || mem c t
  end.

(** No character of [r] occurs in [q]. *)
Fixpoint charsDisjoint (r q : string) : bool :=
  match r with
  | EmptyString => true
  | String a t => negb (mem a q) && charsDisjoint t q
  end.

End StringAux.

(** ** Operations and options for the retry executor *)

Module Scenario.
Import Exn.

(** The state of the world after [k] calls of an operation. *)
Fixpoint worldAfter {W R} (fn : W -> (R + JsError) * W) (k : nat) (w : W) : W :=
  match k with
  | O => w
  | S k' => worldAfter fn k' (snd (fn w))
  end.

(** An operation that throws a timeout at every call and counts its calls. *)
Definition alwaysTimeout (n : nat) : (unit + JsError) * nat :=
  (inr (errorOf "request timeout"), S n).

(** An operation that throws a validation error at every call. *)
Definition alwaysInvalid (n : nat) : (unit + JsError) * nat :=
  (inr (errorOf "validation failed: nodes must be an object"), S n).

(** [{ maxRetries: 3, shouldRetry: isRetryableError }] *)
Definition threeRetries : Retry.Options :=
  Retry.mkOptions (Some 3%Z) None None None (Some Retry.isRetryableError)
    None None.

End Scenario.

(** ** Inputs of the statement corrector *)

Module FormatScenario.
Import FormatCypher.

(** The schema [{ nodes: { Account: ["accountId", "accountType"] } }]. *)
Definition accountSchema : Schema :=
  mkSchema (Some [("Account", Some ["accountId"; "accountType"])]).

(** The same node-upsert written twice. *)
Definition repeatedNode : string :=
  "MERGE (a:Account {accountId: 'A1'})" ++ nl
  ++ "MERGE (a:Account {accountId: 'A1'})".

(** A Position node, an Account node and an edge from the Position to the
    Account. *)
Definition positionToAccount : string :=
  "MERGE (a:Position {positionId: 'P1'})" ++ nl
  ++ "MERGE (account:Account {accountId: 'A1'})" ++ nl
  ++ "MERGE (a)-[:HAS_POSITION]->(account)".

Definition positionToAccountOutput : string :=
  "/* --- 1) Add uniqueness constraints (run once) --- */" ++ nl ++ nl
  ++ "CREATE CONSTRAINT IF NOT EXISTS FOR (a:Account)"
  ++ "                             REQUIRE a.accountId IS UNIQUE;" ++ nl
  ++ nl ++ "/* --- 2) Create nodes with unique variable names --- */" ++ nl ++ nl
  ++ "MERGE (pos1:Position                {positionId: " ++ dq ++ "P1" ++ dq
  ++ "})" ++ nl
  ++ "MERGE (account2:Account            {accountId: " ++ dq ++ "A1" ++ dq
  ++ "})" ++ nl
  ++ ";" ++ nl ++ nl
  ++ "/* --- 3) Now MERGE relationships (use variables from above) --- */"
  ++ nl ++ nl
  ++ "MERGE (pos1)-[:HAS_POSITION]->(account2);" ++ nl ++ nl.

Definition singleEscaped : string := "(a)-&gt;(b)".
Definition doubleEscaped : string := "(a)-&amp;gt;(b)".

(** Two Person nodes and an edge between them whose arrow is escaped once,
    and the same with the arrow escaped twice. *)
Definition personSchema : Schema :=
  mkSchema (Some [("Person", Some ["personId"; "name"])]).

Definition twoPersons : string :=
  "MERGE (a:Person {personId: 'P1'})" ++ nl
  ++ "MERGE (b:Person {personId: 'P2'})" ++ nl.

Definition edgeEscapedOnce : string := twoPersons ++ "MERGE (a)-[:KNOWS]-&gt;(b)".
Definition edgeEscapedTwice : string :=
  twoPersons ++ "MERGE (a)-[:KNOWS]-&amp;gt;(b)".

Definition twoPersonsOutput (edges : string) : string :=
  "/* --- 1) Add uniqueness constraints (run once) --- */" ++ nl ++ nl
  ++ "CREATE CONSTRAINT IF NOT EXISTS FOR (p:Person)"
  ++ "                             REQUIRE p.personId IS UNIQUE;" ++ nl
  ++ nl ++ "/* --- 2) Create nodes with unique variable names --- */" ++ nl ++ nl
  ++ "MERGE (p1:Person                  {personId: " ++ dq ++ "P1" ++ dq
  ++ "})" ++ nl
  ++ "MERGE (p2:Person                  {personId: " ++ dq ++ "P2" ++ dq
  ++ "})" ++ nl
  ++ ";" ++ nl ++ nl
  ++ "/* --- 3) Now MERGE relationships (use variables from above) --- */"
  ++ nl ++ nl ++ edges.

End FormatScenario.

(** ** Programs, graph stores and stores for the ingestion engine *)

Module IngestScenario.
Import Exn Store FormatCypher.

Definition appendEvents (es : list Event) (w : World) : World :=
  mkWorld (document w) (fullResult w) (chunks w) (chunkResults w) (graph w)
    (events w ++ es)%list.

(** A party, its account, a trade of the account and the security traded. *)
Definition tradeSchema : Schema :=
  mkSchema (Some [("Party", Some ["partyId"]);
                  ("Account", Some ["accountId"]);
                  ("Trade", Some ["tradeId"; "accountId"]);
                  ("Security", Some ["securityId"])]).

Definition tradeInput : string :=
  "MERGE (p:Party {partyId: 'P1'})" ++ nl
  ++ "MERGE (a:Account {accountId: 'A1'})" ++ nl
  ++ "MERGE (t:Trade {tradeId: 'T1'})" ++ nl
  ++ "MERGE (s:Security {securityId: 'S1'})" ++ nl
  ++ "MERGE (p)-[:HAS_ACCOUNT]->(a)" ++ nl
  ++ "MERGE (a)-[:EXECUTED_TRADE]->(t)" ++ nl
  ++ "MERGE (t)-[:ON_SECURITY]->(s)".

(** The corrected program of [tradeInput]. *)
Definition tradeProgram : string :=
  Eval vm_compute in formatStructuredCypher tradeInput tradeSchema.

(** The statement that holds the node-upserts of [tradeProgram], as
    [splitCypherStatements] cuts it. *)
Definition tradeNodeUpserts : string :=
  "/* --- 2) Create nodes with unique variable names --- */" ++ nl ++ nl
  ++ "MERGE (party1:Party              {partyId: " ++ dq ++ "P1" ++ dq ++ "})"
  ++ nl
  ++ "MERGE (account2:Account            {accountId: " ++ dq ++ "A1" ++ dq
  ++ "})" ++ nl
  ++ "MERGE (t3:Trade                  {tradeId: " ++ dq ++ "T1" ++ dq ++ "})"
  ++ nl
  ++ "MERGE (s4:Security                  {securityId: " ++ dq ++ "S1" ++ dq
  ++ "})".

Definition constraintOn (v lbl prop : string) : string :=
  "CREATE CONSTRAINT IF NOT EXISTS FOR (" ++ v ++ ":" ++ lbl ++ ")"
  ++ "                             REQUIRE " ++ v ++ "." ++ prop ++ " IS UNIQUE".

Definition hasAccountEdge : string :=
  "/* --- 3) Now MERGE relationships (use variables from above) --- */"
  ++ nl ++ nl ++ "MERGE (party1)-[:HAS_ACCOUNT]->(account2)".
Definition executedTradeEdge : string := "MERGE (account2)-[:EXECUTED_TRADE]->(t3)".
Definition onSecurityEdge : string := "MERGE (t3)-[:ON_SECURITY]->(s4)".

(** A graph store that accepts every statement. *)
Definition acceptAll : Neo4j :=
  mkNeo4j (fun _ => None) (fun _ _ => inl (Some (mkCounters 0 1))).

Definition constraintViolation : JsError :=
  errorOf "Node already exists with label and property".

(** A graph store that rejects one write statement. *)
Definition rejecting (bad : string) : Neo4j :=
  mkNeo4j (fun _ => None)
    (fun _ s => if String.eqb s bad then inr constraintViolation
                else inl (Some (mkCounters 0 1))).

(** The stores of a document whose corrected program waits for ingestion,
    as the full-document result and as the result of chunk 0. *)
Definition tradeWorld : World :=
  mkWorld (Some (mkDocument "cypher_generated" None 0))
    (Some (mkResult "generated" None tradeProgram 0 0))
    [(0, mkChunkDoc "cypher_generated" None)]
    [(0, mkResult "generated" None tradeProgram 0 0)]
    [] [].

End IngestScenario.

(** ** Stage failures and stages for the orchestrator *)

Module PipelineScenario.
Import Exn Store Orchestrator IngestScenario.

Section Failures.

Variable neo : Neo4j.
Variable stages : Stages.
Variable options : PipelineOptions.

(** The world in which step 5 starts, given the world step 3 left. *)
Definition beforeGeneration (schema : FormatCypher.Schema) (w3 : World) : World :=
  updateDocument (documentStatus "cypher_generating")
    (if createNeo4jConstraints options
     then snd (createConstraints stages schema w3) else w3).

(** [StageFailure w error wFail]: started on [w], the pipeline reaches a call
    that throws [error] to [runPipeline] and leaves the stores as [wFail]; the
    calls before it have returned.  The calls are [parseDocument], the chunking
    step, [extractSchema], the generation step, the review and
    [ingestAllChunks]. *)
Inductive StageFailure (w : World) (error : JsError) (wFail : World) : Prop :=
| FailParse :
    parseDocument stages (updateDocument (documentStatus "parsing") w)
    = (inr error, wFail) ->
    StageFailure w error wFail
| FailChunk fullText w1 :
    parseDocument stages (updateDocument (documentStatus "parsing") w)
    = (inl fullText, w1) ->
    chunkDocument stages (useFullDocument options) fullText w1
    = (inr error, wFail) ->
    StageFailure w error wFail
| FailExtract fullText w1 w2 :
    parseDocument stages (updateDocument (documentStatus "parsing") w)
    = (inl fullText, w1) ->
    chunkDocument stages (useFullDocument options) fullText w1 = (inl tt, w2) ->
    extractSchema stages w2 = (inr error, wFail) ->
    StageFailure w error wFail
| FailGenerate fullText w1 w2 schema w3 :
    parseDocument stages (updateDocument (documentStatus "parsing") w)
    = (inl fullText, w1) ->
    chunkDocument stages (useFullDocument options) fullText w1 = (inl tt, w2) ->
    extractSchema stages w2 = (inl schema, w3) ->
    generateCypher stages (useFullDocument options) (beforeGeneration schema w3)
    = (inr error, wFail) ->
    StageFailure w error wFail
| FailReview fullText w1 w2 schema w3 fullCypher w6 :
    parseDocument stages (updateDocument (documentStatus "parsing") w)
    = (inl fullText, w1) ->
    chunkDocument stages (useFullDocument options) fullText w1 = (inl tt, w2) ->
    extractSchema stages w2 = (inl schema, w3) ->
    generateCypher stages (useFullDocument options) (beforeGeneration schema w3)
    = (inl fullCypher, w6) ->
    review stages fullCypher w6 = (inr error, wFail) ->
    StageFailure w error wFail
| FailIngestAll fullText w1 w2 schema w3 fullCypher w6 w7 :
    parseDocument stages (updateDocument (documentStatus "parsing") w)
    = (inl fullText, w1) ->
    chunkDocument stages (useFullDocument options) fullText w1 = (inl tt, w2) ->
    extractSchema stages w2 = (inl schema, w3) ->
    generateCypher stages (useFullDocument options) (beforeGeneration schema w3)
    = (inl fullCypher, w6) ->
    review stages fullCypher w6 = (inl Proceed, w7) ->
    Neo4jIngest.ingestAllChunks neo w7 = (inr error, wFail) ->
    StageFailure w error wFail.

End Failures.

Definition storedDocument : World :=
  mkWorld (Some (mkDocument "uploaded" None 0)) None [] [] [] [].

Definition timeoutError : JsError := errorOf "LLM request timed out".

(** Stages that succeed, except that [createConstraints] throws; generation
    stores [cypher] as the full-document result. *)
Definition stagesStoring (cypher : string) : Stages :=
  mkStages
    (fun w => (inl "Account A1 traded security S1", w))
    (fun _ _ w => (inl tt, w))
    (fun w => (inl tradeSchema, w))
    (fun _ w => (inr (errorOf "constraint creation failed"), w))
    (fun _ w =>
       (inl cypher, setFullResult (Some (mkResult "generated" None cypher 0 0)) w))
    (fun _ w => (inl Proceed, w)).

(** Stages whose schema extraction throws. *)
Definition stagesFailingExtraction : Stages :=
  mkStages
    (fun w => (inl "Account A1 traded security S1", w))
    (fun _ _ w => (inl tt, w))
    (fun w => (inr timeoutError, w))
    (fun _ w => (inl tt, w))
    (fun _ w => (inl "MERGE (n:Account {accountId: 'A1'})", w))
    (fun _ w => (inl Proceed, w)).

Definition defaultOptions : PipelineOptions := mkPipelineOptions true true.

(** The stores when ingestion starts in the scenario of [stagesStoring]. *)
Definition readyToIngest : World :=
  mkWorld (Some (mkDocument "cypher_generating" None 0))
    (Some (mkResult "generated" None tradeProgram 0 0)) [] [] [] [].

End PipelineScenario.

(** ** The corrector seen from its output

    The notions of the second-run analysis: the names the corrector gives to
    the nodes, the edges of the third section, the texts the parser reads
    back, and the inputs on which the analysis holds. *)

Module Canonical.
Import Js FormatCypher.

(** The variable the corrector gives to a node numbered [i]. *)
Definition canonicalName (i : nat) (n : Node) : string :=
  sequentialVarPrefix (label n) ++ ofNat i.

(** The node a run parses from the line the corrector wrote for [n]. *)
Definition canonicalNode (i : nat) (n : Node) : Node :=
  mkNode (canonicalName i n) (label n)
    (idProp n ++ ": " ++ dq ++ idValue n ++ dq) (idProp n) (idValue n)
    (label n ++ ":" ++ idValue n).

Fixpoint canonicalNodes (i : nat) (ns : list Node) : list Node :=
  match ns with
  | [] => []
  | n :: rest => canonicalNode i n :: canonicalNodes (S i) rest
  end.

Fixpoint numbered (i : nat) (ns : list Node) : list (nat * Node) :=
  match ns with
  | [] => []
  | n :: rest => (i, n) :: numbered (S i) rest
  end.

(** The variable the map gives to a node. *)
Definition mappedName (varMap : Map string) (n : Node) : string :=
  tpl (mapGet (originalVar n) varMap).

(** [varToLabelMap] when every node is mapped to its numbered name. *)
Fixpoint labelMap (i : nat) (ns : list Node) (m : Map string) : Map string :=
  match ns with
  | [] => m
  | n :: rest => labelMap (S i) rest (mapSet (canonicalName i n) (label n) m)
  end.

Definition names (i : nat) (ns : list Node) : list string :=
  map (fun jn => canonicalName (fst jn) (snd jn)) (numbered i ns).

(** The numbered names of the nodes labelled [lbl], and the first of them. *)
Definition namesWith (lbl : string) (i : nat) (ns : list Node) : list string :=
  map (fun jn => canonicalName (fst jn) (snd jn))
    (filter (fun jn => String.eqb (label (snd jn)) lbl) (numbered i ns)).

Definition firstName (lbl : string) (ns : list Node) : option string :=
  match namesWith lbl 1 ns with
  | [] => None
  | v :: _ => Some v
  end.

(** The lines of numbered nodes in the second section. *)
Definition linesText (lines : list (nat * Node)) : string :=
  fold_right
    (fun jn acc => nodeLine (canonicalName (fst jn) (snd jn)) (snd jn) ++ acc)
    EmptyString lines.

Definition linesOf (i : nat) (ns : list Node) : string :=
  linesText (numbered i ns).

(** Variables pairwise distinct, keys pairwise distinct, and no variable that
    is also a key. *)
Record Distinct (ns : list Node) : Prop := mkDistinct {
  d_vars : NoDup (map originalVar ns);
  d_keys : NoDup (map key ns);
  d_apart : forall n n', In n ns -> In n' ns -> originalVar n <> key n'
}.

(** The prefixes of [sequentialVarPrefix] that are written out. *)
Definition fixedPrefixes : list string :=
  ["acc2"; "addr"; "ref"; "inv"; "pos"; "h"; "r"; "s"; "t"; "account"; "party"].

(** What a sequential variable starts with: one of those, or one character. *)
Definition isPrefix (p : string) : Prop :=
  In p fixedPrefixes \/ exists c, p = String c EmptyString.

End Canonical.

Module EdgeDefs.
Import Js FormatCypher.

(** An edge: source variable, type, target variable. *)
Definition Edge : Type := (string * string * string)%type.

Definition edgeFrom (e : Edge) : string := fst (fst e).
Definition edgeType (e : Edge) : string := snd (fst e).
Definition edgeTo (e : Edge) : string := snd e.

Definition edgeKey (e : Edge) : string :=
  let '(f, ty, t) := e in relKeyOf f ty t.

Definition edgeLine (e : Edge) : string :=
  let '(f, ty, t) := e in relLine f ty t.

Definition edgeLines (es : list Edge) : string :=
  fold_right (fun e acc => edgeLine e ++ acc) EmptyString es.

Definition edgeRel (e : Edge) : Rel :=
  let '(f, ty, t) := e in mkRel f ty t.

(** The edges a list of candidates adds to the section: each one whose key
    has not been seen; and the keys seen after the list. *)
Fixpoint emitNew (seen : list string) (es : list Edge) : list Edge :=
  match es with
  | [] => []
  | e :: rest =>
      if setHas (edgeKey e) seen then emitNew seen rest
      else e :: emitNew (setAdd (edgeKey e) seen) rest
  end.

Fixpoint seenAfter (seen : list string) (es : list Edge) : list string :=
  match es with
  | [] => seen
  | e :: rest => seenAfter (setAdd (edgeKey e) seen) rest
  end.

(** An edge whose key can be read back: no dash in the source, no closing
    bracket in the type. *)
Definition readable (e : Edge) : bool :=
  let '(f, ty, t) := e in
  negb (StringAux.mem "-" f) && negb (StringAux.mem "]" ty).

(** The link the completion pass adds for one edge. *)
Definition addEdge (st : RelState) (e : Edge) : RelState :=
  let '(f, ty, t) := e in addLink (Some f) ty (Some t) st.

(** The links the completion pass asks for: one to the first security for
    every investment not yet linked; for every trade, one from the first
    account and one to the first security, each unless already linked. *)
Definition investmentCandidates (linked : list string)
  (investments : list string) (security : option string) : list Edge :=
  match security with
  | None => []
  | Some s0 =>
      flat_map (fun v => if setHas v linked then [] else [(v, "IN_SECURITY", s0)])
        investments
  end.

Definition tradeCandidates (linkedAccount linkedSecurity : list string)
  (trades : list string) (account security : option string) : list Edge :=
  flat_map
    (fun v =>
       (match account with
        | Some a0 => if setHas v linkedAccount then []
                     else [(a0, "EXECUTED_TRADE", v)]
        | None => []
        end
        ++
        match security with
        | Some s0 => if setHas v linkedSecurity then []
                     else [(v, "ON_SECURITY", s0)]
        | None => []
        end)%list)
    trades.

(** What a state has after the completion pass added a batch of edges. *)
Record Added (es : list Edge) (st st' : RelState) : Prop := mkAdded {
  ad_section :
    relationshipsSection st'
    = relationshipsSection st ++ edgeLines (emitNew (relationshipSet st) es);
  ad_set : relationshipSet st' = seenAfter (relationshipSet st) es;
  ad_isl : investmentSecurityLinks st' = investmentSecurityLinks st;
  ad_tal : tradeAccountLinks st' = tradeAccountLinks st;
  ad_tsl : tradeSecurityLinks st' = tradeSecurityLinks st;
  ad_counter : nodeCounter st' = nodeCounter st
}.

Section WithLabels.

Variable labels : Map string.

(** The final form of an edge between mapped variables. *)
Definition canon (e : Edge) : Edge :=
  let '(f, ty, t) := e in
  canonicalize ty f t (mapGet f labels) (mapGet t labels).

Definition linksInvestment (e : Edge) : bool :=
  let '(f, ty, t) := e in
  String.eqb ty "IN_SECURITY" && labelIs (mapGet f labels) "Investment"
  && labelIs (mapGet t labels) "Security".

Definition linksAccount (e : Edge) : bool :=
  let '(f, ty, t) := e in
  String.eqb ty "EXECUTED_TRADE" && labelIs (mapGet f labels) "Account"
  && labelIs (mapGet t labels) "Trade".

Definition linksSecurity (e : Edge) : bool :=
  let '(f, ty, t) := e in
  String.eqb ty "ON_SECURITY" && labelIs (mapGet f labels) "Trade"
  && labelIs (mapGet t labels) "Security".

(** One round of the relationship loop on an edge between mapped variables
    whose target holds no inline node. *)
Definition plainStep (st : RelState) (e : Edge) : RelState :=
  let '(f, ty, t) := e in
  let '(ff, fty, ft) := canon e in
  let isl := if linksInvestment e then setAdd f (investmentSecurityLinks st)
             else investmentSecurityLinks st in
  let tal := if linksAccount e then setAdd ft (tradeAccountLinks st)
             else tradeAccountLinks st in
  let tsl := if linksSecurity e then setAdd ff (tradeSecurityLinks st)
             else tradeSecurityLinks st in
  if setHas (relKeyOf ff fty ft) (relationshipSet st)
  then mkRelState (relationshipsSection st) (relationshipSet st) isl tal tsl
         (nodeCounter st)
  else mkRelState (relationshipsSection st ++ relLine ff fty ft)
         (setAdd (relKeyOf ff fty ft) (relationshipSet st)) isl tal tsl
         (nodeCounter st).

(** What a state has after the loop ran on a batch of edges. *)
Record After (R : list Edge) (st st' : RelState) : Prop := mkAfter {
  a_section :
    relationshipsSection st'
    = relationshipsSection st
      ++ edgeLines (emitNew (relationshipSet st) (map canon R));
  a_set : relationshipSet st' = seenAfter (relationshipSet st) (map canon R);
  a_counter : nodeCounter st' = nodeCounter st;
  a_isl : forall v,
    In v (investmentSecurityLinks st')
    <-> In v (investmentSecurityLinks st)
        \/ exists e, In e R /\ linksInvestment e = true /\ edgeFrom e = v;
  a_tal : forall v,
    In v (tradeAccountLinks st')
    <-> In v (tradeAccountLinks st)
        \/ exists e, In e R /\ linksAccount e = true /\ edgeTo e = v;
  a_tsl : forall v,
    In v (tradeSecurityLinks st')
    <-> In v (tradeSecurityLinks st)
        \/ exists e, In e R /\ linksSecurity e = true /\ edgeFrom e = v
}.

(** The variables the loop records as linked, from the edges it has seen. *)
Definition investmentLinked (R : list Edge) : list string :=
  map edgeFrom (filter linksInvestment R).
Definition accountLinked (R : list Edge) : list string :=
  map edgeTo (filter linksAccount R).
Definition securityLinked (R : list Edge) : list string :=
  map edgeFrom (filter linksSecurity R).

(** What the third section is asked to hold for the edges [R] between mapped
    variables: the final forms, then the synthesized links. *)
Definition sectionCandidates (investments trades : list string)
  (account security : option string) (R : list Edge) : list Edge :=
  (map canon R
   ++ investmentCandidates (investmentLinked R) investments security
   ++ tradeCandidates (accountLinked R) (securityLinked R) trades account
        security)%list.

(** The edges of the third section: the candidates, each once. *)
Definition sectionEdges (investments trades : list string)
  (account security : option string) (R : list Edge) : list Edge :=
  emitNew [] (sectionCandidates investments trades account security R).

End WithLabels.

End EdgeDefs.

Module CharDefs.
Import Js FormatCypher.

(** Every character of the text satisfies [f]. *)
Fixpoint allChars (f : ascii -> bool) (s : string) : bool :=
  match s with
  | EmptyString => true
  | String c t => f c && allChars f t
  end.

(** A non-empty run of word characters. *)
Definition isIdentifier (s : string) : bool :=
  negb (String.eqb s EmptyString) && allChars isWord s.

(** The text does not hold the keyword of the patterns. *)
Definition quiet (s : string) : bool := negb (includes "MERGE" s).

(** A relationship type: an identifier that does not hold the keyword. *)
Definition typeOk (ty : string) : bool := isIdentifier ty && quiet ty.

Definition notQuote (c : ascii) : bool := negb (quoteChar c).

(** A character of a value that can be written between quotes in a node. *)
Definition valueChar (c : ascii) : bool :=
  negb (quoteChar c) && Regex.notChar "}" c && Regex.notChar ")" c
  && Regex.notChar "&" c.

Definition isI (c : ascii) : bool := Ascii.eqb (lowerChar c) "i".
Definition isD (c : ascii) : bool := Ascii.eqb (lowerChar c) "d".

(** The names the identifier pattern accepts as a whole: the two letters of
    id in either case, after any run of word characters. *)
Fixpoint idName (p : string) : bool :=
  match p with
  | EmptyString => false
  | String a t =>
      match t with
      | EmptyString => false
      | String b EmptyString => isI a && isD b
      | String _ (String _ _) => isWord a && idName t
      end
  end.

(** The properties the corrector writes for a node. *)
Definition propsText (n : Node) : string :=
  idProp n ++ ": " ++ dq ++ idValue n ++ dq.

End CharDefs.

Module PatternDefs.
Import Js Regex FormatCypher Canonical EdgeDefs CharDefs StringAux.

(** The repetition stops at [s]: the text is over or its first character is
    outside the class. *)
Definition stopsAt (f : ascii -> bool) (s : string) : bool :=
  match s with
  | EmptyString => true
  | String c _ => negb (f c)
  end.

(** The pattern fails on every text that starts with a character of the
    class. *)
Definition refuses (ci : bool) (f : ascii -> bool) (r : regex) : Prop :=
  forall A c t cs (k : string -> captures -> option A),
    f c = true -> rmatch ci r (String c t) cs k = None.

(** What follows the keyword in the two patterns of the parser. *)
Definition nodeTail : regex :=
  seqs [Star isSpace; Chr "("; Group 1 (Plus isWord);
        Chr ":"; Group 2 (Plus isWord); Star isSpace; Chr "{";
        Group 3 (Plus (notChar "}")); Chr "}"; Chr ")"].

Definition relTail : regex :=
  seqs [Star isSpace; Chr "("; Group 1 (Plus (notChar ")"));
        Chr ")"; lit "-[:"; Group 2 (Plus (notChar "]")); Chr "]";
        Alt (lit "-&gt;") (lit "->"); Chr "(";
        Group 3 (Plus (notChar ")")); Chr ")"].

(** The alternatives of the name group of the identifier pattern. *)
Definition idAlternatives : regex :=
  Alt (Seq (Plus isWord) (lit "Id")) (Alt (lit "id") (Alt (lit "_id") (lit "uuid"))).

(** What the node pattern records on the line of a node. *)
Definition nodeCaptures (v : string) (n : Node) : captures :=
  [(3, propsText n); (2, label n); (1, v)].

(** What the relationship pattern records on the line of an edge. *)
Definition edgeCaptures (e : Edge) : captures :=
  let '(f, ty, t) := e in [(3, t); (2, ty); (1, f)].

(** What reading a node line back asks of the node and its name. *)
Record NodeLineOk (v : string) (n : Node) : Prop := mkNodeLineOk {
  nl_var : isIdentifier v = true;
  nl_var_plain : mem "M" v = false;
  nl_label : isIdentifier (label n) = true;
  nl_label_quiet : quiet (label n) = true;
  nl_prop : idName (idProp n) = true;
  nl_prop_quiet : quiet (idProp n) = true;
  nl_value_ne : idValue n <> EmptyString;
  nl_value : allChars valueChar (idValue n) = true;
  nl_value_quiet : quiet (idValue n) = true
}.

(** What reading an edge line back asks of the edge. *)
Record EdgeLineOk (e : Edge) : Prop := mkEdgeLineOk {
  el_from : isIdentifier (edgeFrom e) = true;
  el_from_plain : mem "M" (edgeFrom e) = false;
  el_type : isIdentifier (edgeType e) = true;
  el_type_quiet : quiet (edgeType e) = true;
  el_to : isIdentifier (edgeTo e) = true;
  el_to_plain : mem "M" (edgeTo e) = false
}.

(** The same of the lines of numbered nodes and of a list of edges, and what
    the node pattern records on the line of a numbered node. *)
Definition LinesOk (lines : list (nat * Node)) : Prop :=
  forall jn, In jn lines -> NodeLineOk (canonicalName (fst jn) (snd jn)) (snd jn).

Definition EdgesOk (es : list Edge) : Prop :=
  forall e, In e es -> EdgeLineOk e.

Definition lineCaptures (jn : nat * Node) : captures :=
  nodeCaptures (canonicalName (fst jn) (snd jn)) (snd jn).

End PatternDefs.

Module RenderDefs.
Import Js Regex FormatCypher Canonical EdgeDefs CharDefs StringAux.

(** The edge a relationship becomes once its endpoints are resolved. *)
Definition resolved (ns : list Node) (rel : Rel) : Edge :=
  let varMap := generateSequentialVariables ns in
  let varToNodeMap := buildVarToNodeMap ns [] in
  (resolveVar ns varMap varToNodeMap (from rel), type rel,
   resolveVar ns varMap varToNodeMap (to rel)).

(** The edges of the third section of a run on [ns] and [rels]. *)
Definition passCandidates (ns : list Node) (rels : list Rel) : list Edge :=
  sectionCandidates (labelMap 1 ns []) (namesWith "Investment" 1 ns)
    (namesWith "Trade" 1 ns) (firstName "Account" ns) (firstName "Security" ns)
    (map (resolved ns) rels).

Definition passEdges (ns : list Node) (rels : list Rel) : list Edge :=
  sectionEdges (labelMap 1 ns []) (namesWith "Investment" 1 ns)
    (namesWith "Trade" 1 ns) (firstName "Account" ns) (firstName "Security" ns)
    (map (resolved ns) rels).

(** The first section of a run: lines 414-421. *)
Definition constraintsOf (ns : list Node) (schema : Schema) : string :=
  let fromSchema := generateConstraints schema in
  if includes "No constraints generated" fromSchema
  then generateConstraintsFromNodes ns else fromSchema.

(** The three sections around given node lines and edge lines. *)
Definition sectionsText (constraints : string) (lines : list (nat * Node))
  (es : list Edge) : string :=
  constraints
  ++ (nodesHeader ++ linesText lines ++ ";" ++ nl ++ nl)
  ++ relsHeader ++ edgeLines es.

(** The text of a run on nodes with distinct keys and edges between them. *)
Definition renderedText (ns : list Node) (rels : list Rel) (schema : Schema)
  : string :=
  sectionsText (constraintsOf ns schema) (numbered 1 ns) (passEdges ns rels).

(** The two comments of the corrector around the keyword they hold. *)
Definition nodesComment : string :=
  "/* --- 2) Create nodes with unique variable names --- */" ++ nl ++ nl.

Definition afterKeyword : string :=
  " (use variables from above) --- */" ++ nl ++ nl.

(** The text after the lines of the nodes, cut before and after the keyword
    in the comment of the third section. *)
Definition afterLines (es : list Edge) : string :=
  (";" ++ nl ++ nl ++ "/* --- 3) Now ")
  ++ ("MERGE relationships" ++ afterKeyword ++ (edgeLines es ++ EmptyString)).

(** Nodes with distinct variables and keys, and with numbered names that are
    distinct, not empty and free of braces. *)
Record NodesOk (ns : list Node) : Prop := mkNodesOk {
  ok_distinct : Distinct ns;
  ok_names : forall j n, In (j, n) (numbered 1 ns) ->
    canonicalName j n <> EmptyString /\ mem "{" (canonicalName j n) = false;
  ok_nodup : NoDup (names 1 ns)
}.

(** Both endpoints of the relationship are variables of nodes. *)
Definition Joins (ns : list Node) (rel : Rel) : Prop :=
  (exists j n, In (j, n) (numbered 1 ns) /\ from rel = originalVar n
               /\ trim (from rel) = from rel)
  /\ (exists j n, In (j, n) (numbered 1 ns) /\ to rel = originalVar n
                  /\ trim (to rel) = to rel).

(** What the second run is shown on: nodes as above whose numbered names are
    identifiers and whose keys are label and value, and relationships between
    them whose type is an identifier without the keyword. *)
Record InputOk (ns : list Node) (rels : list Rel) : Prop := mkInputOk {
  in_distinct : Distinct ns;
  in_words : forall j n, In (j, n) (numbered 1 ns) ->
    isIdentifier (canonicalName j n) = true;
  in_nodup : NoDup (names 1 ns);
  in_keys : forall n, In n ns -> key n = label n ++ ":" ++ idValue n;
  in_joins : forall rel, In rel rels -> Joins ns rel;
  in_types : forall rel, In rel rels -> typeOk (type rel) = true
}.

(** An edge between numbered names, with a relationship type as above. *)
Definition Between (ns : list Node) (e : Edge) : Prop :=
  In (edgeFrom e) (names 1 ns) /\ In (edgeTo e) (names 1 ns)
  /\ typeOk (edgeType e) = true.

End RenderDefs.

Module WellFormed.
Import Js Regex FormatCypher Canonical EdgeDefs CharDefs RenderDefs StringAux.

Fixpoint distinct (l : list string) : bool :=
  match l with
  | [] => true
  | x :: rest => negb (setHas x rest) && distinct rest
  end.

(** A node the corrector can write and read back: identifiers as variable
    and label, an identifier name as the parser accepts it, a value that fits
    between the quotes of a node, the key of label and value, and no piece
    that holds the keyword. *)
Definition nodeOk (n : Node) : bool :=
  isIdentifier (originalVar n)
  && isIdentifier (label n) && quiet (label n)
  && idName (idProp n) && quiet (idProp n)
  && negb (String.eqb (idValue n) EmptyString)
  && allChars valueChar (idValue n) && quiet (idValue n)
  && String.eqb (key n) (label n ++ ":" ++ idValue n).

(** The same as propositions. *)
Record NodeChecked (n : Node) : Prop := mkNodeChecked {
  nf_var : isIdentifier (originalVar n) = true;
  nf_label : isIdentifier (label n) = true;
  nf_label_quiet : quiet (label n) = true;
  nf_prop : idName (idProp n) = true;
  nf_prop_quiet : quiet (idProp n) = true;
  nf_value_ne : idValue n <> EmptyString;
  nf_value : allChars valueChar (idValue n) = true;
  nf_value_quiet : quiet (idValue n) = true;
  nf_key : key n = label n ++ ":" ++ idValue n
}.

(** A relationship between declared variables. *)
Definition relOk (vars : list string) (rel : Rel) : bool :=
  setHas (from rel) vars && setHas (to rel) vars && typeOk (type rel).

(** Nodes and relationships on which a run can be read back: every node and
    relationship as above; variables and keys without repetition; and a first
    section that holds neither an ampersand nor the keyword. *)
Definition wellFormed (ns : list Node) (rels : list Rel) (schema : Schema)
  : bool :=
  forallb nodeOk ns
  && distinct (map originalVar ns) && distinct (map key ns)
  && forallb (relOk (map originalVar ns)) rels
  && negb (mem "&" (constraintsOf ns schema))
  && quiet (constraintsOf ns schema).

(** The input of the corrector, as its parser reads it, holds no node or is
    well formed. *)
Definition wellFormedInput (rawCypher : string) (schema : Schema) : bool :=
  let '(ns, rels) := parseCypher (fixHtmlEntities rawCypher) in
  match ns with
  | [] => true
  | _ :: _ => wellFormed ns rels schema
  end.

End WellFormed.

(** ** A portfolio for the corrector *)

Module CorrectorScenario.
Import FormatCypher.

(** A party, its account, two trades, a security, an investment and a
    merchant; relationships written against the canonical direction, one
    under a type the corrector renames, and one with an escaped arrow. *)
Definition portfolioInput : string :=
  "MERGE (p:Party {partyId: 'P1'})" ++ nl
  ++ "MERGE (a:Account {accountId: 'A1'})" ++ nl
  ++ "MERGE (t:Trade {tradeId: 'T1'})" ++ nl
  ++ "MERGE (t2:Trade {tradeId: 'T2'})" ++ nl
  ++ "MERGE (s:Security {securityId: 'S1'})" ++ nl
  ++ "MERGE (i:Investment {investmentId: 'I1'})" ++ nl
  ++ "MERGE (m:Merchant {id: 'M1'})" ++ nl
  ++ "MERGE (a)-[:HAS_ACCOUNT]->(p)" ++ nl
  ++ "MERGE (t)-[:EXECUTED_TRADE]->(a)" ++ nl
  ++ "MERGE (a)-[:MADE_INVESTMENT]->(i)" ++ nl
  ++ "MERGE (s)-[:HELD_IN_POSITION]->(i)" ++ nl
  ++ "MERGE (m)-[:KNOWS]-&gt;(p)" ++ nl
  ++ "MERGE (t)-[:ON_SECURITY]->(s)".

Definition portfolioSchema : Schema :=
  mkSchema (Some [("Party", Some ["partyId"]);
                  ("Account", Some ["accountId"]);
                  ("Trade", Some ["tradeId"; "accountId"]);
                  ("Security", Some ["securityId"])]).

End CorrectorScenario.

(** ** The delays of the retry executor *)

Module RetrySchedule.
Import Exn.

(** The delays [retryWithBackoff] sleeps before its first [n] retries: the
    initial delay, then each time the delay times the multiplier, capped. *)
Fixpoint backoffSchedule (n : nat) (delay multiplier maxDelay : Z) : list Z :=
  match n with
  | O => []
  | S k =>
      delay :: backoffSchedule k (Z.min (delay * multiplier) maxDelay)
                 multiplier maxDelay
  end.

(** The error object with message and code in upper case. *)
Definition shouted (error : JsError) : JsError :=
  mkError (option_map Js.toUpperCase (message error))
    (option_map Js.toUpperCase (code error)) (status error).

(** Whether the message and the code of an error hold characters of the
    ASCII range only, the range on which [Js.toUpperCase] is the case mapping
    of JavaScript. *)
Definition asciiString (s : string) : bool :=
  forallb (fun c => (nat_of_ascii c <? 128)%nat) (list_ascii_of_string s).

Definition asciiError (error : JsError) : bool :=
  match message error with Some m => asciiString m | None => true end
  && match code error with Some c => asciiString c | None => true end.

(** An operation that fails twice with a timeout and then returns its count. *)
Definition thirdTimeLucky (n : nat) : (nat + JsError) * nat :=
  if (n <? 2)%nat then (inr (errorOf "request timeout"), S n)
  else (inl n, S n).

(** An operation that times out once and then fails with a syntax error. *)
Definition timeoutThenSyntax (n : nat) : (nat + JsError) * nat :=
  if (n <? 1)%nat then (inr (errorOf "request timeout"), S n)
  else (inr (errorOf "syntax error near MERGE"), S n).

End RetrySchedule.

(** ** The chunks of a run, listed *)

Module ChunkWindows.
Import Chunking.

(** The chunk the loop pushes when it stands at [startIdx]: lines 37-52. *)
Definition chunkAt (words : list string) (chunkSizeWords startIdx chunkIndex : Z)
  : Chunk :=
  let len := Z.of_nat (List.length words) in
  let endIdx := Z.min (startIdx + chunkSizeWords) len in
  let chunkWords := Js.sliceList words startIdx endIdx in
  let chunkText := Js.join " " chunkWords in
  let textBeforeChunk := Js.join " " (Js.sliceList words 0 startIdx) in
  let textStart :=
    (strlen textBeforeChunk
     + (if (strlen textBeforeChunk >? 0)%Z then 1 else 0))%Z in
  mkChunk chunkText textStart (textStart + strlen chunkText)%Z
    (Z.of_nat (List.length chunkWords)) chunkIndex.

(** The chunks pushed from [startIdx] on, at most [n] of them. *)
Fixpoint windows (n : nat) (words : list string)
  (chunkSizeWords step startIdx chunkIndex : Z) : list Chunk :=
  match n with
  | O => []
  | S k =>
      chunkAt words chunkSizeWords startIdx chunkIndex
      :: (if (startIdx + step >=? Z.of_nat (List.length words))%Z then []
          else windows k words chunkSizeWords step (startIdx + step)%Z
                 (chunkIndex + 1)%Z)
  end.

(** The text with every run of white space written as one space. *)
Definition normalized (text : string) : string :=
  Js.join " " (Js.splitWs text).

(** [s.substring(a, b)] for [0 <= a <= b]. *)
Definition substring (a b : Z) (s : string) : string :=
  String.substring (Z.to_nat a) (Z.to_nat (b - a)) s.

(** Each chunk starts no later than one character after the one before it
    ends. *)
Fixpoint gapless (chunks : list Chunk) : Prop :=
  match chunks with
  | c :: ((c' :: _) as rest) =>
      (startIndex c' <= endIndex c + 1)%Z /\ gapless rest
  | _ => True
  end.

Definition tenWords : string := "a b c d e f g h i j".

End ChunkWindows.

(** ** Texts of statements *)

Module StatementTexts.
Import Neo4jIngest.

(** The last character of a text, or [d] when the text is empty. *)
Fixpoint lastChar (s : string) (d : option ascii) : option ascii :=
  match s with
  | EmptyString => d
  | String c t => lastChar t (Some c)
  end.

(** The text holds no quote character. *)
Definition quoteFree (s : string) : bool :=
  CharDefs.allChars (fun c => negb (isQuote c)) s.

(** The text holds neither a quote character nor a semicolon. *)
Definition plainText (s : string) : bool :=
  CharDefs.allChars (fun c => negb (isQuote c) && negb (Ascii.eqb c ";")) s.

(** The text starts with a character that is not white space, or is empty. *)
Definition headKept (f : ascii -> bool) (s : string) : Prop :=
  match s with
  | String c _ => f c = false
  | EmptyString => True
  end.

End StatementTexts.

(** ** What a run leaves of the stores *)

Module StoreFrames.
Import Exn Store Neo4jIngest IngestScenario.

(** The records and the graph of [w'] are those of [w]: only the log of
    graph-store calls may differ. *)
Definition sameStores (w w' : World) : Prop :=
  document w' = document w /\ fullResult w' = fullResult w
  /\ chunks w' = chunks w /\ chunkResults w' = chunkResults w
  /\ graph w' = graph w.

(** The graph of [w'] is the graph of [w] with statements added at its end. *)
Definition grown (w w' : World) : Prop :=
  exists added, graph w' = (graph w ++ added)%list.

(** A graph store whose [EXPLAIN] rejects one statement. *)
Definition syntaxError : JsError := errorOf "Invalid input near MERGE".

Definition explainRejecting (bad : string) : Neo4j :=
  mkNeo4j (fun s => if String.eqb s bad then Some syntaxError else None)
    (fun _ _ => inl (Some (mkCounters 0 1))).

(** The first statement of [tradeProgram], as [splitCypherStatements] cuts
    it. *)
Definition partyConstraint : string :=
  "/* --- 1) Add uniqueness constraints (run once) --- */"
  ++ FormatCypher.nl ++ FormatCypher.nl ++ constraintOn "p" "Party" "partyId".

(** A chunk whose program holds one constraint and nothing to write. *)
Definition constraintProgram : string :=
  constraintOn "a" "Account" "accountId" ++ ";".

Definition constraintWorld : World :=
  mkWorld (Some (mkDocument "cypher_generated" None 0)) None
    [(0, mkChunkDoc "cypher_generated" None)]
    [(0, mkResult "generated" None constraintProgram 0 0)]
    [] [].

(** The trade document in chunked mode, with a second chunk whose result is
    missing. *)
Definition chunkedWorld : World :=
  mkWorld (Some (mkDocument "cypher_generated" None 0)) None
    [(0, mkChunkDoc "cypher_generated" None);
     (1, mkChunkDoc "cypher_generated" None)]
    [(0, mkResult "generated" None tradeProgram 0 0)]
    [] [].

End StoreFrames.

(** ** The constraints of a schema *)

Module ConstraintNotions.
Import Exn Store FormatCypher ConstraintSetup.

(** The schema object with these node types. *)
Definition schemaOf (entries : list (string * list string)) : Schema :=
  mkSchema (Some (map (fun e => (fst e, Some (snd e))) entries)).

(** The labels and properties that get a constraint: for each label its
    true identifier properties, or its generic ones when it has none. *)
Definition candidatesOf (entry : string * list string)
  : list (string * string) :=
  let labelLower := Js.toLowerCase (fst entry) in
  let trueIdProps :=
    filter (fun p => trueIdPatternTest labelLower (Js.toLowerCase p))
      (snd entry) in
  map (fun p => (fst entry, p))
    match trueIdProps with
    | [] => filter (fun p => genericIdTest false (Js.toLowerCase p)) (snd entry)
    | _ :: _ => trueIdProps
    end.

(** The constraint [generateConstraints] writes a line for, given the label
    and the property as the schema spells it. *)
Definition lineOf (lp : string * string) : Constraint :=
  mkConstraint (fst lp) (normalizeProp (snd lp)) (constraintVarName (fst lp)).

(** A session that never throws. *)
Definition neverFails : World -> string -> bool := fun _ _ => false.

End ConstraintNotions.

(** ** Schemas as the extraction returns them *)

Module SchemaNotions.
Import Exn JsValue SchemaValidation.

(** A value that passes the first test of [validateSchema]: an object or
    an array. *)
Definition objectLike (schema : Json) : bool :=
  truthy schema && typeofObject schema.

(** The elements of the [relationships] array of a schema; none when the
    property is not an array. *)
Definition relationshipsOf (schema : Json) : list Json :=
  match getProp "relationships" schema with
  | Some (JArr items _) => items
  | _ => []
  end.

(** The values [Object.entries(schema.nodes)] lists. *)
Definition nodeValues (schema : Json) : list Json :=
  match getProp "nodes" schema with
  | Some nodes => entryValues nodes
  | None => []
  end.

Definition notObjectError : JsError :=
  errorOf "Invalid schema format: schema must be an object".

Definition arrayNodesError : JsError :=
  errorOf "Invalid schema format: nodes should be an object, not an array".

(** A relationship with a type and both ends. *)
Definition relObject (ty f t : string) : Json :=
  JObj [("type", JStr ty); ("from", JStr f); ("to", JStr t)].

(** An array of strings. *)
Definition strings (xs : list string) : Json := JArr (map JStr xs) [].

(** The answer of a model that gave one label a text instead of a property
    array and left one relationship without its target. *)
Definition looseSchema : Json :=
  JObj [("nodes", JObj [("Account", strings ["accountId"]);
                         ("Party", JStr "partyId, name")]);
        ("relationships",
         JArr [relObject "HELD_BY" "Account" "Party";
               JObj [("type", JStr "OWNS"); ("from", JStr "Party")];
               relObject "HAS_ADDRESS" "Party" "Address"] [])].

(** That answer, cleaned. *)
Definition cleanedLooseSchema : Json :=
  JObj [("nodes", JObj [("Account", strings ["accountId"]);
                         ("Party", JArr [] [])]);
        ("relationships",
         JArr [relObject "HELD_BY" "Account" "Party";
               relObject "HAS_ADDRESS" "Party" "Address"] [])].

(** The same answer with a [null] among the relationships. *)
Definition schemaWithNull : Json :=
  JObj [("nodes", JObj [("Account", strings ["accountId"])]);
        ("relationships",
         JArr [relObject "HELD_BY" "Account" "Party"; JNull] [])].

End SchemaNotions.

(** ** Documents to classify *)

Module DocumentNotions.
Import DocumentType.

(** The five document types. *)
Definition documentTypes : list string :=
  ["business"; "financial"; "technical"; "legal"; "general"].

(** A text whose only keyword lies after the sample. *)
Definition paddedText : string := Js.spaces sampleLength.

End DocumentNotions.

(** ** What the logger hides *)

Module LoggerNotions.
Import JsValue Logger.

(** The key, in lower case, holds one of the three words that can match. *)
Definition namesSecret (key : string) : bool :=
  Js.includes "password" (Js.toLowerCase key)
  || Js.includes "token" (Js.toLowerCase key)
  || Js.includes "secret" (Js.toLowerCase key).

(** One property after sanitizing. *)
Definition hidden (kv : string * Json) : string * Json :=
  if namesSecret (fst kv) then (fst kv, redacted) else kv.

(** The options of a call as they could be logged. *)
Definition llmOptions : Js.Map Json :=
  [("model", JStr "deepseek-r1:7b"); ("apiKey", JStr "hf_abc");
   ("authToken", JStr "t0k"); ("dbPassword", JStr "pw")].

End LoggerNotions.

(* ===================================================================== *)
(** * Part III: properties                                                *)
(* ===================================================================== *)

(** ** Literal replacement *)

Module JsFacts.
Import Js StringAux.

Lemma includes_cons_false p c t :
  includes p (String c t) = false ->
  startsWith p (String c t) = false /\ includes p t = false.
Proof.
  simpl. destruct p as [|a p'].
  - discriminate.
  - intros H. apply orb_false_iff in H. exact H.
Qed.

Lemma includes_nil q a : includes (String a q) EmptyString = false.
Proof. reflexivity. Qed.

Lemma includes_step p c t :
  includes p (String c t) = startsWith p (String c t) || includes p t.
Proof. destruct p; reflexivity. Qed.

(** Where the pattern does not occur, replacing changes nothing. *)
Lemma replaceAll_absent p r s :
  includes p s = false -> replaceAll p r s = s.
Proof.
  unfold replaceAll. induction s as [|c t IH]; intros H.
  - reflexivity.
  - apply includes_cons_false in H. destruct H as [Hs Ht].
    cbn [replaceAllFrom]. rewrite Hs. f_equal. apply IH. exact Ht.
Qed.

Lemma startsWith_disjoint_head r q a x b :
  charsDisjoint (String a r) (String b q) = true ->
  startsWith (String b q) (String a x) = false.
Proof.
  simpl. intros H. apply andb_true_iff in H. destruct H as [H _].
  apply negb_true_iff in H. apply orb_false_iff in H. destruct H as [H _].
  rewrite Ascii.eqb_sym. rewrite H. reflexivity.
Qed.

Lemma charsDisjoint_tail_r a r q :
  charsDisjoint (String a r) q = true -> charsDisjoint r q = true.
Proof. simpl. intros H. apply andb_true_iff in H. tauto. Qed.

Lemma mem_tail c b q : mem c (String b q) = false -> mem c q = false.
Proof. simpl. intros H. apply orb_false_iff in H. tauto. Qed.

Lemma charsDisjoint_tail_q r b q :
  charsDisjoint r (String b q) = true -> charsDisjoint r q = true.
Proof.
  induction r as [|a r IH]; simpl; intros H.
  - reflexivity.
  - apply andb_true_iff in H. destruct H as [H1 H2].
    apply negb_true_iff in H1. apply mem_tail in H1.
    rewrite H1. simpl. apply IH. exact H2.
Qed.

(** An occurrence cannot begin inside a replacement whose characters the
    searched text does not use. *)
Lemma includes_app_disjoint r b q x :
  charsDisjoint r (String b q) = true ->
  includes (String b q) (r ++ x) = includes (String b q) x.
Proof.
  induction r as [|a r IH]; intros H.
  - reflexivity.
  - change (String a r ++ x) with (String a (r ++ x)).
    rewrite includes_step.
    rewrite (startsWith_disjoint_head r q a (r ++ x) b) by exact H.
    simpl orb. apply IH. apply charsDisjoint_tail_r in H. exact H.
Qed.

(** The scan copies what it does not replace: a text [q] at the start of the
    result, sharing no character with the replacement, was at the start of the
    input, where the pattern did not match. *)
Lemma startsWith_replaceAll_inv p a r q :
  forall b s,
    charsDisjoint (String a r) (String b q) = true ->
    startsWith (String b q) (replaceAllFrom p (String a r) 0 s) = true ->
    startsWith (String b q) s = true /\ startsWith p s = false.
Proof.
  induction q as [|b' q IH]; intros b s Hd H.
  - destruct s as [|c t]; [discriminate|].
    cbn [replaceAllFrom] in H.
    destruct (startsWith p (String c t)) eqn:Hp.
    + change (String a r ++ ?x) with (String a (r ++ x)) in H.
      rewrite (startsWith_disjoint_head r EmptyString a _ b Hd) in H.
      discriminate.
    + split; [|reflexivity].
      simpl in H |- *. destruct (Ascii.eqb b c); [reflexivity|discriminate].
  - destruct s as [|c t]; [discriminate|].
    cbn [replaceAllFrom] in H.
    destruct (startsWith p (String c t)) eqn:Hp.
    + change (String a r ++ ?x) with (String a (r ++ x)) in H.
      rewrite (startsWith_disjoint_head r (String b' q) a _ b Hd) in H.
      discriminate.
    + split; [|reflexivity].
      cbn [startsWith] in H |- *.
      apply andb_true_iff in H. destruct H as [Hbc H].
      rewrite Hbc. simpl andb.
      apply (IH b' t).
      * apply charsDisjoint_tail_q in Hd. exact Hd.
      * exact H.
Qed.

(** Replacing creates no occurrence of a text that shares no character with
    the replacement. *)
Lemma replaceAllFrom_keeps_absent p a r b q :
  charsDisjoint (String a r) (String b q) = true ->
  forall s skip,
    includes (String b q) s = false ->
    includes (String b q) (replaceAllFrom p (String a r) skip s) = false.
Proof.
  intros Hd. induction s as [|c t IH]; intros skip H.
  - reflexivity.
  - apply includes_cons_false in H. destruct H as [Hs Ht].
    cbn [replaceAllFrom]. destruct skip as [|k].
    + destruct (startsWith p (String c t)) eqn:Hp.
      * rewrite includes_app_disjoint by exact Hd. apply IH. exact Ht.
      * rewrite includes_step. rewrite (IH 0 Ht). rewrite orb_false_r.
        destruct (startsWith (String b q)
                    (String c (replaceAllFrom p (String a r) 0 t))) eqn:Hq;
          [|reflexivity].
        assert (Hq' : startsWith (String b q)
                        (replaceAllFrom p (String a r) 0 (String c t)) = true).
        { cbn [replaceAllFrom]. rewrite Hp. exact Hq. }
        apply (startsWith_replaceAll_inv p a r q b _ Hd) in Hq'.
        destruct Hq' as [Hq' _]. rewrite Hq' in Hs. discriminate.
    + apply IH. exact Ht.
Qed.

(** After replacing, the pattern is gone, when the replacement shares no
    character with it. *)
Lemma replaceAllFrom_removes a r b q :
  charsDisjoint (String a r) (String b q) = true ->
  forall s skip,
    includes (String b q) (replaceAllFrom (String b q) (String a r) skip s) = false.
Proof.
  intros Hd. induction s as [|c t IH]; intros skip.
  - reflexivity.
  - cbn [replaceAllFrom]. destruct skip as [|k].
    + destruct (startsWith (String b q) (String c t)) eqn:Hp.
      * rewrite includes_app_disjoint by exact Hd. apply IH.
      * rewrite includes_step. rewrite (IH 0). rewrite orb_false_r.
        destruct (startsWith (String b q)
                    (String c (replaceAllFrom (String b q) (String a r) 0 t)))
          eqn:Hq; [|reflexivity].
        assert (Hq' : startsWith (String b q)
                        (replaceAllFrom (String b q) (String a r) 0 (String c t))
                      = true).
        { cbn [replaceAllFrom]. rewrite Hp. exact Hq. }
        apply (startsWith_replaceAll_inv (String b q) a r q b _ Hd) in Hq'.
        destruct Hq' as [Hq' _]. rewrite Hq' in Hp. discriminate.
    + apply IH.
Qed.

(** A text that does not occur is not the tail of a longer occurrence. *)
Lemma includes_longer a q s :
  includes q s = false -> includes (String a q) s = false.
Proof.
  induction s as [|c t IH]; intros H.
  - reflexivity.
  - rewrite includes_step in H. apply orb_false_iff in H. destruct H as [Hs Ht].
    rewrite includes_step. rewrite (IH Ht). rewrite orb_false_r.
    cbn [startsWith]. destruct (Ascii.eqb a c); [|reflexivity]. simpl andb.
    destruct t as [|d u].
    + destruct q; [discriminate Hs|reflexivity].
    + rewrite includes_step in Ht. apply orb_false_iff in Ht. tauto.
Qed.

End JsFacts.

(** ** TextChunker *)

Module ChunkingFacts.
Import Chunking.

Lemma chunkLoop_stuck words size overlap :
  (size - overlap <= 0)%Z ->
  forall fuel startIdx ci acc,
    (startIdx < Z.of_nat (List.length words))%Z ->
    chunkLoop fuel words size overlap startIdx ci acc = None.
Proof.
  intros Hstep. induction fuel as [|fuel IH]; intros startIdx ci acc Hlt.
  - reflexivity.
  - cbn [chunkLoop].
    destruct (Z.ltb_spec startIdx (Z.of_nat (List.length words))) as [_|Hge];
      [|lia].
    rewrite Z.geb_leb.
    destruct (Z.leb_spec (Z.of_nat (List.length words))
                (startIdx + (size - overlap))) as [Hle|Hgt]; [lia|].
    apply IH. lia.
Qed.

Lemma chunkLoop_returns words size overlap :
  (1 <= size - overlap)%Z ->
  forall fuel startIdx ci acc,
    (0 < fuel)%nat ->
    (Z.of_nat (List.length words) - startIdx < Z.of_nat fuel)%Z ->
    exists chunks, chunkLoop fuel words size overlap startIdx ci acc = Some chunks.
Proof.
  intros Hstep. induction fuel as [|fuel IH]; intros startIdx ci acc H0 Hfuel.
  - lia.
  - cbn [chunkLoop].
    destruct (Z.ltb_spec startIdx (Z.of_nat (List.length words))) as [Hlt|Hge].
    + rewrite Z.geb_leb.
      destruct (Z.leb_spec (Z.of_nat (List.length words))
                  (startIdx + (size - overlap))) as [Hle|Hgt].
      * eexists. reflexivity.
      * apply IH; lia.
    + eexists. reflexivity.
Qed.

Lemma splitWsFrom_length s :
  forall cur prevWs, (0 < List.length (Js.splitWsFrom s cur prevWs))%nat.
Proof.
  induction s as [|c t IH]; intros cur prevWs; simpl.
  - lia.
  - destruct (Js.isSpace c).
    + destruct prevWs; [apply IH|simpl; lia].
    + apply IH.
Qed.

(** With a positive step the chunker returns: one round of the loop per word
    is enough. *)
Lemma chunkText_returns_when_step_positive text size overlap :
  (overlap < size)%Z ->
  exists chunks,
    chunkText (S (List.length (Js.splitWs text))) text size overlap = Some chunks.
Proof.
  intros Hstep. unfold chunkText.
  destruct (String.length (Js.trim text) =? 0)%nat; [eexists; reflexivity|].
  destruct (Z.of_nat (List.length (Js.splitWs text)) <=? size)%Z;
    [eexists; reflexivity|].
  apply chunkLoop_returns; lia.
Qed.

(** C4.  The step of the window is [chunkSizeWords - overlapWords] as written,
    with no lower bound: when the text does not fit in one window and the
    overlap is at least the window, the start never moves forward and the loop
    never ends, whatever the number of rounds it is given. *)
Theorem chunkText_no_progress_when_overlap_reaches_window :
  forall fuel text chunkSizeWords overlapWords,
    String.length (Js.trim text) <> 0 ->
    (chunkSizeWords < Z.of_nat (List.length (Js.splitWs text)))%Z ->
    (chunkSizeWords <= overlapWords)%Z ->
    chunkText fuel text chunkSizeWords overlapWords = None.
Proof.
  intros fuel text size overlap Htrim Hfit Hov. unfold chunkText.
  destruct (Nat.eqb_spec (String.length (Js.trim text)) 0) as [E|_];
    [contradiction|].
  destruct (Z.leb_spec (Z.of_nat (List.length (Js.splitWs text))) size)
    as [Hle|_]; [lia|].
  apply chunkLoop_stuck; [lia|].
  pose proof (splitWsFrom_length text EmptyString false) as Hlen.
  unfold Js.splitWs. lia.
Qed.

Lemma chunkText_no_progress_witness :
  chunkText 1000 "a b c" 2 2 = None.
Proof.
  apply chunkText_no_progress_when_overlap_reaches_window.
  - vm_compute. discriminate.
  - vm_compute. reflexivity.
  - lia.
Defined.

End ChunkingFacts.

(** ** RetryExecutor *)

Module RetryFacts.
Import Exn Retry Scenario.

Section AlwaysFailing.

Context {W R : Type}.
Variable fn : W -> (R + JsError) * W.
Variable err : W -> JsError.
Hypothesis fails : forall w, fst (fn w) = inr (err w).

Lemma worldAfter_succ k : forall w,
  worldAfter fn (S k) w = snd (fn (worldAfter fn k w)).
Proof.
  induction k as [|k IH]; intros w.
  - reflexivity.
  - change (worldAfter fn (S (S k)) w) with (worldAfter fn (S k) (snd (fn w))).
    rewrite IH. reflexivity.
Qed.

Lemma retryLoop_step rounds maxRetries_ maxDelay_ multiplier shouldRetry_
  attempt delay lastError w calls_ sleeps_ error w' :
  fn w = (inr error, w') ->
  shouldRetry_ error = true ->
  retryLoop fn (S rounds) maxRetries_ maxDelay_ multiplier shouldRetry_
    attempt delay lastError w calls_ sleeps_
  = if (attempt >=? maxRetries_)%Z
    then mkRun (Throw (Some error)) w' (S calls_) sleeps_
    else retryLoop fn rounds maxRetries_ maxDelay_ multiplier shouldRetry_
           (attempt + 1)%Z (Z.min (delay * multiplier) maxDelay_)
           (Some error) w' (S calls_) (sleeps_ ++ [delay])%list.
Proof. intros Efn Hr. cbn [retryLoop]. rewrite Efn, Hr. reflexivity. Qed.

(** An operation that always throws an error the predicate accepts is called
    once per round, and the error of the last call is thrown. *)
Lemma retryLoop_always_fails maxRetries_ maxDelay_ multiplier shouldRetry_ :
  (forall w, shouldRetry_ (err w) = true) ->
  forall rounds attempt delay lastError w calls_ sleeps_,
    (0 <= attempt)%Z ->
    S rounds = Z.to_nat (maxRetries_ + 1 - attempt) ->
    let run := retryLoop fn (S rounds) maxRetries_ maxDelay_ multiplier
                 shouldRetry_ attempt delay lastError w calls_ sleeps_ in
    calls run = (calls_ + S rounds)%nat
    /\ outcome run = Throw (Some (err (worldAfter fn rounds w)))
    /\ world run = worldAfter fn (S rounds) w
    /\ List.length (sleeps run) = (List.length sleeps_ + rounds)%nat.
Proof.
  intros Hretry. induction rounds as [|rounds IH];
    intros attempt delay lastError w calls_ sleeps_ Hatt Hrounds; cbv zeta;
    pose proof (fails w) as Hf;
    destruct (fn w) as [[r|e] w'] eqn:Efn; simpl in Hf; try discriminate;
    injection Hf as ->;
    rewrite (retryLoop_step _ _ _ _ _ _ _ _ _ _ _ _ _ Efn (Hretry w));
    rewrite Z.geb_leb;
    destruct (Z.leb_spec maxRetries_ attempt) as [Hle|Hlt]; try lia.
  - simpl. rewrite Efn. simpl. repeat split; lia.
  - specialize (IH (attempt + 1)%Z (Z.min (delay * multiplier) maxDelay_)
                  (Some (err w)) w' (S calls_) (sleeps_ ++ [delay])%list).
    cbv zeta in IH. destruct IH as (Hc & Ho & Hw & Hs); [lia|lia|].
    change (worldAfter fn (S rounds) w) with (worldAfter fn rounds (snd (fn w))).
    change (worldAfter fn (S (S rounds)) w)
      with (worldAfter fn (S rounds) (snd (fn w))).
    rewrite Efn. simpl snd.
    rewrite Hc, Ho, Hw, Hs. rewrite length_app. simpl. repeat split; lia.
Qed.

End AlwaysFailing.

(** C5, as the code has it.  The option is [maxRetries], the number of
    retries after the first call: an operation that always throws a retryable
    error is called [maxRetries + 1] times, the executor sleeps [maxRetries]
    times, and the error of the last call is thrown. *)
Theorem retryWithBackoff_calls_maxRetries_plus_one :
  forall (W R : Type) (fn : W -> (R + JsError) * W) (err : W -> JsError)
         (n : nat) (options : Options) (w : W),
    maxRetries options = Some (Z.of_nat n) ->
    (forall w, fst (fn w) = inr (err w)) ->
    (forall w, orDefault (shouldRetry options) (fun _ => true) (err w) = true) ->
    let run := retryWithBackoff fn options w in
    calls run = S n
    /\ outcome run = Throw (Some (err (worldAfter fn n w)))
    /\ List.length (sleeps run) = n.
Proof.
  intros W R fn err n options w Hmax Hfails Hretry. unfold retryWithBackoff.
  rewrite Hmax. cbn [orDefault].
  replace (Z.to_nat (Z.of_nat n + 1)) with (S n) by lia.
  pose proof (retryLoop_always_fails fn err Hfails (Z.of_nat n)
                (orDefault (maxDelay options) 30000%Z)
                (orDefault (backoffMultiplier options) 2%Z)
                (orDefault (shouldRetry options) (fun _ => true)) Hretry
                n 0%Z (orDefault (initialDelay options) 1000%Z) None w 0 [])
    as H.
  cbv zeta in H. destruct H as (Hc & Ho & _ & Hs); [lia|lia|].
  cbv zeta. rewrite Hc, Ho, Hs. simpl. repeat split.
Qed.

Lemma retryWithBackoff_calls_maxRetries_plus_one_witness :
  calls (retryWithBackoff alwaysTimeout threeRetries 0) = 4
  /\ outcome (retryWithBackoff alwaysTimeout threeRetries 0)
     = Throw (Some (errorOf "request timeout"))
  /\ List.length (sleeps (retryWithBackoff alwaysTimeout threeRetries 0)) = 3.
Proof.
  apply (retryWithBackoff_calls_maxRetries_plus_one nat unit alwaysTimeout
           (fun _ => errorOf "request timeout") 3 threeRetries 0).
  - reflexivity.
  - intros w. reflexivity.
  - intros w. vm_compute. reflexivity.
Defined.

(** C5, as the claim states it, fails: with the retry budget set to 3 an
    operation that always throws a retryable error is called 4 times. *)
Lemma retryWithBackoff_three_is_four_calls :
  calls (retryWithBackoff alwaysTimeout threeRetries 0) <> 3.
Proof. vm_compute. discriminate. Qed.

(** C10.  [extractSchema] passes its classifier under the key [isRetryable];
    [retryWithBackoff] reads [shouldRetry], finds it absent and retries every
    error: whatever the classifier, a schema extraction that always throws is
    called 4 times, the run does not depend on the classifier, and the last
    error is thrown. *)
Theorem extractSchema_retry_never_consults_classifier :
  forall (W R : Type) (fn : W -> (R + JsError) * W) (err : W -> JsError)
         (classifier : JsError -> bool) (w : W),
    (forall w, fst (fn w) = inr (err w)) ->
    let run :=
      retryWithBackoff fn (SchemaExtraction.extractSchemaOptions classifier) w in
    shouldRetry (SchemaExtraction.extractSchemaOptions classifier) = None
    /\ run = retryWithBackoff fn
               (SchemaExtraction.extractSchemaOptions (fun _ => true)) w
    /\ calls run = 4
    /\ outcome run = Throw (Some (err (worldAfter fn 3 w))).
Proof.
  intros W R fn err classifier w Hfails.
  pose proof (retryLoop_always_fails fn err Hfails 3%Z 10000%Z 2%Z
                (fun _ => true) (fun _ => eq_refl) 3 0%Z 1000%Z None w 0 [])
    as H.
  cbv zeta in H. destruct H as (Hc & Ho & _ & _); [lia|reflexivity|].
  cbv zeta. repeat split.
  - exact Hc.
  - exact Ho.
Qed.

Lemma extractSchema_retry_never_consults_classifier_witness :
  isRetryableError (errorOf "validation failed: nodes must be an object") = false
  /\ calls (SchemaExtraction.extractSchemaRetry alwaysInvalid 0) = 4
  /\ outcome (SchemaExtraction.extractSchemaRetry alwaysInvalid 0)
     = Throw (Some (errorOf "validation failed: nodes must be an object")).
Proof.
  split; [vm_compute; reflexivity|].
  apply (extractSchema_retry_never_consults_classifier nat unit alwaysInvalid
           (fun _ => errorOf "validation failed: nodes must be an object")
           isRetryableError 0).
  intros w. reflexivity.
Defined.

End RetryFacts.

(** ** StatementCorrector *)

Module FormatFacts.
Import Js StringAux JsFacts FormatCypher FormatScenario.

(** After the four replacements neither escaped form is left. *)
Lemma fixHtmlEntities_no_entity s :
  includes "&gt;" (fixHtmlEntities s) = false
  /\ includes "&lt;" (fixHtmlEntities s) = false.
Proof.
  unfold fixHtmlEntities, replaceAll. split.
  - apply (replaceAllFrom_keeps_absent "&lt;" "<" EmptyString "&" "gt;");
      [reflexivity|].
    apply (replaceAllFrom_removes ">" EmptyString "&" "gt;"). reflexivity.
  - apply (replaceAllFrom_removes "<" EmptyString "&" "lt;"). reflexivity.
Qed.

(** A text without the two escaped forms is left as it is. *)
Lemma fixHtmlEntities_absent s :
  includes "&gt;" s = false -> includes "&lt;" s = false ->
  fixHtmlEntities s = s.
Proof.
  intros Hgt Hlt. unfold fixHtmlEntities.
  rewrite (replaceAll_absent "-&gt;" "->" s) by (apply includes_longer; exact Hgt).
  rewrite (replaceAll_absent "-&lt;" "<-" s) by (apply includes_longer; exact Hlt).
  rewrite (replaceAll_absent "&gt;" ">" s) by exact Hgt.
  apply replaceAll_absent. exact Hlt.
Qed.

(** One pass of the four replacements is a fixed point of the pass. *)
Lemma fixHtmlEntities_idempotent s :
  fixHtmlEntities (fixHtmlEntities s) = fixHtmlEntities s.
Proof.
  destruct (fixHtmlEntities_no_entity s) as [Hgt Hlt].
  apply fixHtmlEntities_absent; assumption.
Qed.

Lemma formatStructuredCypher_no_nodes rawCypher schema :
  fst (parseCypher (fixHtmlEntities rawCypher)) = [] ->
  formatStructuredCypher rawCypher schema = rawCypher.
Proof.
  unfold formatStructuredCypher. intros H.
  destruct (parseCypher (fixHtmlEntities rawCypher)) as [ns rels].
  simpl in H. subst ns. reflexivity.
Qed.


(** The corrector returns the raw text as it is, or a text that holds neither
    escaped form. *)
Lemma formatStructuredCypher_raw_or_decoded rawCypher schema :
  formatStructuredCypher rawCypher schema = rawCypher
  \/ (includes "&gt;" (formatStructuredCypher rawCypher schema) = false
      /\ includes "&lt;" (formatStructuredCypher rawCypher schema) = false).
Proof.
  unfold formatStructuredCypher.
  destruct (parseCypher (fixHtmlEntities rawCypher)) as [[|n ns] rels].
  - left. reflexivity.
  - right. apply fixHtmlEntities_no_entity.
Qed.





Lemma includes_neq p s t :
  includes p s = true -> includes p t = false -> s <> t.
Proof. intros Hs Ht E. subst t. rewrite Hs in Ht. discriminate. Qed.

(** C8.  When no node-upsert is parsed the corrector returns [rawCypher], the
    text as it came in, and not [cleanedCypher]: whenever the raw text holds
    an escaped form the result is not the decoded text, which is what the
    [catch] path of the same function returns. *)
Theorem formatStructuredCypher_no_nodes_returns_raw_text :
  forall rawCypher schema,
    fst (parseCypher (fixHtmlEntities rawCypher)) = [] ->
    includes "&gt;" rawCypher = true \/ includes "&lt;" rawCypher = true ->
    formatStructuredCypher rawCypher schema = rawCypher
    /\ formatStructuredCypher rawCypher schema <> fixHtmlEntities rawCypher
    /\ formatFallback rawCypher = fixHtmlEntities rawCypher.
Proof.
  intros rawCypher schema Hnodes Hescaped.
  rewrite (formatStructuredCypher_no_nodes rawCypher schema Hnodes).
  split; [reflexivity|]. split; [|reflexivity].
  destruct (fixHtmlEntities_no_entity rawCypher) as [Hgt Hlt].
  destruct Hescaped as [H|H].
  - exact (includes_neq "&gt;" _ _ H Hgt).
  - exact (includes_neq "&lt;" _ _ H Hlt).
Qed.

Lemma formatStructuredCypher_no_nodes_returns_raw_text_witness :
  formatStructuredCypher singleEscaped accountSchema = "(a)-&gt;(b)"
  /\ formatStructuredCypher singleEscaped accountSchema
     <> fixHtmlEntities singleEscaped
  /\ formatFallback singleEscaped = fixHtmlEntities singleEscaped.
Proof.
  apply (formatStructuredCypher_no_nodes_returns_raw_text singleEscaped
           accountSchema).
  - vm_compute. reflexivity.
  - left. vm_compute. reflexivity.
Defined.

End FormatFacts.

(** ** StatementCorrector: the second run

    The text of a run on well-formed input is read back by the parser as the
    numbered nodes and the edges it lists, and a run on those writes the same
    text. *)

(** *** Maps *)

Module MapFacts.
Import Js Regex StringAux JsFacts FormatCypher Canonical EdgeDefs CharDefs
  PatternDefs RenderDefs WellFormed.

Lemma mapGet_mapSet_same {V} k (v : V) m : mapGet k (mapSet k v m) = Some v.
Proof.
  induction m as [|[k' v'] rest IH]; simpl.
  - rewrite String.eqb_refl. reflexivity.
  - destruct (String.eqb k k') eqn:E; simpl; rewrite E; [reflexivity|exact IH].
Qed.

Lemma mapGet_mapSet_other {V} k k' (v : V) m :
  k <> k' -> mapGet k (mapSet k' v m) = mapGet k m.
Proof.
  intros Hne. induction m as [|[k2 v2] rest IH]; simpl.
  - destruct (String.eqb_spec k k'); [contradiction|reflexivity].
  - destruct (String.eqb_spec k' k2) as [->|Hk2]; simpl.
    + destruct (String.eqb_spec k k2); [contradiction|reflexivity].
    + destruct (String.eqb k k2); [reflexivity|exact IH].
Qed.

End MapFacts.

(** *** Numbered nodes and the maps built from them *)

Module NodeFacts.
Import Js Regex StringAux JsFacts FormatCypher Canonical EdgeDefs CharDefs
  PatternDefs RenderDefs WellFormed MapFacts.

Lemma map_id_on {A} (f : A -> A) : forall l,
  (forall x, In x l -> f x = x) -> map f l = l.
Proof.
  induction l as [|x l IH]; intros H.
  - reflexivity.
  - cbn [map]. rewrite (H x (or_introl eq_refl)). f_equal. apply IH.
    intros y Hy. apply H. right. exact Hy.
Qed.

Lemma Distinct_tail n N : Distinct (n :: N) -> Distinct N.
Proof.
  intros [Hv Hk Ha]. split.
  - inversion Hv; assumption.
  - inversion Hk; assumption.
  - intros a b Ha' Hb'. apply Ha; right; assumption.
Qed.

Lemma Distinct_head_var n N n' :
  Distinct (n :: N) -> In n' N ->
  originalVar n' <> originalVar n /\ key n' <> originalVar n
  /\ originalVar n' <> key n /\ key n' <> key n.
Proof.
  intros [Hv Hk Ha] Hin. simpl in Hv, Hk. inversion Hv as [|? ? Hv1 _]; subst.
  inversion Hk as [|? ? Hk1 _]; subst.
  repeat split.
  - intros E. apply Hv1. rewrite <- E. apply in_map. exact Hin.
  - intros E. apply (Ha n n'); [left; reflexivity|right; exact Hin|].
    symmetry. exact E.
  - apply Ha; [right; exact Hin|left; reflexivity].
  - intros E. apply Hk1. rewrite <- E. apply in_map. exact Hin.
Qed.

Lemma assign_frame k : forall N i V,
  (forall n, In n N -> originalVar n <> k /\ key n <> k) ->
  mapGet k (assignVariables N i V) = mapGet k V.
Proof.
  induction N as [|n N IH]; intros i V H.
  - reflexivity.
  - cbn [assignVariables]. rewrite IH.
    + destruct (H n (or_introl eq_refl)) as [Hv Hk].
      rewrite mapGet_mapSet_other by (intros E; apply Hk; symmetry; exact E).
      apply mapGet_mapSet_other. intros E; apply Hv; symmetry; exact E.
    + intros n' Hn'. apply H. right. exact Hn'.
Qed.

Lemma assign_get : forall N i V,
  Distinct N ->
  forall j n, In (j, n) (numbered i N) ->
    mapGet (originalVar n) (assignVariables N i V) = Some (canonicalName j n)
    /\ mapGet (key n) (assignVariables N i V) = Some (canonicalName j n).
Proof.
  induction N as [|n0 N IH]; intros i V HD j n Hin.
  - destruct Hin.
  - cbn [numbered] in Hin. cbn [assignVariables]. destruct Hin as [E|Hin].
    + injection E as <- <-. split.
      * rewrite assign_frame.
        -- rewrite mapGet_mapSet_other.
           ++ apply mapGet_mapSet_same.
           ++ destruct HD as [_ _ Ha]. apply Ha; left; reflexivity.
        -- intros n' Hn'.
           destruct (Distinct_head_var n0 N n' HD Hn') as (A&B&C&D).
           split; assumption.
      * rewrite assign_frame.
        -- apply mapGet_mapSet_same.
        -- intros n' Hn'.
           destruct (Distinct_head_var n0 N n' HD Hn') as (A&B&C&D).
           split; assumption.
    + apply IH; [eapply Distinct_tail; exact HD|exact Hin].
Qed.

Lemma numbered_In_node i N j n : In (j, n) (numbered i N) -> In n N.
Proof.
  revert i. induction N as [|n0 N IH]; intros i H.
  - destruct H.
  - destruct H as [E|H]; [injection E as _ <-; left; reflexivity|].
    right. eapply IH. exact H.
Qed.

Lemma append_assoc (a b c : string) : (a ++ b) ++ c = a ++ (b ++ c).
Proof. induction a; simpl; [reflexivity|rewrite IHa; reflexivity]. Qed.

Lemma append_nil_r (a : string) : a ++ EmptyString = a.
Proof. induction a; simpl; [reflexivity|rewrite IHa; reflexivity]. Qed.

Lemma orElse_some s d : s <> EmptyString -> orElse (Some s) d = s.
Proof. destruct s; [contradiction|reflexivity]. Qed.

(** With distinct keys every node gets its line, named from the map. *)
Lemma nodesLoop_lines (V : Map string) : forall N i sec c nvm,
  NoDup (map key N) ->
  (forall j n, In (j, n) (numbered i N) ->
     mapGet (originalVar n) V = Some (canonicalName j n)
     /\ canonicalName j n <> EmptyString) ->
  (forall n, In n N -> mapGet (key n) nvm = None) ->
  nodesLoop N V sec c nvm = (sec ++ linesOf i N, c + List.length N).
Proof.
  induction N as [|n0 N IH]; intros i sec c nvm Hk HV Hnvm.
  - simpl. unfold linesOf, linesText. simpl. rewrite append_nil_r. f_equal. lia.
  - cbn [nodesLoop]. rewrite (Hnvm n0 (or_introl eq_refl)).
    destruct (HV i n0 (or_introl eq_refl)) as [Hget Hne].
    rewrite Hget. rewrite (orElse_some _ _ Hne).
    inversion Hk as [|? ? Hk1 Hk2]; subst.
    rewrite (IH (S i)).
    + unfold linesOf, linesText. cbn [numbered fold_right fst snd].
      rewrite append_assoc. f_equal. simpl. lia.
    + exact Hk2.
    + intros j n Hin. apply HV. right. exact Hin.
    + intros n Hn. rewrite mapGet_mapSet_other.
      * apply Hnvm. right. exact Hn.
      * intros E. apply Hk1. rewrite <- E. apply in_map. exact Hn.
Qed.

Lemma nodeMap_frame k : forall N (m : Map Node),
  (forall n, In n N -> originalVar n <> k /\ key n <> k) ->
  mapGet k (buildVarToNodeMap N m) = mapGet k m.
Proof.
  induction N as [|n N IH]; intros m H.
  - reflexivity.
  - cbn [buildVarToNodeMap]. rewrite IH.
    + destruct (H n (or_introl eq_refl)) as [Hv Hk].
      rewrite mapGet_mapSet_other by (intros E; apply Hk; symmetry; exact E).
      apply mapGet_mapSet_other. intros E; apply Hv; symmetry; exact E.
    + intros n' Hn'. apply H. right. exact Hn'.
Qed.

Lemma nodeMap_get : forall N (m : Map Node),
  Distinct N -> forall n, In n N ->
  mapGet (originalVar n) (buildVarToNodeMap N m) = Some n.
Proof.
  induction N as [|n0 N IH]; intros m HD n Hin.
  - destruct Hin.
  - cbn [buildVarToNodeMap]. destruct Hin as [<-|Hin].
    + rewrite nodeMap_frame.
      * rewrite mapGet_mapSet_other.
        -- apply mapGet_mapSet_same.
        -- destruct HD as [_ _ Ha]. apply Ha; left; reflexivity.
      * intros n' Hn'. destruct (Distinct_head_var n0 N n' HD Hn') as (A&B&C&D).
        split; assumption.
    + apply IH; [eapply Distinct_tail; exact HD|exact Hin].
Qed.

(** An endpoint that is the variable of a node resolves to the name of the
    node. *)
Lemma resolveVar_mapped N j n :
  Distinct N -> In (j, n) (numbered 1 N) ->
  trim (originalVar n) = originalVar n ->
  canonicalName j n <> EmptyString ->
  resolveVar N (generateSequentialVariables N) (buildVarToNodeMap N [])
    (originalVar n) = canonicalName j n.
Proof.
  intros HD Hin Ht Hne. unfold resolveVar. rewrite Ht.
  rewrite (nodeMap_get N [] HD n (numbered_In_node _ _ _ _ Hin)).
  unfold generateSequentialVariables.
  destruct (assign_get N 1 [] HD j n Hin) as [-> _].
  apply orElse_some. exact Hne.
Qed.

Lemma labelMap_built (V : Map string) : forall N i m,
  (forall j n, In (j, n) (numbered i N) ->
     mapGet (originalVar n) V = Some (canonicalName j n)
     /\ canonicalName j n <> EmptyString) ->
  buildVarToLabelMap N V m = labelMap i N m.
Proof.
  induction N as [|n N IH]; intros i m H.
  - reflexivity.
  - cbn [buildVarToLabelMap labelMap].
    destruct (H i n (or_introl eq_refl)) as [-> Hne].
    destruct (String.eqb_spec (canonicalName i n) EmptyString) as [E|_];
      [contradiction|].
    apply IH. intros j n' Hin. apply H. right. exact Hin.
Qed.

Lemma labelMap_frame k : forall N i m,
  ~ In k (names i N) -> mapGet k (labelMap i N m) = mapGet k m.
Proof.
  induction N as [|n N IH]; intros i m H.
  - reflexivity.
  - cbn [labelMap]. rewrite IH.
    + apply mapGet_mapSet_other. intros E. apply H. left. symmetry. exact E.
    + intros Hin. apply H. right. exact Hin.
Qed.

Lemma labelMap_get : forall N i m j n,
  NoDup (names i N) -> In (j, n) (numbered i N) ->
  mapGet (canonicalName j n) (labelMap i N m) = Some (label n).
Proof.
  induction N as [|n0 N IH]; intros i m j n Hnd Hin.
  - destruct Hin.
  - unfold names in Hnd. cbn [numbered map fst snd] in Hnd.
    inversion Hnd as [|? ? Hn1 Hn2]; subst.
    cbn [labelMap]. destruct Hin as [E|Hin].
    + injection E as <- <-. rewrite labelMap_frame by exact Hn1.
      apply mapGet_mapSet_same.
    + apply IH; [exact Hn2|exact Hin].
Qed.

Lemma namesWith_In lbl : forall N i v,
  In v (namesWith lbl i N) ->
  exists j n,
    In (j, n) (numbered i N) /\ label n = lbl /\ v = canonicalName j n.
Proof.
  intros N i v H. unfold namesWith in H. apply in_map_iff in H.
  destruct H as [[j n] [E H]]. apply filter_In in H. destruct H as [H B].
  apply String.eqb_eq in B. exists j, n. repeat split; [exact H|exact B|].
  symmetry. exact E.
Qed.

Lemma names_In : forall N i j n,
  In (j, n) (numbered i N) -> In (canonicalName j n) (names i N).
Proof.
  intros N i j n H. unfold names.
  apply (in_map (fun jn => canonicalName (fst jn) (snd jn)) _ _ H).
Qed.

(** The mapped names of the nodes of one label are their numbered names. *)
Lemma withLabel_names (V : Map string) lbl : forall N i,
  (forall j n, In (j, n) (numbered i N) ->
     mapGet (originalVar n) V = Some (canonicalName j n)) ->
  map (mappedName V) (withLabel lbl N) = namesWith lbl i N.
Proof.
  induction N as [|n N IH]; intros i H.
  - reflexivity.
  - unfold withLabel, namesWith in *. cbn [numbered filter snd].
    destruct (String.eqb (label n) lbl).
    + cbn [map fst snd]. f_equal.
      * unfold mappedName. rewrite (H i n (or_introl eq_refl)). reflexivity.
      * apply IH. intros j n' Hin. apply H. right. exact Hin.
    + apply IH. intros j n' Hin. apply H. right. exact Hin.
Qed.

End NodeFacts.

(** *** Characters, identifiers and trimming *)

Module CharFacts.
Import Js Regex StringAux JsFacts FormatCypher Canonical EdgeDefs CharDefs
  PatternDefs RenderDefs WellFormed MapFacts NodeFacts.

Lemma allChars_mem f x : forall s,
  allChars f s = true -> f x = false -> mem x s = false.
Proof.
  induction s as [|c t IH]; intros H Hx.
  - reflexivity.
  - cbn [allChars] in H. apply andb_true_iff in H. destruct H as [Hc Ht].
    cbn [mem]. rewrite (IH Ht Hx).
    destruct (Ascii.eqb_spec x c) as [->|_]; [congruence|reflexivity].
Qed.

Lemma allChars_app f : forall a b,
  allChars f (a ++ b) = allChars f a && allChars f b.
Proof.
  induction a as [|c a IH]; intros b.
  - reflexivity.
  - cbn [append allChars]. rewrite IH. apply andb_assoc.
Qed.

Lemma allChars_rev f : forall s, allChars f (rev s) = allChars f s.
Proof.
  induction s as [|c t IH].
  - reflexivity.
  - cbn [rev]. rewrite allChars_app, IH. cbn [allChars].
    rewrite andb_true_r. apply andb_comm.
Qed.

Lemma rev_app : forall a b, rev (a ++ b) = rev b ++ rev a.
Proof.
  induction a as [|c a IH]; intros b.
  - cbn [append rev]. rewrite append_nil_r. reflexivity.
  - cbn [append rev]. rewrite IH, append_assoc. reflexivity.
Qed.

Lemma rev_rev : forall s, rev (rev s) = s.
Proof.
  induction s as [|c t IH].
  - reflexivity.
  - cbn [rev]. rewrite rev_app, IH. reflexivity.
Qed.

Lemma dropWhile_none f : forall s,
  allChars (fun c => negb (f c)) s = true -> dropWhile f s = s.
Proof.
  destruct s as [|c t]; intros H.
  - reflexivity.
  - cbn [allChars] in H. apply andb_true_iff in H. destruct H as [Hc _].
    apply negb_true_iff in Hc. cbn [dropWhile]. rewrite Hc. reflexivity.
Qed.

(** A text without white space is its own trimmed form. *)
Lemma trim_no_space s :
  allChars (fun c => negb (isSpace c)) s = true -> trim s = s.
Proof.
  intros H. unfold trim. rewrite (dropWhile_none _ s H).
  rewrite dropWhile_none by (rewrite allChars_rev; exact H).
  apply rev_rev.
Qed.

Lemma allChars_weaken (f g : ascii -> bool) :
  (forall c, f c = true -> g c = true) ->
  forall s, allChars f s = true -> allChars g s = true.
Proof.
  intros Hfg. induction s as [|c t IH]; intros H.
  - reflexivity.
  - cbn [allChars] in *. apply andb_true_iff in H. destruct H as [Hc Ht].
    rewrite (Hfg c Hc), (IH Ht). reflexivity.
Qed.

Lemma word_not_space c : isWord c = true -> negb (isSpace c) = true.
Proof. destruct c as [[] [] [] [] [] [] [] []]; cbv; congruence. Qed.

Lemma trim_word s : allChars isWord s = true -> trim s = s.
Proof.
  intros H. apply trim_no_space.
  apply (allChars_weaken isWord _ word_not_space s H).
Qed.

Lemma identifier_word s : isIdentifier s = true -> allChars isWord s = true.
Proof. unfold isIdentifier. intros H. apply andb_true_iff in H. tauto. Qed.

Lemma identifier_not_empty s : isIdentifier s = true -> s <> EmptyString.
Proof.
  unfold isIdentifier. intros H. apply andb_true_iff in H. destruct H as [H _].
  apply negb_true_iff in H. apply String.eqb_neq in H. exact H.
Qed.

Lemma mem_app x : forall a b, mem x (a ++ b) = mem x a || mem x b.
Proof.
  induction a as [|c a IH]; intros b.
  - reflexivity.
  - cbn [append mem]. rewrite IH. apply orb_assoc.
Qed.

End CharFacts.

(** *** Edges: keys, final forms, the loop and the completion pass *)

Module EdgeFacts.
Import Js Regex StringAux JsFacts FormatCypher Canonical EdgeDefs CharDefs
  PatternDefs RenderDefs WellFormed MapFacts NodeFacts CharFacts.

Lemma setHas_spec x s : setHas x s = true <-> In x s.
Proof.
  unfold setHas. rewrite existsb_exists. split.
  - intros [y [Hy E]]. apply String.eqb_eq in E. subst y. exact Hy.
  - intros H. exists x. split; [exact H|apply String.eqb_refl].
Qed.

Lemma setHas_false x s : setHas x s = false <-> ~ In x s.
Proof.
  rewrite <- setHas_spec. destruct (setHas x s); split; intros H; congruence.
Qed.

Lemma setAdd_absent x s : setHas x s = false -> setAdd x s = (s ++ [x])%list.
Proof. unfold setAdd. intros ->. reflexivity. Qed.

Lemma setAdd_In x y s : In y (setAdd x s) <-> y = x \/ In y s.
Proof.
  unfold setAdd. destruct (setHas x s) eqn:E.
  - apply setHas_spec in E. split; [tauto|]. intros [->|H]; assumption.
  - rewrite in_app_iff. simpl. split; intros H; intuition congruence.
Qed.

Lemma edgeLines_app a b :
  edgeLines (a ++ b)%list = edgeLines a ++ edgeLines b.
Proof.
  induction a as [|e a IH]; simpl.
  - reflexivity.
  - rewrite IH. rewrite append_assoc. reflexivity.
Qed.

Lemma seenAfter_emitNew : forall es seen,
  seenAfter seen es = (seen ++ map edgeKey (emitNew seen es))%list.
Proof.
  induction es as [|e es IH]; intros seen; simpl.
  - rewrite app_nil_r. reflexivity.
  - rewrite IH. unfold setAdd. destruct (setHas (edgeKey e) seen) eqn:E.
    + reflexivity.
    + simpl. rewrite <- app_assoc. reflexivity.
Qed.

Lemma setAdd_present x s : setHas x s = true -> setAdd x s = s.
Proof. unfold setAdd. intros ->. reflexivity. Qed.

Lemma emitNew_app : forall a b seen,
  emitNew seen (a ++ b)%list
  = (emitNew seen a ++ emitNew (seenAfter seen a) b)%list.
Proof.
  induction a as [|e a IH]; intros b seen.
  - reflexivity.
  - cbn [app emitNew seenAfter]. destruct (setHas (edgeKey e) seen) eqn:E.
    + rewrite (setAdd_present _ _ E). apply IH.
    + cbn [app]. rewrite IH. reflexivity.
Qed.

Lemma seenAfter_In : forall es seen k,
  In k (seenAfter seen es) <-> In k seen \/ In k (map edgeKey es).
Proof.
  induction es as [|e es IH]; intros seen k; simpl.
  - tauto.
  - rewrite IH. rewrite setAdd_In. intuition.
Qed.

Lemma emitNew_NoDup : forall es seen,
  NoDup seen -> NoDup (seen ++ map edgeKey (emitNew seen es))%list.
Proof.
  induction es as [|e es IH]; intros seen Hnd; simpl.
  - rewrite app_nil_r. exact Hnd.
  - destruct (setHas (edgeKey e) seen) eqn:E.
    + apply IH. exact Hnd.
    + cbn [map]. rewrite (setAdd_absent _ _ E).
      specialize (IH (seen ++ [edgeKey e])%list).
      rewrite <- app_assoc in IH. cbn [app] in IH.
      apply IH. apply setHas_false in E.
      apply NoDup_app; [exact Hnd| |].
      * constructor; [intros []|constructor].
      * intros a Ha [<-|[]]. exact (E Ha).
Qed.

Lemma emitNew_subset : forall es seen e,
  In e (emitNew seen es) -> In e es.
Proof.
  induction es as [|e0 es IH]; intros seen e; simpl.
  - tauto.
  - destruct (setHas (edgeKey e0) seen).
    + intros H. right. apply (IH _ _ H).
    + intros [->|H]; [left; reflexivity|right; apply (IH _ _ H)].
Qed.

(** Edges with pairwise distinct keys, none of them seen, are all added. *)
Lemma emitNew_all : forall es seen,
  NoDup (map edgeKey es) ->
  (forall e, In e es -> ~ In (edgeKey e) seen) ->
  emitNew seen es = es.
Proof.
  induction es as [|e es IH]; intros seen Hnd Hseen; simpl.
  - reflexivity.
  - inversion Hnd as [|? ? Hn1 Hn2]; subst.
    destruct (setHas (edgeKey e) seen) eqn:E.
    + apply setHas_spec in E. exfalso. apply (Hseen e (or_introl eq_refl) E).
    + f_equal. apply IH; [exact Hn2|].
      intros e' He' Hin. apply setAdd_In in Hin. destruct Hin as [Hin|Hin].
      * apply Hn1. rewrite <- Hin. apply in_map. exact He'.
      * apply (Hseen e' (or_intror He') Hin).
Qed.

(** Edges whose keys have all been seen add nothing. *)
Lemma emitNew_none : forall es seen,
  (forall e, In e es -> In (edgeKey e) seen) -> emitNew seen es = [].
Proof.
  induction es as [|e es IH]; intros seen H; simpl.
  - reflexivity.
  - destruct (setHas (edgeKey e) seen) eqn:E.
    + apply IH. intros e' He'. apply H. right. exact He'.
    + apply setHas_false in E. exfalso. apply E. apply H. left. reflexivity.
Qed.

Lemma app_sep_inj c : forall a a' x x',
  mem c a = false -> mem c a' = false ->
  a ++ String c x = a' ++ String c x' -> a = a' /\ x = x'.
Proof.
  induction a as [|h a IH]; intros a' x x' Ha Ha' E.
  - destruct a' as [|h' a'].
    + simpl in E. injection E as E. split; [reflexivity|exact E].
    + simpl in E. injection E as E1 E2. subst h'. simpl in Ha'.
      rewrite Ascii.eqb_refl in Ha'. discriminate.
  - destruct a' as [|h' a'].
    + simpl in E. injection E as E1 E2. subst h. simpl in Ha.
      rewrite Ascii.eqb_refl in Ha. discriminate.
    + simpl in E. injection E as E1 E2. subst h'.
      simpl in Ha, Ha'. apply orb_false_iff in Ha, Ha'.
      destruct (IH a' x x' (proj2 Ha) (proj2 Ha') E2) as [-> ->].
      split; reflexivity.
Qed.

Lemma edgeKey_inj e e' :
  readable e = true -> readable e' = true -> edgeKey e = edgeKey e' -> e = e'.
Proof.
  destruct e as [[f ty] t], e' as [[f' ty'] t'].
  unfold readable, edgeKey, relKeyOf.
  intros H H' E. apply andb_true_iff in H, H'.
  destruct H as [Hf Hty], H' as [Hf' Hty'].
  apply negb_true_iff in Hf, Hty, Hf', Hty'.
  change (f ++ String "-" ("[:" ++ ty ++ "]->" ++ t)
          = f' ++ String "-" ("[:" ++ ty' ++ "]->" ++ t')) in E.
  apply app_sep_inj in E; [|assumption|assumption].
  destruct E as [-> E]. simpl in E. injection E as E.
  change (ty ++ String "]" ("->" ++ t) = ty' ++ String "]" ("->" ++ t')) in E.
  apply app_sep_inj in E; [|assumption|assumption].
  destruct E as [-> E]. simpl in E. injection E as E. subst. reflexivity.
Qed.

Section WithLabels.

Variable labels : Map string.

Lemma labelIs_true o lbl : labelIs o lbl = true -> o = Some lbl.
Proof.
  destruct o as [l|]; simpl; [|discriminate].
  intros H. apply String.eqb_eq in H. subst. reflexivity.
Qed.

Ltac split_type ty :=
  destruct (String.eqb_spec ty "HAS_ACCOUNT") as [->|?];
  [|destruct (String.eqb_spec ty "EXECUTED_TRADE") as [->|?];
    [|destruct (String.eqb_spec ty "HELD_IN_POSITION") as [->|?];
      [|destruct (String.eqb_spec ty "HELD_IN_HOLDING") as [->|?];
        [|destruct (String.eqb_spec ty "MADE_INVESTMENT") as [->|?]]]]].

Lemma canonicalize_other ty f t lf lt :
  ty <> "HAS_ACCOUNT" -> ty <> "EXECUTED_TRADE" -> ty <> "HELD_IN_POSITION" ->
  ty <> "HELD_IN_HOLDING" -> ty <> "MADE_INVESTMENT" ->
  canonicalize ty f t lf lt = (f, ty, t).
Proof.
  intros H1 H2 H3 H4 H5. unfold canonicalize.
  rewrite (proj2 (String.eqb_neq _ _) H1), (proj2 (String.eqb_neq _ _) H2),
    (proj2 (String.eqb_neq _ _) H3), (proj2 (String.eqb_neq _ _) H4),
    (proj2 (String.eqb_neq _ _) H5).
  reflexivity.
Qed.

Lemma canonicalize_has_account f t lf lt :
  canonicalize "HAS_ACCOUNT" f t lf lt
  = if labelIs lf "Account" && labelIs lt "Party"
    then (t, "HAS_ACCOUNT", f) else (f, "HAS_ACCOUNT", t).
Proof.
  unfold canonicalize. cbn.
  destruct (labelIs lf "Account" && labelIs lt "Party"); reflexivity.
Qed.

Lemma canonicalize_executed_trade f t lf lt :
  canonicalize "EXECUTED_TRADE" f t lf lt
  = if labelIs lf "Trade" && labelIs lt "Account"
    then (t, "EXECUTED_TRADE", f) else (f, "EXECUTED_TRADE", t).
Proof.
  unfold canonicalize. cbn.
  destruct (labelIs lf "Trade" && labelIs lt "Account"); reflexivity.
Qed.

Lemma canonicalize_held ty f t lf lt :
  ty = "HELD_IN_POSITION" \/ ty = "HELD_IN_HOLDING" ->
  canonicalize ty f t lf lt
  = if labelIs lf "Security" then (t, "IN_SECURITY", f)
    else if labelIs lt "Security" then (f, "IN_SECURITY", t) else (f, ty, t).
Proof.
  intros [->| ->]; unfold canonicalize; cbn;
    destruct (labelIs lf "Security"); try reflexivity;
    destruct (labelIs lt "Security"); reflexivity.
Qed.

(** The rules do not change an edge they have produced. *)
Lemma canon_idempotent e : canon labels (canon labels e) = canon labels e.
Proof.
  destruct e as [[f ty] t]. unfold canon.
  split_type ty.
  - rewrite canonicalize_has_account.
    destruct (labelIs (mapGet f labels) "Account") eqn:E1;
      destruct (labelIs (mapGet t labels) "Party") eqn:E2; simpl andb; cbv iota;
      rewrite canonicalize_has_account; rewrite ?E1, ?E2; simpl andb;
      try reflexivity.
    apply labelIs_true in E1, E2. rewrite E1, E2. reflexivity.
  - rewrite canonicalize_executed_trade.
    destruct (labelIs (mapGet f labels) "Trade") eqn:E1;
      destruct (labelIs (mapGet t labels) "Account") eqn:E2; simpl andb;
      cbv iota;
      rewrite canonicalize_executed_trade; rewrite ?E1, ?E2; simpl andb;
      try reflexivity.
    apply labelIs_true in E1, E2. rewrite E1, E2. reflexivity.
  - rewrite (canonicalize_held "HELD_IN_POSITION") by (left; reflexivity).
    destruct (labelIs (mapGet f labels) "Security") eqn:E1; [reflexivity|].
    destruct (labelIs (mapGet t labels) "Security") eqn:E2; [reflexivity|].
    rewrite (canonicalize_held "HELD_IN_POSITION") by (left; reflexivity).
    rewrite E1, E2. reflexivity.
  - rewrite (canonicalize_held "HELD_IN_HOLDING") by (right; reflexivity).
    destruct (labelIs (mapGet f labels) "Security") eqn:E1; [reflexivity|].
    destruct (labelIs (mapGet t labels) "Security") eqn:E2; [reflexivity|].
    rewrite (canonicalize_held "HELD_IN_HOLDING") by (right; reflexivity).
    rewrite E1, E2. reflexivity.
  - reflexivity.
  - rewrite canonicalize_other by assumption.
    apply canonicalize_other; assumption.
Qed.

Lemma canon_linksInvestment e :
  linksInvestment labels e = true -> canon labels e = e.
Proof.
  destruct e as [[f ty] t]. unfold linksInvestment, canon, canonicalize.
  intros H. apply andb_true_iff in H. destruct H as [H _].
  apply andb_true_iff in H. destruct H as [H _].
  apply String.eqb_eq in H. subst ty. reflexivity.
Qed.

Lemma canon_linksSecurity e :
  linksSecurity labels e = true -> canon labels e = e.
Proof.
  destruct e as [[f ty] t]. unfold linksSecurity, canon, canonicalize.
  intros H. apply andb_true_iff in H. destruct H as [H _].
  apply andb_true_iff in H. destruct H as [H _].
  apply String.eqb_eq in H. subst ty. reflexivity.
Qed.

Lemma canon_linksAccount e :
  linksAccount labels e = true -> canon labels e = e.
Proof.
  destruct e as [[f ty] t]. unfold linksAccount, canon, canonicalize.
  intros H. apply andb_true_iff in H. destruct H as [H _].
  apply andb_true_iff in H. destruct H as [H Hf].
  apply String.eqb_eq in H. subst ty. apply labelIs_true in Hf. rewrite Hf.
  reflexivity.
Qed.

(** The endpoints of the final edge are those of the edge, maybe swapped, and
    its type is the type of the edge or one of the two canonical types. *)
Lemma canon_shape e :
  let '(f, ty, t) := e in
  let '(ff, fty, ft) := canon labels e in
  ((ff = f /\ ft = t) \/ (ff = t /\ ft = f))
  /\ (fty = ty \/ fty = "IN_SECURITY" \/ fty = "HAS_INVESTMENT").
Proof.
  destruct e as [[f ty] t]. unfold canon, canonicalize.
  destruct (String.eqb ty "HAS_ACCOUNT" && labelIs (mapGet f labels) "Account"
            && labelIs (mapGet t labels) "Party");
    destruct (String.eqb ty "EXECUTED_TRADE"
              && labelIs (mapGet f labels) "Trade"
              && labelIs (mapGet t labels) "Account");
    destruct ((String.eqb ty "HELD_IN_POSITION"
               || String.eqb ty "HELD_IN_HOLDING")
              && labelIs (mapGet f labels) "Security");
    destruct ((String.eqb ty "HELD_IN_POSITION"
               || String.eqb ty "HELD_IN_HOLDING")
              && labelIs (mapGet t labels) "Security");
    destruct (String.eqb ty "MADE_INVESTMENT"); simpl; tauto.
Qed.

End WithLabels.

Section WithLabels.

Variable labels : Map string.

Lemma After_nil st : After labels [] st st.
Proof.
  split; simpl; try reflexivity.
  - rewrite append_nil_r. reflexivity.
  - intros v. split; [tauto|]. intros [H|[e [[] _]]]. exact H.
  - intros v. split; [tauto|]. intros [H|[e [[] _]]]. exact H.
  - intros v. split; [tauto|]. intros [H|[e [[] _]]]. exact H.
Qed.

Lemma After_one e st : After labels [e] st (plainStep labels st e).
Proof.
  destruct e as [[f ty] t]. unfold plainStep.
  destruct (canon labels (f, ty, t)) as [[ff fty] ft] eqn:Ec.
  assert (Hta : linksAccount labels (f, ty, t) = true -> ft = t).
  { intros H. apply canon_linksAccount in H. rewrite H in Ec.
    injection Ec as _ _ <-. reflexivity. }
  assert (Hts : linksSecurity labels (f, ty, t) = true -> ff = f).
  { intros H. apply canon_linksSecurity in H. rewrite H in Ec.
    injection Ec as <- _ _. reflexivity. }
  assert (Hlinks :
      (forall v,
          In v (if linksInvestment labels (f, ty, t)
                then setAdd f (investmentSecurityLinks st)
                else investmentSecurityLinks st)
          <-> In v (investmentSecurityLinks st)
              \/ exists e, In e [(f, ty, t)]
                           /\ linksInvestment labels e = true /\ edgeFrom e = v)
      /\ (forall v,
          In v (if linksAccount labels (f, ty, t)
                then setAdd ft (tradeAccountLinks st) else tradeAccountLinks st)
          <-> In v (tradeAccountLinks st)
              \/ exists e, In e [(f, ty, t)]
                           /\ linksAccount labels e = true /\ edgeTo e = v)
      /\ (forall v,
          In v (if linksSecurity labels (f, ty, t)
                then setAdd ff (tradeSecurityLinks st)
                else tradeSecurityLinks st)
          <-> In v (tradeSecurityLinks st)
              \/ exists e, In e [(f, ty, t)]
                           /\ linksSecurity labels e = true /\ edgeFrom e = v)).
  { repeat split.
    - destruct (linksInvestment labels (f, ty, t)) eqn:B.
      + rewrite setAdd_In. intros [->|H]; [right|left; exact H].
        exists (f, ty, t). repeat split; [left; reflexivity|exact B].
      + tauto.
    - intros [H|[e [[<-|[]] [B E]]]].
      + destruct (linksInvestment labels (f, ty, t)); [|exact H].
        apply setAdd_In. right. exact H.
      + rewrite B. apply setAdd_In. left. symmetry. exact E.
    - destruct (linksAccount labels (f, ty, t)) eqn:B.
      + rewrite setAdd_In. intros [->|H]; [right|left; exact H].
        exists (f, ty, t). repeat split; [left; reflexivity|exact B|].
        symmetry. apply Hta. reflexivity.
      + tauto.
    - intros [H|[e [[<-|[]] [B E]]]].
      + destruct (linksAccount labels (f, ty, t)); [|exact H].
        apply setAdd_In. right. exact H.
      + rewrite B. apply setAdd_In. left. rewrite (Hta B). symmetry. exact E.
    - destruct (linksSecurity labels (f, ty, t)) eqn:B.
      + rewrite setAdd_In. intros [->|H]; [right|left; exact H].
        exists (f, ty, t). repeat split; [left; reflexivity|exact B|].
        symmetry. apply Hts. reflexivity.
      + tauto.
    - intros [H|[e [[<-|[]] [B E]]]].
      + destruct (linksSecurity labels (f, ty, t)); [|exact H].
        apply setAdd_In. right. exact H.
      + rewrite B. apply setAdd_In. left. rewrite (Hts B). symmetry. exact E. }
  destruct Hlinks as (L1 & L2 & L3).
  destruct (setHas (relKeyOf ff fty ft) (relationshipSet st)) eqn:Eh;
    (split; [| | |exact L1|exact L2|exact L3]);
    cbn [map emitNew seenAfter relationshipsSection relationshipSet
         nodeCounter];
    rewrite ?Ec; cbn [edgeKey]; rewrite ?Eh;
    cbn [edgeLines fold_right edgeLine];
    rewrite ?append_nil_r; rewrite ?(setAdd_present _ _ Eh); reflexivity.
Qed.

Lemma After_trans R1 R2 st1 st2 st3 :
  After labels R1 st1 st2 -> After labels R2 st2 st3 ->
  After labels (R1 ++ R2) st1 st3.
Proof.
  intros [S1 K1 C1 I1 A1 T1] [S2 K2 C2 I2 A2 T2]. split.
  - rewrite S2, S1, K1. rewrite map_app, emitNew_app, edgeLines_app.
    rewrite append_assoc. reflexivity.
  - rewrite K2, K1. rewrite map_app. clear.
    generalize (relationshipSet st1).
    induction (map (canon labels) R1); intros s;
      simpl; [reflexivity|apply IHl].
  - rewrite C2. exact C1.
  - intros v. rewrite I2, I1. split.
    + intros [[H|[e [He H]]]|[e [He H]]]; [left; exact H| |];
        right; exists e; (split; [apply in_or_app|exact H]); tauto.
    + intros [H|[e [He H]]]; [left; left; exact H|].
      apply in_app_or in He. destruct He as [He|He];
        [left; right|right]; exists e; tauto.
  - intros v. rewrite A2, A1. split.
    + intros [[H|[e [He H]]]|[e [He H]]]; [left; exact H| |];
        right; exists e; (split; [apply in_or_app|exact H]); tauto.
    + intros [H|[e [He H]]]; [left; left; exact H|].
      apply in_app_or in He. destruct He as [He|He];
        [left; right|right]; exists e; tauto.
  - intros v. rewrite T2, T1. split.
    + intros [[H|[e [He H]]]|[e [He H]]]; [left; exact H| |];
        right; exists e; (split; [apply in_or_app|exact H]); tauto.
    + intros [H|[e [He H]]]; [left; left; exact H|].
      apply in_app_or in He. destruct He as [He|He];
        [left; right|right]; exists e; tauto.
Qed.

Lemma After_fold : forall R st,
  After labels R st (fold_left (plainStep labels) R st).
Proof.
  induction R as [|e R IH]; intros st.
  - apply After_nil.
  - cbn [fold_left]. change (e :: R) with ([e] ++ R)%list.
    eapply After_trans; [apply After_one|apply IH].
Qed.

End WithLabels.

Lemma Added_nil st : Added [] st st.
Proof. split; simpl; try reflexivity. rewrite append_nil_r. reflexivity. Qed.

Lemma Added_one e st : Added [e] st (addEdge st e).
Proof.
  destruct e as [[f ty] t]. unfold addEdge, addLink. cbn [tpl].
  destruct (setHas (relKeyOf f ty t) (relationshipSet st)) eqn:E;
    split; cbn [emitNew seenAfter edgeKey relationshipsSection relationshipSet
                investmentSecurityLinks tradeAccountLinks tradeSecurityLinks
                nodeCounter];
    rewrite ?E; cbn [edgeLines fold_right edgeLine]; rewrite ?append_nil_r;
    rewrite ?(setAdd_present _ _ E); reflexivity.
Qed.

Lemma seenAfter_app : forall a b seen,
  seenAfter seen (a ++ b)%list = seenAfter (seenAfter seen a) b.
Proof.
  induction a as [|e a IH]; intros b seen; simpl; [reflexivity|apply IH].
Qed.

Lemma Added_trans a b st1 st2 st3 :
  Added a st1 st2 -> Added b st2 st3 -> Added (a ++ b)%list st1 st3.
Proof.
  intros [S1 K1 I1 A1 T1 C1] [S2 K2 I2 A2 T2 C2]. split.
  - rewrite S2, S1, K1, emitNew_app, edgeLines_app, append_assoc. reflexivity.
  - rewrite K2, K1, seenAfter_app. reflexivity.
  - congruence.
  - congruence.
  - congruence.
  - congruence.
Qed.

(** The loop of the investments: lines 598-612 on the names of the nodes. *)
Lemma investments_Added (security : option string) :
  forall vs st,
    Added (investmentCandidates (investmentSecurityLinks st) vs security) st
      (match security with
       | None => st
       | Some _ =>
           fold_left
             (fun st' v =>
                if hasOpt (Some v) (investmentSecurityLinks st') then st'
                else addLink (Some v) "IN_SECURITY" security st')
             vs st
       end).
Proof.
  destruct security as [s0|]; [|intros; apply Added_nil].
  induction vs as [|v vs IH]; intros st.
  - apply Added_nil.
  - cbn [fold_left investmentCandidates flat_map hasOpt].
    destruct (setHas v (investmentSecurityLinks st)) eqn:E.
    + cbn [app]. apply IH.
    + change ([(v, "IN_SECURITY", s0)] ++ ?x)%list
        with (([(v, "IN_SECURITY", s0)] ++ x)%list).
      eapply Added_trans.
      * apply (Added_one (v, "IN_SECURITY", s0)).
      * cbn [addEdge].
        pose proof (IH (addLink (Some v) "IN_SECURITY" (Some s0) st)) as H.
        unfold investmentCandidates in H |- *.
        replace (investmentSecurityLinks
                   (addLink (Some v) "IN_SECURITY" (Some s0) st))
          with (investmentSecurityLinks st) in H.
        -- exact H.
        -- symmetry.
           apply (ad_isl _ _ _ (Added_one (v, "IN_SECURITY", s0) st)).
Qed.

(** The loop of the trades: lines 615-641 on the vs of the nodes. *)
Lemma trades_Added (account security : option string) :
  forall vs st,
    Added (tradeCandidates (tradeAccountLinks st) (tradeSecurityLinks st)
             vs account security) st
      (fold_left
         (fun st' v =>
            let st1 :=
              match account with
              | Some _ =>
                  if hasOpt (Some v) (tradeAccountLinks st') then st'
                  else addLink account "EXECUTED_TRADE" (Some v) st'
              | None => st'
              end in
            match security with
            | Some _ =>
                if hasOpt (Some v) (tradeSecurityLinks st1) then st1
                else addLink (Some v) "ON_SECURITY" security st1
            | None => st1
            end)
         vs st).
Proof.
  induction vs as [|v vs IH]; intros st.
  - apply Added_nil.
  - cbn [fold_left tradeCandidates flat_map].
    set (st1 := match account with
                | Some _ =>
                    if hasOpt (Some v) (tradeAccountLinks st) then st
                    else addLink account "EXECUTED_TRADE" (Some v) st
                | None => st
                end).
    set (st2 := match security with
                | Some _ =>
                    if hasOpt (Some v) (tradeSecurityLinks st1) then st1
                    else addLink (Some v) "ON_SECURITY" security st1
                | None => st1
                end).
    assert (H1 : Added (match account with
                        | Some a0 => if setHas v (tradeAccountLinks st) then []
                                     else [(a0, "EXECUTED_TRADE", v)]
                        | None => []
                        end) st st1).
    { subst st1. destruct account as [a0|]; [|apply Added_nil].
      cbn [hasOpt]. destruct (setHas v (tradeAccountLinks st));
        [apply Added_nil|apply (Added_one (a0, "EXECUTED_TRADE", v))]. }
    assert (H2 : Added (match security with
                        | Some s0 => if setHas v (tradeSecurityLinks st) then []
                                     else [(v, "ON_SECURITY", s0)]
                        | None => []
                        end) st1 st2).
    { subst st2. rewrite <- (ad_tsl _ _ _ H1).
      destruct security as [s0|]; [|apply Added_nil].
      cbn [hasOpt]. destruct (setHas v (tradeSecurityLinks st1));
        [apply Added_nil|apply (Added_one (v, "ON_SECURITY", s0))]. }
    pose proof (Added_trans _ _ _ _ _ H1 H2) as H12.
    eapply Added_trans; [exact H12|].
    pose proof (IH st2) as H3.
    rewrite (ad_tal _ _ _ H12), (ad_tsl _ _ _ H12) in H3. exact H3.
Qed.

End EdgeFacts.

(** *** The matcher: greedy runs and sequences *)

Module RegexFacts.
Import Js Regex StringAux JsFacts FormatCypher Canonical EdgeDefs CharDefs
  PatternDefs RenderDefs WellFormed MapFacts NodeFacts CharFacts EdgeFacts.

Lemma star_stop {A} f s (k : string -> option A) :
  stopsAt f s = true -> star f s k = k s.
Proof.
  destruct s as [|c t]; intros H.
  - reflexivity.
  - cbn [stopsAt] in H. apply negb_true_iff in H. cbn [star]. rewrite H.
    reflexivity.
Qed.

(** A greedy run whose continuation refuses every character of the class
    ends where the class ends. *)
Lemma star_det {A} f (k : string -> option A) : forall run rest,
  allChars f run = true -> stopsAt f rest = true ->
  (forall c t, f c = true -> k (String c t) = None) ->
  star f (run ++ rest) k = k rest.
Proof.
  induction run as [|c run IH]; intros rest Hrun Hstop Hrej.
  - apply star_stop. exact Hstop.
  - cbn [allChars] in Hrun. apply andb_true_iff in Hrun.
    destruct Hrun as [Hc Hr].
    cbn [append star]. rewrite Hc. rewrite (IH rest Hr Hstop Hrej).
    destruct (k rest); [reflexivity|]. apply Hrej. exact Hc.
Qed.

Lemma length_app : forall a b,
  String.length (a ++ b) = String.length a + String.length b.
Proof.
  induction a as [|c a IH]; intros b; [reflexivity|].
  cbn [append String.length]. rewrite IH. reflexivity.
Qed.

Lemma take_app : forall p r, take (String.length p) (p ++ r) = p.
Proof.
  induction p as [|c p IH]; intros r.
  - destruct r; reflexivity.
  - cbn [append String.length take]. rewrite IH. reflexivity.
Qed.

(** What a group records when it has consumed [p]. *)
Lemma take_consumed p r :
  take (String.length (p ++ r) - String.length r) (p ++ r) = p.
Proof.
  rewrite length_app.
  replace (String.length p + String.length r - String.length r)
    with (String.length p) by lia.
  apply take_app.
Qed.

Lemma rmatch_lit {A} p : forall s cs (k : string -> captures -> option A),
  rmatch false (lit p) (p ++ s) cs k = k s cs.
Proof.
  induction p as [|c p IH]; intros s cs k.
  - reflexivity.
  - cbn [lit rmatch append chrEq]. rewrite Ascii.eqb_refl. apply IH.
Qed.

Lemma rmatch_lit_fail {A} p : forall s cs (k : string -> captures -> option A),
  startsWith p s = false -> rmatch false (lit p) s cs k = None.
Proof.
  induction p as [|c p IH]; intros s cs k H.
  - discriminate.
  - cbn [lit rmatch]. destruct s as [|c' t]; [reflexivity|].
    cbn [startsWith] in H. cbn [chrEq].
    destruct (Ascii.eqb c c'); [|reflexivity]. apply IH. exact H.
Qed.

Lemma matchAt_needs_prefix p r s :
  startsWith p s = false -> matchAt false (Seq (lit p) r) s = None.
Proof.
  intros H. unfold matchAt. cbn [rmatch]. apply rmatch_lit_fail. exact H.
Qed.

Lemma search_found ci r s x : matchAt ci r s = Some x -> search ci r s = Some x.
Proof. intros H. destruct s; cbn [search]; rewrite H; reflexivity. Qed.

Lemma search_next ci r c t :
  matchAt ci r (String c t) = None -> search ci r (String c t) = search ci r t.
Proof. intros H. cbn [search]. rewrite H. reflexivity. Qed.

Lemma startsWith_app_blocked d : forall p q rest,
  mem d p = false -> p <> EmptyString ->
  startsWith p (q ++ String d rest) = startsWith p q.
Proof.
  induction p as [|a p IH]; intros q rest Hm Hne.
  - contradiction.
  - cbn [mem] in Hm. apply orb_false_iff in Hm. destruct Hm as [Ha Hp].
    destruct q as [|c q].
    + cbn [append startsWith]. rewrite Ascii.eqb_sym, Ha. reflexivity.
    + cbn [append startsWith]. destruct (Ascii.eqb a c); [|reflexivity].
      cbn [andb]. destruct p as [|b p'].
      * reflexivity.
      * apply IH; [exact Hp|discriminate].
Qed.

(** A piece that does not hold the keyword, before a character the keyword
    does not use, holds no start of a match. *)
Lemma search_skip_piece p r d : forall piece rest,
  p <> EmptyString -> includes p piece = false -> mem d p = false ->
  search false (Seq (lit p) r) (piece ++ String d rest)
  = search false (Seq (lit p) r) (String d rest).
Proof.
  induction piece as [|c piece IH]; intros rest Hne Hinc Hd.
  - reflexivity.
  - rewrite includes_step in Hinc. apply orb_false_iff in Hinc.
    destruct Hinc as [Hs Hi].
    change (String c piece ++ String d rest)
      with (String c (piece ++ String d rest)).
    rewrite search_next.
    + apply IH; assumption.
    + apply matchAt_needs_prefix.
      change (String c (piece ++ String d rest))
        with (String c piece ++ String d rest).
      rewrite startsWith_app_blocked by assumption. exact Hs.
Qed.

Lemma search_skip_char a p r d rest :
  Ascii.eqb a d = false ->
  search false (Seq (lit (String a p)) r) (String d rest)
  = search false (Seq (lit (String a p)) r) rest.
Proof.
  intros H. apply search_next. unfold matchAt. cbn [lit rmatch chrEq].
  rewrite H. reflexivity.
Qed.

(** A piece without the first character of the keyword. *)
Lemma search_skip_chars a p r : forall piece rest,
  mem a piece = false ->
  search false (Seq (lit (String a p)) r) (piece ++ rest)
  = search false (Seq (lit (String a p)) r) rest.
Proof.
  induction piece as [|c piece IH]; intros rest H.
  - reflexivity.
  - cbn [mem] in H. apply orb_false_iff in H. destruct H as [Hc Hp].
    cbn [append]. rewrite search_skip_char by exact Hc. apply IH. exact Hp.
Qed.

Lemma class_excludes (f : ascii -> bool) x c :
  f c = true -> f x = false -> Ascii.eqb x c = false.
Proof.
  intros Hc Hx.
  destruct (Ascii.eqb_spec x c) as [->|_]; [congruence|reflexivity].
Qed.

Lemma refuses_chr f x r : f x = false -> refuses false f (Seq (Chr x) r).
Proof.
  intros Hx A c t cs k Hc. cbn [rmatch chrEq].
  rewrite (class_excludes f x c Hc Hx). reflexivity.
Qed.

Lemma refuses_cls ci f g r :
  (forall c, f c = true -> g c = false) -> refuses ci f (Seq (Cls g) r).
Proof. intros H A c t cs k Hc. cbn [rmatch]. rewrite (H c Hc). reflexivity. Qed.

Lemma refuses_star ci f g r :
  (forall c, f c = true -> g c = false) -> refuses ci f r ->
  refuses ci f (Seq (Star g) r).
Proof.
  intros H Hr A c t cs k Hc. cbn [rmatch star]. rewrite (H c Hc).
  apply Hr. exact Hc.
Qed.

Lemma seq_lit {A} p r s cs (k : string -> captures -> option A) :
  rmatch false (Seq (lit p) r) (p ++ s) cs k = rmatch false r s cs k.
Proof. cbn [rmatch]. rewrite rmatch_lit. reflexivity. Qed.

Lemma seq_chr {A} c r s cs (k : string -> captures -> option A) :
  rmatch false (Seq (Chr c) r) (String c s) cs k = rmatch false r s cs k.
Proof. cbn [rmatch chrEq]. rewrite Ascii.eqb_refl. reflexivity. Qed.

Lemma seq_chr_fail {A} c c' r s cs (k : string -> captures -> option A) :
  Ascii.eqb c c' = false ->
  rmatch false (Seq (Chr c) r) (String c' s) cs k = None.
Proof. intros H. cbn [rmatch chrEq]. rewrite H. reflexivity. Qed.

Lemma seq_cls {A} ci f c r s cs (k : string -> captures -> option A) :
  f c = true ->
  rmatch ci (Seq (Cls f) r) (String c s) cs k = rmatch ci r s cs k.
Proof. intros H. cbn [rmatch]. rewrite H. reflexivity. Qed.

Lemma seq_star_det {A} ci f r run rest cs (k : string -> captures -> option A) :
  allChars f run = true -> stopsAt f rest = true -> refuses ci f r ->
  rmatch ci (Seq (Star f) r) (run ++ rest) cs k = rmatch ci r rest cs k.
Proof.
  intros Hrun Hstop Hr. cbn [rmatch].
  rewrite star_det; [reflexivity|exact Hrun|exact Hstop|].
  intros c t Hc. apply Hr. exact Hc.
Qed.

Lemma seq_group_plus_det {A} ci i f r run rest cs
  (k : string -> captures -> option A) :
  run <> EmptyString -> allChars f run = true -> stopsAt f rest = true ->
  refuses ci f r ->
  rmatch ci (Seq (Group i (Plus f)) r) (run ++ rest) cs k
  = rmatch ci r rest ((i, run) :: cs) k.
Proof.
  intros Hne Hrun Hstop Hr. destruct run as [|c run]; [contradiction|].
  cbn [allChars] in Hrun. apply andb_true_iff in Hrun.
  destruct Hrun as [Hc Hrun].
  cbn [rmatch append]. rewrite Hc.
  rewrite star_det; [| exact Hrun | exact Hstop |].
  - change (String c (run ++ rest)) with (String c run ++ rest).
    rewrite take_consumed. reflexivity.
  - intros c' t Hc'. apply Hr. exact Hc'.
Qed.

Lemma seq_alt_second {A} ci a b r s cs (k : string -> captures -> option A) :
  (forall k', rmatch ci a s cs k' = (None : option A)) ->
  rmatch ci (Seq (Alt a b) r) s cs k = rmatch ci (Seq b r) s cs k.
Proof. intros H. cbn [rmatch]. rewrite H. reflexivity. Qed.

End RegexFacts.

(** *** The three sections of a run, and of a run on its edges *)

Module RenderFacts.
Import Js Regex StringAux JsFacts FormatCypher Canonical EdgeDefs CharDefs
  PatternDefs RenderDefs WellFormed MapFacts NodeFacts CharFacts EdgeFacts
  RegexFacts.

Lemma chrEq_brace c : chrEq true "{" c = Ascii.eqb "{" c.
Proof. destruct c as [[] [] [] [] [] [] [] []]; reflexivity. Qed.

(** A text without an opening brace holds no inline node. *)
Lemma search_inline_none s :
  mem "{" s = false -> search true inlineNodePattern s = None.
Proof.
  induction s as [|c t IH]; intros H.
  - reflexivity.
  - cbn [mem] in H. apply orb_false_iff in H. destruct H as [Hc Ht].
    cbn [search]. unfold matchAt, inlineNodePattern, seqs.
    cbn [fold_right rmatch].
    rewrite chrEq_brace, Hc. apply IH. exact Ht.
Qed.

Lemma relStep_plain N V st rel f t :
  resolveVar N V (buildVarToNodeMap N []) (from rel) = f ->
  resolveVar N V (buildVarToNodeMap N []) (to rel) = t ->
  mem "{" f = false -> mem "{" t = false ->
  relStep N V st rel
  = plainStep (buildVarToLabelMap N V []) st (f, type rel, t).
Proof.
  intros Hf Ht Bf Bt. unfold relStep, plainStep. rewrite Hf, Ht.
  unfold canon, linksInvestment, linksAccount, linksSecurity.
  set (L := buildVarToLabelMap N V []).
  pose proof (canon_shape L (f, type rel, t)) as Hs. unfold canon in Hs.
  destruct (canonicalize (type rel) f t (mapGet f L) (mapGet t L))
    as [[ff fty] ft] eqn:Ec.
  destruct Hs as [Hends _].
  assert (Hb : mem "{" ft = false).
  { destruct Hends as [[_ ->]|[_ ->]]; assumption. }
  rewrite (search_inline_none ft Hb). reflexivity.
Qed.

Lemma mapped_all N : NodesOk N ->
  forall j n, In (j, n) (numbered 1 N) ->
    mapGet (originalVar n) (generateSequentialVariables N)
    = Some (canonicalName j n)
    /\ canonicalName j n <> EmptyString.
Proof.
  intros [HD Hn _] j n Hin. split.
  - apply (assign_get N 1 [] HD j n Hin).
  - apply (Hn j n Hin).
Qed.

Lemma resolved_joins N rel : NodesOk N -> Joins N rel ->
  exists jf nf jt nt,
    In (jf, nf) (numbered 1 N) /\ In (jt, nt) (numbered 1 N)
    /\ resolved N rel = (canonicalName jf nf, type rel, canonicalName jt nt).
Proof.
  intros HN [(jf & nf & Hf & Ef & Tf) (jt & nt & Ht & Et & Tt)].
  exists jf, nf, jt, nt. repeat split; [exact Hf|exact Ht|].
  unfold resolved. rewrite Ef, Et. rewrite Ef in Tf. rewrite Et in Tt.
  destruct HN as [HD Hn Hnd].
  rewrite (resolveVar_mapped N jf nf HD Hf Tf (proj1 (Hn jf nf Hf))).
  rewrite (resolveVar_mapped N jt nt HD Ht Tt (proj1 (Hn jt nt Ht))).
  reflexivity.
Qed.

Lemma fold_relStep N : NodesOk N -> forall rels st,
  (forall rel, In rel rels -> Joins N rel) ->
  fold_left (relStep N (generateSequentialVariables N)) rels st
  = fold_left (plainStep (labelMap 1 N [])) (map (resolved N) rels) st.
Proof.
  intros HN. induction rels as [|rel rels IH]; intros st HJ.
  - reflexivity.
  - cbn [fold_left map].
    destruct (resolved_joins N rel HN (HJ rel (or_introl eq_refl)))
      as (jf & nf & jt & nt & Hf & Ht & E).
    rewrite E.
    unfold resolved in E. injection E as E1 E2.
    rewrite (relStep_plain N _ st rel _ _ E1 E2
               (proj2 (ok_names N HN jf nf Hf))
               (proj2 (ok_names N HN jt nt Ht))).
    rewrite (labelMap_built _ N 1 [] (mapped_all N HN)).
    apply IH. intros r Hr. apply HJ. right. exact Hr.
Qed.

Lemma fold_left_map_ext {A B C} (f : A -> B -> A) (g : A -> C -> A)
  (h : B -> C) : forall l a,
  (forall x, In x l -> forall a', f a' x = g a' (h x)) ->
  fold_left f l a = fold_left g (map h l) a.
Proof.
  induction l as [|x l IH]; intros a H.
  - reflexivity.
  - cbn [fold_left map]. rewrite (H x (or_introl eq_refl)).
    apply IH. intros y Hy. apply H. right. exact Hy.
Qed.

Lemma withLabel_In lbl N n : In n (withLabel lbl N) -> In n N.
Proof. unfold withLabel. intros H. apply filter_In in H. tauto. Qed.

Lemma numbered_In : forall N i n, In n N -> exists j, In (j, n) (numbered i N).
Proof.
  induction N as [|n0 N IH]; intros i n H.
  - destruct H.
  - destruct H as [<-|H].
    + exists i. left. reflexivity.
    + destruct (IH (S i) n H) as [j Hj]. exists j. right. exact Hj.
Qed.

Lemma mapped_some N : NodesOk N -> forall n, In n N ->
  mapGet (originalVar n) (generateSequentialVariables N)
  = Some (mappedName (generateSequentialVariables N) n).
Proof.
  intros HN n Hin. destruct (numbered_In N 1 n Hin) as [j Hj].
  unfold mappedName. destruct (mapped_all N HN j n Hj) as [-> _]. reflexivity.
Qed.

Lemma firstVar_firstName N lbl : NodesOk N ->
  firstVar (withLabel lbl N) (generateSequentialVariables N) = firstName lbl N.
Proof.
  intros HN. unfold firstName.
  rewrite <- (withLabel_names (generateSequentialVariables N) lbl N 1)
    by (intros j n Hin; apply (mapped_all N HN j n Hin)).
  pose proof (withLabel_In lbl N) as Hsub.
  destruct (withLabel lbl N) as [|n rest]; [reflexivity|].
  cbn [firstVar map]. apply (mapped_some N HN). apply Hsub. left. reflexivity.
Qed.

Lemma completeInvestments_names N st : NodesOk N ->
  completeInvestments (generateSequentialVariables N)
    (withLabel "Investment" N) (withLabel "Security" N) st
  = match firstName "Security" N with
    | None => st
    | Some _ =>
        fold_left
          (fun st' v =>
             if hasOpt (Some v) (investmentSecurityLinks st') then st'
             else addLink (Some v) "IN_SECURITY" (firstName "Security" N) st')
          (namesWith "Investment" 1 N) st
    end.
Proof.
  intros HN. set (V := generateSequentialVariables N).
  rewrite <- (firstVar_firstName N "Security" HN). fold V.
  rewrite <- (withLabel_names V "Investment" N 1)
    by (intros j n Hin; apply (mapped_all N HN j n Hin)).
  pose proof (withLabel_In "Investment" N) as HI.
  pose proof (withLabel_In "Security" N) as HS.
  unfold completeInvestments.
  destruct (withLabel "Security" N) as [|s0 SN].
  - cbn [firstVar]. destruct (withLabel "Investment" N); reflexivity.
  - cbn [firstVar].
    pose proof (mapped_some N HN s0 (HS s0 (or_introl eq_refl))) as E.
    fold V in E. revert E. generalize (mapGet (originalVar s0) V).
    intros o ->.
    destruct (withLabel "Investment" N) as [|i0 IN] eqn:EI; [reflexivity|].
    apply fold_left_map_ext. intros n Hn st'.
    unfold V. rewrite (mapped_some N HN n (HI n Hn)). reflexivity.
Qed.

Lemma completeTrades_names N st : NodesOk N ->
  completeTrades (generateSequentialVariables N)
    (withLabel "Trade" N) (withLabel "Account" N) (withLabel "Security" N) st
  = fold_left
      (fun st' v =>
         let st1 :=
           match firstName "Account" N with
           | Some _ =>
               if hasOpt (Some v) (tradeAccountLinks st') then st'
               else addLink (firstName "Account" N) "EXECUTED_TRADE" (Some v)
                      st'
           | None => st'
           end in
         match firstName "Security" N with
         | Some _ =>
             if hasOpt (Some v) (tradeSecurityLinks st1) then st1
             else addLink (Some v) "ON_SECURITY" (firstName "Security" N) st1
         | None => st1
         end)
      (namesWith "Trade" 1 N) st.
Proof.
  intros HN. set (V := generateSequentialVariables N).
  rewrite <- (firstVar_firstName N "Security" HN).
  rewrite <- (firstVar_firstName N "Account" HN). fold V.
  rewrite <- (withLabel_names V "Trade" N 1)
    by (intros j n Hin; apply (mapped_all N HN j n Hin)).
  pose proof (withLabel_In "Trade" N) as HT.
  pose proof (withLabel_In "Account" N) as HA.
  pose proof (withLabel_In "Security" N) as HS.
  unfold completeTrades.
  apply fold_left_map_ext. intros n Hn st'.
  pose proof (mapped_some N HN n (HT n Hn)) as En. fold V in En. rewrite En.
  assert (EA : match withLabel "Account" N with
               | [] => firstVar (withLabel "Account" N) V = None
               | _ :: _ => exists a, firstVar (withLabel "Account" N) V = Some a
               end).
  { destruct (withLabel "Account" N) as [|a0 AN]; [reflexivity|].
    cbn [firstVar]. unfold V.
    rewrite (mapped_some N HN a0 (HA a0 (or_introl eq_refl))). eexists.
    reflexivity. }
  assert (ES : match withLabel "Security" N with
               | [] => firstVar (withLabel "Security" N) V = None
               | _ :: _ =>
                   exists a, firstVar (withLabel "Security" N) V = Some a
               end).
  { destruct (withLabel "Security" N) as [|a0 AN]; [reflexivity|].
    cbn [firstVar]. unfold V.
    rewrite (mapped_some N HN a0 (HS a0 (or_introl eq_refl))). eexists.
    reflexivity. }
  destruct (withLabel "Account" N) as [|a0 AN];
    destruct (withLabel "Security" N) as [|s0 SN];
    repeat match goal with
           | H : exists _, _ |- _ => destruct H as [? H]
           end;
    rewrite ?EA, ?ES; reflexivity.
Qed.

Lemma candidates_ext_inv l1 l2 ns sec :
  (forall v, In v l1 <-> In v l2) ->
  investmentCandidates l1 ns sec = investmentCandidates l2 ns sec.
Proof.
  intros H. unfold investmentCandidates. destruct sec as [s0|]; [|reflexivity].
  induction ns as [|v ns IH]; [reflexivity|].
  cbn [flat_map]. rewrite IH. f_equal.
  destruct (setHas v l1) eqn:E1; destruct (setHas v l2) eqn:E2; try reflexivity.
  - apply setHas_spec in E1. apply setHas_false in E2. apply H in E1. tauto.
  - apply setHas_spec in E2. apply setHas_false in E1. apply H in E2. tauto.
Qed.

Lemma setHas_ext l1 l2 v :
  (forall v, In v l1 <-> In v l2) -> setHas v l1 = setHas v l2.
Proof.
  intros H.
  destruct (setHas v l1) eqn:E1; destruct (setHas v l2) eqn:E2; try reflexivity.
  - apply setHas_spec in E1. apply setHas_false in E2. apply H in E1. tauto.
  - apply setHas_spec in E2. apply setHas_false in E1. apply H in E2. tauto.
Qed.

Lemma candidates_ext_trade a1 a2 s1 s2 ns acct sec :
  (forall v, In v a1 <-> In v a2) -> (forall v, In v s1 <-> In v s2) ->
  tradeCandidates a1 s1 ns acct sec = tradeCandidates a2 s2 ns acct sec.
Proof.
  intros HA HS. unfold tradeCandidates.
  induction ns as [|v ns IH]; [reflexivity|].
  cbn [flat_map]. rewrite IH.
  rewrite (setHas_ext a1 a2 v HA), (setHas_ext s1 s2 v HS). reflexivity.
Qed.

Section WithLabels.
Variable labels : Map string.

Lemma investmentLinked_In R v :
  In v (investmentLinked labels R)
  <-> exists e, In e R /\ linksInvestment labels e = true /\ edgeFrom e = v.
Proof.
  unfold investmentLinked. rewrite in_map_iff. split.
  - intros [e [E H]]. apply filter_In in H. exists e. tauto.
  - intros [e [H1 [H2 H3]]]. exists e. split; [exact H3|].
    apply filter_In. tauto.
Qed.

Lemma accountLinked_In R v :
  In v (accountLinked labels R)
  <-> exists e, In e R /\ linksAccount labels e = true /\ edgeTo e = v.
Proof.
  unfold accountLinked. rewrite in_map_iff. split.
  - intros [e [E H]]. apply filter_In in H. exists e. tauto.
  - intros [e [H1 [H2 H3]]]. exists e. split; [exact H3|].
    apply filter_In. tauto.
Qed.

Lemma securityLinked_In R v :
  In v (securityLinked labels R)
  <-> exists e, In e R /\ linksSecurity labels e = true /\ edgeFrom e = v.
Proof.
  unfold securityLinked. rewrite in_map_iff. split.
  - intros [e [E H]]. apply filter_In in H. exists e. tauto.
  - intros [e [H1 [H2 H3]]]. exists e. split; [exact H3|].
    apply filter_In. tauto.
Qed.

End WithLabels.

(** The third section of a run on well-joined input. *)
Lemma relationships_section N rels c : NodesOk N ->
  (forall rel, In rel rels -> Joins N rel) ->
  let V := generateSequentialVariables N in
  relationshipsSection
    (completeTrades V (withLabel "Trade" N) (withLabel "Account" N)
       (withLabel "Security" N)
       (completeInvestments V (withLabel "Investment" N)
          (withLabel "Security" N)
          (fold_left (relStep N V) rels (mkRelState relsHeader [] [] [] [] c))))
  = relsHeader ++ edgeLines (passEdges N rels).
Proof.
  intros HN HJ V. unfold V.
  rewrite (fold_relStep N HN rels _ HJ).
  set (L := labelMap 1 N []). set (R := map (resolved N) rels).
  set (st0 := mkRelState relsHeader [] [] [] [] c).
  pose proof (After_fold L R st0) as H1.
  set (st1 := fold_left (plainStep L) R st0) in *.
  rewrite (completeInvestments_names N st1 HN).
  pose proof (investments_Added (firstName "Security" N)
                (namesWith "Investment" 1 N) st1) as H2.
  set (st2 := match firstName "Security" N with
              | Some _ => _
              | None => st1
              end) in *.
  rewrite (completeTrades_names N st2 HN).
  pose proof (trades_Added (firstName "Account" N) (firstName "Security" N)
                (namesWith "Trade" 1 N) st2) as H3.
  set (st3 := fold_left _ (namesWith "Trade" 1 N) st2) in *.
  rewrite (ad_section _ _ _ H3), (ad_set _ _ _ H2), (ad_section _ _ _ H2),
    (a_set _ _ _ _ H1), (a_section _ _ _ _ H1).
  rewrite (ad_tal _ _ _ H2), (ad_tsl _ _ _ H2).
  assert (EI : investmentCandidates (investmentSecurityLinks st1)
                 (namesWith "Investment" 1 N) (firstName "Security" N)
               = investmentCandidates (investmentLinked L R)
                   (namesWith "Investment" 1 N) (firstName "Security" N)).
  { apply candidates_ext_inv. intros v. rewrite (a_isl _ _ _ _ H1).
    rewrite investmentLinked_In. subst st0. cbn [investmentSecurityLinks In].
    tauto. }
  assert (ET : tradeCandidates (tradeAccountLinks st1) (tradeSecurityLinks st1)
                 (namesWith "Trade" 1 N) (firstName "Account" N)
                 (firstName "Security" N)
               = tradeCandidates (accountLinked L R) (securityLinked L R)
                   (namesWith "Trade" 1 N) (firstName "Account" N)
                   (firstName "Security" N)).
  { apply candidates_ext_trade; intros v.
    - rewrite (a_tal _ _ _ _ H1), accountLinked_In. subst st0.
      cbn [tradeAccountLinks In]. tauto.
    - rewrite (a_tsl _ _ _ _ H1), securityLinked_In. subst st0.
      cbn [tradeSecurityLinks In]. tauto. }
  rewrite EI, ET. subst st0. cbn [relationshipsSection relationshipSet].
  unfold passEdges, sectionEdges, sectionCandidates. fold L. fold R.
  rewrite !emitNew_app, !edgeLines_app, !append_assoc.
  reflexivity.
Qed.

Lemma investmentCandidates_In linked investments security e :
  In e (investmentCandidates linked investments security) ->
  exists v s0, security = Some s0 /\ In v investments
               /\ setHas v linked = false /\ e = (v, "IN_SECURITY", s0).
Proof.
  unfold investmentCandidates. destruct security as [s0|]; [|intros []].
  intros H. apply in_flat_map in H. destruct H as [v [Hv H]].
  destruct (setHas v linked) eqn:B; [destruct H|].
  destruct H as [<-|[]]. exists v, s0. repeat split; assumption.
Qed.

Lemma tradeCandidates_In la ls trades account security e :
  In e (tradeCandidates la ls trades account security) ->
  (exists v a0, account = Some a0 /\ In v trades /\ setHas v la = false
                /\ e = (a0, "EXECUTED_TRADE", v))
  \/ (exists v s0, security = Some s0 /\ In v trades /\ setHas v ls = false
                   /\ e = (v, "ON_SECURITY", s0)).
Proof.
  unfold tradeCandidates. intros H. apply in_flat_map in H.
  destruct H as [v [Hv H]]. apply in_app_or in H. destruct H as [H|H].
  - left. destruct account as [a0|]; [|destruct H].
    destruct (setHas v la) eqn:B; [destruct H|]. destruct H as [<-|[]].
    exists v, a0. repeat split; assumption.
  - right. destruct security as [s0|]; [|destruct H].
    destruct (setHas v ls) eqn:B; [destruct H|]. destruct H as [<-|[]].
    exists v, s0. repeat split; assumption.
Qed.

Lemma investmentCandidates_intro linked investments security v s0 :
  security = Some s0 -> In v investments -> setHas v linked = false ->
  In (v, "IN_SECURITY", s0) (investmentCandidates linked investments security).
Proof.
  intros -> Hv B. unfold investmentCandidates. apply in_flat_map.
  exists v. split; [exact Hv|]. rewrite B. left. reflexivity.
Qed.

Lemma tradeCandidates_intro_account la ls trades account security v a0 :
  account = Some a0 -> In v trades -> setHas v la = false ->
  In (a0, "EXECUTED_TRADE", v) (tradeCandidates la ls trades account security).
Proof.
  intros -> Hv B. unfold tradeCandidates. apply in_flat_map.
  exists v. split; [exact Hv|]. apply in_or_app. left. rewrite B. left.
  reflexivity.
Qed.

Lemma tradeCandidates_intro_security la ls trades account security v s0 :
  security = Some s0 -> In v trades -> setHas v ls = false ->
  In (v, "ON_SECURITY", s0) (tradeCandidates la ls trades account security).
Proof.
  intros -> Hv B. unfold tradeCandidates. apply in_flat_map.
  exists v. split; [exact Hv|]. apply in_or_app. right. rewrite B. left.
  reflexivity.
Qed.

Section Stable.

Variable labels : Map string.
Variables investments trades : list string.
Variables account security : option string.
Variable R : list Edge.

(** The candidates of a run on [R] and the edges of its section. *)
Variables candidates section : list Edge.
Hypothesis candidates_of_R :
  candidates = sectionCandidates labels investments trades account security R.
Hypothesis section_of_R :
  section = sectionEdges labels investments trades account security R.

Hypothesis readable_all : forall e, In e candidates -> readable e = true.
Hypothesis account_label :
  forall a0, account = Some a0 -> labelIs (mapGet a0 labels) "Trade" = false.

Lemma section_emitted : section = emitNew [] candidates.
Proof. rewrite section_of_R, candidates_of_R. reflexivity. Qed.

Lemma section_candidates e : In e section -> In e candidates.
Proof. rewrite section_emitted. apply emitNew_subset. Qed.

Lemma section_keys k :
  In k (map edgeKey section) <-> In k (map edgeKey candidates).
Proof.
  rewrite section_emitted.
  pose proof (seenAfter_emitNew candidates []) as H. cbn [app] in H.
  rewrite <- H. rewrite seenAfter_In. cbn [In]. tauto.
Qed.

(** A candidate is in the section: the section holds an edge with its key,
    and keys can be read back. *)
Lemma candidate_in_section e : In e candidates -> In e section.
Proof.
  intros He. assert (Hk : In (edgeKey e) (map edgeKey section)).
  { apply section_keys. apply in_map. exact He. }
  apply in_map_iff in Hk. destruct Hk as [e' [Ek He']].
  assert (e' = e).
  { apply edgeKey_inj; [apply readable_all, section_candidates, He'
                       |apply readable_all, He|exact Ek]. }
  subst e'. exact He'.
Qed.

(** Every candidate is already in its final form. *)
Lemma candidates_final e : In e candidates -> canon labels e = e.
Proof.
  rewrite candidates_of_R. unfold sectionCandidates. intros H.
  apply in_app_or in H. destruct H as [H|H].
  - apply in_map_iff in H. destruct H as [e0 [<- _]]. apply canon_idempotent.
  - apply in_app_or in H. destruct H as [H|H].
    + apply investmentCandidates_In in H.
      destruct H as (v & s0 & _ & _ & _ & ->). reflexivity.
    + apply tradeCandidates_In in H.
      destruct H as [(v & a0 & Ha & _ & _ & ->)|(v & s0 & _ & _ & _ & ->)].
      * unfold canon. rewrite canonicalize_executed_trade.
        rewrite (account_label a0 Ha). reflexivity.
      * reflexivity.
Qed.

Lemma section_final : map (canon labels) section = section.
Proof.
  apply map_id_on. intros e He.
  apply candidates_final, section_candidates, He.
Qed.

Lemma section_NoDup : NoDup (map edgeKey section).
Proof.
  rewrite section_emitted. apply (emitNew_NoDup candidates [] (NoDup_nil _)).
Qed.

Lemma linked_edge_in_section e :
  In e R -> canon labels e = e -> In e section.
Proof.
  intros He Hc. apply candidate_in_section. rewrite candidates_of_R.
  unfold sectionCandidates. apply in_or_app. left.
  rewrite <- Hc. apply in_map. exact He.
Qed.

(** The links a second run asks for are all present. *)
Lemma second_candidates_seen e :
  In e (investmentCandidates (investmentLinked labels section) investments
          security
        ++ tradeCandidates (accountLinked labels section)
             (securityLinked labels section) trades account security)%list ->
  In (edgeKey e) (map edgeKey section).
Proof.
  intros H. apply section_keys. apply in_map. rewrite candidates_of_R.
  unfold sectionCandidates.
  apply in_or_app. right. apply in_app_or in H. destruct H as [H|H].
  - apply in_or_app. left.
    apply investmentCandidates_In in H.
    destruct H as (v & s0 & Hs & Hv & B & ->).
    apply investmentCandidates_intro; [exact Hs|exact Hv|].
    destruct (setHas v (investmentLinked labels R)) eqn:B0; [|reflexivity].
    apply setHas_spec, investmentLinked_In in B0.
    destruct B0 as (e0 & He0 & L0 & F0).
    apply setHas_false in B. exfalso. apply B. apply investmentLinked_In.
    exists e0. repeat split; [|exact L0|exact F0].
    apply (linked_edge_in_section e0 He0 (canon_linksInvestment labels e0 L0)).
  - apply in_or_app. right. apply tradeCandidates_In in H.
    destruct H as [(v & a0 & Ha & Hv & B & ->)|(v & s0 & Hs & Hv & B & ->)].
    + apply tradeCandidates_intro_account; [exact Ha|exact Hv|].
      destruct (setHas v (accountLinked labels R)) eqn:B0; [|reflexivity].
      apply setHas_spec, accountLinked_In in B0.
      destruct B0 as (e0 & He0 & L0 & F0).
      apply setHas_false in B. exfalso. apply B. apply accountLinked_In.
      exists e0. repeat split; [|exact L0|exact F0].
      apply (linked_edge_in_section e0 He0 (canon_linksAccount labels e0 L0)).
    + apply tradeCandidates_intro_security; [exact Hs|exact Hv|].
      destruct (setHas v (securityLinked labels R)) eqn:B0; [|reflexivity].
      apply setHas_spec, securityLinked_In in B0.
      destruct B0 as (e0 & He0 & L0 & F0).
      apply setHas_false in B. exfalso. apply B. apply securityLinked_In.
      exists e0. repeat split; [|exact L0|exact F0].
      apply (linked_edge_in_section e0 He0 (canon_linksSecurity labels e0 L0)).
Qed.

(** A run on the edges of a section gives the section back. *)
Lemma sectionEdges_stable :
  sectionEdges labels investments trades account security section = section.
Proof.
  unfold sectionEdges, sectionCandidates.
  rewrite section_final. rewrite emitNew_app.
  rewrite (emitNew_all section [] section_NoDup) by (intros e _ []).
  rewrite emitNew_none.
  - apply app_nil_r.
  - intros e He. apply seenAfter_In. right. apply second_candidates_seen.
    exact He.
Qed.

End Stable.

Lemma renderSections_text N rels schema : NodesOk N ->
  (forall rel, In rel rels -> Joins N rel) ->
  renderSections N rels schema = renderedText N rels schema.
Proof.
  intros HN HJ. unfold renderSections, renderedText, sectionsText.
  fold (constraintsOf N schema).
  rewrite (nodesLoop_lines (generateSequentialVariables N) N 1 nodesHeader 1 []
             (d_keys N (ok_distinct N HN)) (mapped_all N HN)
             (fun n _ => eq_refl)).
  rewrite (relationships_section N rels (1 + List.length N) HN HJ).
  rewrite !append_assoc. reflexivity.
Qed.

Lemma InputOk_nodes N rels : InputOk N rels -> NodesOk N.
Proof.
  intros [HD HW Hnd _ _ _]. split; [exact HD| |exact Hnd].
  intros j n Hin. split.
  - apply identifier_not_empty, HW, Hin.
  - apply (allChars_mem isWord); [apply identifier_word, HW, Hin|reflexivity].
Qed.

Lemma numbered_canonical : forall N i,
  numbered i (canonicalNodes i N)
  = map (fun jn => (fst jn, canonicalNode (fst jn) (snd jn))) (numbered i N).
Proof.
  induction N as [|n N IH]; intros i.
  - reflexivity.
  - cbn [canonicalNodes numbered map fst snd]. rewrite IH. reflexivity.
Qed.

Lemma numbered_canonical_In N i j n' :
  In (j, n') (numbered i (canonicalNodes i N)) ->
  exists n, In (j, n) (numbered i N) /\ n' = canonicalNode j n.
Proof.
  rewrite numbered_canonical. intros H. apply in_map_iff in H.
  destruct H as [[j0 n] [E H]]. cbn [fst snd] in E. injection E as <- <-.
  exists n. split; [exact H|reflexivity].
Qed.

Lemma names_canonical N i : names i (canonicalNodes i N) = names i N.
Proof.
  unfold names. rewrite numbered_canonical, map_map. reflexivity.
Qed.

Lemma namesWith_canonical lbl N i :
  namesWith lbl i (canonicalNodes i N) = namesWith lbl i N.
Proof.
  unfold namesWith. rewrite numbered_canonical.
  induction (numbered i N) as [|[j n] l IH]; [reflexivity|].
  cbn [map filter fst snd canonicalNode label].
  destruct (String.eqb (label n) lbl); cbn [map]; rewrite IH; reflexivity.
Qed.

Lemma labelMap_canonical : forall N i m,
  labelMap i (canonicalNodes i N) m = labelMap i N m.
Proof.
  induction N as [|n N IH]; intros i m.
  - reflexivity.
  - cbn [canonicalNodes labelMap]. rewrite IH. reflexivity.
Qed.

Lemma linesOf_canonical N i : linesOf i (canonicalNodes i N) = linesOf i N.
Proof.
  unfold linesOf, linesText. rewrite numbered_canonical.
  induction (numbered i N) as [|[j n] l IH]; [reflexivity|].
  cbn [map fold_right fst snd]. rewrite IH. reflexivity.
Qed.

Lemma firstIdPropByLabel_canonical : forall N i seen,
  firstIdPropByLabel (canonicalNodes i N) seen = firstIdPropByLabel N seen.
Proof.
  induction N as [|n N IH]; intros i seen.
  - reflexivity.
  - cbn [canonicalNodes firstIdPropByLabel canonicalNode label idProp].
    destruct (mapGet (label n) seen); apply IH.
Qed.

Lemma constraintsOf_canonical N schema :
  constraintsOf (canonicalNodes 1 N) schema = constraintsOf N schema.
Proof.
  unfold constraintsOf, generateConstraintsFromNodes.
  rewrite firstIdPropByLabel_canonical. reflexivity.
Qed.

Lemma map_key_canonical : forall N i,
  (forall n, In n N -> key n = label n ++ ":" ++ idValue n) ->
  map key (canonicalNodes i N) = map key N.
Proof.
  induction N as [|n N IH]; intros i H.
  - reflexivity.
  - cbn [canonicalNodes map canonicalNode key].
    rewrite <- (H n (or_introl eq_refl)). f_equal. apply IH.
    intros n' Hn'. apply H. right. exact Hn'.
Qed.

Lemma map_var_canonical : forall N i,
  map originalVar (canonicalNodes i N) = names i N.
Proof.
  induction N as [|n N IH]; intros i.
  - reflexivity.
  - unfold names. cbn [canonicalNodes map numbered fst snd]. f_equal. apply IH.
Qed.

Lemma canonical_In : forall N i n',
  In n' (canonicalNodes i N) ->
  exists j n, In (j, n) (numbered i N) /\ n' = canonicalNode j n.
Proof.
  induction N as [|n0 N IH]; intros i n' H.
  - destruct H.
  - destruct H as [<-|H].
    + exists i, n0. split; [left; reflexivity|reflexivity].
    + destruct (IH (S i) n' H) as (j & n & Hin & E).
      exists j, n. split; [right; exact Hin|exact E].
Qed.

Lemma canonical_nodes_ok N rels : InputOk N rels ->
  NodesOk (canonicalNodes 1 N).
Proof.
  intros H. pose proof (InputOk_nodes N rels H) as HN.
  destruct H as [HD HW Hnd HK _ _]. split.
  - split.
    + rewrite map_var_canonical. exact Hnd.
    + rewrite (map_key_canonical N 1 HK). apply (d_keys N HD).
    + intros a b Ha Hb E.
      destruct (canonical_In N 1 a Ha) as (ja & na & Hna & ->).
      destruct (canonical_In N 1 b Hb) as (jb & nb & Hnb & ->).
      cbn [canonicalNode originalVar key] in E.
      assert (Hm : mem ":" (canonicalName ja na) = false).
      { apply (allChars_mem isWord); [apply identifier_word, HW, Hna|].
        reflexivity. }
      rewrite E in Hm. rewrite mem_app in Hm. cbn [append mem] in Hm.
      rewrite Ascii.eqb_refl in Hm. rewrite orb_true_r in Hm. discriminate.
  - intros j n' Hin.
    destruct (numbered_canonical_In N 1 j n' Hin) as (n & Hn & ->).
    apply (ok_names N HN j n Hn).
  - rewrite names_canonical. exact Hnd.
Qed.

Lemma names_In_inv : forall N i v,
  In v (names i N) ->
  exists j n, In (j, n) (numbered i N) /\ v = canonicalName j n.
Proof.
  intros N i v H. unfold names in H. apply in_map_iff in H.
  destruct H as [[j n] [E H]]. exists j, n. split; [exact H|symmetry; exact E].
Qed.

Lemma Between_joins N rels e : InputOk N rels -> Between N e ->
  Joins (canonicalNodes 1 N) (edgeRel e)
  /\ resolved (canonicalNodes 1 N) (edgeRel e) = e.
Proof.
  intros H [Hf [Ht _]]. destruct e as [[f ty] t].
  cbn [edgeFrom edgeType edgeTo fst snd] in Hf, Ht.
  destruct (names_In_inv N 1 f Hf) as (jf & nf & Hnf & Ef).
  destruct (names_In_inv N 1 t Ht) as (jt & nt & Hnt & Et).
  assert (Hjf : In (jf, canonicalNode jf nf) (numbered 1 (canonicalNodes 1 N))).
  { rewrite numbered_canonical.
    apply (in_map (fun jn => (fst jn, canonicalNode (fst jn) (snd jn))) _ _
             Hnf). }
  assert (Hjt : In (jt, canonicalNode jt nt) (numbered 1 (canonicalNodes 1 N))).
  { rewrite numbered_canonical.
    apply (in_map (fun jn => (fst jn, canonicalNode (fst jn) (snd jn))) _ _
             Hnt). }
  assert (Tf : trim f = f).
  { subst f. apply trim_word, identifier_word, (in_words N rels H jf nf Hnf). }
  assert (Tt : trim t = t).
  { subst t. apply trim_word, identifier_word, (in_words N rels H jt nt Hnt). }
  assert (HJ : Joins (canonicalNodes 1 N) (edgeRel (f, ty, t))).
  { split; cbn [edgeRel from to].
    - exists jf, (canonicalNode jf nf). repeat split; assumption.
    - exists jt, (canonicalNode jt nt). repeat split; assumption. }
  split; [exact HJ|].
  pose proof (canonical_nodes_ok N rels H) as HN'.
  unfold resolved. cbn [edgeRel from to type].
  rewrite Ef at 1. rewrite Et at 1.
  change (canonicalName jf nf) with (originalVar (canonicalNode jf nf)) at 1.
  change (canonicalName jt nt) with (originalVar (canonicalNode jt nt)) at 1.
  rewrite (resolveVar_mapped _ jf (canonicalNode jf nf)
             (ok_distinct _ HN') Hjf).
  - rewrite (resolveVar_mapped _ jt (canonicalNode jt nt)
               (ok_distinct _ HN') Hjt).
    + subst f t. reflexivity.
    + cbn [canonicalNode originalVar]. rewrite <- Et. exact Tt.
    + apply (ok_names _ HN' jt _ Hjt).
  - cbn [canonicalNode originalVar]. rewrite <- Ef. exact Tf.
  - apply (ok_names _ HN' jf _ Hjf).
Qed.

Lemma namesWith_names lbl N i v : In v (namesWith lbl i N) -> In v (names i N).
Proof.
  intros H. destruct (namesWith_In lbl N i v H) as (j & n & Hin & _ & ->).
  apply names_In. exact Hin.
Qed.

Lemma firstName_In lbl N v :
  firstName lbl N = Some v -> In v (namesWith lbl 1 N).
Proof.
  unfold firstName. destruct (namesWith lbl 1 N) as [|v0 l]; [discriminate|].
  intros E. injection E as <-. left. reflexivity.
Qed.

Lemma firstName_canonical lbl N :
  firstName lbl (canonicalNodes 1 N) = firstName lbl N.
Proof. unfold firstName. rewrite namesWith_canonical. reflexivity. Qed.

Lemma candidates_between N rels : InputOk N rels ->
  forall e, In e (passCandidates N rels) -> Between N e.
Proof.
  intros H e He. pose proof (InputOk_nodes N rels H) as HN.
  unfold passCandidates, sectionCandidates in He.
  apply in_app_or in He. destruct He as [He|He].
  - apply in_map_iff in He. destruct He as [e0 [<- He0]].
    apply in_map_iff in He0. destruct He0 as [rel [<- Hrel]].
    destruct (resolved_joins N rel HN (in_joins N rels H rel Hrel))
      as (jf & nf & jt & nt & Hf & Ht & ->).
    pose proof (canon_shape (labelMap 1 N [])
                  (canonicalName jf nf, type rel, canonicalName jt nt)) as Hs.
    cbv beta iota in Hs.
    destruct (canon (labelMap 1 N [])
                (canonicalName jf nf, type rel, canonicalName jt nt))
      as [[ff fty] ft].
    destruct Hs as [Hends Hty]. unfold Between.
    cbn [edgeFrom edgeType edgeTo fst snd].
    pose proof (names_In N 1 jf nf Hf) as Nf.
    pose proof (names_In N 1 jt nt Ht) as Nt.
    repeat split.
    + destruct Hends as [[-> _]|[-> _]]; assumption.
    + destruct Hends as [[_ ->]|[_ ->]]; assumption.
    + destruct Hty as [->|[->| ->]];
        [apply (in_types N rels H rel Hrel)|reflexivity|reflexivity].
  - apply in_app_or in He. destruct He as [He|He].
    + apply investmentCandidates_In in He.
      destruct He as (v & s0 & Hs & Hv & _ & ->).
      unfold Between. cbn [edgeFrom edgeType edgeTo fst snd]. repeat split.
      * apply (namesWith_names _ _ _ _ Hv).
      * apply (namesWith_names "Security"). apply firstName_In. exact Hs.
    + apply tradeCandidates_In in He.
      destruct He as [(v & a0 & Ha & Hv & _ & ->)|(v & s0 & Hs & Hv & _ & ->)];
        unfold Between; cbn [edgeFrom edgeType edgeTo fst snd]; repeat split.
      * apply (namesWith_names "Account"). apply firstName_In. exact Ha.
      * apply (namesWith_names _ _ _ _ Hv).
      * apply (namesWith_names _ _ _ _ Hv).
      * apply (namesWith_names "Security"). apply firstName_In. exact Hs.
Qed.

Lemma Between_readable N rels e :
  InputOk N rels -> Between N e -> readable e = true.
Proof.
  intros H [Hf [_ Hty]]. destruct e as [[f ty] t].
  cbn [edgeFrom edgeType edgeTo fst snd] in Hf, Hty. unfold readable.
  unfold typeOk in Hty. apply andb_true_iff in Hty. destruct Hty as [Hty _].
  rewrite (allChars_mem isWord "]" _ (identifier_word _ Hty) eq_refl).
  destruct (names_In_inv N 1 f Hf) as (j & n & Hn & ->).
  rewrite (allChars_mem isWord "-" _
             (identifier_word _ (in_words N rels H j n Hn)) eq_refl).
  reflexivity.
Qed.

Lemma account_is_account N rels a0 : InputOk N rels ->
  firstName "Account" N = Some a0 ->
  labelIs (mapGet a0 (labelMap 1 N [])) "Trade" = false.
Proof.
  intros H Ha. apply firstName_In in Ha.
  destruct (namesWith_In _ _ _ _ Ha) as (j & n & Hin & Hl & ->).
  rewrite (labelMap_get N 1 [] j n (in_nodup N rels H) Hin). rewrite Hl.
  reflexivity.
Qed.

Lemma passEdges_between N rels e :
  InputOk N rels -> In e (passEdges N rels) -> Between N e.
Proof.
  intros H He. apply (candidates_between N rels H).
  unfold passEdges, sectionEdges in He. apply emitNew_subset in He. exact He.
Qed.

(** The edges a run lists are the edges a run on them lists. *)
Lemma passEdges_second N rels : InputOk N rels ->
  passEdges (canonicalNodes 1 N) (map edgeRel (passEdges N rels))
  = passEdges N rels.
Proof.
  intros H. unfold passEdges at 1.
  rewrite labelMap_canonical, !namesWith_canonical, !firstName_canonical.
  rewrite map_map.
  rewrite (map_id_on (fun e => resolved (canonicalNodes 1 N) (edgeRel e)))
    by (intros e He;
        apply (Between_joins N rels e H (passEdges_between N rels e H He))).
  apply (sectionEdges_stable (labelMap 1 N []) (namesWith "Investment" 1 N)
           (namesWith "Trade" 1 N) (firstName "Account" N)
           (firstName "Security" N) (map (resolved N) rels)
           (passCandidates N rels) (passEdges N rels) eq_refl eq_refl).
  - intros e He. apply (Between_readable N rels e H).
    apply (candidates_between N rels H e He).
  - intros a0 Ha. apply (account_is_account N rels a0 H Ha).
Qed.

(** A run on the nodes and the edges of the text of a run gives the text. *)
Lemma renderSections_second N rels schema : InputOk N rels ->
  renderSections (canonicalNodes 1 N) (map edgeRel (passEdges N rels)) schema
  = renderSections N rels schema.
Proof.
  intros H.
  rewrite (renderSections_text N rels schema (InputOk_nodes N rels H)
             (in_joins N rels H)).
  rewrite (renderSections_text _ _ schema (canonical_nodes_ok N rels H)).
  - unfold renderedText, sectionsText.
    fold (linesOf 1 (canonicalNodes 1 N)).
    rewrite constraintsOf_canonical, linesOf_canonical,
      (passEdges_second N rels H).
    reflexivity.
  - intros rel Hrel. apply in_map_iff in Hrel. destruct Hrel as [e [<- He]].
    apply (Between_joins N rels e H (passEdges_between N rels e H He)).
Qed.

End RenderFacts.

(** *** Reading the three sections back *)

Module ReadFacts.
Import Js Regex StringAux JsFacts FormatCypher Canonical EdgeDefs CharDefs
  PatternDefs RenderDefs WellFormed MapFacts NodeFacts CharFacts EdgeFacts
  RegexFacts RenderFacts.

Lemma isI_word c : isI c = true -> isWord c = true.
Proof. destruct c as [[] [] [] [] [] [] [] []]; cbv; congruence. Qed.

Lemma isD_word c : isD c = true -> isWord c = true.
Proof. destruct c as [[] [] [] [] [] [] [] []]; cbv; congruence. Qed.

Lemma isD_not_I c : isD c = true -> chrEq true "I" c = false.
Proof. destruct c as [[] [] [] [] [] [] [] []]; cbv; congruence. Qed.

Lemma isI_chr c :
  isI c = true -> chrEq true "I" c = true /\ chrEq true "i" c = true.
Proof. destruct c as [[] [] [] [] [] [] [] []]; cbv; intuition congruence. Qed.

Lemma isD_chr c : isD c = true -> chrEq true "d" c = true.
Proof. destruct c as [[] [] [] [] [] [] [] []]; cbv; congruence. Qed.

Lemma idName_long a b c t :
  idName (String a (String b (String c t)))
  = isWord a && idName (String b (String c t)).
Proof. reflexivity. Qed.

(** Induction on an accepted name: the two letters, or a word character
    before an accepted name. *)
Lemma idName_induction (Q : string -> Prop) :
  (forall a b, isI a = true -> isD b = true ->
     Q (String a (String b EmptyString))) ->
  (forall a t, isWord a = true -> idName t = true -> Q t -> Q (String a t)) ->
  forall p, idName p = true -> Q p.
Proof.
  intros H2 Hlong.
  assert (H : forall p a, idName (String a p) = true -> Q (String a p)).
  { induction p as [|b p IH]; intros a H.
    - discriminate.
    - destruct p as [|c t].
      + cbn [idName] in H. apply andb_true_iff in H. destruct H as [Ha Hb].
        apply H2; assumption.
      + rewrite idName_long in H. apply andb_true_iff in H.
        destruct H as [Ha Ht]. apply Hlong; [exact Ha|exact Ht|].
        apply IH. exact Ht. }
  intros [|a p] Hp; [discriminate|]. apply H. exact Hp.
Qed.

Lemma idName_word p : idName p = true -> allChars isWord p = true.
Proof.
  revert p. apply idName_induction.
  - intros a b Ha Hb. cbn [allChars].
    rewrite (isI_word a Ha), (isD_word b Hb). reflexivity.
  - intros a t Ha _ IH. cbn [allChars]. rewrite Ha, IH. reflexivity.
Qed.

(** The first alternative, a run of word characters before the two letters:
    the run gives back until the two letters are the last two. *)
Lemma star_id {A} cs (kg : string -> captures -> option A) rest x :
  kg (String ":" rest) cs = Some x ->
  forall t, idName t = true ->
  star isWord (t ++ String ":" rest)
    (fun s' => rmatch true (lit "Id") s' cs kg) = Some x.
Proof.
  intros Hk. apply idName_induction.
  - intros a b Ha Hb.
    cbn [append star]. rewrite (isI_word a Ha), (isD_word b Hb).
    cbn [lit rmatch]. rewrite (isD_not_I b Hb).
    replace (chrEq true "I" ":") with false by reflexivity.
    rewrite (proj1 (isI_chr a Ha)), (isD_chr b Hb). rewrite Hk. reflexivity.
  - intros a t Ha _ IH. cbn [append star]. rewrite Ha, IH. reflexivity.
Qed.

Lemma rmatch_group {A} ci i r s cs (k : string -> captures -> option A) :
  rmatch ci (Group i r) s cs k
  = rmatch ci r s cs
      (fun s' cs' =>
         k s' ((i, take (String.length s - String.length s') s) :: cs')).
Proof. reflexivity. Qed.

Lemma rmatch_alt {A} ci a b s cs (k : string -> captures -> option A) :
  rmatch ci (Alt a b) s cs k
  = match rmatch ci a s cs k with
    | Some x => Some x
    | None => rmatch ci b s cs k
    end.
Proof. reflexivity. Qed.

Lemma first_alternative_long {A} cs (kg : string -> captures -> option A)
  rest x a t :
  isWord a = true -> idName t = true -> kg (String ":" rest) cs = Some x ->
  rmatch true (Seq (Plus isWord) (lit "Id")) (String a (t ++ String ":" rest))
    cs kg = Some x.
Proof.
  intros Ha Ht Hk.
  change (rmatch true (Seq (Plus isWord) (lit "Id"))
            (String a (t ++ String ":" rest)) cs kg)
    with (if isWord a
          then star isWord (t ++ String ":" rest)
                 (fun s' => rmatch true (lit "Id") s' cs kg)
          else None).
  rewrite Ha. apply star_id; assumption.
Qed.

Lemma first_alternative_short {A} cs (kg : string -> captures -> option A)
  rest a b :
  isI a = true -> isD b = true ->
  rmatch true (Seq (Plus isWord) (lit "Id"))
    (String a (String b (String ":" rest))) cs kg = None.
Proof.
  intros Ha Hb. cbn [rmatch lit star].
  rewrite (isI_word a Ha), (isD_word b Hb).
  replace (isWord ":") with false by reflexivity.
  replace (chrEq true "I" ":") with false by reflexivity.
  rewrite (isD_not_I b Hb). reflexivity.
Qed.

Lemma second_alternative {A} cs (kg : string -> captures -> option A) s a b :
  isI a = true -> isD b = true ->
  rmatch true (lit "id") (String a (String b s)) cs kg = kg s cs.
Proof.
  intros Ha Hb. cbn [rmatch lit].
  rewrite (proj2 (isI_chr a Ha)), (isD_chr b Hb). reflexivity.
Qed.

(** The name group on an accepted name followed by the colon. *)
Lemma idName_group {A} p rest cs (k : string -> captures -> option A) x :
  idName p = true ->
  k (String ":" rest) ((1, p) :: cs) = Some x ->
  rmatch true (Group 1 idAlternatives) (p ++ String ":" rest) cs k = Some x.
Proof.
  intros Hp Hk. rewrite rmatch_group. unfold idAlternatives.
  match goal with
  | |- rmatch _ _ _ _ ?K = _ => set (kg := K)
  end.
  assert (Hkg : kg (String ":" rest) cs = Some x).
  { unfold kg. rewrite take_consumed. exact Hk. }
  clearbody kg. rewrite rmatch_alt.
  destruct p as [|a [|b [|c t]]]; try discriminate.
  - cbn [idName] in Hp. apply andb_true_iff in Hp. destruct Hp as [Ha Hb].
    cbn [append]. rewrite (first_alternative_short cs kg rest a b Ha Hb).
    rewrite rmatch_alt. rewrite (second_alternative cs kg _ a b Ha Hb).
    rewrite Hkg. reflexivity.
  - rewrite idName_long in Hp. apply andb_true_iff in Hp.
    destruct Hp as [Ha Ht].
    change (String a (String b (String c t)) ++ String ":" rest)
      with (String a (String b (String c t) ++ String ":" rest)).
    rewrite (first_alternative_long cs kg rest x a _ Ha Ht Hkg). reflexivity.
Qed.

Lemma seq_chr_ci {A} ci c r s cs (k : string -> captures -> option A) :
  rmatch ci (Seq (Chr c) r) (String c s) cs k = rmatch ci r s cs k.
Proof.
  cbn [rmatch]. replace (chrEq ci c c) with true; [reflexivity|].
  unfold chrEq. destruct ci; rewrite Ascii.eqb_refl; reflexivity.
Qed.

(** The identifier pattern reads the written properties back. *)
Lemma idPattern_reads n :
  idName (idProp n) = true ->
  idValue n <> EmptyString -> allChars notQuote (idValue n) = true ->
  search true idPattern (propsText n)
  = Some ([(2, idValue n); (1, idProp n)], EmptyString).
Proof.
  intros Hp Hne Hv. apply search_found.
  unfold matchAt, idPattern, idBody, propsText, seqs. cbn [fold_right].
  fold idAlternatives.
  change (idProp n ++ ": " ++ dq ++ idValue n ++ dq)
    with (idProp n ++ String ":" (" " ++ dq ++ idValue n ++ dq)).
  change (rmatch true (Seq (Group 1 idAlternatives) ?r) ?s ?cs ?k)
    with (rmatch true (Group 1 idAlternatives) s cs
            (fun s' cs' => rmatch true r s' cs' k)).
  apply idName_group; [exact Hp|].
  rewrite seq_chr_ci.
  rewrite (seq_star_det true isSpace _ " " (dq ++ idValue n ++ dq));
    [|reflexivity|reflexivity|apply refuses_cls].
  - change (dq ++ idValue n ++ dq)
      with (String (ascii_of_nat 34) (idValue n ++ dq)).
    rewrite seq_cls by reflexivity.
    rewrite (seq_group_plus_det true 2 (fun c => negb (quoteChar c)) _
               (idValue n) dq);
      [|exact Hne|exact Hv|reflexivity|apply refuses_cls].
    + unfold dq. rewrite seq_cls by reflexivity. reflexivity.
    + intros c Hc. apply negb_true_iff in Hc. exact Hc.
  - intros c Hc. destruct c as [[] [] [] [] [] [] [] []]; cbv in Hc |- *;
      congruence.
Qed.

Lemma spaces_space k : allChars isSpace (spaces k) = true.
Proof.
  induction k as [|k IH]; [reflexivity|]. cbn [spaces allChars]. exact IH.
Qed.

Lemma spaces_then_brace k x : stopsAt isWord (spaces k ++ String "{" x) = true.
Proof. destruct k; reflexivity. Qed.

Lemma word_not_space' c : isWord c = true -> isSpace c = false.
Proof. intros H. apply negb_true_iff. apply word_not_space. exact H. Qed.

Lemma nodeLine_text v n rest :
  nodeLine v n ++ rest
  = "MERGE" ++ " " ++ String "(" (v ++ String ":" (label n
      ++ (spaces (20 - String.length v) ++ String "{" (propsText n
      ++ String "}" (String ")" (nl ++ rest)))))).
Proof.
  unfold nodeLine, propsText. rewrite !append_assoc. reflexivity.
Qed.

(** The node pattern on the line of a node. *)
Lemma nodePattern_line v n rest :
  isIdentifier v = true -> isIdentifier (label n) = true ->
  allChars (notChar "}") (propsText n) = true ->
  matchAt false nodePattern (nodeLine v n ++ rest)
  = Some (nodeCaptures v n, nl ++ rest).
Proof.
  intros Hv Hl Hp. rewrite nodeLine_text.
  unfold matchAt, nodePattern, seqs. cbn [fold_right].
  rewrite seq_lit.
  rewrite (seq_star_det false isSpace _ " ");
    [|reflexivity|reflexivity|apply refuses_chr; reflexivity].
  rewrite seq_chr.
  rewrite (seq_group_plus_det false 1 isWord _ v);
    [|apply identifier_not_empty; exact Hv|apply identifier_word; exact Hv
     |reflexivity|apply refuses_chr; reflexivity].
  rewrite seq_chr.
  rewrite (seq_group_plus_det false 2 isWord _ (label n));
    [|apply identifier_not_empty; exact Hl|apply identifier_word; exact Hl
     |apply spaces_then_brace
     |apply refuses_star; [exact word_not_space'|apply refuses_chr;
     reflexivity]].
  rewrite (seq_star_det false isSpace _ (spaces (20 - String.length v)));
    [|apply spaces_space|reflexivity|apply refuses_chr; reflexivity].
  rewrite seq_chr.
  rewrite (seq_group_plus_det false 3 (notChar "}") _ (propsText n));
    [| |exact Hp|reflexivity|apply refuses_chr; reflexivity].
  - rewrite seq_chr. rewrite seq_chr. reflexivity.
  - unfold propsText. destruct (idProp n); discriminate.
Qed.

Lemma edgeLine_text e rest :
  edgeLine e ++ rest
  = "MERGE" ++ " " ++ String "(" (fst (fst e) ++ String ")" ("-[:"
      ++ (snd (fst e) ++ String "]" (String "-" (String ">" (String "("
      (snd e ++ String ")" (String ";" (nl ++ nl ++ rest))))))))).
Proof.
  destruct e as [[f ty] t]. unfold edgeLine, relLine. cbn [fst snd].
  rewrite !append_assoc. reflexivity.
Qed.

Lemma word_not_paren s :
  allChars isWord s = true -> allChars (notChar ")") s = true.
Proof.
  apply allChars_weaken. intros c Hc. unfold notChar.
  rewrite Ascii.eqb_sym. rewrite (class_excludes isWord ")" c Hc eq_refl).
  reflexivity.
Qed.

Lemma word_not_bracket s :
  allChars isWord s = true -> allChars (notChar "]") s = true.
Proof.
  apply allChars_weaken. intros c Hc. unfold notChar.
  rewrite Ascii.eqb_sym. rewrite (class_excludes isWord "]" c Hc eq_refl).
  reflexivity.
Qed.

(** The relationship pattern on the line of an edge. *)
Lemma relPattern_line e rest :
  isIdentifier (fst (fst e)) = true -> isIdentifier (snd (fst e)) = true ->
  isIdentifier (snd e) = true ->
  matchAt false relPattern (edgeLine e ++ rest)
  = Some (edgeCaptures e, String ";" (nl ++ nl ++ rest)).
Proof.
  intros Hf Hty Ht. rewrite edgeLine_text. destruct e as [[f ty] t].
  cbn [fst snd] in *.
  unfold matchAt, relPattern, seqs. cbn [fold_right].
  rewrite seq_lit.
  rewrite (seq_star_det false isSpace _ " ");
    [|reflexivity|reflexivity|apply refuses_chr; reflexivity].
  rewrite seq_chr.
  rewrite (seq_group_plus_det false 1 (notChar ")") _ f);
    [|apply identifier_not_empty; exact Hf
     |apply word_not_paren, identifier_word; exact Hf
     |reflexivity|apply refuses_chr; reflexivity].
  rewrite seq_chr. rewrite seq_lit.
  rewrite (seq_group_plus_det false 2 (notChar "]") _ ty);
    [|apply identifier_not_empty; exact Hty
     |apply word_not_bracket, identifier_word; exact Hty
     |reflexivity|apply refuses_chr; reflexivity].
  rewrite seq_chr.
  rewrite seq_alt_second by (intros k'; reflexivity).
  change (String "-" (String ">" ?x)) with ("->" ++ x).
  rewrite seq_lit. rewrite seq_chr.
  rewrite (seq_group_plus_det false 3 (notChar ")") _ t);
    [|apply identifier_not_empty; exact Ht
     |apply word_not_paren, identifier_word; exact Ht
     |reflexivity|apply refuses_chr; reflexivity].
  rewrite seq_chr. reflexivity.
Qed.

(** The relationship pattern does not match on the line of a node. *)
Lemma relPattern_not_node v n rest :
  allChars (notChar ")") (v ++ String ":" (label n
      ++ (spaces (20 - String.length v) ++ String "{" (propsText n
      ++ String "}" EmptyString)))) = true ->
  matchAt false relPattern (nodeLine v n ++ rest) = None.
Proof.
  intros H. rewrite nodeLine_text.
  unfold matchAt, relPattern, seqs. cbn [fold_right].
  rewrite seq_lit.
  rewrite (seq_star_det false isSpace _ " ");
    [|reflexivity|reflexivity|apply refuses_chr; reflexivity].
  rewrite seq_chr.
  replace (v ++ String ":" (label n
             ++ (spaces (20 - String.length v) ++ String "{" (propsText n
             ++ String "}" (String ")" (nl ++ rest))))))
    with ((v ++ String ":" (label n
             ++ (spaces (20 - String.length v) ++ String "{" (propsText n
             ++ String "}" EmptyString)))) ++ String ")" (nl ++ rest)).
  - rewrite seq_group_plus_det;
      [|destruct v; discriminate|exact H|reflexivity
       |apply refuses_chr; reflexivity].
    rewrite seq_chr. reflexivity.
  - rewrite !append_assoc. cbn [append]. rewrite !append_assoc. cbn [append].
    rewrite !append_assoc. reflexivity.
Qed.

(** The node pattern does not match on the line of an edge. *)
Lemma nodePattern_not_edge e rest :
  isIdentifier (fst (fst e)) = true ->
  matchAt false nodePattern (edgeLine e ++ rest) = None.
Proof.
  intros Hf. rewrite edgeLine_text. destruct e as [[f ty] t].
  cbn [fst snd] in *.
  unfold matchAt, nodePattern, seqs. cbn [fold_right].
  rewrite seq_lit.
  rewrite (seq_star_det false isSpace _ " ");
    [|reflexivity|reflexivity|apply refuses_chr; reflexivity].
  rewrite seq_chr.
  rewrite (seq_group_plus_det false 1 isWord _ f);
    [|apply identifier_not_empty; exact Hf|apply identifier_word; exact Hf
     |reflexivity|apply refuses_chr; reflexivity].
  reflexivity.
Qed.

Lemma nodePattern_tail : nodePattern = Seq (lit "MERGE") nodeTail.
Proof. reflexivity. Qed.

Lemma relPattern_tail : relPattern = Seq (lit "MERGE") relTail.
Proof. reflexivity. Qed.

Lemma quiet_includes s : quiet s = true -> includes "MERGE" s = false.
Proof. unfold quiet. intros H. apply negb_true_iff in H. exact H. Qed.

Lemma spaces_no_M k : mem "M" (spaces k) = false.
Proof. induction k as [|k IH]; [reflexivity|]. cbn [spaces mem]. exact IH. Qed.

Section Skipping.
Variable r : regex.

Lemma skip_quiet piece d rest :
  quiet piece = true -> mem d "MERGE" = false ->
  search false (Seq (lit "MERGE") r) (piece ++ String d rest)
  = search false (Seq (lit "MERGE") r) (String d rest).
Proof.
  intros Hq Hd. apply search_skip_piece;
    [discriminate|apply quiet_includes; exact Hq|exact Hd].
Qed.

Lemma skip_one d rest :
  Ascii.eqb "M" d = false ->
  search false (Seq (lit "MERGE") r) (String d rest)
  = search false (Seq (lit "MERGE") r) rest.
Proof. intros H. apply search_skip_char. exact H. Qed.

Lemma skip_plain piece rest :
  mem "M" piece = false ->
  search false (Seq (lit "MERGE") r) (piece ++ rest)
  = search false (Seq (lit "MERGE") r) rest.
Proof. intros H. apply search_skip_chars. exact H. Qed.

Lemma skip_spaces k rest :
  search false (Seq (lit "MERGE") r) (spaces k ++ rest)
  = search false (Seq (lit "MERGE") r) rest.
Proof. apply skip_plain. apply spaces_no_M. Qed.

(** A quiet piece before a run of spaces and an opening brace. *)
Lemma skip_quiet_spaces piece k rest :
  quiet piece = true ->
  search false (Seq (lit "MERGE") r) (piece ++ (spaces k ++ String "{" rest))
  = search false (Seq (lit "MERGE") r) rest.
Proof.
  intros Hq. destruct k as [|k].
  - cbn [spaces append]. rewrite skip_quiet by (exact Hq || reflexivity).
    apply skip_one. reflexivity.
  - cbn [spaces append]. rewrite skip_quiet by (exact Hq || reflexivity).
    rewrite skip_one by reflexivity. rewrite skip_spaces.
    apply skip_one. reflexivity.
Qed.

End Skipping.

Ltac skip_chars_now :=
  repeat (rewrite skip_one by reflexivity).

(** Past the line of a node, for a pattern that does not match at its
    start. *)
Lemma skip_nodeLine r v n rest :
  matchAt false (Seq (lit "MERGE") r) (nodeLine v n ++ rest) = None ->
  mem "M" v = false -> quiet (label n) = true ->
  quiet (idProp n) = true -> quiet (idValue n) = true ->
  search false (Seq (lit "MERGE") r) (nodeLine v n ++ rest)
  = search false (Seq (lit "MERGE") r) rest.
Proof.
  intros H0 Hv Hl Hp Hi.
  assert (E : nodeLine v n ++ rest
              = String "M" ("ERGE (" ++ (v ++ String ":" (label n
                  ++ (spaces (20 - String.length v) ++ String "{" (idProp n
                  ++ String ":" (String " " (String (ascii_of_nat 34)
                       (idValue n ++ String (ascii_of_nat 34)
                          (String "}" (String ")" (nl ++ rest)))))))))))).
  { unfold nodeLine, dq. rewrite !append_assoc. reflexivity. }
  rewrite E in *. rewrite (search_next _ _ _ _ H0).
  cbn [append]. skip_chars_now.
  rewrite skip_plain by exact Hv. skip_chars_now.
  rewrite skip_quiet_spaces by exact Hl.
  rewrite skip_quiet by (exact Hp || reflexivity). skip_chars_now.
  rewrite skip_quiet by (exact Hi || reflexivity). unfold nl. cbn [append].
  skip_chars_now. reflexivity.
Qed.

(** Past the line of an edge, likewise. *)
Lemma skip_edgeLine r e rest :
  matchAt false (Seq (lit "MERGE") r) (edgeLine e ++ rest) = None ->
  mem "M" (fst (fst e)) = false -> quiet (snd (fst e)) = true ->
  mem "M" (snd e) = false ->
  search false (Seq (lit "MERGE") r) (edgeLine e ++ rest)
  = search false (Seq (lit "MERGE") r) rest.
Proof.
  intros H0 Hf Hty Ht. destruct e as [[f ty] t]. cbn [fst snd] in *.
  assert (E : edgeLine (f, ty, t) ++ rest
              = String "M" ("ERGE (" ++ (f ++ (")-[:" ++ (ty ++ String "]"
                  ("->(" ++ (t ++ (");" ++ nl ++ nl ++ rest)))))))).
  { unfold edgeLine, relLine. rewrite !append_assoc. reflexivity. }
  rewrite E in *. rewrite (search_next _ _ _ _ H0).
  cbn [append]. skip_chars_now.
  rewrite skip_plain by exact Hf. cbn [append]. skip_chars_now.
  rewrite skip_quiet by (exact Hty || reflexivity). skip_chars_now.
  rewrite skip_plain by exact Ht. unfold nl. cbn [append].
  skip_chars_now. reflexivity.
Qed.

(** The start of a comment of the corrector is no start of a match. *)
Lemma skip_keyword_in_comment r rest tail :
  search false (Seq (lit "MERGE") (Seq (Star isSpace) (Seq (Chr "(") r)))
    ("MERGE relationships" ++ tail ++ rest)
  = search false (Seq (lit "MERGE") (Seq (Star isSpace) (Seq (Chr "(") r)))
      (tail ++ rest).
Proof.
  change ("MERGE relationships" ++ tail ++ rest)
    with (String "M" ("ERGE relationships" ++ tail ++ rest)).
  rewrite search_next.
  - cbn [append]. skip_chars_now. reflexivity.
  - unfold matchAt.
    change (String "M" ("ERGE relationships" ++ tail ++ rest))
      with ("MERGE" ++ " " ++ String "r" ("elationships" ++ tail ++ rest)).
    rewrite seq_lit.
    rewrite (seq_star_det false isSpace _ " ");
      [|reflexivity|reflexivity|apply refuses_chr; reflexivity].
    apply seq_chr_fail. reflexivity.
Qed.

Lemma word_not x s :
  isWord x = false -> allChars isWord s = true -> allChars (notChar x) s = true.
Proof.
  intros Hx. apply allChars_weaken. intros c Hc. unfold notChar.
  rewrite Ascii.eqb_sym. rewrite (class_excludes isWord x c Hc Hx). reflexivity.
Qed.

Lemma value_not_quote s :
  allChars valueChar s = true -> allChars notQuote s = true.
Proof.
  apply allChars_weaken. intros c Hc. unfold valueChar in Hc.
  apply andb_true_iff in Hc. destruct Hc as [Hc _].
  apply andb_true_iff in Hc. destruct Hc as [Hc _].
  apply andb_true_iff in Hc. destruct Hc as [Hc _]. exact Hc.
Qed.

Lemma value_not_brace s :
  allChars valueChar s = true -> allChars (notChar "}") s = true.
Proof.
  apply allChars_weaken. intros c Hc. unfold valueChar in Hc.
  apply andb_true_iff in Hc. destruct Hc as [Hc _].
  apply andb_true_iff in Hc. destruct Hc as [Hc _].
  apply andb_true_iff in Hc. destruct Hc as [_ Hc]. exact Hc.
Qed.

Lemma value_not_paren s :
  allChars valueChar s = true -> allChars (notChar ")") s = true.
Proof.
  apply allChars_weaken. intros c Hc. unfold valueChar in Hc.
  apply andb_true_iff in Hc. destruct Hc as [Hc _].
  apply andb_true_iff in Hc. destruct Hc as [_ Hc]. exact Hc.
Qed.

Lemma value_not_amp s :
  allChars valueChar s = true -> allChars (notChar "&") s = true.
Proof.
  apply allChars_weaken. intros c Hc. unfold valueChar in Hc.
  apply andb_true_iff in Hc. destruct Hc as [_ Hc]. exact Hc.
Qed.

(** The written properties keep clear of a character that is no word
    character, no colon, space or quote, and that the value does not hold. *)
Lemma propsText_not x n :
  isWord x = false -> Ascii.eqb ":" x = false -> Ascii.eqb " " x = false ->
  Ascii.eqb (ascii_of_nat 34) x = false ->
  idName (idProp n) = true -> allChars (notChar x) (idValue n) = true ->
  allChars (notChar x) (propsText n) = true.
Proof.
  intros Hw Hc Hs Hq Hp Hv. unfold propsText, dq.
  rewrite !allChars_app. rewrite (word_not x _ Hw (idName_word _ Hp)), Hv.
  cbn [allChars]. unfold notChar. rewrite Hc, Hs, Hq. reflexivity.
Qed.

Lemma spaces_not x k :
  Ascii.eqb " " x = false -> allChars (notChar x) (spaces k) = true.
Proof.
  intros H. induction k as [|k IH]; [reflexivity|].
  cbn [spaces allChars]. unfold notChar at 1. rewrite H. exact IH.
Qed.

Lemma nodePattern_reads v n rest : NodeLineOk v n ->
  search false nodePattern (nodeLine v n ++ rest)
  = Some (nodeCaptures v n, nl ++ rest).
Proof.
  intros H. apply search_found.
  apply nodePattern_line; [apply (nl_var v n H)|apply (nl_label v n H)|].
  apply propsText_not; try reflexivity; [apply (nl_prop v n H)|].
  apply value_not_brace, (nl_value v n H).
Qed.

Lemma relPattern_skips_node v n rest : NodeLineOk v n ->
  search false relPattern (nodeLine v n ++ rest) = search false relPattern rest.
Proof.
  intros H. rewrite relPattern_tail.
  apply skip_nodeLine;
    [|apply (nl_var_plain v n H)|apply (nl_label_quiet v n H)
     |apply (nl_prop_quiet v n H)|apply (nl_value_quiet v n H)].
  rewrite <- relPattern_tail. apply relPattern_not_node.
  rewrite !allChars_app. cbn [allChars]. rewrite !allChars_app. cbn [allChars].
  rewrite !allChars_app. cbn [allChars].
  rewrite (word_not ")" v eq_refl (identifier_word _ (nl_var v n H))).
  rewrite (word_not ")" _ eq_refl (identifier_word _ (nl_label v n H))).
  rewrite (spaces_not ")" _ eq_refl).
  rewrite (propsText_not ")" n eq_refl eq_refl eq_refl eq_refl (nl_prop v n H)
             (value_not_paren _ (nl_value v n H))).
  reflexivity.
Qed.

Lemma relPattern_reads e rest : EdgeLineOk e ->
  search false relPattern (edgeLine e ++ rest)
  = Some (edgeCaptures e, String ";" (nl ++ nl ++ rest)).
Proof.
  intros [Hf _ Hty _ Ht _]. apply search_found.
  apply relPattern_line; assumption.
Qed.

Lemma nodePattern_skips_edge e rest : EdgeLineOk e ->
  search false nodePattern (edgeLine e ++ rest) = search false nodePattern rest.
Proof.
  intros [Hf Hfp Hty Htq Ht Htp]. rewrite nodePattern_tail.
  apply skip_edgeLine; [|exact Hfp|exact Htq|exact Htp].
  rewrite <- nodePattern_tail. apply nodePattern_not_edge. exact Hf.
Qed.

Lemma execAll_cong ci r s s' :
  search ci r s = search ci r s' ->
  forall fuel, execAllFuel fuel ci r s = execAllFuel fuel ci r s'.
Proof.
  intros H [|fuel]; [reflexivity|]. cbn [execAllFuel]. rewrite H. reflexivity.
Qed.

Lemma nodes_execAll tail :
  search false nodePattern tail = None ->
  forall lines fuel,
    LinesOk lines ->
    List.length lines < fuel ->
    execAllFuel fuel false nodePattern (linesText lines ++ tail)
    = map lineCaptures lines.
Proof.
  intros Htail. induction lines as [|jn lines IH]; intros fuel Hok Hf.
  - destruct fuel as [|fuel]; [inversion Hf|].
    cbn [linesText fold_right append execAllFuel map]. rewrite Htail.
    reflexivity.
  - destruct fuel as [|fuel]; [inversion Hf|].
    cbn [linesText fold_right map]. fold (linesText lines).
    rewrite append_assoc. cbn [execAllFuel].
    rewrite (nodePattern_reads _ _ _ (Hok jn (or_introl eq_refl))).
    f_equal.
    rewrite (execAll_cong false nodePattern _ (linesText lines ++ tail)).
    + apply IH; [intros jn' Hin; apply Hok; right; exact Hin|].
      cbn [List.length] in Hf. lia.
    + rewrite nodePattern_tail. unfold nl. cbn [append].
      apply skip_one. reflexivity.
Qed.

Lemma edges_execAll :
  forall es fuel,
    EdgesOk es ->
    List.length es < fuel ->
    execAllFuel fuel false relPattern (edgeLines es) = map edgeCaptures es.
Proof.
  induction es as [|e es IH]; intros fuel Hok Hf.
  - destruct fuel as [|fuel]; [inversion Hf|]. reflexivity.
  - destruct fuel as [|fuel]; [inversion Hf|].
    cbn [edgeLines fold_right map]. fold (edgeLines es). cbn [execAllFuel].
    rewrite (relPattern_reads _ _ (Hok e (or_introl eq_refl))).
    f_equal.
    rewrite (execAll_cong false relPattern _ (edgeLines es)).
    + apply IH; [intros e' Hin; apply Hok; right; exact Hin|].
      cbn [List.length] in Hf. lia.
    + rewrite relPattern_tail. unfold nl. cbn [append].
      rewrite !skip_one by reflexivity. reflexivity.
Qed.

Lemma nodes_skipped rest :
  forall lines,
    LinesOk lines ->
    search false relPattern (linesText lines ++ rest)
    = search false relPattern rest.
Proof.
  induction lines as [|jn lines IH]; intros Hok.
  - reflexivity.
  - cbn [linesText fold_right]. fold (linesText lines). rewrite append_assoc.
    rewrite (relPattern_skips_node _ _ _ (Hok jn (or_introl eq_refl))).
    apply IH. intros jn' Hin. apply Hok. right. exact Hin.
Qed.

Lemma edges_skipped rest :
  forall es,
    EdgesOk es ->
    search false nodePattern (edgeLines es ++ rest)
    = search false nodePattern rest.
Proof.
  induction es as [|e es IH]; intros Hok.
  - reflexivity.
  - cbn [edgeLines fold_right]. fold (edgeLines es). rewrite append_assoc.
    rewrite (nodePattern_skips_edge _ _ (Hok e (or_introl eq_refl))).
    apply IH. intros e' Hin. apply Hok. right. exact Hin.
Qed.

Lemma sectionsText_shape cs lines es :
  sectionsText cs lines es
  = cs ++ String (ascii_of_nat 10)
      (nodesComment ++ (linesText lines ++ afterLines es)).
Proof.
  unfold sectionsText, nodesHeader, relsHeader, nodesComment, afterLines,
    afterKeyword.
  rewrite !append_assoc. rewrite append_nil_r. reflexivity.
Qed.

Lemma linesText_length lines :
  List.length lines <= String.length (linesText lines).
Proof.
  induction lines as [|jn lines IH]; [apply Nat.le_refl|].
  cbn [linesText fold_right List.length]. fold (linesText lines).
  rewrite length_app. unfold nodeLine.
  change ("MERGE (" ++ ?x) with (String "M" ("ERGE (" ++ x)).
  cbn [String.length]. lia.
Qed.

Lemma edgeLines_length es : List.length es <= String.length (edgeLines es).
Proof.
  induction es as [|e es IH]; [apply Nat.le_refl|].
  cbn [edgeLines fold_right List.length]. fold (edgeLines es).
  rewrite length_app. destruct e as [[f ty] t]. unfold edgeLine, relLine.
  change ("MERGE (" ++ ?x) with (String "M" ("ERGE (" ++ x)).
  cbn [String.length]. lia.
Qed.

Lemma sectionsText_length cs lines es :
  List.length lines < S (String.length (sectionsText cs lines es))
  /\ List.length es < S (String.length (sectionsText cs lines es)).
Proof.
  unfold sectionsText. rewrite !length_app.
  pose proof (linesText_length lines). pose proof (edgeLines_length es).
  lia.
Qed.

Section Reading.
Variable cs : string.
Variable lines : list (nat * Node).
Variable es : list Edge.
Hypothesis cs_quiet : quiet cs = true.
Hypothesis lines_ok : LinesOk lines.
Hypothesis es_ok : EdgesOk es.

(** The node pattern finds the lines of the nodes and nothing else. *)
Lemma sectionsText_nodes :
  execAll false nodePattern (sectionsText cs lines es)
  = map lineCaptures lines.
Proof.
  unfold execAll.
  rewrite (execAll_cong false nodePattern (sectionsText cs lines es)
             (linesText lines ++ afterLines es)).
  - apply nodes_execAll; [|exact lines_ok|apply sectionsText_length].
    unfold afterLines.
    rewrite nodePattern_tail. rewrite skip_plain by reflexivity.
    unfold nodeTail, seqs. cbn [fold_right].
    rewrite skip_keyword_in_comment. rewrite skip_plain by reflexivity.
    change (Seq (lit "MERGE") ?r) with nodePattern.
    rewrite (edges_skipped EmptyString es es_ok). reflexivity.
  - rewrite sectionsText_shape. rewrite nodePattern_tail.
    rewrite skip_quiet by (exact cs_quiet || reflexivity).
    rewrite skip_one by reflexivity. rewrite skip_plain by reflexivity.
    reflexivity.
Qed.

(** The relationship pattern finds the lines of the edges and nothing
    else. *)
Lemma sectionsText_edges :
  execAll false relPattern (sectionsText cs lines es) = map edgeCaptures es.
Proof.
  unfold execAll.
  rewrite (execAll_cong false relPattern (sectionsText cs lines es)
             (edgeLines es)).
  - apply edges_execAll; [exact es_ok|apply sectionsText_length].
  - rewrite sectionsText_shape. rewrite relPattern_tail.
    rewrite skip_quiet by (exact cs_quiet || reflexivity).
    rewrite skip_one by reflexivity. rewrite skip_plain by reflexivity.
    rewrite <- relPattern_tail. rewrite (nodes_skipped _ lines lines_ok).
    unfold afterLines.
    rewrite relPattern_tail. rewrite skip_plain by reflexivity.
    unfold relTail, seqs. cbn [fold_right].
    rewrite skip_keyword_in_comment. rewrite skip_plain by reflexivity.
    rewrite append_nil_r. reflexivity.
Qed.

End Reading.

Lemma lower_word c : isWord c = true -> isWord (lowerChar c) = true.
Proof. destruct c as [[] [] [] [] [] [] [] []]; cbv; congruence. Qed.

Lemma lower_not_M c : Ascii.eqb "M" (lowerChar c) = false.
Proof. destruct c as [[] [] [] [] [] [] [] []]; reflexivity. Qed.

Lemma digit_word c : isDigit c = true -> isWord c = true.
Proof.
  intros H. unfold isWord. rewrite H. rewrite orb_true_r. reflexivity.
Qed.

Lemma uint_digits d : allChars isDigit (NilEmpty.string_of_uint d) = true.
Proof.
  induction d; cbn [NilEmpty.string_of_uint allChars]; try exact IHd;
  reflexivity.
Qed.

Lemma ofNat_word j : allChars isWord (ofNat j) = true.
Proof.
  unfold ofNat. apply (allChars_weaken isDigit isWord digit_word).
  apply uint_digits.
Qed.

Lemma ofNat_plain j : mem "M" (ofNat j) = false.
Proof.
  unfold ofNat. apply (allChars_mem isDigit); [apply uint_digits|reflexivity].
Qed.

Lemma prefix_identifier lbl :
  isIdentifier lbl = true ->
  isIdentifier (sequentialVarPrefix lbl) = true
  /\ mem "M" (sequentialVarPrefix lbl) = false.
Proof.
  intros H. unfold sequentialVarPrefix.
  repeat match goal with
         | |- context [if String.eqb lbl ?x then _ else _] =>
             destruct (String.eqb lbl x); [split; reflexivity|]
         end.
  destruct lbl as [|c t]; [discriminate|].
  unfold isIdentifier in H. cbn [String.eqb negb andb allChars] in H.
  apply andb_true_iff in H. destruct H as [Hc _].
  cbn [toLowerCase mapChars charAt0]. split.
  - unfold isIdentifier. cbn [String.eqb negb andb allChars].
    rewrite (lower_word c Hc). reflexivity.
  - cbn [mem]. rewrite lower_not_M. reflexivity.
Qed.

Lemma identifier_app a b :
  isIdentifier a = true -> allChars isWord b = true ->
  isIdentifier (a ++ b) = true.
Proof.
  intros Ha Hb. unfold isIdentifier. rewrite allChars_app.
  rewrite (identifier_word a Ha), Hb. destruct a as [|c a]; [discriminate|].
  reflexivity.
Qed.

(** The numbered name of a node with an identifier as label is an identifier
    without the first letter of the keyword. *)
Lemma canonicalName_identifier j n :
  isIdentifier (label n) = true ->
  isIdentifier (canonicalName j n) = true
  /\ mem "M" (canonicalName j n) = false.
Proof.
  intros H. destruct (prefix_identifier (label n) H) as [Hp Hm].
  unfold canonicalName. split.
  - apply identifier_app; [exact Hp|apply ofNat_word].
  - rewrite mem_app, Hm, ofNat_plain. reflexivity.
Qed.

Lemma nodeOfMatch_captures v n : NodeLineOk v n ->
  nodeOfMatch (nodeCaptures v n)
  = [mkNode v (label n) (propsText n) (idProp n) (idValue n)
       (label n ++ ":" ++ idValue n)].
Proof.
  intros H. unfold nodeOfMatch, nodeCaptures. cbn [capture Nat.eqb].
  rewrite (idPattern_reads n (nl_prop v n H) (nl_value_ne v n H)
             (value_not_quote _ (nl_value v n H))).
  reflexivity.
Qed.

Lemma nodes_of_captures : forall N i,
  LinesOk (numbered i N) ->
  flat_map nodeOfMatch (map lineCaptures (numbered i N)) = canonicalNodes i N.
Proof.
  induction N as [|n N IH]; intros i H.
  - reflexivity.
  - cbn [numbered map flat_map canonicalNodes]. unfold lineCaptures at 1.
    cbn [fst snd].
    pose proof (H (i, n) (or_introl eq_refl)) as Hn. cbn [fst snd] in Hn.
    rewrite (nodeOfMatch_captures _ _ Hn).
    cbn [app]. f_equal. apply IH. intros jn Hin. apply H. right. exact Hin.
Qed.

Lemma startsWith_needs_char c : forall p s,
  mem c p = true -> mem c s = false -> startsWith p s = false.
Proof.
  induction p as [|x p IH]; intros s Hp Hs.
  - discriminate.
  - destruct s as [|a t]; [reflexivity|].
    cbn [mem] in Hp, Hs. apply orb_false_iff in Hs. destruct Hs as [Hca Ht].
    cbn [startsWith]. destruct (Ascii.eqb_spec x a) as [->|_]; [|reflexivity].
    rewrite Hca in Hp. cbn [orb] in Hp. rewrite (IH t Hp Ht). reflexivity.
Qed.

(** A text without a character of the pattern does not hold the pattern. *)
Lemma includes_needs_char c p : forall s,
  mem c p = true -> mem c s = false -> includes p s = false.
Proof.
  induction s as [|a t IH]; intros Hp Hs.
  - destruct p; [discriminate|reflexivity].
  - rewrite includes_step. rewrite (startsWith_needs_char c p _ Hp Hs).
    cbn [mem] in Hs. apply orb_false_iff in Hs. apply IH; tauto.
Qed.

Lemma identifier_no_amp s : isIdentifier s = true -> mem "&" s = false.
Proof.
  intros H. apply (allChars_mem isWord); [apply identifier_word, H|reflexivity].
Qed.

Lemma relOfMatch_captures e :
  EdgeLineOk e -> relOfMatch (edgeCaptures e) = edgeRel e.
Proof.
  intros [Hf _ Hty _ Ht _]. destruct e as [[f ty] t]. cbn [fst snd] in *.
  unfold relOfMatch, edgeCaptures, edgeRel. cbn [capture Nat.eqb].
  rewrite (trim_word f (identifier_word f Hf)).
  rewrite (trim_word t (identifier_word t Ht)).
  pose proof (identifier_no_amp ty Hty) as Ha.
  rewrite (replaceAll_absent "-&gt;" "->" ty)
    by (apply (includes_needs_char "&"); [reflexivity|exact Ha]).
  rewrite (replaceAll_absent "&gt;" ">" ty)
    by (apply (includes_needs_char "&"); [reflexivity|exact Ha]).
  rewrite (replaceAll_absent "&lt;" "<" ty)
    by (apply (includes_needs_char "&"); [reflexivity|exact Ha]).
  reflexivity.
Qed.

Lemma rels_of_captures es :
  EdgesOk es ->
  map relOfMatch (map edgeCaptures es) = map edgeRel es.
Proof.
  intros H. rewrite map_map. apply map_ext_in. intros e He.
  apply relOfMatch_captures. apply H. exact He.
Qed.

(** The parser reads the three sections back as the numbered nodes and the
    edges. *)
Lemma parseCypher_sections cs N es :
  quiet cs = true ->
  LinesOk (numbered 1 N) ->
  EdgesOk es ->
  parseCypher (sectionsText cs (numbered 1 N) es)
  = (canonicalNodes 1 N, map edgeRel es).
Proof.
  intros Hcs HN HE. unfold parseCypher.
  rewrite (sectionsText_nodes cs _ es Hcs HN HE).
  rewrite (sectionsText_edges cs _ es Hcs HN HE).
  rewrite (nodes_of_captures N 1 HN), (rels_of_captures es HE). reflexivity.
Qed.

Lemma allChars_notChar_mem x s :
  allChars (notChar x) s = true -> mem x s = false.
Proof.
  induction s as [|c t IH]; intros H; [reflexivity|].
  cbn [allChars] in H. apply andb_true_iff in H. destruct H as [Hc Ht].
  cbn [mem]. rewrite (IH Ht). unfold notChar in Hc. apply negb_true_iff in Hc.
  rewrite Ascii.eqb_sym, Hc. reflexivity.
Qed.

Lemma spaces_no_amp k : mem "&" (spaces k) = false.
Proof. induction k as [|k IH]; [reflexivity|]. cbn [spaces mem]. exact IH. Qed.

Lemma nodeLine_no_amp v n : NodeLineOk v n -> mem "&" (nodeLine v n) = false.
Proof.
  intros H. unfold nodeLine. rewrite !mem_app.
  rewrite (identifier_no_amp v (nl_var v n H)).
  rewrite (identifier_no_amp _ (nl_label v n H)).
  rewrite spaces_no_amp.
  rewrite (allChars_mem isWord "&" _ (idName_word _ (nl_prop v n H)) eq_refl).
  rewrite (allChars_notChar_mem "&" _ (value_not_amp _ (nl_value v n H))).
  reflexivity.
Qed.

Lemma edgeLine_no_amp e : EdgeLineOk e -> mem "&" (edgeLine e) = false.
Proof.
  intros [Hf _ Hty _ Ht _]. destruct e as [[f ty] t]. cbn [fst snd] in *.
  unfold edgeLine, relLine. rewrite !mem_app.
  rewrite (identifier_no_amp f Hf), (identifier_no_amp ty Hty),
    (identifier_no_amp t Ht).
  reflexivity.
Qed.

Lemma linesText_no_amp lines :
  LinesOk lines ->
  mem "&" (linesText lines) = false.
Proof.
  induction lines as [|jn lines IH]; intros H; [reflexivity|].
  cbn [linesText fold_right]. fold (linesText lines). rewrite mem_app.
  rewrite (nodeLine_no_amp _ _ (H jn (or_introl eq_refl))).
  apply IH. intros jn' Hin. apply H. right. exact Hin.
Qed.

Lemma edgeLines_no_amp es :
  EdgesOk es -> mem "&" (edgeLines es) = false.
Proof.
  induction es as [|e es IH]; intros H; [reflexivity|].
  cbn [edgeLines fold_right]. fold (edgeLines es). rewrite mem_app.
  rewrite (edgeLine_no_amp _ (H e (or_introl eq_refl))).
  apply IH. intros e' Hin. apply H. right. exact Hin.
Qed.

(** The decoding pass leaves the three sections as they are. *)
Lemma fixHtmlEntities_sections cs lines es :
  mem "&" cs = false ->
  LinesOk lines ->
  EdgesOk es ->
  fixHtmlEntities (sectionsText cs lines es) = sectionsText cs lines es.
Proof.
  intros Hcs HN HE.
  assert (Hm : mem "&" (sectionsText cs lines es) = false).
  { unfold sectionsText. rewrite !mem_app.
    rewrite Hcs, (linesText_no_amp lines HN), (edgeLines_no_amp es HE).
    reflexivity. }
  apply FormatFacts.fixHtmlEntities_absent;
    apply (includes_needs_char "&"); (reflexivity || exact Hm).
Qed.

End ReadFacts.

(** *** The numbered names *)

Module NumberingFacts.
Import Js StringAux JsFacts FormatCypher Canonical CharDefs NodeFacts
  CharFacts RenderFacts ReadFacts.

Lemma ofNat_inj i j : ofNat i = ofNat j -> i = j.
Proof.
  unfold ofNat. intros H.
  assert (E : Nat.to_uint i = Nat.to_uint j).
  { apply (f_equal NilEmpty.uint_of_string) in H.
    rewrite !NilEmpty.usu in H. injection H as H. exact H. }
  apply (f_equal Nat.of_uint) in E. rewrite !Unsigned.of_to in E. exact E.
Qed.

(** Two texts with a common extension: one starts with the other. *)
Lemma append_split : forall p q a b,
  p ++ a = q ++ b ->
  (exists r, q = p ++ r /\ a = r ++ b) \/ (exists r, p = q ++ r /\ b = r ++ a).
Proof.
  induction p as [|c p IH]; intros q a b E.
  - left. exists q. split; [reflexivity|exact E].
  - destruct q as [|d q].
    + right. exists (String c p). split; [reflexivity|]. symmetry. exact E.
    + cbn [append] in E. injection E as -> E.
      destruct (IH q a b E) as [[r [-> ->]]|[r [-> ->]]].
      * left. exists r. split; reflexivity.
      * right. exists r. split; reflexivity.
Qed.

(** A text that ends with digits has a digit as its last character. *)
Lemma digit_suffix_last p r :
  r <> EmptyString -> allChars isDigit r = true ->
  match rev (p ++ r) with
  | String c _ => isDigit c = true
  | EmptyString => False
  end.
Proof.
  intros Hne Hd. rewrite rev_app.
  rewrite <- (allChars_rev isDigit r) in Hd.
  destruct (rev r) as [|c t] eqn:E.
  - exfalso. apply Hne. rewrite <- (rev_rev r), E. reflexivity.
  - cbn [append]. cbn [allChars] in Hd. apply andb_true_iff in Hd. tauto.
Qed.

Lemma sequentialVarPrefix_shape lbl :
  lbl <> EmptyString -> isPrefix (sequentialVarPrefix lbl).
Proof.
  intros Hne. unfold sequentialVarPrefix, isPrefix, fixedPrefixes.
  repeat match goal with
         | |- context [if String.eqb lbl ?x then _ else _] =>
             destruct (String.eqb lbl x); [left; cbn [In]; tauto|]
         end.
  right. destruct lbl as [|c t]; [contradiction|].
  exists (lowerChar c). reflexivity.
Qed.

Ltac each_fixed H :=
  unfold fixedPrefixes in H; cbn [In] in H;
  repeat (destruct H as [H|H]; [symmetry in H|]); [..|contradiction].

(** No prefix is another prefix followed by digits. *)
Lemma prefix_not_extended p q r :
  isPrefix p -> isPrefix q -> r <> EmptyString -> allChars isDigit r = true ->
  q <> p ++ r.
Proof.
  intros Hp Hq Hne Hd E.
  pose proof (digit_suffix_last p r Hne Hd) as Hlast. rewrite <- E in Hlast.
  destruct Hq as [Hq|[c Hq]].
  - each_fixed Hq; subst q; cbn in Hlast; try discriminate Hlast.
    destruct Hp as [Hp|[c Hp]].
    + each_fixed Hp; subst p; cbn [append] in E; try discriminate E.
      injection E as E. apply Hne. symmetry. exact E.
    + subst p. cbn [append] in E. injection E as _ E. subst r.
      discriminate Hd.
  - subst q. destruct p as [|c' p'].
    + destruct Hp as [Hp|[c0 Hp]];
        [each_fixed Hp; discriminate Hp|discriminate Hp].
    + cbn [append] in E. injection E as _ E.
      destruct p';
        [cbn [append] in E; apply Hne; symmetry; exact E|discriminate E].
Qed.

(** The number of a sequential variable can be read off the variable. *)
Lemma canonicalName_inj i j n m :
  label n <> EmptyString -> label m <> EmptyString ->
  canonicalName i n = canonicalName j m -> i = j.
Proof.
  intros Hn Hm E. unfold canonicalName in E.
  pose proof (sequentialVarPrefix_shape _ Hn) as Sn.
  pose proof (sequentialVarPrefix_shape _ Hm) as Sm.
  assert (Hstep : forall p q a b,
             isPrefix p -> isPrefix q -> allChars isDigit a = true ->
             (exists r, q = p ++ r /\ a = r ++ b) -> a = b).
  { intros p q a b Hp Hq Ha [r [Eq Ea]]. destruct r as [|c r].
    - exact Ea.
    - exfalso. apply (prefix_not_extended p q (String c r) Hp Hq);
        [discriminate| |exact Eq].
      rewrite Ea, allChars_app in Ha. apply andb_true_iff in Ha. tauto. }
  apply ofNat_inj.
  destruct (append_split _ _ _ _ E) as [H|H].
  - apply (Hstep _ _ _ _ Sn Sm (uint_digits _) H).
  - symmetry. apply (Hstep _ _ _ _ Sm Sn (uint_digits _) H).
Qed.

Lemma numbered_index : forall N i j n, In (j, n) (numbered i N) -> i <= j.
Proof.
  induction N as [|n0 N IH]; intros i j n H.
  - destruct H.
  - destruct H as [E|H].
    + injection E as -> _. apply Nat.le_refl.
    + apply IH in H. lia.
Qed.

(** The numbered names of nodes with labels are pairwise distinct. *)
Lemma names_NoDup : forall N i,
  (forall n, In n N -> label n <> EmptyString) -> NoDup (names i N).
Proof.
  induction N as [|n N IH]; intros i H.
  - constructor.
  - unfold names. cbn [numbered map fst snd]. constructor.
    + intros Hin. apply names_In_inv in Hin.
      destruct Hin as (j & m & Hjm & E).
      apply canonicalName_inj in E;
        [|apply H; left; reflexivity
         |apply H; right; apply (numbered_In_node _ _ _ _ Hjm)].
      apply numbered_index in Hjm. lia.
    + apply IH. intros m Hm. apply H. right. exact Hm.
Qed.

End NumberingFacts.

(** *** Well-formed input *)

Module IdempotenceFacts.
Import Js Regex StringAux JsFacts FormatCypher Canonical EdgeDefs CharDefs
  PatternDefs RenderDefs WellFormed CorrectorScenario MapFacts NodeFacts
  CharFacts EdgeFacts RegexFacts RenderFacts ReadFacts NumberingFacts.

Lemma distinct_NoDup l : distinct l = true -> NoDup l.
Proof.
  induction l as [|x l IH]; intros H; [constructor|].
  cbn [distinct] in H. apply andb_true_iff in H. destruct H as [Hx Hl].
  apply negb_true_iff in Hx. apply setHas_false in Hx.
  constructor; [exact Hx|apply IH; exact Hl].
Qed.

Lemma nodeOk_facts n : nodeOk n = true -> NodeChecked n.
Proof.
  unfold nodeOk. intros H.
  repeat match type of H with
         | _ && _ = true => apply andb_true_iff in H; destruct H as [H ?]
         end.
  split; try assumption.
  - match goal with
    | E : negb (String.eqb (idValue n) EmptyString) = true |- _ =>
        apply negb_true_iff in E; apply String.eqb_neq in E; exact E
    end.
  - apply String.eqb_eq. assumption.
Qed.

Section FromCheck.
Variable N : list Node.
Variable rels : list Rel.
Variable schema : Schema.
Hypothesis checked : wellFormed N rels schema = true.

Lemma checked_parts :
  (forall n, In n N -> NodeChecked n)
  /\ NoDup (map originalVar N) /\ NoDup (map key N) /\ NoDup (names 1 N)
  /\ (forall rel, In rel rels -> relOk (map originalVar N) rel = true)
  /\ mem "&" (constraintsOf N schema) = false
  /\ quiet (constraintsOf N schema) = true.
Proof.
  pose proof checked as H. unfold wellFormed in H.
  repeat match type of H with
         | _ && _ = true => apply andb_true_iff in H; destruct H as [H ?]
         end.
  assert (HN : forall n, In n N -> NodeChecked n).
  { intros n Hn. apply nodeOk_facts.
    apply (proj1 (forallb_forall nodeOk N) H n Hn). }
  refine (conj HN (conj _ (conj _ (conj _ (conj _ (conj _ _)))))).
  - apply distinct_NoDup. assumption.
  - apply distinct_NoDup. assumption.
  - apply names_NoDup. intros n Hn.
    apply identifier_not_empty, (nf_label n (HN n Hn)).
  - intros rel Hrel.
    match goal with
    | E : forallb (relOk _) rels = true |- _ =>
        apply (proj1 (forallb_forall _ rels) E rel Hrel)
    end.
  - apply negb_true_iff. assumption.
  - assumption.
Qed.

Lemma checked_distinct : Distinct N.
Proof.
  destruct checked_parts as (HN & Hv & Hk & _). split; [exact Hv|exact Hk|].
  intros a b Ha Hb E.
  assert (Hm : mem ":" (originalVar a) = false).
  { apply (allChars_mem isWord); [|reflexivity].
    apply identifier_word, (nf_var a (HN a Ha)). }
  rewrite E, (nf_key b (HN b Hb)) in Hm. rewrite mem_app in Hm.
  cbn [append mem] in Hm. rewrite Ascii.eqb_refl in Hm.
  rewrite orb_true_r in Hm. discriminate.
Qed.

Lemma var_joins v :
  setHas v (map originalVar N) = true ->
  exists j n, In (j, n) (numbered 1 N) /\ v = originalVar n /\ trim v = v.
Proof.
  destruct checked_parts as (HN & _).
  intros H. apply setHas_spec in H. apply in_map_iff in H.
  destruct H as [n [E Hn]]. destruct (numbered_In N 1 n Hn) as [j Hj].
  exists j, n. repeat split; [exact Hj|symmetry; exact E|].
  subst v. apply trim_word, identifier_word, (nf_var n (HN n Hn)).
Qed.

Lemma checked_input : InputOk N rels.
Proof.
  destruct checked_parts as (HN & Hv & Hk & Hn & HR & _). split.
  - exact checked_distinct.
  - intros j n Hin.
    apply (canonicalName_identifier j n).
    apply (nf_label n (HN n (numbered_In_node _ _ _ _ Hin))).
  - exact Hn.
  - intros n Hin. apply (nf_key n (HN n Hin)).
  - intros rel Hrel. pose proof (HR rel Hrel) as H. unfold relOk in H.
    apply andb_true_iff in H. destruct H as [H _].
    apply andb_true_iff in H. destruct H as [Hf Ht]. split.
    + destruct (var_joins _ Hf) as (j & n & A & B & C). exists j, n. tauto.
    + destruct (var_joins _ Ht) as (j & n & A & B & C). exists j, n. tauto.
  - intros rel Hrel. pose proof (HR rel Hrel) as H. unfold relOk in H.
    apply andb_true_iff in H. tauto.
Qed.

Lemma checked_lines : LinesOk (numbered 1 N).
Proof.
  destruct checked_parts as (HN & _). intros [j n] Hin.
  cbn [fst snd]. pose proof (HN n (numbered_In_node _ _ _ _ Hin)) as Hf.
  destruct (canonicalName_identifier j n (nf_label n Hf)) as [Hi Hp].
  destruct Hf. split; assumption.
Qed.

Lemma name_line_facts v : In v (names 1 N) ->
  isIdentifier v = true /\ mem "M" v = false.
Proof.
  destruct checked_parts as (HN & _). intros H.
  destruct (names_In_inv N 1 v H) as (j & n & Hin & ->).
  apply canonicalName_identifier.
  apply (nf_label n (HN n (numbered_In_node _ _ _ _ Hin))).
Qed.

Lemma checked_edges e : In e (passEdges N rels) -> EdgeLineOk e.
Proof.
  intros He. destruct (passEdges_between N rels e checked_input He)
    as (Hf & Ht & Hty).
  destruct e as [[f ty] t]. cbn [edgeFrom edgeTo edgeType fst snd] in *.
  destruct (name_line_facts f Hf) as [Hf1 Hf2].
  destruct (name_line_facts t Ht) as [Ht1 Ht2].
  unfold typeOk in Hty. apply andb_true_iff in Hty. destruct Hty as [Hy1 Hy2].
  split; assumption.
Qed.

Lemma renderedText_sections :
  renderedText N rels schema
  = sectionsText (constraintsOf N schema) (numbered 1 N) (passEdges N rels).
Proof. reflexivity. Qed.

(** The text of a run on well-formed input. *)
Lemma checked_render :
  renderSections N rels schema
  = sectionsText (constraintsOf N schema) (numbered 1 N) (passEdges N rels).
Proof.
  rewrite <- renderedText_sections.
  apply renderSections_text;
    [apply (InputOk_nodes N rels checked_input)
    |apply (in_joins N rels checked_input)].
Qed.

Lemma checked_decoded :
  fixHtmlEntities (renderSections N rels schema) = renderSections N rels schema.
Proof.
  rewrite checked_render.
  destruct checked_parts as (_ & _ & _ & _ & _ & Ha & _).
  apply fixHtmlEntities_sections;
  [exact Ha|exact checked_lines|exact checked_edges].
Qed.

Lemma checked_parse :
  parseCypher (renderSections N rels schema)
  = (canonicalNodes 1 N, map edgeRel (passEdges N rels)).
Proof.
  rewrite checked_render.
  destruct checked_parts as (_ & _ & _ & _ & _ & _ & Hq).
  apply parseCypher_sections;
  [exact Hq|exact checked_lines|exact checked_edges].
Qed.

Lemma checked_second :
  renderSections (canonicalNodes 1 N) (map edgeRel (passEdges N rels)) schema
  = renderSections N rels schema.
Proof. apply renderSections_second. exact checked_input. Qed.

End FromCheck.



End IdempotenceFacts.

(** ** IngestionEngine *)

Module IngestFacts.
Import Exn Store Neo4jIngest IngestScenario.

Lemma appendEvents_nil w : appendEvents [] w = w.
Proof. destruct w. unfold appendEvents. simpl. rewrite app_nil_r. reflexivity. Qed.

Lemma appendEvents_logEvent e es w :
  appendEvents es (logEvent e w) = appendEvents (e :: es) w.
Proof.
  unfold appendEvents, logEvent. simpl. rewrite <- app_assoc. reflexivity.
Qed.

Lemma logEvent_appendEvents e es w :
  logEvent e (appendEvents es w) = appendEvents (es ++ [e]) w.
Proof.
  unfold appendEvents, logEvent. simpl. rewrite <- app_assoc. reflexivity.
Qed.

Lemma appendEvents_appendEvents es1 es2 w :
  appendEvents es2 (appendEvents es1 w) = appendEvents (es1 ++ es2) w.
Proof.
  unfold appendEvents. simpl. rewrite <- app_assoc. reflexivity.
Qed.

Lemma explainAll_accepts neo statements :
  (forall s, In s statements -> explainError neo s = None) ->
  forall w,
    explainAll neo statements w = (None, appendEvents (map EvExplain statements) w).
Proof.
  induction statements as [|s rest IH]; intros Hok w.
  - simpl. rewrite appendEvents_nil. reflexivity.
  - cbn [explainAll]. rewrite (Hok s (or_introl eq_refl)).
    rewrite IH by (intros s' Hs'; apply Hok; right; exact Hs').
    rewrite appendEvents_logEvent. reflexivity.
Qed.

Lemma runSchemaStatements_events schemaStatements :
  forall w,
    runSchemaStatements schemaStatements w
    = appendEvents (map EvSchemaRun schemaStatements) w.
Proof.
  induction schemaStatements as [|s rest IH]; intros w.
  - simpl. rewrite appendEvents_nil. reflexivity.
  - cbn [runSchemaStatements]. rewrite IH, appendEvents_logEvent. reflexivity.
Qed.

(** The loop runs the statements before the first one that throws, then that
    one, and nothing after it. *)
Lemma runWrites_stops_at_first_failure neo bad post error :
  forall pre pending n m w,
    (forall p1 s p2, pre = (p1 ++ s :: p2)%list ->
       exists summary,
         writeResult neo (graph w ++ pending ++ p1)%list s = inl summary) ->
    writeResult neo (graph w ++ pending ++ pre)%list bad = inr error ->
    runWrites neo (pre ++ bad :: post)%list pending n m w
    = (inr error, appendEvents (map EvRun pre ++ [EvRun bad]) w).
Proof.
  induction pre as [|s pre IH]; intros pending n m w Hpre Hbad.
  - cbn [app runWrites map]. rewrite app_nil_r in Hbad. rewrite Hbad.
    reflexivity.
  - cbn [app runWrites map].
    destruct (Hpre [] s pre eq_refl) as [summary Hs].
    rewrite app_nil_r in Hs. rewrite Hs.
    destruct (orZero summary) as [n' m'].
    rewrite IH.
    + rewrite appendEvents_logEvent. reflexivity.
    + intros p1 s' p2 E. destruct (Hpre (s :: p1) s' p2) as [summary' Hs'].
      { rewrite E. reflexivity. }
      exists summary'. simpl graph. rewrite <- app_assoc. exact Hs'.
    + simpl graph. rewrite <- app_assoc. exact Hbad.
Qed.

Lemma lookup_update {V} k (f : V -> V) m :
  lookup k (update k f m) = option_map f (lookup k m).
Proof.
  induction m as [|[k' v] rest IH]; simpl.
  - reflexivity.
  - destruct (Nat.eqb k k') eqn:E; simpl; rewrite E; [reflexivity|exact IH].
Qed.

Lemma separate_nil_inv statements :
  splitCypherStatements statements = [] ->
  separateSchemaAndWriteStatements (splitCypherStatements statements) = ([], []).
Proof. intros ->. reflexivity. Qed.

(** C2.  When a write statement of a chunk's program throws inside the
    transaction, [ingestChunkCypher] has run the write statements before it
    and that one, then rolls back and never commits; the graph is as it was;
    the result and the chunk record hold status error and the message; and the
    error is thrown to the caller. *)
Theorem ingestChunkCypher_rolls_back_at_first_failure :
  forall neo chunkId w result chunk schemaStatements pre bad post error,
    lookup chunkId (chunkResults w) = Some result ->
    String.eqb (r_status result) "executed" = false ->
    lookup chunkId (chunks w) = Some chunk ->
    (forall s, In s (splitCypherStatements (generatedCypher result)) ->
               explainError neo s = None) ->
    separateSchemaAndWriteStatements
      (splitCypherStatements (generatedCypher result))
    = (schemaStatements, (pre ++ bad :: post)%list) ->
    (forall p1 s p2, pre = (p1 ++ s :: p2)%list ->
       exists summary, writeResult neo (graph w ++ p1)%list s = inl summary) ->
    writeResult neo (graph w ++ pre)%list bad = inr error ->
    let run := ingestChunkCypher neo chunkId w in
    fst run = inr error
    /\ graph (snd run) = graph w
    /\ events (snd run)
       = (events w
          ++ map EvExplain (splitCypherStatements (generatedCypher result))
          ++ map EvSchemaRun schemaStatements
          ++ [EvBegin] ++ map EvRun pre ++ [EvRun bad; EvRollback])%list
    /\ lookup chunkId (chunkResults (snd run))
       = Some (mkResult "error" (message error) (generatedCypher result)
                 (r_nodesCreated result) (r_relationshipsCreated result))
    /\ lookup chunkId (chunks (snd run))
       = Some (mkChunkDoc "error" (message error)).
Proof.
  intros neo chunkId w result chunk schemaStatements pre bad post error
    Hres Hstatus Hchunk Hexplain Hsep Hpre Hbad.
  assert (Hsplit : splitCypherStatements (generatedCypher result) <> []).
  { intros E. rewrite E in Hsep. simpl in Hsep.
    injection Hsep as _ Hw. destruct pre; discriminate Hw. }
  assert (Htrim : (String.length (Js.trim (generatedCypher result)) =? 0)%nat
                  = false).
  { destruct (String.length (Js.trim (generatedCypher result)) =? 0)%nat eqn:E;
      [|reflexivity].
    exfalso. apply Hsplit. unfold splitCypherStatements. rewrite E. reflexivity. }
  cbv zeta. unfold ingestChunkCypher.
  rewrite Hres, Hstatus, Hchunk. unfold validateCypher. rewrite Htrim.
  rewrite (explainAll_accepts neo _ Hexplain).
  unfold executeCypher.
  destruct (splitCypherStatements (generatedCypher result)) as [|s0 stmts] eqn:Es;
    [contradiction|].
  rewrite Hsep. rewrite runSchemaStatements_events.
  destruct (pre ++ bad :: post)%list as [|w0 ws] eqn:Ew;
    [destruct pre; discriminate Ew|].
  rewrite <- Ew.
  rewrite (runWrites_stops_at_first_failure neo bad post error pre [] 0%Z 0%Z).
  - simpl. rewrite !lookup_update. rewrite Hres, Hchunk. simpl.
    repeat split. rewrite <- !app_assoc. reflexivity.
  - intros p1 s p2 E. simpl. apply (Hpre p1 s p2 E).
  - simpl. exact Hbad.
Qed.

Lemma ingestChunkCypher_rolls_back_at_first_failure_witness :
  fst (ingestChunkCypher (rejecting onSecurityEdge) 0 tradeWorld)
  = inr constraintViolation
  /\ graph (snd (ingestChunkCypher (rejecting onSecurityEdge) 0 tradeWorld)) = []
  /\ events (snd (ingestChunkCypher (rejecting onSecurityEdge) 0 tradeWorld))
     = ([]
        ++ map EvExplain (splitCypherStatements tradeProgram)
        ++ map EvSchemaRun [constraintOn "a" "Account" "accountId";
                            constraintOn "t" "Trade" "tradeId";
                            constraintOn "s" "Security" "securityId"]
        ++ [EvBegin] ++ map EvRun [executedTradeEdge]
        ++ [EvRun onSecurityEdge; EvRollback])%list
  /\ lookup 0 (chunkResults
                 (snd (ingestChunkCypher (rejecting onSecurityEdge) 0 tradeWorld)))
     = Some (mkResult "error" (Some "Node already exists with label and property")
               tradeProgram 0 0)
  /\ lookup 0 (chunks
                 (snd (ingestChunkCypher (rejecting onSecurityEdge) 0 tradeWorld)))
     = Some (mkChunkDoc "error"
               (Some "Node already exists with label and property")).
Proof.
  apply (ingestChunkCypher_rolls_back_at_first_failure
           (rejecting onSecurityEdge) 0 tradeWorld
           (mkResult "generated" None tradeProgram 0 0)
           (mkChunkDoc "cypher_generated" None)
           [constraintOn "a" "Account" "accountId";
            constraintOn "t" "Trade" "tradeId";
            constraintOn "s" "Security" "securityId"]
           [executedTradeEdge] onSecurityEdge [] constraintViolation).
  - reflexivity.
  - reflexivity.
  - reflexivity.
  - intros s _. reflexivity.
  - vm_compute. reflexivity.
  - intros p1 s p2 E. destruct p1 as [|x p1].
    + injection E as <- _. eexists. vm_compute. reflexivity.
    + injection E as _ E. destruct p1; discriminate E.
  - vm_compute. reflexivity.
Defined.

(** A statement that starts with a comment marker reaches neither list. *)
Lemma separate_drops_skipped statements :
  forall s, isSkipped s = true ->
    ~ In s (fst (separateSchemaAndWriteStatements statements))
    /\ ~ In s (snd (separateSchemaAndWriteStatements statements)).
Proof.
  induction statements as [|x rest IH]; intros s Hs.
  - simpl. tauto.
  - cbn [separateSchemaAndWriteStatements].
    destruct (separateSchemaAndWriteStatements rest) as [ss ws] eqn:E.
    specialize (IH s Hs). simpl in IH.
    destruct (isSkipped x) eqn:Ex; [exact IH|].
    destruct (isSchemaModification x); simpl; split;
      try tauto; intros [->|H]; try tauto; congruence.
Qed.

(** C3.  The corrected program of the trade scenario: the statement that
    carries the section comment and every node-upsert is skipped, as are the
    first constraint and the first edge-upsert, each glued to a section
    comment; ingestion runs two edge-upserts in its transaction and no
    node-upsert. *)
Theorem corrected_program_node_upserts_not_executed :
  In tradeNodeUpserts (splitCypherStatements tradeProgram)
  /\ separateSchemaAndWriteStatements (splitCypherStatements tradeProgram)
     = ([constraintOn "a" "Account" "accountId";
         constraintOn "t" "Trade" "tradeId";
         constraintOn "s" "Security" "securityId"],
        [executedTradeEdge; onSecurityEdge])
  /\ fst (ingestFullDocumentCypher acceptAll tradeWorld) = inl (0%Z, 2%Z)
  /\ graph (snd (ingestFullDocumentCypher acceptAll tradeWorld))
     = [executedTradeEdge; onSecurityEdge]
  /\ ~ In (EvRun tradeNodeUpserts)
         (events (snd (ingestFullDocumentCypher acceptAll tradeWorld))).
Proof.
  split; [vm_compute; tauto|].
  split; [vm_compute; reflexivity|].
  split; [vm_compute; reflexivity|].
  split; [vm_compute; reflexivity|].
  vm_compute. intros H.
  repeat (destruct H as [H|H]; [discriminate H|]). exact H.
Qed.

End IngestFacts.

(** ** PipelineOrchestrator *)

Module PipelineFacts.
Import Exn Store Orchestrator IngestScenario PipelineScenario.

(** C9, as the code has it.  When a call that [runPipeline] awaits in its
    [try] block throws (parsing, chunking, schema extraction, generation, the
    review, or [ingestAllChunks] itself), the pipeline ends there: the stores
    are those the failing call left, with the Document set to status error and
    the message of the error, and that error is thrown to the caller. *)
Theorem runPipeline_records_failure_then_rethrows :
  forall neo stages options w document0 error wFail,
    document w = Some document0 ->
    StageFailure neo stages options w error wFail ->
    runPipeline neo stages options w
    = (inr error, updateDocument (documentError error) wFail)
    /\ (forall d, document wFail = Some d ->
          document (snd (runPipeline neo stages options w))
          = Some (mkDocument "error" (message error) (d_processedChunks d))).
Proof.
  intros neo stages options w document0 error wFail Hdoc Hfail.
  assert (Hrun : runPipeline neo stages options w
                 = (inr error, updateDocument (documentError error) wFail)).
  { unfold runPipeline. rewrite Hdoc. unfold andThen, failPipeline.
    destruct Hfail as [Hp|t w1 Hp Hc|t w1 w2 Hp Hc He|t w1 w2 sc w3 Hp Hc He Hg
                      |t w1 w2 sc w3 fc w6 Hp Hc He Hg Hr
                      |t w1 w2 sc w3 fc w6 w7 Hp Hc He Hg Hr Hi];
      rewrite Hp; try rewrite Hc; try rewrite He;
      unfold beforeGeneration in *; try rewrite Hg; try rewrite Hr;
      try rewrite Hi; reflexivity. }
  split; [exact Hrun|].
  intros d Hd. rewrite Hrun. simpl. rewrite Hd. reflexivity.
Qed.

Lemma runPipeline_records_failure_then_rethrows_witness :
  runPipeline acceptAll stagesFailingExtraction defaultOptions storedDocument
  = (inr timeoutError,
     updateDocument (documentError timeoutError)
       (updateDocument (documentStatus "parsing") storedDocument))
  /\ (forall d,
        document (updateDocument (documentStatus "parsing") storedDocument)
        = Some d ->
        document (snd (runPipeline acceptAll stagesFailingExtraction
                         defaultOptions storedDocument))
        = Some (mkDocument "error" (message timeoutError) (d_processedChunks d))).
Proof.
  apply (runPipeline_records_failure_then_rethrows acceptAll
           stagesFailingExtraction defaultOptions storedDocument
           (mkDocument "uploaded" None 0) timeoutError
           (updateDocument (documentStatus "parsing") storedDocument)).
  - reflexivity.
  - apply (FailExtract acceptAll stagesFailingExtraction defaultOptions
             storedDocument timeoutError _
             "Account A1 traded security S1"
             (updateDocument (documentStatus "parsing") storedDocument)
             (updateDocument (documentStatus "parsing") storedDocument));
      reflexivity.
Defined.

(** C9, as the claim states it, fails for two stages.  The constraint step
    throws and the pipeline goes on to generation and ingestion; the ingestion
    of the document throws a constraint violation, which [ingestAllChunks]
    counts instead of throwing: [runPipeline] returns a result, and the
    Document ends with status error and no message. *)
Lemma runPipeline_swallows_ingestion_failure :
  fst (Neo4jIngest.ingestFullDocumentCypher (rejecting onSecurityEdge)
         (updateDocument (documentStatus "ingesting") readyToIngest))
  = inr constraintViolation
  /\ fst (runPipeline (rejecting onSecurityEdge) (stagesStoring tradeProgram)
            defaultOptions storedDocument)
     = inl (mkPipelineResult true (Some (Neo4jIngest.mkSummary 0 0 0 1)))
  /\ document (snd (runPipeline (rejecting onSecurityEdge)
                      (stagesStoring tradeProgram) defaultOptions storedDocument))
     = Some (mkDocument "error" None 0).
Proof.
  split; [vm_compute; reflexivity|].
  split; vm_compute; reflexivity.
Qed.

End PipelineFacts.

(** ** RetryExecutor: how a run ends and what it sleeps *)

Module RetryRunFacts.
Import Exn Retry Scenario RetrySchedule.

Section Loop.
Context {W R : Type}.
Variable fn : W -> (R + JsError) * W.
Variables maxRetries_ maxDelay_ multiplier : Z.
Variable shouldRetry_ : JsError -> bool.

Lemma worldAfter_next k : forall w,
  worldAfter fn (S k) w = worldAfter fn k (snd (fn w)).
Proof. reflexivity. Qed.

(** [k] failures that are retried, then a call that returns. *)
Lemma retryLoop_returns k r : forall rounds attempt delay lastError w calls_ sleeps_,
  (k < rounds)%nat ->
  (attempt + Z.of_nat k <= maxRetries_)%Z ->
  (forall j, (j < k)%nat ->
     exists e, fst (fn (worldAfter fn j w)) = inr e /\ shouldRetry_ e = true) ->
  fst (fn (worldAfter fn k w)) = inl r ->
  let run := retryLoop fn rounds maxRetries_ maxDelay_ multiplier shouldRetry_
               attempt delay lastError w calls_ sleeps_ in
  outcome run = Return r /\ calls run = (calls_ + S k)%nat
  /\ world run = worldAfter fn (S k) w
  /\ List.length (sleeps run) = (List.length sleeps_ + k)%nat.
Proof.
  induction k as [|k IH]; intros rounds attempt delay lastError w calls_ sleeps_
    Hr Ha Hfail Hok run; subst run.
  - destruct rounds as [|rounds]; [lia|]. cbn [retryLoop worldAfter] in *.
    destruct (fn w) as [[res|e] w'] eqn:E; cbn [fst snd] in *; [|discriminate].
    injection Hok as ->. cbn. repeat split; lia.
  - destruct rounds as [|rounds]; [lia|]. cbn [retryLoop].
    destruct (Hfail 0%nat ltac:(lia)) as [e [He Hs]]. cbn [worldAfter] in He.
    destruct (fn w) as [[res|e'] w'] eqn:E; cbn [fst snd] in *; [discriminate|].
    injection He as ->. rewrite Hs. cbn [negb].
    destruct (attempt >=? maxRetries_)%Z eqn:Hge; [lia|].
    specialize (IH rounds (attempt + 1)%Z
                  (Z.min (delay * multiplier) maxDelay_) (Some e) w'
                  (S calls_) (sleeps_ ++ [delay])%list).
    cbn zeta in IH.
    destruct IH as (A & B & C & D).
    + lia.
    + lia.
    + intros j Hj. destruct (Hfail (S j) ltac:(lia)) as [e2 H2].
      rewrite worldAfter_next, E in H2. exists e2. exact H2.
    + rewrite worldAfter_next, E in Hok. exact Hok.
    + rewrite A, B, C, D. rewrite (worldAfter_next (S k)), E.
      rewrite length_app. cbn [List.length snd]. repeat split; lia.
Qed.

(** [k] failures that are retried, then one that [shouldRetry] rejects. *)
Lemma retryLoop_rejects k e : forall rounds attempt delay lastError w calls_ sleeps_,
  (k < rounds)%nat ->
  (attempt + Z.of_nat k <= maxRetries_)%Z ->
  (forall j, (j < k)%nat ->
     exists e', fst (fn (worldAfter fn j w)) = inr e' /\ shouldRetry_ e' = true) ->
  fst (fn (worldAfter fn k w)) = inr e ->
  shouldRetry_ e = false ->
  let run := retryLoop fn rounds maxRetries_ maxDelay_ multiplier shouldRetry_
               attempt delay lastError w calls_ sleeps_ in
  outcome run = Throw (Some e) /\ calls run = (calls_ + S k)%nat
  /\ world run = worldAfter fn (S k) w
  /\ List.length (sleeps run) = (List.length sleeps_ + k)%nat.
Proof.
  induction k as [|k IH]; intros rounds attempt delay lastError w calls_ sleeps_
    Hr Ha Hfail Hbad Hrej run; subst run.
  - destruct rounds as [|rounds]; [lia|]. cbn [retryLoop worldAfter] in *.
    destruct (fn w) as [[res|e'] w'] eqn:E; cbn [fst snd] in *; [discriminate|].
    injection Hbad as ->. rewrite Hrej. cbn. repeat split; lia.
  - destruct rounds as [|rounds]; [lia|]. cbn [retryLoop].
    destruct (Hfail 0%nat ltac:(lia)) as [e0 [He Hs]]. cbn [worldAfter] in He.
    destruct (fn w) as [[res|e'] w'] eqn:E; cbn [fst snd] in *; [discriminate|].
    injection He as ->. rewrite Hs. cbn [negb].
    destruct (attempt >=? maxRetries_)%Z eqn:Hge; [lia|].
    specialize (IH rounds (attempt + 1)%Z
                  (Z.min (delay * multiplier) maxDelay_) (Some e0) w'
                  (S calls_) (sleeps_ ++ [delay])%list).
    cbn zeta in IH.
    destruct IH as (A & B & C & D).
    + lia.
    + lia.
    + intros j Hj. destruct (Hfail (S j) ltac:(lia)) as [e2 H2].
      rewrite worldAfter_next, E in H2. exists e2. exact H2.
    + rewrite worldAfter_next, E in Hbad. exact Hbad.
    + exact Hrej.
    + rewrite A, B, C, D. rewrite (worldAfter_next (S k)), E.
      rewrite length_app. cbn [List.length snd]. repeat split; lia.
Qed.

(** What every run sleeps, and how often it calls. *)
Lemma retryLoop_schedule : forall rounds attempt delay lastError w calls_ sleeps_,
  rounds = Z.to_nat (maxRetries_ + 1 - attempt) ->
  let run := retryLoop fn rounds maxRetries_ maxDelay_ multiplier shouldRetry_
               attempt delay lastError w calls_ sleeps_ in
  exists n,
    sleeps run = (sleeps_ ++ backoffSchedule n delay multiplier maxDelay_)%list
    /\ (n < rounds \/ (rounds = 0 /\ n = 0))%nat
    /\ calls run = (calls_ + (if (rounds =? 0)%nat then 0 else S n))%nat.
Proof.
  induction rounds as [|rounds IH];
    intros attempt delay lastError w calls_ sleeps_ Hrounds run; subst run.
  - exists 0%nat. cbn. rewrite app_nil_r. repeat split; lia.
  - cbn [retryLoop].
    destruct (fn w) as [[res|e] w'] eqn:E.
    + exists 0%nat. cbn. rewrite app_nil_r. repeat split; lia.
    + destruct (negb (shouldRetry_ e)).
      * exists 0%nat. cbn. rewrite app_nil_r. repeat split; lia.
      * destruct (attempt >=? maxRetries_)%Z eqn:Hge.
        -- exists 0%nat. cbn. rewrite app_nil_r. repeat split; lia.
        -- destruct (IH (attempt + 1)%Z (Z.min (delay * multiplier) maxDelay_)
                       (Some e) w' (S calls_) (sleeps_ ++ [delay])%list)
             as (n & A & B & C); [lia|].
           exists (S n). rewrite A, C. cbn [backoffSchedule].
           rewrite <- app_assoc. cbn [app Nat.eqb].
           assert (Hpos : (rounds =? 0)%nat = false)
             by (apply Nat.eqb_neq; lia).
           rewrite Hpos. repeat split; lia.
Qed.

End Loop.

Lemma lower_upper_char c : Js.lowerChar (Js.upperChar c) = Js.lowerChar c.
Proof.
  destruct c as [[] [] [] [] [] [] [] []]; reflexivity.
Qed.

Lemma toLowerCase_toUpperCase s :
  Js.toLowerCase (Js.toUpperCase s) = Js.toLowerCase s.
Proof.
  induction s as [|c t IH]; [reflexivity|].
  unfold Js.toLowerCase, Js.toUpperCase in *. cbn [Js.mapChars].
  rewrite lower_upper_char, IH. reflexivity.
Qed.

Lemma schedule_capped maxDelay_ multiplier : forall n delay,
  (delay <= maxDelay_)%Z ->
  Forall (fun d => (d <= maxDelay_)%Z) (backoffSchedule n delay multiplier maxDelay_).
Proof.
  induction n as [|n IH]; intros delay Hd; cbn [backoffSchedule].
  - constructor.
  - constructor; [exact Hd|]. apply IH. lia.
Qed.

(** X1.  [retryWithBackoff] returns the result of the first call that
    succeeds: after [k] failures that [shouldRetry] accepts, with [k] within
    the retry budget, the run returns that result after [k + 1] calls and [k]
    sleeps, in the state the last call left. *)
Theorem retryWithBackoff_returns_first_success :
  forall (W R : Type) (fn : W -> (R + JsError) * W) (options : Options)
         (w : W) (k : nat) (r : R),
    (Z.of_nat k <= orDefault (maxRetries options) 3)%Z ->
    (forall j, (j < k)%nat ->
       exists e, fst (fn (worldAfter fn j w)) = inr e
                 /\ orDefault (shouldRetry options) (fun _ => true) e = true) ->
    fst (fn (worldAfter fn k w)) = inl r ->
    let run := retryWithBackoff fn options w in
    outcome run = Return r /\ calls run = S k
    /\ world run = worldAfter fn (S k) w
    /\ List.length (sleeps run) = k.
Proof.
  intros W R fn options w k r Hk Hfail Hok run. subst run.
  unfold retryWithBackoff.
  apply (retryLoop_returns fn _ _ _ _ k r); try assumption; lia.
Qed.

Lemma retryWithBackoff_returns_first_success_witness :
  let run := retryWithBackoff thirdTimeLucky threeRetries 0%nat in
  outcome run = Return 2%nat /\ calls run = 3%nat
  /\ world run = worldAfter thirdTimeLucky 3 0%nat
  /\ List.length (sleeps run) = 2%nat.
Proof.
  apply (retryWithBackoff_returns_first_success nat nat thirdTimeLucky
           threeRetries 0%nat 2%nat 2%nat).
  - vm_compute. discriminate.
  - intros j Hj. destruct j as [|[|j]].
    + exists (errorOf "request timeout"). split; reflexivity.
    + exists (errorOf "request timeout"). split; reflexivity.
    + lia.
  - reflexivity.
Defined.

(** X2.  An error that [shouldRetry] rejects ends the run at once: it is
    thrown after the call that raised it, with no sleep and no call after
    it, whatever is left of the budget. *)
Theorem retryWithBackoff_stops_at_rejected_error :
  forall (W R : Type) (fn : W -> (R + JsError) * W) (options : Options)
         (w : W) (k : nat) (e : JsError),
    (Z.of_nat k <= orDefault (maxRetries options) 3)%Z ->
    (forall j, (j < k)%nat ->
       exists e', fst (fn (worldAfter fn j w)) = inr e'
                  /\ orDefault (shouldRetry options) (fun _ => true) e' = true) ->
    fst (fn (worldAfter fn k w)) = inr e ->
    orDefault (shouldRetry options) (fun _ => true) e = false ->
    let run := retryWithBackoff (R := R) fn options w in
    outcome run = Throw (Some e) /\ calls run = S k
    /\ world run = worldAfter fn (S k) w
    /\ List.length (sleeps run) = k.
Proof.
  intros W R fn options w k e Hk Hfail Hbad Hrej run. subst run.
  unfold retryWithBackoff.
  apply (retryLoop_rejects fn _ _ _ _ k e); try assumption; lia.
Qed.

Lemma retryWithBackoff_stops_at_rejected_error_witness :
  let run := retryWithBackoff timeoutThenSyntax threeRetries 0%nat in
  outcome run = Throw (Some (errorOf "syntax error near MERGE"))
  /\ calls run = 2%nat
  /\ world run = worldAfter timeoutThenSyntax 2 0%nat
  /\ List.length (sleeps run) = 1%nat.
Proof.
  apply (retryWithBackoff_stops_at_rejected_error nat nat timeoutThenSyntax
           threeRetries 0%nat 1%nat (errorOf "syntax error near MERGE")).
  - vm_compute. discriminate.
  - intros j Hj. destruct j as [|j].
    + exists (errorOf "request timeout"). split; reflexivity.
    + lia.
  - reflexivity.
  - reflexivity.
Defined.


(** X4.  With a negative [maxRetries] the operation is never called: the
    loop body does not run and the value thrown is [undefined]. *)
Theorem retryWithBackoff_negative_budget_never_calls :
  forall (W R : Type) (fn : W -> (R + JsError) * W) (options : Options)
         (w : W) (n : Z),
    maxRetries options = Some n -> (n < 0)%Z ->
    retryWithBackoff (R := R) fn options w = mkRun (Throw None) w 0 [].
Proof.
  intros W R fn options w n Hm Hn. unfold retryWithBackoff. rewrite Hm.
  cbn [orDefault]. replace (Z.to_nat (n + 1)) with 0%nat by lia. reflexivity.
Qed.

Lemma retryWithBackoff_negative_budget_never_calls_witness :
  retryWithBackoff thirdTimeLucky
    (mkOptions (Some (-1)%Z) None None None None None None) 5%nat
  = mkRun (Throw None) 5%nat 0 [].
Proof.
  apply (retryWithBackoff_negative_budget_never_calls nat nat thirdTimeLucky
           _ 5%nat (-1)%Z); [reflexivity|lia].
Defined.

(** X5.  [isRetryableError] does not depend on the letter case of the
    message and of the code: an error whose message and code are ASCII text
    is classified like the same error with both in upper case. *)
Theorem isRetryableError_ignores_case :
  forall error,
    asciiError error = true ->
    isRetryableError (shouted error) = isRetryableError error.
Proof.
  intros [m c s] _. unfold isRetryableError, shouted. cbn [message code status].
  assert (Hl : forall o, lowerOrEmpty (option_map Js.toUpperCase o)
                         = lowerOrEmpty o).
  { intros [x|]; [|reflexivity]. cbn. apply toLowerCase_toUpperCase. }
  rewrite !Hl. reflexivity.
Qed.

Lemma isRetryableError_ignores_case_witness :
  asciiError (errorOf "Request timeout") = true
  /\ isRetryableError (shouted (errorOf "Request timeout")) = true
  /\ isRetryableError (shouted (errorOf "Request timeout"))
     = isRetryableError (errorOf "Request timeout").
Proof.
  split; [reflexivity|]. split; [reflexivity|].
  apply (isRetryableError_ignores_case (errorOf "Request timeout")).
  reflexivity.
Defined.

End RetryRunFacts.

(** ** TextChunker: the chunks of a run *)

Module ChunkWindowFacts.
Import Js Chunking ChunkWindows StringAux CharDefs NodeFacts CharFacts.

Lemma relIndex_inside len i : (0 <= i <= len)%Z -> relIndex len i = i.
Proof.
  intros H. unfold relIndex. destruct (i <? 0)%Z eqn:E; lia.
Qed.

Lemma sliceList_inside {A} (xs : list A) a b :
  (0 <= a <= b)%Z -> (b <= Z.of_nat (List.length xs))%Z ->
  sliceList xs a b = firstn (Z.to_nat (b - a)) (skipn (Z.to_nat a) xs).
Proof.
  intros Ha Hb. unfold sliceList.
  rewrite !relIndex_inside by lia. f_equal. f_equal. lia.
Qed.

Lemma sliceList_length {A} (xs : list A) a b :
  (0 <= a <= b)%Z -> (b <= Z.of_nat (List.length xs))%Z ->
  Z.of_nat (List.length (sliceList xs a b)) = (b - a)%Z.
Proof.
  intros Ha Hb. rewrite sliceList_inside by assumption.
  rewrite length_firstn, length_skipn. lia.
Qed.

Lemma sliceList_prefix {A} (xs : list A) a :
  (0 <= a)%Z -> (a <= Z.of_nat (List.length xs))%Z ->
  sliceList xs 0 a = firstn (Z.to_nat a) xs.
Proof.
  intros Ha Hb. rewrite sliceList_inside by lia. cbn [Z.to_nat skipn].
  f_equal. lia.
Qed.

(** The loop returns the listed chunks. *)
Lemma chunkLoop_windows words size overlap :
  (1 <= size - overlap)%Z ->
  forall fuel startIdx ci acc,
    (Z.of_nat (List.length words) - startIdx < Z.of_nat fuel)%Z ->
    (startIdx < Z.of_nat (List.length words))%Z ->
    chunkLoop fuel words size overlap startIdx ci acc
    = Some (acc ++ windows fuel words size (size - overlap) startIdx ci)%list.
Proof.
  intros Hstep. induction fuel as [|fuel IH]; intros startIdx ci acc Hf Hs.
  - lia.
  - cbn [chunkLoop windows].
    destruct (startIdx <? Z.of_nat (List.length words))%Z eqn:E; [|lia].
    fold (chunkAt words size startIdx ci).
    destruct (startIdx + (size - overlap) >=? Z.of_nat (List.length words))%Z
      eqn:E2.
    + reflexivity.
    + rewrite IH by lia. rewrite <- app_assoc. reflexivity.
Qed.


Lemma firstn_plus {A} : forall n m (l : list A),
  firstn (n + m) l = (firstn n l ++ firstn m (skipn n l))%list.
Proof.
  induction n as [|n IH]; intros m l; [reflexivity|].
  destruct l as [|x l]; [cbn; destruct m; reflexivity|].
  cbn [Nat.add firstn skipn app]. rewrite IH. reflexivity.
Qed.

Lemma skipn_skipn_plus {A} : forall n m (l : list A),
  skipn m (skipn n l) = skipn (n + m) l.
Proof.
  induction n as [|n IH]; intros m l; [reflexivity|].
  destruct l as [|x l]; [cbn; destruct m; reflexivity|].
  cbn [Nat.add skipn]. apply IH.
Qed.

Lemma join_cons sep x xs :
  xs <> [] -> join sep (x :: xs) = x ++ sep ++ join sep xs.
Proof. destruct xs; [contradiction|reflexivity]. Qed.

Lemma join_app sep : forall xs ys,
  xs <> [] -> ys <> [] ->
  join sep (xs ++ ys)%list = join sep xs ++ sep ++ join sep ys.
Proof.
  induction xs as [|x xs IH]; intros ys Hx Hy; [contradiction|].
  destruct xs as [|x' xs].
  - cbn [app]. rewrite join_cons by exact Hy. reflexivity.
  - change ((x :: x' :: xs) ++ ys)%list with (x :: ((x' :: xs) ++ ys))%list.
    rewrite join_cons by discriminate.
    rewrite IH by (try discriminate; exact Hy).
    rewrite (join_cons sep x (x' :: xs)) by discriminate.
    rewrite !append_assoc. reflexivity.
Qed.

Lemma substring_skip : forall p m s,
  String.substring (String.length p) m (p ++ s) = String.substring 0 m s.
Proof.
  induction p as [|c p IH]; intros m s; [reflexivity|].
  cbn [String.length append String.substring]. apply IH.
Qed.

Lemma substring_take : forall c r,
  String.substring 0 (String.length c) (c ++ r) = c.
Proof.
  induction c as [|a c IH]; intros r.
  - cbn. destruct r; reflexivity.
  - cbn [String.length append String.substring]. rewrite IH. reflexivity.
Qed.

Lemma strlen_app a b : strlen (a ++ b) = (strlen a + strlen b)%Z.
Proof. unfold strlen. rewrite RegexFacts.length_app. lia. Qed.

Lemma strlen_nonneg a : (0 <= strlen a)%Z.
Proof. unfold strlen. lia. Qed.

Lemma firstn_nonempty {A} (xs : list A) n :
  (0 < n)%nat -> xs <> [] -> firstn n xs <> [].
Proof. destruct n; [lia|]. destruct xs; [contradiction|discriminate]. Qed.

Lemma skipn_nonempty {A} (xs : list A) n :
  (n < List.length xs)%nat -> skipn n xs <> [].
Proof.
  intros H E. apply (f_equal (@List.length A)) in E.
  rewrite length_skipn in E. cbn in E. lia.
Qed.

(** A text that starts with its first word. *)
Lemma join_head sep x xs : exists r, join sep (x :: xs) = x ++ r.
Proof.
  destruct xs as [|y ys].
  - exists EmptyString. cbn. rewrite append_nil_r. reflexivity.
  - exists (sep ++ join sep (y :: ys)). reflexivity.
Qed.

Lemma join_prefix_nonempty sep (ws : list string) n :
  (0 < n)%nat -> hd EmptyString ws <> EmptyString -> ws <> [] ->
  join sep (firstn n ws) <> EmptyString.
Proof.
  intros Hn Hw Hne. destruct n; [lia|]. destruct ws as [|w ws]; [contradiction|].
  cbn [firstn hd] in *. destruct (join_head sep w (firstn n ws)) as [r ->].
  destruct w; [contradiction|discriminate].
Qed.

Lemma strlen_pos s : s <> EmptyString -> (strlen s >? 0)%Z = true.
Proof. destruct s; [contradiction|]. intros _. unfold strlen. cbn. lia. Qed.

Section Words.
Variable words : list string.
Variable size : Z.
Variable len : Z.
Hypothesis len_words : len = Z.of_nat (List.length words).

(** The words cut at a window. *)
Lemma words_cut a b :
  (0 <= a <= b)%Z -> (b <= len)%Z ->
  words = (firstn (Z.to_nat a) words ++ sliceList words a b
           ++ skipn (Z.to_nat b) words)%list.
Proof.
  intros Ha Hb. rewrite sliceList_inside by lia.
  rewrite <- (firstn_skipn (Z.to_nat a) words) at 1. f_equal.
  rewrite <- (firstn_skipn (Z.to_nat (b - a)) (skipn (Z.to_nat a) words)) at 1.
  f_equal. rewrite skipn_skipn. f_equal. lia.
Qed.

Lemma chunkAt_wordCount a ci :
  (0 < size)%Z -> (0 <= a < len)%Z ->
  (1 <= wordCount (chunkAt words size a ci) <= size)%Z.
Proof.
  intros Hs Ha. unfold chunkAt. cbn [wordCount].
  rewrite sliceList_length by lia. lia.
Qed.

Lemma windows_sizes step :
  (0 < size)%Z -> (1 <= step)%Z ->
  forall n a ci, (0 <= a < len)%Z ->
    forall i c, nth_error (windows n words size step a ci) i = Some c ->
      chunkIndex c = (ci + Z.of_nat i)%Z /\ (1 <= wordCount c <= size)%Z.
Proof.
  intros Hs Hstep. induction n as [|n IH]; intros a ci Ha i c Hc.
  - destruct i; discriminate.
  - cbn [windows] in Hc. destruct i as [|i].
    + cbn in Hc. injection Hc as <-. split; [cbn; lia|].
      apply chunkAt_wordCount; assumption.
    + cbn [nth_error] in Hc. rewrite <- len_words in Hc.
      destruct (a + step >=? len)%Z eqn:E; [destruct i; discriminate|].
      apply IH in Hc; [|lia]. destruct Hc as [Hi Hw]. split; [lia|exact Hw].
Qed.

(** Where a chunk stands in the normalized text. *)
Lemma chunkAt_located a ci :
  (0 < size)%Z -> (0 <= a < len)%Z ->
  hd EmptyString words <> EmptyString ->
  let c := chunkAt words size a ci in
  text c = substring (startIndex c) (endIndex c) (join " " words).
Proof.
  intros Hs Ha Hw c. subst c. unfold chunkAt, substring.
  cbn [text startIndex endIndex]. rewrite <- len_words.
  set (b := Z.min (a + size) len).
  assert (Hb : (a < b <= len)%Z) by (subst b; lia).
  rewrite (sliceList_prefix words a) by lia.
  assert (Hne : words <> []) by (intros E; rewrite E in len_words; cbn in len_words; lia).
  assert (HC : sliceList words a b <> []).
  { intros E. pose proof (sliceList_length words a b) as L.
    rewrite E in L. cbn in L. lia. }
  set (C := sliceList words a b) in *.
  set (D := skipn (Z.to_nat b) words).
  assert (Etail : exists r, join " " (C ++ D)%list = join " " C ++ r).
  { destruct D as [|d D'].
    - exists EmptyString. rewrite app_nil_r, append_nil_r. reflexivity.
    - exists (" " ++ join " " (d :: D')). apply join_app; [exact HC|discriminate]. }
  destruct Etail as [r Er].
  set (A := firstn (Z.to_nat a) words).
  assert (EJ : join " " words = join " " (A ++ C ++ D)%list).
  { f_equal. apply words_cut; lia. }
  rewrite EJ. clear EJ.
  destruct (Z.eq_dec a 0) as [E0|Hpos].
  - assert (EA : A = []) by (subst A; rewrite E0; reflexivity).
    rewrite EA. change ([] ++ C ++ D)%list with (C ++ D)%list. rewrite Er.
    change (join " " []) with EmptyString.
    change (strlen EmptyString) with 0%Z. cbn [Z.gtb Z.compare Z.add Z.to_nat].
    replace (Z.to_nat (strlen (join " " C) - 0))
      with (String.length (join " " C)) by (unfold strlen; lia).
    rewrite substring_take. reflexivity.
  - assert (HA : join " " A <> EmptyString).
    { apply join_prefix_nonempty; [lia|exact Hw|exact Hne]. }
    rewrite (strlen_pos _ HA).
    assert (HAne : A <> []) by (apply firstn_nonempty; [lia|exact Hne]).
    rewrite join_app; [|exact HAne|].
    2:{ intros E. apply app_eq_nil in E. destruct E as [E _]. exact (HC E). }
    rewrite Er.
    replace (Z.to_nat (strlen (join " " A) + 1))
      with (String.length (join " " A ++ " "))
      by (rewrite RegexFacts.length_app; unfold strlen; cbn; lia).
    rewrite <- append_assoc, substring_skip.
    replace (Z.to_nat (strlen (join " " A) + 1 + strlen (join " " C)
                       - (strlen (join " " A) + 1)))
      with (String.length (join " " C)) by (unfold strlen; lia).
    rewrite substring_take. reflexivity.
Qed.

Hypothesis first_word : hd EmptyString words <> EmptyString.
Hypothesis size_pos : (0 < size)%Z.

Lemma words_not_nil : (0 < len)%Z -> words <> [].
Proof. intros H E. rewrite E in len_words. cbn in len_words. lia. Qed.

Lemma chunkAt_start a ci :
  (0 < a <= len)%Z ->
  startIndex (chunkAt words size a ci)
  = (strlen (join " " (firstn (Z.to_nat a) words)) + 1)%Z.
Proof.
  intros Ha. unfold chunkAt. cbn [startIndex].
  rewrite (sliceList_prefix words a) by lia.
  rewrite strlen_pos; [reflexivity|].
  apply join_prefix_nonempty; [lia|exact first_word|apply words_not_nil; lia].
Qed.

Lemma chunkAt_first ci : startIndex (chunkAt words size 0 ci) = 0%Z.
Proof.
  unfold chunkAt. cbn [startIndex].
  rewrite (sliceList_prefix words 0) by lia. reflexivity.
Qed.

Lemma chunkAt_end a ci :
  (0 <= a < len)%Z ->
  endIndex (chunkAt words size a ci)
  = strlen (join " " (firstn (Z.to_nat (Z.min (a + size) len)) words)).
Proof.
  intros Ha. set (b := Z.min (a + size) len).
  assert (Hb : (a < b <= len)%Z) by (subst b; lia).
  assert (Hne : words <> []) by (apply words_not_nil; lia).
  assert (Ecut : firstn (Z.to_nat b) words
                 = (firstn (Z.to_nat a) words ++ sliceList words a b)%list).
  { rewrite sliceList_inside by lia.
    replace (Z.to_nat b) with (Z.to_nat a + Z.to_nat (b - a))%nat by lia.
    rewrite firstn_plus. reflexivity. }
  assert (HC : sliceList words a b <> []).
  { intros E. pose proof (sliceList_length words a b) as L.
    rewrite E in L. cbn in L. lia. }
  rewrite Ecut. destruct (Z.eq_dec a 0) as [E0|Hpos].
  - unfold chunkAt. cbn [endIndex]. rewrite <- len_words. fold b.
    rewrite E0. rewrite (sliceList_prefix words 0) by lia. reflexivity.
  - unfold chunkAt. cbn [endIndex]. rewrite <- len_words. fold b.
    rewrite (sliceList_prefix words a) by lia.
    assert (HA : join " " (firstn (Z.to_nat a) words) <> EmptyString).
    { apply join_prefix_nonempty; [lia|exact first_word|exact Hne]. }
    rewrite (strlen_pos _ HA).
    rewrite join_app; [|apply firstn_nonempty; [lia|exact Hne]|exact HC].
    rewrite !strlen_app. change (strlen " ") with 1%Z. lia.
Qed.

Lemma prefix_length_mono a b :
  (0 <= a <= b)%Z -> (b <= len)%Z ->
  (strlen (join " " (firstn (Z.to_nat a) words))
   <= strlen (join " " (firstn (Z.to_nat b) words)))%Z.
Proof.
  intros Ha Hb.
  replace (Z.to_nat b) with (Z.to_nat a + Z.to_nat (b - a))%nat by lia.
  rewrite firstn_plus.
  destruct (firstn (Z.to_nat a) words) as [|x xs] eqn:EA.
  - cbn [join]. apply strlen_nonneg.
  - destruct (firstn (Z.to_nat (b - a)) (skipn (Z.to_nat a) words)) as [|y ys].
    + rewrite app_nil_r. lia.
    + rewrite join_app by discriminate. rewrite !strlen_app.
      pose proof (strlen_nonneg (join " " (y :: ys))).
      change (strlen " ") with 1%Z. lia.
Qed.

Lemma windows_gapless step :
  (1 <= step <= size)%Z ->
  forall n a ci, (0 <= a < len)%Z ->
    gapless (windows n words size step a ci).
Proof.
  intros Hstep. induction n as [|n IH]; intros a ci Ha; [exact I|].
  cbn [windows]. rewrite <- len_words.
  destruct (a + step >=? len)%Z eqn:E; [exact I|].
  destruct n as [|n]; [exact I|].
  cbn [windows gapless]. rewrite <- len_words.
  split.
  - rewrite chunkAt_start by lia. rewrite chunkAt_end by lia.
    pose proof (prefix_length_mono (a + step) (Z.min (a + size) len)). lia.
  - specialize (IH (a + step)%Z (ci + 1)%Z). cbn [windows] in IH.
    rewrite <- len_words in IH. apply IH. lia.
Qed.

Lemma windows_last step :
  (1 <= step <= size)%Z ->
  forall n a ci d, (0 <= a < len)%Z -> (len - a < Z.of_nat n)%Z ->
    endIndex (List.last (windows n words size step a ci) d)
    = strlen (join " " words).
Proof.
  intros Hstep. induction n as [|n IH]; intros a ci d Ha Hn; [lia|].
  cbn [windows]. rewrite <- len_words.
  destruct (a + step >=? len)%Z eqn:E.
  - cbn [List.last]. rewrite chunkAt_end by lia.
    replace (Z.min (a + size) len) with len by lia.
    rewrite len_words, Nat2Z.id, firstn_all. reflexivity.
  - destruct n as [|n]; [lia|].
    specialize (IH (a + step)%Z (ci + 1)%Z d).
    cbn [windows] in IH |- *. rewrite <- len_words in IH |- *.
    cbn [List.last]. apply IH; lia.
Qed.

Lemma windows_partition :
  forall n a ci, (0 <= a < len)%Z -> (len - a < Z.of_nat n)%Z ->
    join " " (map text (windows n words size size a ci))
    = join " " (skipn (Z.to_nat a) words).
Proof.
  induction n as [|n IH]; intros a ci Ha Hn; [lia|].
  cbn [windows map]. rewrite <- len_words.
  assert (Etext : text (chunkAt words size a ci)
                  = join " " (sliceList words a (Z.min (a + size) len))).
  { unfold chunkAt. cbn [text]. rewrite <- len_words. reflexivity. }
  rewrite Etext. clear Etext.
  destruct (a + size >=? len)%Z eqn:E.
  - cbn [map join]. replace (Z.min (a + size) len) with len by lia.
    rewrite sliceList_inside by lia. f_equal.
    apply firstn_all2. rewrite length_skipn. lia.
  - replace (Z.min (a + size) len) with (a + size)%Z by lia.
    destruct n as [|n]; [lia|].
    rewrite join_cons by (cbn [windows map]; discriminate).
    rewrite IH by lia.
    rewrite sliceList_inside by lia.
    replace (a + size - a)%Z with size by lia.
    replace (Z.to_nat (a + size)) with (Z.to_nat a + Z.to_nat size)%nat by lia.
    rewrite <- skipn_skipn_plus.
    rewrite <- join_app.
    + rewrite firstn_skipn. reflexivity.
    + apply firstn_nonempty; [lia|]. apply skipn_nonempty. lia.
    + rewrite skipn_skipn_plus. apply skipn_nonempty. lia.
Qed.

End Words.


Lemma splitWsFrom_head : forall s cur prevWs,
  cur <> EmptyString ->
  hd EmptyString (splitWsFrom s cur prevWs) <> EmptyString.
Proof.
  induction s as [|c t IH]; intros cur prevWs Hcur; cbn [splitWsFrom].
  - exact Hcur.
  - destruct (isSpace c).
    + destruct prevWs; [apply IH; exact Hcur|exact Hcur].
    + apply IH. destruct cur; discriminate.
Qed.

Lemma splitWs_first c t :
  isSpace c = false -> hd EmptyString (splitWs (String c t)) <> EmptyString.
Proof.
  intros Hc. unfold splitWs. cbn [splitWsFrom]. rewrite Hc.
  apply splitWsFrom_head. discriminate.
Qed.

Lemma dropWhile_app_keep f : forall s c r,
  f c = false -> dropWhile f (s ++ String c r) <> EmptyString.
Proof.
  induction s as [|a s IH]; intros c r Hc; cbn [append dropWhile].
  - rewrite Hc. discriminate.
  - destruct (f a); [apply IH; exact Hc|discriminate].
Qed.

Lemma trim_not_blank c t :
  isSpace c = false -> String.length (trim (String c t)) <> 0%nat.
Proof.
  intros Hc. unfold trim. cbn [dropWhile]. rewrite Hc. cbn [rev].
  pose proof (dropWhile_app_keep isSpace (rev t) c EmptyString Hc) as H.
  destruct (dropWhile isSpace (rev t ++ String c EmptyString)) as [|x y];
    [contradiction|].
  cbn [rev]. rewrite RegexFacts.length_app. cbn. lia.
Qed.

Lemma dropWhile_all f : forall s, allChars f s = true -> dropWhile f s = EmptyString.
Proof.
  induction s as [|c t IH]; intros H; [reflexivity|].
  cbn [allChars] in H. apply andb_true_iff in H. destruct H as [Hc Ht].
  cbn [dropWhile]. rewrite Hc. apply IH. exact Ht.
Qed.

Lemma trim_blank s : allChars isSpace s = true -> trim s = EmptyString.
Proof. intros H. unfold trim. rewrite (dropWhile_all _ _ H). reflexivity. Qed.

(** The run on a text of more words than one chunk holds. *)
Lemma chunkText_long text size overlap :
  String.length (trim text) <> 0%nat ->
  (overlap < size)%Z ->
  (size < Z.of_nat (List.length (splitWs text)))%Z ->
  chunkText (S (List.length (splitWs text))) text size overlap
  = Some (windows (S (List.length (splitWs text))) (splitWs text) size
            (size - overlap) 0 0).
Proof.
  intros Hb Ho Hl. unfold chunkText.
  destruct (String.length (trim text) =? 0)%nat eqn:E;
    [apply Nat.eqb_eq in E; contradiction|].
  destruct (Z.of_nat (List.length (splitWs text)) <=? size)%Z eqn:E2; [lia|].
  pose proof (ChunkingFacts.splitWsFrom_length text EmptyString false) as Hlen.
  fold (splitWs text) in Hlen.
  rewrite chunkLoop_windows by lia. reflexivity.
Qed.

(** X6.  A text of white space only, the empty text included, gives no
    chunk, whatever the sizes are. *)
Theorem chunkText_blank_text_gives_no_chunk :
  forall fuel text chunkSizeWords overlapWords,
    allChars isSpace text = true ->
    chunkText fuel text chunkSizeWords overlapWords = Some [].
Proof.
  intros fuel text size overlap H. unfold chunkText.
  rewrite (trim_blank text H). reflexivity.
Qed.

Lemma chunkText_blank_text_gives_no_chunk_witness :
  chunkText 0 "   " 2 1 = Some [].
Proof.
  apply (chunkText_blank_text_gives_no_chunk 0 "   " 2 1). reflexivity.
Defined.



(** X8.  The offsets of a chunk locate it in the text with every run of
    white space written as one space: when the text does not start with
    white space and does not fit one chunk, each chunk's text is that text
    between [startIndex] and [endIndex]. *)
Theorem chunkText_offsets_locate_chunks :
  forall c t chunkSizeWords overlapWords,
    isSpace c = false ->
    (0 <= overlapWords < chunkSizeWords)%Z ->
    (chunkSizeWords < Z.of_nat (List.length (splitWs (String c t))))%Z ->
    exists chunks,
      chunkText (S (List.length (splitWs (String c t)))) (String c t)
        chunkSizeWords overlapWords = Some chunks
      /\ forall ch, In ch chunks ->
           text ch
           = substring (startIndex ch) (endIndex ch) (normalized (String c t)).
Proof.
  intros c t size overlap Hc Ho Hl.
  eexists. rewrite chunkText_long; [|apply trim_not_blank; exact Hc|lia|lia].
  split; [reflexivity|].
  set (words := splitWs (String c t)) in *.
  assert (Hgen : forall n a ci ch,
            (0 <= a < Z.of_nat (List.length words))%Z ->
            In ch (windows n words size (size - overlap) a ci) ->
            text ch = substring (startIndex ch) (endIndex ch) (join " " words)).
  { induction n as [|n IH]; intros a ci ch Ha Hin; [destruct Hin|].
    cbn [windows] in Hin. destruct Hin as [<-|Hin].
    - apply (chunkAt_located words size _ eq_refl); [lia|lia|].
      apply splitWs_first. exact Hc.
    - destruct (a + (size - overlap) >=? Z.of_nat (List.length words))%Z eqn:E;
        [destruct Hin|].
      apply (IH (a + (size - overlap))%Z (ci + 1)%Z ch); [lia|exact Hin]. }
  intros ch Hin.
  apply (Hgen (S (List.length words)) 0%Z 0%Z ch); [lia|exact Hin].
Qed.

Lemma chunkText_offsets_locate_chunks_witness :
  exists chunks,
    chunkText (S (List.length (splitWs tenWords))) tenWords 3 1 = Some chunks
    /\ forall ch, In ch chunks ->
         text ch = substring (startIndex ch) (endIndex ch) (normalized tenWords).
Proof.
  apply (chunkText_offsets_locate_chunks "a" " b c d e f g h i j" 3 1).
  - reflexivity.
  - lia.
  - vm_compute. reflexivity.
Defined.

(** X9.  Under the same conditions the chunks cover the normalized text:
    the first starts at offset 0, each next one starts no later than one
    character after the end of the one before, and the last ends where the
    text ends. *)
Theorem chunkText_chunks_cover_text :
  forall c t chunkSizeWords overlapWords,
    isSpace c = false ->
    (0 <= overlapWords < chunkSizeWords)%Z ->
    (chunkSizeWords < Z.of_nat (List.length (splitWs (String c t))))%Z ->
    exists chunks,
      chunkText (S (List.length (splitWs (String c t)))) (String c t)
        chunkSizeWords overlapWords = Some chunks
      /\ chunks <> []
      /\ gapless chunks
      /\ forall d, startIndex (hd d chunks) = 0%Z
                   /\ endIndex (List.last chunks d)
                      = strlen (normalized (String c t)).
Proof.
  intros c t size overlap Hc Ho Hl.
  eexists. rewrite chunkText_long; [|apply trim_not_blank; exact Hc|lia|lia].
  split; [reflexivity|].
  set (words := splitWs (String c t)) in *.
  pose proof (splitWs_first c t Hc) as Hw. fold words in Hw.
  split; [cbn [windows]; discriminate|]. split.
  - apply (windows_gapless words size _ eq_refl Hw ltac:(lia)); lia.
  - intros d. split.
    + cbn [windows hd]. apply chunkAt_first.
    + apply (windows_last words size _ eq_refl Hw ltac:(lia)); lia.
Qed.

Lemma chunkText_chunks_cover_text_witness :
  exists chunks,
    chunkText (S (List.length (splitWs tenWords))) tenWords 3 1 = Some chunks
    /\ chunks <> []
    /\ gapless chunks
    /\ forall d, startIndex (hd d chunks) = 0%Z
                 /\ endIndex (List.last chunks d) = strlen (normalized tenWords).
Proof.
  apply (chunkText_chunks_cover_text "a" " b c d e f g h i j" 3 1).
  - reflexivity.
  - lia.
  - vm_compute. reflexivity.
Defined.

(** X10.  Without overlap the chunks partition the text: joined by single
    spaces, the chunk texts of a text that does not fit one chunk give the
    normalized text back. *)
Theorem chunkText_without_overlap_partitions :
  forall text chunkSizeWords,
    String.length (trim text) <> 0%nat ->
    (0 < chunkSizeWords)%Z ->
    (chunkSizeWords < Z.of_nat (List.length (splitWs text)))%Z ->
    exists chunks,
      chunkText (S (List.length (splitWs text))) text chunkSizeWords 0
      = Some chunks
      /\ join " " (map Chunking.text chunks) = normalized text.
Proof.
  intros text size Hb Hs Hl.
  eexists. rewrite chunkText_long; [|exact Hb|lia|lia].
  split; [reflexivity|]. replace (size - 0)%Z with size by lia.
  rewrite (windows_partition (splitWs text) size _ eq_refl Hs); [reflexivity|lia|lia].
Qed.

Lemma chunkText_without_overlap_partitions_witness :
  exists chunks,
    chunkText (S (List.length (splitWs tenWords))) tenWords 3 0 = Some chunks
    /\ join " " (map text chunks) = normalized tenWords.
Proof.
  apply (chunkText_without_overlap_partitions tenWords 3).
  - vm_compute. discriminate.
  - lia.
  - vm_compute. reflexivity.
Defined.

End ChunkWindowFacts.

(** ** IngestionEngine: splitting a program into statements *)

Module SplitFacts.
Import Js Neo4jIngest StringAux CharDefs StatementTexts NodeFacts CharFacts.

Lemma dropWhile_head f : forall s, headKept f (dropWhile f s).
Proof.
  induction s as [|c t IH]; [exact I|].
  cbn [dropWhile]. destruct (f c) eqn:E; [exact IH|exact E].
Qed.

Lemma dropWhile_kept f s : headKept f s -> dropWhile f s = s.
Proof.
  destruct s as [|c t]; [reflexivity|]. cbn. intros ->. reflexivity.
Qed.

Lemma dropWhile_suffix f : forall s, exists p, s = p ++ dropWhile f s.
Proof.
  induction s as [|c t IH].
  - exists EmptyString. reflexivity.
  - cbn [dropWhile]. destruct (f c).
    + destruct IH as [p Hp]. exists (String c p). cbn. rewrite <- Hp. reflexivity.
    + exists EmptyString. reflexivity.
Qed.

Lemma headKept_app f a b : a <> EmptyString -> headKept f a -> headKept f (a ++ b).
Proof. destruct a; [contradiction|]. intros _ H. exact H. Qed.

Lemma rev_not_empty s : s <> EmptyString -> rev s <> EmptyString.
Proof.
  intros H E. apply H. rewrite <- (rev_rev s), E. reflexivity.
Qed.

(** What ends a text still ends it after the leading run is dropped. *)
Lemma dropWhile_last f s :
  headKept f (rev s) -> headKept f (rev (dropWhile f s)).
Proof.
  intros H. destruct (dropWhile_suffix f s) as [p Hp].
  destruct (dropWhile f s) as [|c d] eqn:E; [exact I|].
  rewrite Hp, rev_app in H.
  remember (rev (String c d)) as r eqn:Er.
  assert (Hr : r <> EmptyString) by (subst r; apply rev_not_empty; discriminate).
  destruct r as [|x y]; [contradiction|]. exact H.
Qed.

Lemma trim_idempotent s : trim (trim s) = trim s.
Proof.
  unfold trim.
  set (d := dropWhile isSpace s).
  set (e := dropWhile isSpace (rev d)).
  assert (He : headKept isSpace e) by apply dropWhile_head.
  assert (Hre : headKept isSpace (rev e)).
  { apply dropWhile_last. rewrite rev_rev. apply dropWhile_head. }
  rewrite (dropWhile_kept isSpace (rev e) Hre), rev_rev.
  rewrite (dropWhile_kept isSpace e He). reflexivity.
Qed.

Lemma pushTrimmed_trimmed current statements :
  Forall (fun s => s <> EmptyString /\ trim s = s) statements ->
  Forall (fun s => s <> EmptyString /\ trim s = s)
    (pushTrimmed current statements).
Proof.
  intros H. unfold pushTrimmed.
  destruct (0 <? String.length (trim current))%nat eqn:E; [|exact H].
  apply Forall_app. split; [exact H|]. constructor; [|constructor].
  split; [|apply trim_idempotent].
  intros E0. rewrite E0 in E. discriminate.
Qed.

Lemma splitLoop_trimmed : forall cypher prevChar current stringChar statements,
  Forall (fun s => s <> EmptyString /\ trim s = s) statements ->
  Forall (fun s => s <> EmptyString /\ trim s = s)
    (splitLoop cypher prevChar current stringChar statements).
Proof.
  induction cypher as [|c rest IH]; intros prevChar current stringChar statements H.
  - apply pushTrimmed_trimmed. exact H.
  - cbn [splitLoop].
    destruct (if isQuote c && negb (isBackslash prevChar)
              then match stringChar with
                   | Some q => if (c =? q)%char then None else Some q
                   | None => Some c
                   end
              else stringChar).
    + apply IH. exact H.
    + destruct (c =? ";")%char; apply IH;
        [apply pushTrimmed_trimmed|]; exact H.
Qed.

(** X11.  Every statement [splitCypherStatements] returns is trimmed and
    not empty. *)
Theorem splitCypherStatements_statements_trimmed :
  forall cypher s,
    In s (splitCypherStatements cypher) ->
    s <> EmptyString /\ trim s = s.
Proof.
  intros cypher s Hin. unfold splitCypherStatements in Hin.
  destruct (String.length (trim cypher) =? 0)%nat; [destruct Hin|].
  apply filter_In in Hin. destruct Hin as [Hin _].
  pose proof (splitLoop_trimmed cypher None EmptyString None [] (Forall_nil _))
    as H.
  apply (proj1 (Forall_forall _ _) H s Hin).
Qed.

Lemma splitCypherStatements_statements_trimmed_witness :
  "MERGE (a)" <> EmptyString /\ trim "MERGE (a)" = "MERGE (a)".
Proof.
  apply (splitCypherStatements_statements_trimmed "  MERGE (a) ;; MERGE (b); ").
  vm_compute. left. reflexivity.
Defined.


Lemma mem_rev c : forall s, mem c (rev s) = mem c s.
Proof.
  induction s as [|a s IH]; [reflexivity|].
  cbn [rev]. rewrite mem_app, IH. cbn [mem]. rewrite orb_false_r.
  apply orb_comm.
Qed.

Lemma mem_dropWhile c f s : mem c s = false -> mem c (dropWhile f s) = false.
Proof.
  intros H. destruct (dropWhile_suffix f s) as [p Hp].
  rewrite Hp, mem_app in H. apply orb_false_iff in H. tauto.
Qed.

Lemma mem_trim c s : mem c s = false -> mem c (trim s) = false.
Proof.
  intros H. unfold trim. rewrite mem_rev. apply mem_dropWhile.
  rewrite mem_rev. apply mem_dropWhile. exact H.
Qed.

Lemma pushTrimmed_free c current statements :
  mem c current = false ->
  Forall (fun s => mem c s = false) statements ->
  Forall (fun s => mem c s = false) (pushTrimmed current statements).
Proof.
  intros Hc H. unfold pushTrimmed.
  destruct (0 <? String.length (trim current))%nat; [|exact H].
  apply Forall_app. split; [exact H|]. constructor; [|constructor].
  apply mem_trim. exact Hc.
Qed.

Lemma splitLoop_no_semicolon : forall cypher prevChar current statements,
  quoteFree cypher = true ->
  mem ";" current = false ->
  Forall (fun s => mem ";" s = false) statements ->
  Forall (fun s => mem ";" s = false)
    (splitLoop cypher prevChar current None statements).
Proof.
  induction cypher as [|c rest IH]; intros prevChar current statements Hq Hc H.
  - apply pushTrimmed_free; assumption.
  - unfold quoteFree in Hq. cbn [allChars] in Hq.
    apply andb_true_iff in Hq. destruct Hq as [Hc0 Hrest].
    apply negb_true_iff in Hc0. cbn [splitLoop]. rewrite Hc0. cbn [andb].
    destruct (c =? ";")%char eqn:E.
    + apply IH; [exact Hrest|reflexivity|].
      apply pushTrimmed_free; assumption.
    + apply IH; [exact Hrest| |exact H].
      rewrite mem_app, Hc. cbn [mem orb]. rewrite Ascii.eqb_sym, E. reflexivity.
Qed.

(** X12.  In a program without quote characters every semicolon ends a
    statement: no statement returned holds one. *)
Theorem splitCypherStatements_unquoted_semicolons_split :
  forall cypher s,
    quoteFree cypher = true ->
    In s (splitCypherStatements cypher) ->
    mem ";" s = false.
Proof.
  intros cypher s Hq Hin. unfold splitCypherStatements in Hin.
  destruct (String.length (trim cypher) =? 0)%nat; [destruct Hin|].
  apply filter_In in Hin. destruct Hin as [Hin _].
  pose proof (splitLoop_no_semicolon cypher None EmptyString [] Hq eq_refl
                (Forall_nil _)) as H.
  apply (proj1 (Forall_forall _ _) H s Hin).
Qed.

Lemma splitCypherStatements_unquoted_semicolons_split_witness :
  mem ";" "MERGE (b)" = false.
Proof.
  apply (splitCypherStatements_unquoted_semicolons_split
           "MERGE (a); MERGE (b);" "MERGE (b)").
  - reflexivity.
  - vm_compute. right. left. reflexivity.
Defined.

Lemma lastChar_app : forall a b d, lastChar (a ++ b) d = lastChar b (lastChar a d).
Proof.
  induction a as [|c a IH]; intros b d; [reflexivity|].
  cbn [append lastChar]. apply IH.
Qed.

Lemma lastChar_backslash s d :
  isBackslash (lastChar s None) = false -> isBackslash d = false ->
  isBackslash (lastChar s d) = false.
Proof.
  destruct s as [|c t]; intros Hs Hd; [exact Hd|exact Hs].
Qed.

Lemma splitLoop_plain : forall s rest prevChar current statements,
  plainText s = true ->
  splitLoop (s ++ rest) prevChar current None statements
  = splitLoop rest (lastChar s prevChar) (current ++ s) None statements.
Proof.
  induction s as [|c s IH]; intros rest prevChar current statements H.
  - cbn [append lastChar]. rewrite append_nil_r. reflexivity.
  - unfold plainText in H. cbn [allChars] in H.
    apply andb_true_iff in H. destruct H as [Hc Hs].
    apply andb_true_iff in Hc. destruct Hc as [Hq Hsemi].
    apply negb_true_iff in Hq. apply negb_true_iff in Hsemi.
    cbn [append splitLoop lastChar]. rewrite Hq, Hsemi. cbn [andb].
    rewrite IH by exact Hs. rewrite append_assoc. reflexivity.
Qed.

Lemma splitLoop_inside q : forall s rest prevChar current statements,
  mem q s = false ->
  splitLoop (s ++ rest) prevChar current (Some q) statements
  = splitLoop rest (lastChar s prevChar) (current ++ s) (Some q) statements.
Proof.
  induction s as [|c s IH]; intros rest prevChar current statements H.
  - cbn [append lastChar]. rewrite append_nil_r. reflexivity.
  - cbn [mem] in H. apply orb_false_iff in H. destruct H as [Hc Hs].
    cbn [append splitLoop lastChar].
    assert (E : (if isQuote c && negb (isBackslash prevChar)
                 then if (c =? q)%char then None else Some q
                 else Some q) = Some q).
    { rewrite Ascii.eqb_sym, Hc. destruct (isQuote c && negb (isBackslash prevChar));
        reflexivity. }
    rewrite E. rewrite IH by exact Hs. rewrite append_assoc. reflexivity.
Qed.

Lemma dropWhile_app_stop f : forall a q b,
  f q = false -> dropWhile f (a ++ String q b) = dropWhile f a ++ String q b.
Proof.
  induction a as [|c a IH]; intros q b Hq; cbn [append dropWhile].
  - rewrite Hq. reflexivity.
  - destruct (f c); [apply IH; exact Hq|reflexivity].
Qed.

Lemma trim_holds a q b :
  isSpace q = false -> (0 <? String.length (trim (a ++ String q b)))%nat = true.
Proof.
  intros Hq. unfold trim. rewrite (dropWhile_app_stop isSpace a q b Hq).
  rewrite rev_app.
  change (rev (String q b)) with (rev b ++ String q EmptyString).
  rewrite append_assoc.
  change (String q EmptyString ++ rev (dropWhile isSpace a))
    with (String q (rev (dropWhile isSpace a))).
  rewrite (dropWhile_app_stop isSpace (rev b) q _ Hq).
  rewrite rev_app. apply Nat.ltb_lt. rewrite RegexFacts.length_app.
  cbn [rev]. rewrite RegexFacts.length_app. cbn [String.length]. lia.
Qed.

Lemma quote_not_space q : isQuote q = true -> isSpace q = false.
Proof.
  unfold isQuote. intros H.
  apply orb_true_iff in H. destruct H as [H|H];
    [apply orb_true_iff in H; destruct H as [H|H]|];
    apply Ascii.eqb_eq in H; subst q; reflexivity.
Qed.

Lemma quote_not_semicolon q : isQuote q = true -> (q =? ";")%char = false.
Proof.
  unfold isQuote. intros H.
  apply orb_true_iff in H. destruct H as [H|H];
    [apply orb_true_iff in H; destruct H as [H|H]|];
    apply Ascii.eqb_eq in H; subst q; reflexivity.
Qed.

Lemma quote_not_backslash q : isQuote q = true -> isBackslash (Some q) = false.
Proof.
  unfold isQuote. intros H.
  apply orb_true_iff in H. destruct H as [H|H];
    [apply orb_true_iff in H; destruct H as [H|H]|];
    apply Ascii.eqb_eq in H; subst q; reflexivity.
Qed.

(** X13.  A semicolon between quotes does not split: a program with one
    quoted text, whose quote is not escaped and which holds semicolons only
    inside that text, is one statement, the trimmed program. *)
Theorem splitCypherStatements_keeps_quoted_semicolon :
  forall pre q body post,
    isQuote q = true ->
    plainText pre = true -> plainText post = true ->
    mem q body = false ->
    isBackslash (lastChar pre None) = false ->
    isBackslash (lastChar body None) = false ->
    let cypher := pre ++ String q (body ++ String q post) in
    splitCypherStatements cypher = [trim cypher].
Proof.
  intros pre q body post Hq Hpre Hpost Hbody Hp Hb cypher.
  assert (Hlen : (0 <? String.length (trim cypher))%nat = true).
  { apply trim_holds. apply quote_not_space. exact Hq. }
  unfold splitCypherStatements.
  destruct (String.length (trim cypher) =? 0)%nat eqn:E0.
  { apply Nat.eqb_eq in E0. rewrite E0 in Hlen. discriminate. }
  assert (Eloop : splitLoop cypher None EmptyString None [] = [trim cypher]).
  { subst cypher. rewrite splitLoop_plain by exact Hpre.
    cbn [splitLoop]. rewrite Hq, Hp. cbn [andb negb].
    rewrite splitLoop_inside by exact Hbody.
    cbn [splitLoop]. rewrite Hq.
    rewrite (lastChar_backslash body (Some q) Hb (quote_not_backslash q Hq)).
    cbn [andb negb]. rewrite Ascii.eqb_refl.
    rewrite (quote_not_semicolon q Hq).
    rewrite <- (append_nil_r post) at 1.
    rewrite splitLoop_plain by exact Hpost.
    cbn [splitLoop]. unfold pushTrimmed.
    replace (((((EmptyString ++ pre) ++ String q EmptyString) ++ body)
              ++ String q EmptyString) ++ post)
      with (pre ++ String q (body ++ String q post))
      by (cbn [append]; rewrite !append_assoc; reflexivity).
    rewrite Hlen. reflexivity. }
  rewrite Eloop. cbn [filter]. rewrite Hlen. reflexivity.
Qed.

Lemma splitCypherStatements_keeps_quoted_semicolon_witness :
  splitCypherStatements "MERGE (n:Note {text: 'x; y'}) "
  = [trim "MERGE (n:Note {text: 'x; y'}) "].
Proof.
  apply (splitCypherStatements_keeps_quoted_semicolon
           "MERGE (n:Note {text: " "'"%char "x; y" "}) "); reflexivity.
Defined.

End SplitFacts.

(** ** IngestionEngine: what a run does to the stores *)

Module IngestRunFacts.
Import Exn Store Neo4jIngest IngestScenario StoreFrames IngestFacts.

Lemma sameStores_refl w : sameStores w w.
Proof. repeat split. Qed.

Lemma sameStores_trans w1 w2 w3 :
  sameStores w1 w2 -> sameStores w2 w3 -> sameStores w1 w3.
Proof.
  unfold sameStores. intros (A1 & A2 & A3 & A4 & A5) (B1 & B2 & B3 & B4 & B5).
  repeat split; congruence.
Qed.

Lemma sameStores_appendEvents es w : sameStores w (appendEvents es w).
Proof. repeat split. Qed.

Lemma sameStores_logEvent e w : sameStores w (logEvent e w).
Proof. repeat split. Qed.

Lemma grown_refl w : grown w w.
Proof. exists []. rewrite app_nil_r. reflexivity. Qed.

Lemma grown_trans w1 w2 w3 : grown w1 w2 -> grown w2 w3 -> grown w1 w3.
Proof.
  intros [a Ha] [b Hb]. exists (a ++ b)%list.
  rewrite Hb, Ha, app_assoc. reflexivity.
Qed.

Lemma sameStores_grown w w' : sameStores w w' -> grown w w'.
Proof.
  intros (_ & _ & _ & _ & G). exists []. rewrite app_nil_r. exact G.
Qed.

Section Store.
Variable neo : Neo4j.

Lemma explainAll_same : forall statements w,
  sameStores w (snd (explainAll neo statements w)).
Proof.
  induction statements as [|s rest IH]; intros w; cbn [explainAll].
  - apply sameStores_refl.
  - destruct (explainError neo s).
    + apply sameStores_logEvent.
    + apply (sameStores_trans _ (logEvent (EvExplain s) w));
        [apply sameStores_logEvent|apply IH].
Qed.

Lemma validateCypher_same cypher w :
  sameStores w (snd (validateCypher neo cypher w)).
Proof.
  unfold validateCypher.
  destruct (String.length (Js.trim cypher) =? 0)%nat; [apply sameStores_refl|].
  pose proof (explainAll_same (splitCypherStatements cypher) w) as H.
  destruct (explainAll neo (splitCypherStatements cypher) w) as [[e|] w'];
    exact H.
Qed.

Lemma runWrites_same : forall writeStatements pending n m w,
  sameStores w (snd (runWrites neo writeStatements pending n m w)).
Proof.
  induction writeStatements as [|s rest IH]; intros pending n m w;
    cbn [runWrites].
  - apply sameStores_refl.
  - destruct (writeResult neo (graph w ++ pending)%list s) as [summary|error].
    + destruct (orZero summary) as [n' m'].
      apply (sameStores_trans _ (logEvent (EvRun s) w));
        [apply sameStores_logEvent|apply IH].
    + apply sameStores_logEvent.
Qed.

(** Every write statement succeeds: the loop runs them all. *)
Lemma runWrites_all : forall writeStatements pending n m w,
  (forall p1 s p2, writeStatements = (p1 ++ s :: p2)%list ->
     exists summary,
       writeResult neo (graph w ++ pending ++ p1)%list s = inl summary) ->
  exists n' m',
    runWrites neo writeStatements pending n m w
    = (inl (n', m', (pending ++ writeStatements)%list),
       appendEvents (map EvRun writeStatements) w).
Proof.
  induction writeStatements as [|s rest IH]; intros pending n m w Hok.
  - exists n, m. cbn [runWrites map]. rewrite app_nil_r, appendEvents_nil.
    reflexivity.
  - cbn [runWrites map].
    destruct (Hok [] s rest eq_refl) as [summary Hs].
    rewrite app_nil_r in Hs. rewrite Hs.
    destruct (orZero summary) as [n1 m1].
    destruct (IH (pending ++ [s])%list (n + n1)%Z (m + m1)%Z
                (logEvent (EvRun s) w)) as (n' & m' & E).
    + intros p1 s' p2 Ep. destruct (Hok (s :: p1) s' p2) as [summary' Hs'].
      { rewrite Ep. reflexivity. }
      exists summary'. cbn [graph logEvent]. rewrite <- app_assoc. exact Hs'.
    + exists n', m'. rewrite E. rewrite <- app_assoc.
      rewrite appendEvents_logEvent. reflexivity.
Qed.


(** The run of a chunk whose program passes validation and whose write
    statements all succeed. *)
Lemma ingestChunkCypher_succeeds chunkId w result chunk schemaStatements
  writeStatements :
  lookup chunkId (chunkResults w) = Some result ->
  String.eqb (r_status result) "executed" = false ->
  lookup chunkId (chunks w) = Some chunk ->
  (forall s, In s (splitCypherStatements (generatedCypher result)) ->
             explainError neo s = None) ->
  separateSchemaAndWriteStatements
    (splitCypherStatements (generatedCypher result))
  = (schemaStatements, writeStatements) ->
  writeStatements <> [] ->
  (forall p1 s p2, writeStatements = (p1 ++ s :: p2)%list ->
     exists summary, writeResult neo (graph w ++ p1)%list s = inl summary) ->
  exists n m w',
    ingestChunkCypher neo chunkId w = (inl (n, m), w')
    /\ graph w' = (graph w ++ writeStatements)%list
    /\ events w'
       = (events w
          ++ map EvExplain (splitCypherStatements (generatedCypher result))
          ++ map EvSchemaRun schemaStatements
          ++ [EvBegin] ++ map EvRun writeStatements ++ [EvCommit])%list
    /\ lookup chunkId (chunkResults w')
       = Some (mkResult "executed" (r_error result) (generatedCypher result)
                 n m)
    /\ lookup chunkId (chunks w') = Some (mkChunkDoc "ingested" (ch_error chunk))
    /\ document w' = document w /\ fullResult w' = fullResult w.
Proof.
  intros Hres Hstatus Hchunk Hexplain Hsep Hne Hok.
  assert (Hsplit : splitCypherStatements (generatedCypher result) <> []).
  { intros E. rewrite E in Hsep. cbn in Hsep.
    injection Hsep as _ Hw. symmetry in Hw. contradiction. }
  assert (Htrim : (String.length (Js.trim (generatedCypher result)) =? 0)%nat
                  = false).
  { destruct (String.length (Js.trim (generatedCypher result)) =? 0)%nat eqn:E;
      [|reflexivity].
    exfalso. apply Hsplit. unfold splitCypherStatements. rewrite E. reflexivity. }
  unfold ingestChunkCypher.
  rewrite Hres, Hstatus, Hchunk. unfold validateCypher. rewrite Htrim.
  rewrite (explainAll_accepts neo _ Hexplain).
  unfold executeCypher.
  destruct (splitCypherStatements (generatedCypher result)) as [|s0 stmts] eqn:Es;
    [contradiction|].
  rewrite Hsep. rewrite runSchemaStatements_events.
  destruct writeStatements as [|w0 ws] eqn:Ew; [contradiction|].
  rewrite <- Ew in *.
  match goal with
  | |- context [runWrites neo writeStatements [] 0%Z 0%Z ?w5] =>
      destruct (runWrites_all writeStatements [] 0%Z 0%Z w5) as (n & m & E)
  end.
  { intros p1 s p2 Ep. cbn. apply (Hok p1 s p2 Ep). }
  rewrite E. exists n, m. eexists. split; [reflexivity|].
  cbn. rewrite !lookup_update. rewrite Hres, Hchunk. cbn.
  repeat split. rewrite <- !app_assoc. reflexivity.
Qed.

(** X14.  When the program of a chunk passes validation and every write
    statement succeeds, [ingestChunkCypher] commits them all: the graph gains
    the write statements in their order, the transaction is begun after the
    schema statements and committed last, and the result and the chunk are
    recorded as executed and ingested with the counters returned. *)
Theorem ingestChunkCypher_commits_every_write :
  forall chunkId w result chunk schemaStatements writeStatements,
    lookup chunkId (chunkResults w) = Some result ->
    String.eqb (r_status result) "executed" = false ->
    lookup chunkId (chunks w) = Some chunk ->
    (forall s, In s (splitCypherStatements (generatedCypher result)) ->
               explainError neo s = None) ->
    separateSchemaAndWriteStatements
      (splitCypherStatements (generatedCypher result))
    = (schemaStatements, writeStatements) ->
    writeStatements <> [] ->
    (forall p1 s p2, writeStatements = (p1 ++ s :: p2)%list ->
       exists summary, writeResult neo (graph w ++ p1)%list s = inl summary) ->
    exists n m w',
      ingestChunkCypher neo chunkId w = (inl (n, m), w')
      /\ graph w' = (graph w ++ writeStatements)%list
      /\ events w'
         = (events w
            ++ map EvExplain (splitCypherStatements (generatedCypher result))
            ++ map EvSchemaRun schemaStatements
            ++ [EvBegin] ++ map EvRun writeStatements ++ [EvCommit])%list
      /\ lookup chunkId (chunkResults w')
         = Some (mkResult "executed" (r_error result) (generatedCypher result)
                   n m)
      /\ lookup chunkId (chunks w')
         = Some (mkChunkDoc "ingested" (ch_error chunk)).
Proof.
  intros chunkId w result chunk schemaStatements writeStatements
    Hres Hstatus Hchunk Hexplain Hsep Hne Hok.
  destruct (ingestChunkCypher_succeeds chunkId w result chunk schemaStatements
              writeStatements Hres Hstatus Hchunk Hexplain Hsep Hne Hok)
    as (n & m & w' & A & B & C & D & E & _).
  exists n, m, w'. repeat split; assumption.
Qed.

(** X15.  Ingesting a chunk again after such a run does nothing: the
    second call returns the counters of the first and leaves the stores and
    the log as they are. *)
Theorem ingestChunkCypher_again_is_noop :
  forall chunkId w result chunk schemaStatements writeStatements,
    lookup chunkId (chunkResults w) = Some result ->
    String.eqb (r_status result) "executed" = false ->
    lookup chunkId (chunks w) = Some chunk ->
    (forall s, In s (splitCypherStatements (generatedCypher result)) ->
               explainError neo s = None) ->
    separateSchemaAndWriteStatements
      (splitCypherStatements (generatedCypher result))
    = (schemaStatements, writeStatements) ->
    writeStatements <> [] ->
    (forall p1 s p2, writeStatements = (p1 ++ s :: p2)%list ->
       exists summary, writeResult neo (graph w ++ p1)%list s = inl summary) ->
    let run := ingestChunkCypher neo chunkId w in
    ingestChunkCypher neo chunkId (snd run) = (fst run, snd run).
Proof.
  intros chunkId w result chunk schemaStatements writeStatements
    Hres Hstatus Hchunk Hexplain Hsep Hne Hok run. subst run.
  destruct (ingestChunkCypher_succeeds chunkId w result chunk schemaStatements
              writeStatements Hres Hstatus Hchunk Hexplain Hsep Hne Hok)
    as (n & m & w' & A & _ & _ & D & _).
  rewrite A. cbn [fst snd]. unfold ingestChunkCypher. rewrite D. reflexivity.
Qed.


Lemma explainAll_rejects bad post e : forall pre w,
  (forall s, In s pre -> explainError neo s = None) ->
  explainError neo bad = Some e ->
  explainAll neo (pre ++ bad :: post)%list w
  = (Some e, appendEvents (map EvExplain pre ++ [EvExplain bad]) w).
Proof.
  induction pre as [|s pre IH]; intros w Hpre Hbad.
  - cbn [app explainAll map]. rewrite Hbad. reflexivity.
  - cbn [app explainAll map]. rewrite (Hpre s (or_introl eq_refl)).
    rewrite IH by (try exact Hbad; intros s' Hs'; apply Hpre; right; exact Hs').
    rewrite appendEvents_logEvent. reflexivity.
Qed.

Lemma split_not_blank cypher :
  splitCypherStatements cypher <> [] ->
  (String.length (Js.trim cypher) =? 0)%nat = false.
Proof.
  intros H. destruct (String.length (Js.trim cypher) =? 0)%nat eqn:E;
    [|reflexivity].
  exfalso. apply H. unfold splitCypherStatements. rewrite E. reflexivity.
Qed.

(** X16.  When [EXPLAIN] rejects a statement of the program the chunk is
    not ingested: the error is thrown before any record is written, so the
    chunk and its result keep the status they had, the graph is untouched, and
    no statement after the rejected one is explained. *)
Theorem ingestChunkCypher_rejected_program_changes_no_record :
  forall chunkId w result chunk pre bad post e,
    lookup chunkId (chunkResults w) = Some result ->
    String.eqb (r_status result) "executed" = false ->
    lookup chunkId (chunks w) = Some chunk ->
    splitCypherStatements (generatedCypher result) = (pre ++ bad :: post)%list ->
    (forall s, In s pre -> explainError neo s = None) ->
    explainError neo bad = Some e ->
    let run := ingestChunkCypher neo chunkId w in
    fst run
    = inr (errorOf ("Cypher validation failed: " ++ Js.tpl (message e)))
    /\ sameStores w (snd run)
    /\ events (snd run)
       = (events w ++ map EvExplain pre ++ [EvExplain bad])%list.
Proof.
  intros chunkId w result chunk pre bad post e Hres Hstatus Hchunk Hsplit
    Hpre Hbad run. subst run.
  unfold ingestChunkCypher. rewrite Hres, Hstatus, Hchunk.
  unfold validateCypher. rewrite split_not_blank
    by (rewrite Hsplit; destruct pre; discriminate).
  rewrite Hsplit, (explainAll_rejects bad post e pre w Hpre Hbad).
  cbn [fst snd]. repeat split.
Qed.

(** X17.  A program that holds schema statements only is reported as a
    success with no node and no relationship, but no transaction is begun and
    the records are left half way: the chunk stays at ingesting and its result
    at validated. *)
Theorem ingestChunkCypher_without_writes_leaves_records_pending :
  forall chunkId w result chunk schemaStatements,
    lookup chunkId (chunkResults w) = Some result ->
    String.eqb (r_status result) "executed" = false ->
    lookup chunkId (chunks w) = Some chunk ->
    (forall s, In s (splitCypherStatements (generatedCypher result)) ->
               explainError neo s = None) ->
    splitCypherStatements (generatedCypher result) <> [] ->
    separateSchemaAndWriteStatements
      (splitCypherStatements (generatedCypher result))
    = (schemaStatements, []) ->
    let run := ingestChunkCypher neo chunkId w in
    fst run = inl (0%Z, 0%Z)
    /\ graph (snd run) = graph w
    /\ events (snd run)
       = (events w
          ++ map EvExplain (splitCypherStatements (generatedCypher result))
          ++ map EvSchemaRun schemaStatements)%list
    /\ lookup chunkId (chunkResults (snd run))
       = Some (mkResult "validated" (r_error result) (generatedCypher result)
                 (r_nodesCreated result) (r_relationshipsCreated result))
    /\ lookup chunkId (chunks (snd run))
       = Some (mkChunkDoc "ingesting" (ch_error chunk)).
Proof.
  intros chunkId w result chunk schemaStatements Hres Hstatus Hchunk Hexplain
    Hsplit Hsep run. subst run.
  unfold ingestChunkCypher. rewrite Hres, Hstatus, Hchunk.
  unfold validateCypher. rewrite (split_not_blank _ Hsplit).
  rewrite (explainAll_accepts neo _ Hexplain).
  unfold executeCypher.
  destruct (splitCypherStatements (generatedCypher result)) as [|s0 stmts] eqn:Es;
    [contradiction|].
  rewrite Hsep, runSchemaStatements_events.
  cbn. rewrite !lookup_update, Hres, Hchunk. cbn.
  repeat split. rewrite <- !app_assoc. reflexivity.
Qed.

Section Kept.
Context {A : Type}.
Variable proj : World -> A.
Hypothesis proj_same : forall w w', sameStores w w' -> proj w' = proj w.
Hypothesis proj_graph : forall g w, proj (setGraph g w) = proj w.

Lemma executeCypher_keeps cypher onSuccess onFailure w :
  (forall n m w0, proj (onSuccess n m w0) = proj w0) ->
  (forall e w0, proj (onFailure e w0) = proj w0) ->
  proj (snd (executeCypher neo cypher onSuccess onFailure w)) = proj w.
Proof.
  intros HS HF. unfold executeCypher.
  destruct (splitCypherStatements cypher) as [|s0 stmts]; [apply HF|].
  destruct (separateSchemaAndWriteStatements (s0 :: stmts))
    as [schemaStatements writeStatements].
  rewrite runSchemaStatements_events.
  set (w1 := appendEvents (map EvSchemaRun schemaStatements) w).
  assert (H1 : proj w1 = proj w)
    by (apply proj_same, sameStores_appendEvents).
  destruct writeStatements as [|x xs]; [exact H1|].
  pose proof (runWrites_same (x :: xs) [] 0%Z 0%Z (logEvent EvBegin w1)) as Hw.
  destruct (runWrites neo (x :: xs) [] 0%Z 0%Z (logEvent EvBegin w1))
    as [[[[n m] pending]|error] w3]; cbn [snd] in Hw |- *.
  - rewrite HS. unfold commit.
    rewrite (proj_same _ _ (sameStores_logEvent EvCommit _)), proj_graph.
    rewrite (proj_same _ _ Hw).
    rewrite (proj_same _ _ (sameStores_logEvent EvBegin w1)). exact H1.
  - rewrite HF. unfold rollback.
    rewrite (proj_same _ _ (sameStores_logEvent EvRollback _)).
    rewrite (proj_same _ _ Hw).
    rewrite (proj_same _ _ (sameStores_logEvent EvBegin w1)). exact H1.
Qed.

End Kept.

Lemma executeCypher_grown cypher onSuccess onFailure w :
  (forall n m w0, graph (onSuccess n m w0) = graph w0) ->
  (forall e w0, graph (onFailure e w0) = graph w0) ->
  grown w (snd (executeCypher neo cypher onSuccess onFailure w)).
Proof.
  intros HS HF. unfold executeCypher.
  destruct (splitCypherStatements cypher) as [|s0 stmts].
  { exists []. cbn [snd]. rewrite HF, app_nil_r. reflexivity. }
  destruct (separateSchemaAndWriteStatements (s0 :: stmts))
    as [schemaStatements writeStatements].
  rewrite runSchemaStatements_events.
  set (w1 := appendEvents (map EvSchemaRun schemaStatements) w).
  destruct writeStatements as [|x xs];
    [apply sameStores_grown, sameStores_appendEvents|].
  pose proof (runWrites_same (x :: xs) [] 0%Z 0%Z (logEvent EvBegin w1)) as Hw.
  destruct (runWrites neo (x :: xs) [] 0%Z 0%Z (logEvent EvBegin w1))
    as [[[[n m] pending]|error] w3]; cbn [snd] in Hw |- *;
    destruct Hw as (_ & _ & _ & _ & G).
  - exists pending. rewrite HS. cbn. rewrite G. reflexivity.
  - exists []. rewrite HF. cbn. rewrite G, app_nil_r. reflexivity.
Qed.

Lemma ingestChunkCypher_grown chunkId w :
  grown w (snd (ingestChunkCypher neo chunkId w)).
Proof.
  unfold ingestChunkCypher.
  destruct (lookup chunkId (chunkResults w)) as [result|]; [|apply grown_refl].
  destruct (String.eqb (r_status result) "executed"); [apply grown_refl|].
  destruct (lookup chunkId (chunks w)); [|apply grown_refl].
  pose proof (validateCypher_same (generatedCypher result) w) as Hv.
  destruct (validateCypher neo (generatedCypher result) w) as [[reason|] w1];
    cbn [snd] in Hv |- *.
  - apply sameStores_grown. exact Hv.
  - apply (grown_trans _ w1); [apply sameStores_grown; exact Hv|].
    match goal with
    | |- grown _ (snd (executeCypher _ _ ?s ?f ?w3)) =>
        apply (grown_trans _ w3); [exists []; cbn; rewrite app_nil_r; reflexivity|];
        apply (executeCypher_grown _ s f w3); intros; reflexivity
    end.
Qed.

Lemma ingestFullDocumentCypher_grown w :
  grown w (snd (ingestFullDocumentCypher neo w)).
Proof.
  unfold ingestFullDocumentCypher.
  destruct (fullResult w) as [result|]; [|apply grown_refl].
  destruct (String.eqb (r_status result) "executed"); [apply grown_refl|].
  pose proof (validateCypher_same (generatedCypher result) w) as Hv.
  destruct (validateCypher neo (generatedCypher result) w) as [[reason|] w1];
    cbn [snd] in Hv |- *.
  - apply sameStores_grown. exact Hv.
  - apply (grown_trans _ w1); [apply sameStores_grown; exact Hv|].
    match goal with
    | |- grown _ (snd (executeCypher _ _ ?s ?f ?w3)) =>
        apply (grown_trans _ w3); [exists []; cbn; rewrite app_nil_r; reflexivity|];
        apply (executeCypher_grown _ s f w3); intros; reflexivity
    end.
Qed.

Lemma ingestChunkCypher_keeps_document chunkId w :
  document (snd (ingestChunkCypher neo chunkId w)) = document w.
Proof.
  unfold ingestChunkCypher.
  destruct (lookup chunkId (chunkResults w)) as [result|]; [|reflexivity].
  destruct (String.eqb (r_status result) "executed"); [reflexivity|].
  destruct (lookup chunkId (chunks w)); [|reflexivity].
  pose proof (validateCypher_same (generatedCypher result) w) as Hv.
  destruct (validateCypher neo (generatedCypher result) w) as [[reason|] w1];
    cbn [snd] in Hv |- *; destruct Hv as (D & _); [exact D|].
  rewrite (executeCypher_keeps document); try (intros; reflexivity).
  - exact D.
  - intros w0 w' (D' & _). exact D'.
Qed.

Lemma ingestFullDocumentCypher_keeps_chunks w :
  let w' := snd (ingestFullDocumentCypher neo w) in
  document w' = document w /\ chunks w' = chunks w
  /\ chunkResults w' = chunkResults w.
Proof.
  unfold ingestFullDocumentCypher.
  destruct (fullResult w) as [result|]; [|repeat split].
  destruct (String.eqb (r_status result) "executed"); [repeat split|].
  pose proof (validateCypher_same (generatedCypher result) w) as Hv.
  destruct (validateCypher neo (generatedCypher result) w) as [[reason|] w1];
    cbn [snd] in Hv |- *; destruct Hv as (D & _ & C & R & _);
    [repeat split; assumption|].
  cbv zeta.
  rewrite (executeCypher_keeps document), (executeCypher_keeps chunks),
    (executeCypher_keeps chunkResults); try (intros; reflexivity).
  - repeat split; assumption.
  - intros w0 w' (_ & _ & _ & R' & _). exact R'.
  - intros w0 w' (_ & _ & C' & _). exact C'.
  - intros w0 w' (D' & _). exact D'.
Qed.


Lemma retryLoop_world_keeps {W R : Type} (fn : W -> (R + JsError) * W)
  (P : W -> Prop) :
  (forall w, P w -> P (snd (fn w))) ->
  forall rounds maxRetries_ maxDelay_ multiplier shouldRetry_ attempt delay
         lastError w calls_ sleeps_,
    P w ->
    P (Retry.world (Retry.retryLoop fn rounds maxRetries_ maxDelay_ multiplier
                      shouldRetry_ attempt delay lastError w calls_ sleeps_)).
Proof.
  intros Hfn. induction rounds as [|rounds IH];
    intros maxRetries_ maxDelay_ multiplier shouldRetry_ attempt delay
      lastError w calls_ sleeps_ Hw; cbn [Retry.retryLoop].
  - exact Hw.
  - pose proof (Hfn w Hw) as H1.
    destruct (fn w) as [[res|e] w']; cbn [snd] in H1; [exact H1|].
    destruct (negb (shouldRetry_ e)); [exact H1|].
    destruct (attempt >=? maxRetries_)%Z; [exact H1|].
    apply IH. exact H1.
Qed.

Lemma retryWithBackoff_world_keeps {W R : Type} (fn : W -> (R + JsError) * W)
  (P : W -> Prop) options w :
  (forall w0, P w0 -> P (snd (fn w0))) -> P w ->
  P (Retry.world (Retry.retryWithBackoff fn options w)).
Proof.
  intros Hfn Hw. unfold Retry.retryWithBackoff.
  apply retryLoop_world_keeps; assumption.
Qed.

Lemma ingestChunks_grown : forall cs acc w,
  grown w (snd (ingestChunks neo cs acc w)).
Proof.
  induction cs as [|[chunkId chunk] rest IH]; intros acc w; cbn [ingestChunks].
  - apply grown_refl.
  - match goal with
    | |- context [Retry.retryWithBackoff ?f ?o w] =>
        assert (Hrun : grown w (Retry.world (Retry.retryWithBackoff f o w)));
        [apply (retryWithBackoff_world_keeps f (grown w) o w);
         [intros w0 H0; apply (grown_trans _ w0);
          [exact H0|apply ingestChunkCypher_grown]
         |apply grown_refl]
        |destruct (Retry.outcome (Retry.retryWithBackoff f o w)) as [[n m]|e];
         apply (grown_trans _ _ _ Hrun), IH]
    end.
Qed.

Lemma ingestChunks_counts : forall cs acc w,
  let r := ingestChunks neo cs acc w in
  (successCount (fst r) + errorCount (fst r)
   = successCount acc + errorCount acc + Z.of_nat (List.length cs))%Z
  /\ (successCount acc <= successCount (fst r))%Z
  /\ (errorCount acc <= errorCount (fst r))%Z
  /\ document (snd r) = document w.
Proof.
  induction cs as [|[chunkId chunk] rest IH]; intros acc w; cbn [ingestChunks].
  - cbn. repeat split; lia.
  - match goal with
    | |- context [Retry.retryWithBackoff ?f ?o w] =>
        assert (Hdoc : document (Retry.world (Retry.retryWithBackoff f o w))
                       = document w);
        [apply (retryWithBackoff_world_keeps f
                  (fun w0 => document w0 = document w) o w);
         [intros w0 H0; rewrite ingestChunkCypher_keeps_document; exact H0
         |reflexivity]
        |destruct (Retry.outcome (Retry.retryWithBackoff f o w)) as [[n m]|e]]
    end.
    + match goal with
      | |- context [ingestChunks neo rest ?a ?w1] =>
          destruct (IH a w1) as (A & B & C & D)
      end.
      cbn [successCount errorCount] in A, B, C.
      cbn zeta. rewrite D, Hdoc. cbn [List.length]. repeat split; lia.
    + match goal with
      | |- context [ingestChunks neo rest ?a ?w1] =>
          destruct (IH a w1) as (A & B & C & D)
      end.
      cbn [successCount errorCount] in A, B, C.
      cbn zeta. rewrite D, Hdoc. cbn [List.length]. repeat split; lia.
Qed.

(** X18.  In chunked mode [ingestAllChunks] counts every chunk once, as a
    success or as an error, and goes on after a chunk that fails; the
    document ends as completed when at least one chunk succeeded and as
    error otherwise, with the number of successes as its processed chunks. *)
Theorem ingestAllChunks_counts_every_chunk :
  forall w d,
    document w = Some d -> fullResult w = None -> chunks w <> [] ->
    exists summary w',
      ingestAllChunks neo w = (inl summary, w')
      /\ (successCount summary + errorCount summary
          = Z.of_nat (List.length (chunks w)))%Z
      /\ (0 <= successCount summary)%Z /\ (0 <= errorCount summary)%Z
      /\ document w'
         = Some (mkDocument
                   (if (successCount summary =? 0)%Z then "error"
                    else "completed")
                   (d_error d) (successCount summary)).
Proof.
  intros w d Hd Hf Hc. unfold ingestAllChunks. rewrite Hd.
  set (w1 := updateDocument (documentStatus "ingesting") w).
  assert (Hf1 : fullResult w1 = None) by exact Hf.
  assert (Hc1 : chunks w1 = chunks w) by reflexivity.
  rewrite Hf1, Hc1.
  destruct (chunks w) as [|c0 cs] eqn:Ec; [contradiction|].
  destruct (ingestChunks_counts (c0 :: cs) (mkSummary 0 0 0 0) w1)
    as (A & B & C & D).
  destruct (ingestChunks neo (c0 :: cs) (mkSummary 0 0 0 0) w1)
    as [summary w2].
  cbn [fst snd successCount errorCount] in A, B, C, D.
  exists summary. eexists. split; [reflexivity|].
  split; [lia|]. split; [lia|]. split; [lia|].
  unfold updateDocument. cbn [document setDocument]. rewrite D.
  subst w1. unfold updateDocument. cbn [document setDocument]. rewrite Hd.
  cbn [option_map documentFinished documentStatus d_error]. f_equal. f_equal.
  cbn [List.length] in A.
  destruct (errorCount summary =? 0)%Z eqn:E1;
    destruct (successCount summary =? 0)%Z eqn:E2;
    destruct (successCount summary >? 0)%Z eqn:E3; try reflexivity; lia.
Qed.


(** X20.  A full-document result takes priority: when one is stored,
    [ingestAllChunks] ingests it alone, counts one success or one error, and
    leaves the chunks and their results as they are. *)
Theorem ingestAllChunks_prefers_full_document :
  forall w d r,
    document w = Some d -> fullResult w = Some r ->
    exists summary w',
      ingestAllChunks neo w = (inl summary, w')
      /\ (successCount summary + errorCount summary = 1)%Z
      /\ chunks w' = chunks w /\ chunkResults w' = chunkResults w.
Proof.
  intros w d r Hd Hf. unfold ingestAllChunks. rewrite Hd.
  set (w1 := updateDocument (documentStatus "ingesting") w).
  assert (Hf1 : fullResult w1 = Some r) by exact Hf.
  rewrite Hf1.
  match goal with
  | |- context [Retry.retryWithBackoff ?f ?o w1] =>
      assert (Hrun : chunks (Retry.world (Retry.retryWithBackoff f o w1))
                     = chunks w
                     /\ chunkResults (Retry.world (Retry.retryWithBackoff f o w1))
                        = chunkResults w);
      [apply (retryWithBackoff_world_keeps f
                (fun w0 => chunks w0 = chunks w
                           /\ chunkResults w0 = chunkResults w) o w1);
       [intros w0 [H0 H0'];
        destruct (ingestFullDocumentCypher_keeps_chunks w0) as (_ & C & R);
        rewrite C, R; split; assumption
       |split; reflexivity]
      |destruct (Retry.outcome (Retry.retryWithBackoff f o w1)) as [[n m]|e]]
  end; destruct Hrun as [C R];
    eexists; eexists; (split; [reflexivity|]); cbn; repeat split; assumption.
Qed.

End Store.

Lemma ingestChunkCypher_commits_every_write_witness :
  exists n m w',
    ingestChunkCypher acceptAll 0 tradeWorld = (inl (n, m), w')
    /\ graph w' = ([] ++ [executedTradeEdge; onSecurityEdge])%list
    /\ events w'
       = ([]
          ++ map EvExplain (splitCypherStatements tradeProgram)
          ++ map EvSchemaRun [constraintOn "a" "Account" "accountId";
                              constraintOn "t" "Trade" "tradeId";
                              constraintOn "s" "Security" "securityId"]
          ++ [EvBegin] ++ map EvRun [executedTradeEdge; onSecurityEdge]
          ++ [EvCommit])%list
    /\ lookup 0 (chunkResults w')
       = Some (mkResult "executed" None tradeProgram n m)
    /\ lookup 0 (chunks w') = Some (mkChunkDoc "ingested" None).
Proof.
  apply (ingestChunkCypher_commits_every_write acceptAll 0 tradeWorld
           (mkResult "generated" None tradeProgram 0 0)
           (mkChunkDoc "cypher_generated" None)
           [constraintOn "a" "Account" "accountId";
            constraintOn "t" "Trade" "tradeId";
            constraintOn "s" "Security" "securityId"]
           [executedTradeEdge; onSecurityEdge]).
  - reflexivity.
  - reflexivity.
  - reflexivity.
  - intros s _. reflexivity.
  - vm_compute. reflexivity.
  - discriminate.
  - intros p1 s p2 _. eexists. reflexivity.
Defined.

Lemma ingestChunkCypher_again_is_noop_witness :
  let run := ingestChunkCypher acceptAll 0 tradeWorld in
  ingestChunkCypher acceptAll 0 (snd run) = (fst run, snd run).
Proof.
  apply (ingestChunkCypher_again_is_noop acceptAll 0 tradeWorld
           (mkResult "generated" None tradeProgram 0 0)
           (mkChunkDoc "cypher_generated" None)
           [constraintOn "a" "Account" "accountId";
            constraintOn "t" "Trade" "tradeId";
            constraintOn "s" "Security" "securityId"]
           [executedTradeEdge; onSecurityEdge]).
  - reflexivity.
  - reflexivity.
  - reflexivity.
  - intros s _. reflexivity.
  - vm_compute. reflexivity.
  - discriminate.
  - intros p1 s p2 _. eexists. reflexivity.
Defined.


Lemma ingestChunkCypher_rejected_program_changes_no_record_witness :
  let run := ingestChunkCypher (explainRejecting executedTradeEdge) 0 tradeWorld in
  fst run
  = inr (errorOf ("Cypher validation failed: "
                  ++ Js.tpl (message syntaxError)))
  /\ sameStores tradeWorld (snd run)
  /\ events (snd run)
     = (events tradeWorld
        ++ map EvExplain
             [partyConstraint;
              constraintOn "a" "Account" "accountId";
              constraintOn "t" "Trade" "tradeId";
              constraintOn "s" "Security" "securityId";
              tradeNodeUpserts; hasAccountEdge]
        ++ [EvExplain executedTradeEdge])%list.
Proof.
  apply (ingestChunkCypher_rejected_program_changes_no_record
           (explainRejecting executedTradeEdge) 0 tradeWorld
           (mkResult "generated" None tradeProgram 0 0)
           (mkChunkDoc "cypher_generated" None)
           [partyConstraint;
            constraintOn "a" "Account" "accountId";
            constraintOn "t" "Trade" "tradeId";
            constraintOn "s" "Security" "securityId";
            tradeNodeUpserts; hasAccountEdge]
           executedTradeEdge [onSecurityEdge] syntaxError).
  - reflexivity.
  - reflexivity.
  - reflexivity.
  - vm_compute. reflexivity.
  - intros s Hs. cbn [In] in Hs.
    repeat (destruct Hs as [<-|Hs]; [vm_compute; reflexivity|]). destruct Hs.
  - vm_compute. reflexivity.
Defined.

Lemma ingestChunkCypher_without_writes_leaves_records_pending_witness :
  let run := ingestChunkCypher acceptAll 0 constraintWorld in
  fst run = inl (0%Z, 0%Z)
  /\ graph (snd run) = graph constraintWorld
  /\ events (snd run)
     = (events constraintWorld
        ++ map EvExplain (splitCypherStatements constraintProgram)
        ++ map EvSchemaRun [constraintOn "a" "Account" "accountId"])%list
  /\ lookup 0 (chunkResults (snd run))
     = Some (mkResult "validated" None constraintProgram 0 0)
  /\ lookup 0 (chunks (snd run)) = Some (mkChunkDoc "ingesting" None).
Proof.
  apply (ingestChunkCypher_without_writes_leaves_records_pending
           acceptAll 0 constraintWorld
           (mkResult "generated" None constraintProgram 0 0)
           (mkChunkDoc "cypher_generated" None)
           [constraintOn "a" "Account" "accountId"]).
  - reflexivity.
  - reflexivity.
  - reflexivity.
  - intros s _. reflexivity.
  - vm_compute. discriminate.
  - vm_compute. reflexivity.
Defined.

Lemma ingestAllChunks_counts_every_chunk_witness :
  exists summary w',
    ingestAllChunks acceptAll chunkedWorld = (inl summary, w')
    /\ (successCount summary + errorCount summary
        = Z.of_nat (List.length (chunks chunkedWorld)))%Z
    /\ (0 <= successCount summary)%Z /\ (0 <= errorCount summary)%Z
    /\ document w'
       = Some (mkDocument
                 (if (successCount summary =? 0)%Z then "error"
                  else "completed")
                 None (successCount summary)).
Proof.
  apply (ingestAllChunks_counts_every_chunk acceptAll chunkedWorld
           (mkDocument "cypher_generated" None 0)).
  - reflexivity.
  - reflexivity.
  - discriminate.
Defined.

Lemma ingestAllChunks_prefers_full_document_witness :
  exists summary w',
    ingestAllChunks acceptAll tradeWorld = (inl summary, w')
    /\ (successCount summary + errorCount summary = 1)%Z
    /\ chunks w' = chunks tradeWorld
    /\ chunkResults w' = chunkResults tradeWorld.
Proof.
  apply (ingestAllChunks_prefers_full_document acceptAll tradeWorld
           (mkDocument "cypher_generated" None 0)
           (mkResult "generated" None tradeProgram 0 0)); reflexivity.
Defined.

End IngestRunFacts.

(** ** IngestionEngine: the constraints [createConstraints] creates *)

Module ConstraintFacts.
Import Js Exn Store FormatCypher IngestScenario ConstraintSetup ConstraintNotions
  IngestFacts.

Section Session.
Variable runFails : World -> string -> bool.

(** The statements run for a list of properties, whatever fails. *)
Lemma createOne_events label : forall idProps constraints w,
  snd (fold_left (createOne runFails label) idProps (constraints, w))
  = appendEvents (map (fun p => EvSchemaRun (constraintCypher label p)) idProps) w.
Proof.
  induction idProps as [|p rest IH]; intros constraints w.
  - cbn. rewrite appendEvents_nil. reflexivity.
  - cbn [fold_left map createOne].
    destruct (runFails w (constraintCypher label p)); rewrite IH;
      rewrite appendEvents_logEvent; reflexivity.
Qed.

Lemma createOne_subset label : forall idProps constraints w,
  incl (fst (fold_left (createOne runFails label) idProps (constraints, w)))
    (constraints ++ map (fun p => (label, p)) idProps)%list.
Proof.
  induction idProps as [|p rest IH]; intros constraints w.
  - cbn. rewrite app_nil_r. apply incl_refl.
  - cbn [fold_left map createOne].
    destruct (runFails w (constraintCypher label p)).
    + intros x Hx. apply IH in Hx. apply in_app_or in Hx.
      apply in_or_app. destruct Hx as [Hx|Hx]; [left; exact Hx|].
      right. right. exact Hx.
    + intros x Hx. apply IH in Hx. rewrite <- app_assoc in Hx. exact Hx.
Qed.

Lemma createForLabel_events entry constraints w :
  snd (createForLabel runFails (constraints, w) entry)
  = appendEvents
      (map (fun lp => EvSchemaRun (constraintCypher (fst lp) (snd lp)))
         (candidatesOf entry)) w.
Proof.
  destruct entry as [label props].
  unfold createForLabel, candidatesOf. cbn [fst snd].
  destruct (filter (fun p => trueIdPatternTest (toLowerCase label) (toLowerCase p))
              props) as [|x xs] eqn:E.
  - cbn [fold_left]. rewrite createOne_events, map_map. reflexivity.
  - rewrite createOne_events, map_map. reflexivity.
Qed.

Lemma createForLabel_subset entry constraints w :
  incl (fst (createForLabel runFails (constraints, w) entry))
    (constraints ++ candidatesOf entry)%list.
Proof.
  destruct entry as [label props].
  unfold createForLabel, candidatesOf. cbn [fst snd].
  destruct (filter (fun p => trueIdPatternTest (toLowerCase label) (toLowerCase p))
              props) as [|x xs] eqn:E.
  - cbn [fold_left]. apply createOne_subset.
  - apply createOne_subset.
Qed.

Lemma createForEntries_runs : forall entries constraints w,
  snd (fold_left (createForLabel runFails) entries (constraints, w))
  = appendEvents
      (map (fun lp => EvSchemaRun (constraintCypher (fst lp) (snd lp)))
         (flat_map candidatesOf entries)) w
  /\ incl (fst (fold_left (createForLabel runFails) entries (constraints, w)))
       (constraints ++ flat_map candidatesOf entries)%list.
Proof.
  induction entries as [|entry rest IH]; intros constraints w.
  - cbn. rewrite appendEvents_nil, app_nil_r. split; [reflexivity|apply incl_refl].
  - cbn [fold_left flat_map].
    pose proof (createForLabel_events entry constraints w) as He.
    pose proof (createForLabel_subset entry constraints w) as Hs.
    destruct (createForLabel runFails (constraints, w) entry) as [cs w1].
    cbn [fst snd] in He, Hs.
    destruct (IH cs w1) as [E Hi]. split.
    + rewrite E, He, map_app, appendEvents_appendEvents. reflexivity.
    + intros x Hx. apply Hi in Hx. apply in_app_or in Hx.
      rewrite app_assoc. apply in_or_app.
      destruct Hx as [Hx|Hx]; [left; apply Hs; exact Hx|right; exact Hx].
Qed.


End Session.

(** With a session that never throws every property is pushed. *)
Lemma createOne_all label : forall idProps constraints w,
  fst (fold_left (createOne neverFails label) idProps (constraints, w))
  = (constraints ++ map (fun p => (label, p)) idProps)%list.
Proof.
  induction idProps as [|p rest IH]; intros constraints w.
  - cbn. rewrite app_nil_r. reflexivity.
  - cbn [fold_left map createOne neverFails]. rewrite IH, <- app_assoc.
    reflexivity.
Qed.

Lemma createForLabel_all entry constraints w :
  fst (createForLabel neverFails (constraints, w) entry)
  = (constraints ++ candidatesOf entry)%list.
Proof.
  destruct entry as [label props].
  unfold createForLabel, candidatesOf. cbn [fst snd].
  destruct (filter (fun p => trueIdPatternTest (toLowerCase label) (toLowerCase p))
              props) as [|x xs] eqn:E.
  - cbn [fold_left]. apply createOne_all.
  - apply createOne_all.
Qed.

Lemma entryConstraints_lines entry :
  entryConstraints (fst entry, Some (snd entry))
  = map lineOf (candidatesOf entry).
Proof.
  destruct entry as [label props].
  unfold entryConstraints, candidatesOf. cbn [fst snd].
  destruct props as [|p0 props0]; [reflexivity|].
  set (props := p0 :: props0).
  destruct (filter (fun p => trueIdPatternTest (toLowerCase label) (toLowerCase p))
              props) as [|x xs];
    rewrite map_map; reflexivity.
Qed.

Lemma createForEntries_all : forall entries constraints w,
  fst (fold_left (createForLabel neverFails) entries (constraints, w))
  = (constraints ++ flat_map candidatesOf entries)%list.
Proof.
  induction entries as [|entry rest IH]; intros constraints w.
  - cbn. rewrite app_nil_r. reflexivity.
  - cbn [fold_left flat_map].
    pose proof (createForLabel_all entry constraints w) as Hc.
    destruct (createForLabel neverFails (constraints, w) entry) as [cs w1].
    cbn [fst] in Hc. subst cs. rewrite IH, <- app_assoc. reflexivity.
Qed.


End ConstraintFacts.

(** ** Schema extraction: what [validateSchema] returns *)

Module ValidationFacts.
Import Js Exn JsValue SchemaValidation SchemaNotions MapFacts.

Lemma removeAt_middle {A} (kept : list A) x rest :
  removeAt (List.length kept) (kept ++ x :: rest)%list = (kept ++ rest)%list.
Proof. induction kept as [|k kept IH]; cbn; [reflexivity|rewrite IH; reflexivity]. Qed.

Lemma nth_error_middle {A} (kept : list A) x rest :
  nth_error (kept ++ x :: rest)%list (List.length kept) = Some x.
Proof. induction kept as [|k kept IH]; cbn; [reflexivity|exact IH]. Qed.

Lemma nth_error_end {A} (kept : list A) :
  nth_error kept (List.length kept) = None.
Proof. apply nth_error_None. apply Nat.le_refl. Qed.

(** The loop keeps the complete relationships, in their order. *)
Lemma relationshipLoop_filters : forall rest kept fuel,
  (List.length rest < fuel)%nat ->
  Forall (fun rel => rel <> JNull) rest ->
  relationshipLoop fuel (List.length kept) (kept ++ rest)%list
  = Some (inl (kept ++ filter (fun rel => negb (relIncomplete rel)) rest)%list).
Proof.
  induction rest as [|rel rest IH]; intros kept fuel Hf Hnn.
  - destruct fuel as [|fuel]; [cbn in Hf; lia|]. cbn [relationshipLoop filter].
    rewrite app_nil_r, nth_error_end. reflexivity.
  - destruct fuel as [|fuel]; [cbn in Hf; lia|]. cbn [relationshipLoop filter].
    rewrite nth_error_middle.
    inversion Hnn as [|? ? Hrel Hrest]; subst.
    destruct (relIncomplete rel) eqn:E.
    + cbn [negb]. rewrite removeAt_middle.
      destruct rel; try contradiction; apply IH; cbn in Hf; try lia; assumption.
    + cbn [negb].
      replace (kept ++ rel :: rest)%list with ((kept ++ [rel]) ++ rest)%list
        by (rewrite <- app_assoc; reflexivity).
      replace (S (List.length kept)) with (List.length (kept ++ [rel])%list)
        by (rewrite length_app; cbn; lia).
      replace (kept ++ rel :: filter (fun r => negb (relIncomplete r)) rest)%list
        with ((kept ++ [rel])
              ++ filter (fun r => negb (relIncomplete r)) rest)%list
        by (rewrite <- app_assoc; reflexivity).
      destruct rel; try contradiction; apply IH; cbn in Hf; try lia; assumption.
Qed.

(** The loop throws at the first [null] it reaches. *)
Lemma relationshipLoop_null : forall before kept fuel after,
  (List.length before < fuel)%nat ->
  Forall (fun rel => rel <> JNull) before ->
  relationshipLoop fuel (List.length kept) (kept ++ before ++ JNull :: after)%list
  = Some (inr nullTypeError).
Proof.
  induction before as [|rel before IH]; intros kept fuel after Hf Hnn.
  - destruct fuel as [|fuel]; [cbn in Hf; lia|]. cbn [relationshipLoop app].
    rewrite nth_error_middle. reflexivity.
  - destruct fuel as [|fuel]; [cbn in Hf; lia|]. cbn [relationshipLoop app].
    rewrite nth_error_middle.
    inversion Hnn as [|? ? Hrel Hrest]; subst.
    destruct (relIncomplete rel) eqn:E.
    + rewrite removeAt_middle.
      destruct rel; try contradiction; apply IH; cbn in Hf; try lia; assumption.
    + replace (kept ++ rel :: before ++ JNull :: after)%list
        with ((kept ++ [rel]) ++ before ++ JNull :: after)%list
        by (rewrite <- app_assoc; reflexivity).
      replace (S (List.length kept)) with (List.length (kept ++ [rel])%list)
        by (rewrite length_app; cbn; lia).
      destruct rel; try contradiction; apply IH; cbn in Hf; try lia; assumption.
Qed.


Lemma objectLike_cases v :
  objectLike v = true ->
  (exists items named, v = JArr items named) \/ (exists fields, v = JObj fields).
Proof.
  unfold objectLike. destruct v; cbn [truthy typeofObject]; intros H;
    rewrite ?andb_false_r in H; try discriminate.
  - left. eexists. eexists. reflexivity.
  - right. eexists. reflexivity.
Qed.

Lemma getProp_setProp_same key x v :
  objectLike v = true -> getProp key (setProp key x v) = Some x.
Proof.
  intros H.
  destruct (objectLike_cases v H) as [(items & named & ->)|(fields & ->)];
    cbn [setProp getProp]; apply mapGet_mapSet_same.
Qed.

Lemma getProp_setProp_other key key' x v :
  key <> key' -> getProp key (setProp key' x v) = getProp key v.
Proof.
  intros H. destruct v; try reflexivity; cbn [setProp getProp];
    apply mapGet_mapSet_other; exact H.
Qed.

Lemma objectLike_setProp key x v : objectLike (setProp key x v) = objectLike v.
Proof. destruct v; reflexivity. Qed.

Lemma mapSet_same_value {V} k (v : V) : forall m,
  mapGet k m = Some v -> mapSet k v m = m.
Proof.
  induction m as [|[k' v'] rest IH]; intros H; [discriminate|].
  cbn [mapGet mapSet] in *. destruct (String.eqb k k').
  - injection H as ->. reflexivity.
  - rewrite IH by exact H. reflexivity.
Qed.

Lemma setProp_same_value key x v :
  getProp key v = Some x -> setProp key x v = v.
Proof.
  destruct v; try reflexivity; cbn [getProp setProp]; intros H;
    rewrite mapSet_same_value by exact H; reflexivity.
Qed.

Lemma arrayOrEmpty_array v : isArray (arrayOrEmpty v) = true.
Proof. unfold arrayOrEmpty. destruct (isArray v) eqn:E; [exact E|reflexivity]. Qed.

Lemma arrayOrEmpty_idempotent v : arrayOrEmpty (arrayOrEmpty v) = arrayOrEmpty v.
Proof. unfold arrayOrEmpty at 1. rewrite arrayOrEmpty_array. reflexivity. Qed.

Lemma mapEntries_arrays v :
  Forall (fun x => isArray x = true) (entryValues (mapEntries arrayOrEmpty v)).
Proof.
  destruct v; cbn [mapEntries entryValues]; try constructor.
  - apply Forall_app. split.
    + apply Forall_forall. intros x Hx. apply in_map_iff in Hx.
      destruct Hx as [y [<- _]]. apply arrayOrEmpty_array.
    + apply Forall_forall. intros x Hx. apply in_map_iff in Hx.
      destruct Hx as [[k y] [<- Hy]]. apply in_map_iff in Hy.
      destruct Hy as [[k0 y0] [E _]]. injection E as _ <-.
      apply arrayOrEmpty_array.
  - apply Forall_forall. intros x Hx. apply in_map_iff in Hx.
    destruct Hx as [[k y] [<- Hy]]. apply in_map_iff in Hy.
    destruct Hy as [[k0 y0] [E _]]. injection E as _ <-.
    apply arrayOrEmpty_array.
Qed.

Lemma mapEntries_idempotent v :
  mapEntries arrayOrEmpty (mapEntries arrayOrEmpty v) = mapEntries arrayOrEmpty v.
Proof.
  destruct v; cbn [mapEntries]; try reflexivity.
  - rewrite !map_map. f_equal; apply map_ext; intros a; cbn [fst snd];
      rewrite arrayOrEmpty_idempotent; reflexivity.
  - rewrite !map_map. f_equal; apply map_ext; intros a; cbn [fst snd];
      rewrite arrayOrEmpty_idempotent; reflexivity.
Qed.

Lemma mapEntries_objectLike v :
  objectLike v = true -> objectLike (mapEntries arrayOrEmpty v) = true.
Proof.
  intros H.
  destruct (objectLike_cases v H) as [(items & named & ->)|(fields & ->)];
    reflexivity.
Qed.

(** The nodes test of lines 135-141 never throws. *)
Lemma nodes_check schema :
  objectLike schema = true ->
  exists schema1,
    (if negb (truthyOpt (getProp "nodes" schema))
        || negb (typeofObjectOpt (getProp "nodes" schema))
     then if isArrayOpt (getProp "nodes" schema)
          then inr arrayNodesError
          else inl (setProp "nodes" (JObj []) schema)
     else inl schema) = inl schema1
    /\ objectLike schema1 = true
    /\ getProp "relationships" schema1 = getProp "relationships" schema
    /\ exists nodes, getProp "nodes" schema1 = Some nodes
                     /\ objectLike nodes = true.
Proof.
  intros Hobj.
  assert (Hset : exists schema1,
             inl (B := JsError) (setProp "nodes" (JObj []) schema) = inl schema1
             /\ objectLike schema1 = true
             /\ getProp "relationships" schema1 = getProp "relationships" schema
             /\ exists nodes, getProp "nodes" schema1 = Some nodes
                              /\ objectLike nodes = true).
  { eexists. split; [reflexivity|]. split;
      [rewrite objectLike_setProp; exact Hobj|]. split;
      [apply getProp_setProp_other; discriminate|].
    exists (JObj []). split; [apply getProp_setProp_same; exact Hobj|reflexivity]. }
  destruct (getProp "nodes" schema) as [nodes|] eqn:En; [|exact Hset].
  destruct (objectLike nodes) eqn:Eo.
  - assert (Ec : negb (truthyOpt (Some nodes))
                 || negb (typeofObjectOpt (Some nodes)) = false).
    { unfold objectLike in Eo. apply andb_true_iff in Eo. destruct Eo as [A B].
      cbn [truthyOpt typeofObjectOpt]. rewrite A, B. reflexivity. }
    rewrite Ec. exists schema. split; [reflexivity|]. split; [exact Hobj|].
    split; [reflexivity|]. exists nodes. split; [exact En|exact Eo].
  - assert (Ec : negb (truthyOpt (Some nodes))
                 || negb (typeofObjectOpt (Some nodes)) = true).
    { unfold objectLike in Eo. apply andb_false_iff in Eo.
      cbn [truthyOpt typeofObjectOpt]. destruct Eo as [-> | ->];
        [reflexivity|apply orb_true_r]. }
    rewrite Ec.
    assert (Ea : isArrayOpt (Some nodes) = false).
    { destruct nodes; try reflexivity. discriminate Eo. }
    rewrite Ea. exact Hset.
Qed.


Lemma guard_passes schema :
  objectLike schema = true ->
  negb (truthy schema) || negb (typeofObject schema) = false.
Proof.
  unfold objectLike. intros H. apply andb_true_iff in H. destruct H as [-> ->].
  reflexivity.
Qed.

(** The relationships array as the code reads it after line 146. *)
Lemma relationships_read schema :
  exists named,
    match getProp "relationships" schema with
    | Some (JArr items named) => (items, named)
    | _ => ([], [])
    end = (relationshipsOf schema, named).
Proof.
  unfold relationshipsOf.
  destruct (getProp "relationships" schema) as [[]|]; eexists; reflexivity.
Qed.

(** The value returned for a schema without [null] relationships. *)
Lemma validateSchema_returns schema :
  objectLike schema = true ->
  Forall (fun rel => rel <> JNull) (relationshipsOf schema) ->
  exists schema1 nodes named,
    objectLike schema1 = true /\ objectLike nodes = true
    /\ validateSchema schema
       = Some (inl (setProp "relationships"
                      (JArr (filter (fun rel => negb (relIncomplete rel))
                               (relationshipsOf schema)) named)
                      (setProp "nodes" (mapEntries arrayOrEmpty nodes) schema1))).
Proof.
  intros Hobj Hnn.
  destruct (nodes_check schema Hobj) as (schema1 & E1 & O1 & R1 & nodes & N1 & ON).
  destruct (relationships_read schema) as [named En].
  exists schema1, nodes, named. split; [exact O1|]. split; [exact ON|].
  unfold validateSchema. rewrite (guard_passes schema Hobj).
  cbv zeta. fold arrayNodesError. rewrite E1, R1, En, N1.
  pose proof (relationshipLoop_filters (relationshipsOf schema) []
                (S (List.length (relationshipsOf schema)))
                (Nat.lt_succ_diag_r _) Hnn) as HL.
  cbn [List.length app] in HL. rewrite HL. reflexivity.
Qed.

Lemma relationshipsOf_set items named v :
  objectLike v = true ->
  relationshipsOf (setProp "relationships" (JArr items named) v) = items.
Proof.
  intros H. unfold relationshipsOf. rewrite getProp_setProp_same by exact H.
  reflexivity.
Qed.

(** X23.  On an object, or an array, without [null] among its
    relationships, [validateSchema] returns a cleaned schema: its
    relationships are an array that holds, in their order, exactly the
    relationships that have a type, a source and a target, and every value of
    its node map is an array. *)
Theorem validateSchema_returns_cleaned_schema :
  forall schema,
    objectLike schema = true ->
    Forall (fun rel => rel <> JNull) (relationshipsOf schema) ->
    exists cleaned,
      validateSchema schema = Some (inl cleaned)
      /\ isArrayOpt (getProp "relationships" cleaned) = true
      /\ relationshipsOf cleaned
         = filter (fun rel => negb (relIncomplete rel)) (relationshipsOf schema)
      /\ typeofObjectOpt (getProp "nodes" cleaned) = true
      /\ Forall (fun props => isArray props = true) (nodeValues cleaned).
Proof.
  intros schema Hobj Hnn.
  destruct (validateSchema_returns schema Hobj Hnn)
    as (schema1 & nodes & named & O1 & ON & E).
  eexists. split; [exact E|].
  assert (O2 : objectLike (setProp "nodes" (mapEntries arrayOrEmpty nodes) schema1)
               = true) by (rewrite objectLike_setProp; exact O1).
  split; [rewrite getProp_setProp_same by exact O2; reflexivity|].
  split; [apply relationshipsOf_set; exact O2|].
  unfold nodeValues.
  rewrite getProp_setProp_other by discriminate.
  rewrite getProp_setProp_same by exact O1.
  split; [|apply mapEntries_arrays].
  pose proof (mapEntries_objectLike nodes ON) as H. unfold objectLike in H.
  apply andb_true_iff in H. apply H.
Qed.


Lemma validateSchema_not_object schema :
  objectLike schema = false -> validateSchema schema = Some (inr notObjectError).
Proof.
  intros H. unfold validateSchema.
  assert (E : negb (truthy schema) || negb (typeofObject schema) = true).
  { unfold objectLike in H. apply andb_false_iff in H.
    destruct H as [-> | ->]; [reflexivity|apply orb_true_r]. }
  rewrite E. reflexivity.
Qed.

(** A list holds no [null], or has a first one. *)
Lemma null_split : forall l : list Json,
  Forall (fun rel => rel <> JNull) l
  \/ exists before after,
       l = (before ++ JNull :: after)%list
       /\ Forall (fun rel => rel <> JNull) before.
Proof.
  induction l as [|x l IH]; [left; constructor|].
  destruct x;
    try (destruct IH as [IH|(before & after & -> & Hb)];
         [left; constructor; [discriminate|exact IH]
         |right; eexists (_ :: before), after; split;
          [reflexivity|constructor; [discriminate|exact Hb]]]).
  right. exists [], l. split; [reflexivity|constructor].
Qed.

Lemma validateSchema_throws_at_null schema before after :
  objectLike schema = true ->
  relationshipsOf schema = (before ++ JNull :: after)%list ->
  Forall (fun rel => rel <> JNull) before ->
  validateSchema schema = Some (inr nullTypeError).
Proof.
  intros Hobj Hrel Hb.
  destruct (nodes_check schema Hobj) as (schema1 & E1 & O1 & R1 & nodes & N1 & ON).
  destruct (relationships_read schema) as [named En].
  unfold validateSchema. rewrite (guard_passes schema Hobj).
  cbv zeta. fold arrayNodesError. rewrite E1, R1, En, N1, Hrel.
  pose proof (relationshipLoop_null before []
                (S (List.length (before ++ JNull :: after)%list)) after) as HL.
  cbn [List.length app] in HL. rewrite HL; [reflexivity| |exact Hb].
  rewrite length_app. cbn. lia.
Qed.

(** X24.  A [null] among the relationships is not removed like the other
    incomplete relationships: reading its type throws a TypeError out of
    [validateSchema]. *)
Theorem validateSchema_null_relationship_throws :
  forall schema,
    objectLike schema = true ->
    In JNull (relationshipsOf schema) ->
    validateSchema schema = Some (inr nullTypeError).
Proof.
  intros schema Hobj Hin.
  destruct (null_split (relationshipsOf schema))
    as [Hnn|(before & after & E & Hb)].
  - exfalso. apply (proj1 (Forall_forall _ _) Hnn JNull Hin). reflexivity.
  - apply (validateSchema_throws_at_null schema before after Hobj E Hb).
Qed.

(** What [validateSchema] does on any value. *)
Lemma validateSchema_outcomes schema :
  validateSchema schema = Some (inr notObjectError)
  \/ validateSchema schema = Some (inr nullTypeError)
  \/ exists cleaned, validateSchema schema = Some (inl cleaned).
Proof.
  destruct (objectLike schema) eqn:Hobj.
  - destruct (null_split (relationshipsOf schema))
      as [Hnn|(before & after & E & Hb)].
    + right. right.
      destruct (validateSchema_returns schema Hobj Hnn)
        as (schema1 & nodes & named & _ & _ & E).
      eexists. exact E.
    + right. left.
      apply (validateSchema_throws_at_null schema before after Hobj E Hb).
  - left. apply validateSchema_not_object. exact Hobj.
Qed.

(** X25.  [validateSchema] always ends, and never with the error for a
    node map that is an array: the test that guards that error holds only
    for values that are not objects, and an array is one. *)
Theorem validateSchema_never_rejects_array_nodes :
  forall schema,
    validateSchema schema <> None
    /\ validateSchema schema <> Some (inr arrayNodesError).
Proof.
  intros schema.
  destruct (validateSchema_outcomes schema) as [E|[E|[cleaned E]]];
    rewrite E; split; try discriminate.
Qed.

Lemma mapEntries_fixed v :
  Forall (fun x => isArray x = true) (entryValues v) ->
  mapEntries arrayOrEmpty v = v.
Proof.
  assert (Hfields : forall fields : list (string * Json),
             Forall (fun x => isArray x = true) (map snd fields) ->
             map (fun kx => (fst kx, arrayOrEmpty (snd kx))) fields = fields).
  { induction fields as [|[k x] fields IH]; intros H; [reflexivity|].
    cbn [map fst snd] in *. inversion H as [|? ? Hx Hrest]; subst.
    unfold arrayOrEmpty at 1. rewrite Hx, IH by exact Hrest. reflexivity. }
  assert (Hitems : forall items : list Json,
             Forall (fun x => isArray x = true) items ->
             map arrayOrEmpty items = items).
  { induction items as [|x items IH]; intros H; [reflexivity|].
    cbn [map]. inversion H as [|? ? Hx Hrest]; subst.
    unfold arrayOrEmpty at 1. rewrite Hx, IH by exact Hrest. reflexivity. }
  destruct v; cbn [entryValues mapEntries]; intros H; try reflexivity.
  - apply Forall_app in H. destruct H as [Hi Hn].
    rewrite Hitems, Hfields by assumption. reflexivity.
  - rewrite Hfields by exact H. reflexivity.
Qed.

Lemma filter_all {A} (f : A -> bool) : forall l,
  Forall (fun x => f x = true) l -> filter f l = l.
Proof.
  induction l as [|x l IH]; intros H; [reflexivity|].
  inversion H as [|? ? Hx Hrest]; subst. cbn [filter].
  rewrite Hx, IH by exact Hrest. reflexivity.
Qed.

(** A cleaned schema is returned as it is. *)
Lemma validateSchema_fixed schema nodes items named :
  objectLike schema = true ->
  getProp "nodes" schema = Some nodes -> objectLike nodes = true ->
  Forall (fun x => isArray x = true) (entryValues nodes) ->
  getProp "relationships" schema = Some (JArr items named) ->
  Forall (fun rel => rel <> JNull) items ->
  Forall (fun rel => negb (relIncomplete rel) = true) items ->
  validateSchema schema = Some (inl schema).
Proof.
  intros Hobj Hn On Hv Hr Hnn Hok.
  unfold validateSchema. rewrite (guard_passes schema Hobj). cbv zeta.
  rewrite Hn.
  assert (Ec : negb (truthyOpt (Some nodes))
               || negb (typeofObjectOpt (Some nodes)) = false).
  { unfold objectLike in On. apply andb_true_iff in On. destruct On as [A B].
    cbn [truthyOpt typeofObjectOpt]. rewrite A, B. reflexivity. }
  rewrite Ec, Hr, Hn.
  pose proof (relationshipLoop_filters items [] (S (List.length items))
                (Nat.lt_succ_diag_r _) Hnn) as HL.
  cbn [List.length app] in HL. rewrite HL.
  rewrite (filter_all _ items Hok), (mapEntries_fixed nodes Hv).
  rewrite (setProp_same_value "nodes" nodes schema Hn).
  rewrite (setProp_same_value "relationships" _ schema Hr). reflexivity.
Qed.

(** X26.  [validateSchema] is idempotent: a schema it has returned is
    returned unchanged when validated again. *)
Theorem validateSchema_idempotent :
  forall schema cleaned,
    validateSchema schema = Some (inl cleaned) ->
    validateSchema cleaned = Some (inl cleaned).
Proof.
  intros schema cleaned H.
  destruct (objectLike schema) eqn:Hobj;
    [|rewrite (validateSchema_not_object schema Hobj) in H; discriminate].
  destruct (null_split (relationshipsOf schema))
    as [Hnn|(before & after & E & Hb)];
    [|rewrite (validateSchema_throws_at_null schema before after Hobj E Hb) in H;
      discriminate].
  destruct (validateSchema_returns schema Hobj Hnn)
    as (schema1 & nodes & named & O1 & ON & E).
  rewrite E in H. injection H as <-.
  assert (O2 : objectLike (setProp "nodes" (mapEntries arrayOrEmpty nodes) schema1)
               = true) by (rewrite objectLike_setProp; exact O1).
  apply (validateSchema_fixed _ (mapEntries arrayOrEmpty nodes)
           (filter (fun rel => negb (relIncomplete rel)) (relationshipsOf schema))
           named).
  - rewrite objectLike_setProp. exact O2.
  - rewrite getProp_setProp_other by discriminate.
    apply getProp_setProp_same. exact O1.
  - apply mapEntries_objectLike. exact ON.
  - apply mapEntries_arrays.
  - apply getProp_setProp_same. exact O2.
  - apply Forall_forall. intros rel Hrel. apply filter_In in Hrel.
    apply (proj1 (Forall_forall _ _) Hnn rel). apply Hrel.
  - apply Forall_forall. intros rel Hrel. apply filter_In in Hrel. apply Hrel.
Qed.

Lemma validateSchema_returns_cleaned_schema_witness :
  exists cleaned,
    validateSchema looseSchema = Some (inl cleaned)
    /\ isArrayOpt (getProp "relationships" cleaned) = true
    /\ relationshipsOf cleaned
       = filter (fun rel => negb (relIncomplete rel)) (relationshipsOf looseSchema)
    /\ typeofObjectOpt (getProp "nodes" cleaned) = true
    /\ Forall (fun props => isArray props = true) (nodeValues cleaned).
Proof.
  apply (validateSchema_returns_cleaned_schema looseSchema).
  - reflexivity.
  - cbn. repeat constructor; discriminate.
Defined.

Lemma validateSchema_null_relationship_throws_witness :
  validateSchema schemaWithNull = Some (inr nullTypeError).
Proof.
  apply (validateSchema_null_relationship_throws schemaWithNull).
  - reflexivity.
  - cbn. right. left. reflexivity.
Defined.

Lemma validateSchema_idempotent_witness :
  validateSchema cleanedLooseSchema = Some (inl cleanedLooseSchema).
Proof.
  apply (validateSchema_idempotent looseSchema cleanedLooseSchema).
  vm_compute. reflexivity.
Defined.

End ValidationFacts.

(** ** Document types: what the detector reads and what the prompt shows *)

Module DocumentTypeFacts.
Import Js DocumentType DocumentNotions.

Lemma toLowerCase_app a b :
  toLowerCase (a ++ b) = toLowerCase a ++ toLowerCase b.
Proof.
  unfold toLowerCase. induction a as [|c a IH]; [reflexivity|].
  cbn [append mapChars]. rewrite IH. reflexivity.
Qed.

Lemma toLowerCase_length a : String.length (toLowerCase a) = String.length a.
Proof.
  unfold toLowerCase. induction a as [|c a IH]; [reflexivity|].
  cbn [mapChars String.length]. rewrite IH. reflexivity.
Qed.

Lemma take_app_long : forall n a b,
  (n <= String.length a)%nat -> take n (a ++ b) = take n a.
Proof.
  induction n as [|n IH]; intros a b H.
  - destruct a; destruct b; reflexivity.
  - destruct a as [|c a]; [cbn in H; lia|].
    cbn [append take]. rewrite IH by (cbn in H; lia). reflexivity.
Qed.

(** X27.  [detectDocumentType] reads the first 5000 characters of the
    text only: what follows them does not change the type. *)
Theorem detectDocumentType_reads_sample_only :
  forall filename text rest,
    (sampleLength <= String.length text)%nat ->
    detectDocumentType filename (text ++ rest)
    = detectDocumentType filename text.
Proof.
  intros filename text rest H. unfold detectDocumentType.
  rewrite toLowerCase_app.
  rewrite take_app_long by (rewrite toLowerCase_length; exact H).
  reflexivity.
Qed.

Lemma detectDocumentType_reads_sample_only_witness :
  detectDocumentType "notes.txt" (paddedText ++ "invoice")
  = detectDocumentType "notes.txt" paddedText.
Proof.
  apply (detectDocumentType_reads_sample_only "notes.txt" paddedText "invoice").
  apply Nat.leb_le. vm_compute. reflexivity.
Defined.

Lemma detectDocumentType_known filename text :
  In (detectDocumentType filename text) documentTypes.
Proof.
  unfold detectDocumentType, documentTypes.
  repeat match goal with
         | |- In (if ?c then _ else _) _ => destruct c
         end; cbn [In]; tauto.
Qed.

(** X28.  The schema prompt never shows the hints of the document type:
    every prompt set holds its hint under the key [schemaHint], and line 117
    of [buildSchemaPrompt] reads the key [schemaHints], which no prompt set
    has; so for every document the detected type has a hint and the section
    that should show it is empty. *)
Theorem schema_prompt_never_shows_type_hints :
  (forall docType, typeHintsSection (getDocumentTypePrompts docType) = EmptyString)
  /\ (forall filename text,
        exists hint,
          mapGet "schemaHint"
            (getDocumentTypePrompts (detectDocumentType filename text))
          = Some hint
          /\ hint <> EmptyString).
Proof.
  split.
  - intros docType. unfold getDocumentTypePrompts, prompts. cbn [mapGet].
    repeat match goal with
           | |- context [String.eqb docType ?k] =>
               destruct (String.eqb docType k); [reflexivity|]
           end.
    destruct (setHas docType inheritedKeys); reflexivity.
  - intros filename text.
    pose proof (detectDocumentType_known filename text) as H.
    unfold documentTypes in H. cbn [In] in H.
    destruct H as [<-|[<-|[<-|[<-|[<-|[]]]]]];
      eexists; (split; [reflexivity|discriminate]).
Qed.

End DocumentTypeFacts.

(** ** Logger: what [sanitizeLog] redacts *)

Module LoggerFacts.
Import Js StringAux JsValue Logger LoggerNotions MapFacts ReadFacts.

Lemma lowerChar_not_K c : Ascii.eqb "K" (lowerChar c) = false.
Proof. destruct c as [[] [] [] [] [] [] [] []]; reflexivity. Qed.

Lemma toLowerCase_no_K : forall s, mem "K" (toLowerCase s) = false.
Proof.
  induction s as [|c t IH]; [reflexivity|].
  unfold toLowerCase in *. cbn [mapChars mem].
  rewrite lowerChar_not_K. exact IH.
Qed.

(** The second word of the list holds an upper-case letter, and a key in
    lower case holds none. *)
Lemma apiKey_never_matches key : includes "apiKey" (toLowerCase key) = false.
Proof.
  apply (includes_needs_char "K"); [reflexivity|apply toLowerCase_no_K].
Qed.

Lemma isSensitive_namesSecret key : isSensitive key = namesSecret key.
Proof.
  unfold isSensitive, namesSecret, sensitive. cbn [existsb].
  rewrite apiKey_never_matches. rewrite orb_false_r.
  cbn [orb]. rewrite orb_assoc. reflexivity.
Qed.

Lemma mapSet_skip {V} k (v : V) : forall pre rest,
  ~ In k (map fst pre) -> mapSet k v (pre ++ rest)%list = (pre ++ mapSet k v rest)%list.
Proof.
  induction pre as [|[k' v'] pre IH]; intros rest H; [reflexivity|].
  cbn [app mapSet map fst In] in *.
  destruct (String.eqb_spec k k') as [->|Hne]; [exfalso; apply H; left; reflexivity|].
  rewrite IH; [reflexivity|]. intros Hin. apply H. right. exact Hin.
Qed.

Lemma mapSet_head {V} k (v x : V) rest :
  mapSet k v ((k, x) :: rest) = (k, v) :: rest.
Proof. cbn [mapSet]. rewrite String.eqb_refl. reflexivity. Qed.

Lemma map_fst_hidden l : map fst (map hidden l) = map fst l.
Proof.
  rewrite map_map. apply map_ext. intros [k v]. unfold hidden. cbn [fst].
  destruct (namesSecret k); reflexivity.
Qed.

(** The loop of lines 33-37 from any key on. *)
Lemma sanitize_loop : forall todo done,
  NoDup (map fst (done ++ todo)%list) ->
  fold_left
    (fun sanitized key =>
       if isSensitive key then mapSet key redacted sanitized else sanitized)
    (map fst todo) (map hidden done ++ todo)%list
  = map hidden (done ++ todo)%list.
Proof.
  induction todo as [|[k v] todo IH]; intros done Hnd.
  - cbn [map fold_left]. rewrite !app_nil_r. reflexivity.
  - cbn [map fold_left fst].
    assert (Hk : ~ In k (map fst (map hidden done))).
    { rewrite map_fst_hidden. rewrite map_app in Hnd. cbn [map fst] in Hnd.
      apply NoDup_remove_2 in Hnd. intros Hin. apply Hnd.
      apply in_or_app. left. exact Hin. }
    assert (Estep : (if isSensitive k
                     then mapSet k redacted (map hidden done ++ (k, v) :: todo)%list
                     else (map hidden done ++ (k, v) :: todo)%list)
                    = (map hidden (done ++ [(k, v)]) ++ todo)%list).
    { rewrite map_app, <- app_assoc. cbn [map app].
      change (hidden (k, v))
        with (if namesSecret k then (k, redacted) else (k, v)).
      rewrite <- isSensitive_namesSecret.
      destruct (isSensitive k); [|reflexivity].
      rewrite mapSet_skip by exact Hk. rewrite mapSet_head. reflexivity. }
    rewrite Estep. rewrite IH.
    + rewrite <- app_assoc. reflexivity.
    + rewrite <- app_assoc. exact Hnd.
Qed.

(** X29.  [sanitizeLog] keeps every key in its place and replaces the
    value exactly where the key, in lower case, holds password, token or
    secret.  The word apiKey of its list matches no key, since it is compared
    with keys in lower case: a field named apiKey is logged as it is. *)
Theorem sanitizeLog_redacts_by_key :
  forall obj,
    NoDup (map fst obj) ->
    sanitizeLog obj = map hidden obj
    /\ (forall v, sanitizeLog [("apiKey", v)] = [("apiKey", v)]).
Proof.
  intros obj Hnd. split.
  - unfold sanitizeLog. apply (sanitize_loop obj [] Hnd).
  - intros v. unfold sanitizeLog. cbn [map fst fold_left].
    rewrite isSensitive_namesSecret. reflexivity.
Qed.

Lemma sanitizeLog_redacts_by_key_witness :
  sanitizeLog llmOptions = map hidden llmOptions
  /\ (forall v, sanitizeLog [("apiKey", v)] = [("apiKey", v)]).
Proof.
  apply (sanitizeLog_redacts_by_key llmOptions).
  repeat constructor; cbn; intuition discriminate.
Defined.

Lemma hidden_idempotent kv : hidden (hidden kv) = hidden kv.
Proof.
  destruct kv as [k v]. unfold hidden. cbn [fst].
  destruct (namesSecret k) eqn:E; cbn [fst]; rewrite E; reflexivity.
Qed.

(** X30.  [sanitizeLog] is idempotent and keeps the keys: sanitizing a
    sanitized object changes nothing. *)
Theorem sanitizeLog_idempotent :
  forall obj,
    NoDup (map fst obj) ->
    map fst (sanitizeLog obj) = map fst obj
    /\ sanitizeLog (sanitizeLog obj) = sanitizeLog obj.
Proof.
  intros obj Hnd.
  assert (E : sanitizeLog obj = map hidden obj)
    by (unfold sanitizeLog; apply (sanitize_loop obj [] Hnd)).
  rewrite E. split; [apply map_fst_hidden|].
  assert (E2 : sanitizeLog (map hidden obj) = map hidden (map hidden obj)).
  { unfold sanitizeLog. apply (sanitize_loop (map hidden obj) []).
    cbn [app]. rewrite map_fst_hidden. exact Hnd. }
  rewrite E2, map_map. apply map_ext. intros kv. apply hidden_idempotent.
Qed.

Lemma sanitizeLog_idempotent_witness :
  map fst (sanitizeLog llmOptions) = map fst llmOptions
  /\ sanitizeLog (sanitizeLog llmOptions) = sanitizeLog llmOptions.
Proof.
  apply (sanitizeLog_idempotent llmOptions).
  repeat constructor; cbn; intuition discriminate.
Defined.

End LoggerFacts.
